(** * Slime: bytecode container, code generator, stack machine and value model

    A shallow embedding of the Slime toolchain (bytecode.h, bytecode.cpp,
    value.h, gc_value.h and the lexer, parser, interpreter, generator and
    virtual machine of simple_interpreter.cpp), with the properties of
    its specification stated and settled against it.

    Conventions.
    - A C++ [uint8_t] of the instruction stream is a [Byte.byte]; wider
      unsigned integers are [Z] with the wrap-around of each conversion
      written out ([to_u16], [to_u32]).
    - [std::string] is [string]; [std::vector<T>] is [list T] in index
      order (so [push_back] appends at the end).
    - [std::map<std::string, T>] is a [gmap string T].
    - What the C++ standard library supplies (IEEE doubles, [std::stod],
      [std::to_string], stream formatting, standard input, the clock) is
      the interface [Host]; [Binary64] implements it for an x86-64 host.
    - A C++ call either returns, throws, or has no defined behaviour:
      [Outcome]. *)

From Stdlib Require Import ZArith Lia DecimalString.
From Stdlib.Strings Require Import String Ascii Byte.
From Stdlib.Floats Require Import SpecFloat.
From stdpp Require Import gmap strings list fin_maps sorting.

Local Open Scope Z_scope.

(** ** Outcomes of a C++ call *)

Inductive Outcome (A : Type) : Type :=
| Ok (a : A)
| Throw (what : string)
| Undefined.
Arguments Ok {A} a.
Arguments Throw {A} what.
Arguments Undefined {A}.

Global Instance outcome_ret : MRet Outcome := fun A a => Ok a.
Global Instance outcome_bind : MBind Outcome := fun A B k m =>
  match m with
  | Ok a => k a
  | Throw w => Throw w
  | Undefined => Undefined
  end.

(** ** Fixed-width integers and bytes *)

Definition to_u8 (z : Z) : Z := z mod 256.
Definition to_u16 (z : Z) : Z := z mod 65536.
Definition to_u32 (z : Z) : Z := z mod 4294967296.

Definition byteZ (b : byte) : Z := Z.of_N (Byte.to_N b).

Definition Zbyte (z : Z) : byte :=
  match Byte.of_N (Z.to_N (to_u8 z)) with
  | Some b => b
  | None => x00
  end.

(** [vector::size()] and [string::size()] as unsigned integers. *)
Definition size {A : Type} (l : list A) : Z := Z.of_nat (List.length l).
Definition ssize (s : string) : Z := Z.of_nat (String.length s).

(** ** The host: what the C++ standard library and the hardware supply *)

Inductive endianness := LittleEndian | BigEndian.

Class Host := {
  (** IEEE-754 [double] and its operators. *)
  double : Type;
  d_zero : double;                         (* 0.0 *)
  d_one : double;                          (* 1.0 *)
  d_of_size : nat -> double;               (* static_cast<double>(size_t) *)
  d_add : double -> double -> double;
  d_sub : double -> double -> double;
  d_mul : double -> double -> double;
  d_div : double -> double -> double;
  d_fmod : double -> double -> double;     (* fmod *)
  d_eqb : double -> double -> bool;        (* == *)
  d_ltb : double -> double -> bool;        (* < *)
  d_isnan : double -> bool;
  (** [std::stod]: [None] when it throws ([invalid_argument] or
      [out_of_range], both with [what() = "stod"]). *)
  stod : string -> option double;
  to_string : double -> string;            (* std::to_string(double) *)
  show_double : double -> string;          (* std::ostream << double *)
  (** The object representation of a [double] and the byte order of
      multi-byte integers in memory. *)
  d_bytes : double -> list byte;
  d_of_bytes : list byte -> double;
  host_endian : endianness;
  (** Standard input and the clock. *)
  world : Type;
  read_word : world -> string * world;     (* std::cin >> s *)
  read_line : world -> string * world;     (* std::getline(std::cin, s) *)
  now_ms : world -> Z * world              (* high_resolution_clock, in ms *)
}.

(** What the models below rely on: a [double] occupies eight bytes and is
    recovered from them, and [<] orders the numbers that are not NaN, with
    [==] as the induced equivalence. *)
Class HostLaws (H : Host) : Prop := {
  d_bytes_length : forall d, List.length (d_bytes d) = 8%nat;
  d_of_bytes_bytes : forall d, d_of_bytes (d_bytes d) = d;
  d_ltb_irrefl : forall a, d_ltb a a = false;
  d_ltb_trans : forall a b c, d_ltb a b = true -> d_ltb b c = true -> d_ltb a c = true;
  d_ltb_nan_l : forall a b, d_isnan a = true -> d_ltb a b = false;
  d_ltb_nan_r : forall a b, d_isnan b = true -> d_ltb a b = false;
  d_eqb_ltb : forall a b, d_isnan a = false -> d_isnan b = false ->
    d_eqb a b = negb (d_ltb a b) && negb (d_ltb b a);
  d_geb_trans : forall a b c, d_isnan a = false -> d_isnan b = false -> d_isnan c = false ->
    d_ltb a b = false -> d_ltb b c = false -> d_ltb a c = false
}.

(** ** bytecode.h: opcodes and the container *)

Definition OP_NOP := 0x00.
Definition OP_PUSH_NUM := 0x01.
Definition OP_PUSH_STR := 0x02.
Definition OP_PUSH_CONST := 0x03.
Definition OP_POP := 0x04.
Definition OP_ADD := 0x05.
Definition OP_SUB := 0x06.
Definition OP_MUL := 0x07.
Definition OP_DIV := 0x08.
Definition OP_MOD := 0x09.
Definition OP_CALL := 0x0A.
Definition OP_JMP := 0x0B.
Definition OP_JMP_IF_FALSE := 0x0C.
Definition OP_JMP_IF_TRUE := 0x0D.
Definition OP_LOAD := 0x0E.
Definition OP_STORE := 0x0F.
Definition OP_RET := 0x10.
Definition OP_HALT := 0x11.
Definition OP_COMPARE_EQ := 0x12.
Definition OP_COMPARE_NE := 0x13.
Definition OP_COMPARE_LT := 0x14.
Definition OP_COMPARE_LE := 0x15.
Definition OP_COMPARE_GT := 0x16.
Definition OP_COMPARE_GE := 0x17.
Definition OP_NOT := 0x18.
Definition OP_AND := 0x19.
Definition OP_OR := 0x1A.
Definition OP_LOOP := 0x1B.
Definition OP_END_LOOP := 0x1C.
Definition OP_IF := 0x1D.
Definition OP_ELSE := 0x1E.
Definition OP_END_IF := 0x1F.
Definition OP_BREAK := 0x20.
Definition OP_CONTINUE := 0x21.

(** The container, over the type of its numbers: [Bytecode] is the
    container of the host's [double]s. *)
Record Bytecode_ (num : Type) := mkBytecode {
  code : list byte;
  strings : list string;
  numbers : list num;
  constants : list string;
  functions : list string
}.
Arguments mkBytecode {num} code strings numbers constants functions.
Arguments code {num} b.
Arguments strings {num} b.
Arguments numbers {num} b.
Arguments constants {num} b.
Arguments functions {num} b.
Abbreviation Bytecode := (Bytecode_ double).

Section Container.
Context {H : Host}.

Definition emptyBytecode : Bytecode := mkBytecode [] [] [] [] [].

Definition set_code (c : list byte) (b : Bytecode) : Bytecode :=
  mkBytecode c (strings b) (numbers b) (constants b) (functions b).
Definition set_strings (l : list string) (b : Bytecode) : Bytecode :=
  mkBytecode (code b) l (numbers b) (constants b) (functions b).
Definition set_numbers (l : list double) (b : Bytecode) : Bytecode :=
  mkBytecode (code b) (strings b) l (constants b) (functions b).
Definition set_constants (l : list string) (b : Bytecode) : Bytecode :=
  mkBytecode (code b) (strings b) (numbers b) l (functions b).
Definition set_functions (l : list string) (b : Bytecode) : Bytecode :=
  mkBytecode (code b) (strings b) (numbers b) (constants b) l.

(** *** BytecodeWriter *)

Definition writeOpCode (op : Z) (b : Bytecode) : Bytecode :=
  set_code (code b ++ [Zbyte op]) b.

Definition writeByte (value : Z) (b : Bytecode) : Bytecode :=
  set_code (code b ++ [Zbyte value]) b.

Definition writeShort (value : Z) (b : Bytecode) : Bytecode :=
  set_code (code b ++ [Zbyte (Z.land (Z.shiftr value 8) 0xFF);
                       Zbyte (Z.land value 0xFF)]) b.

Definition writeInt (value : Z) (b : Bytecode) : Bytecode :=
  set_code (code b ++ [Zbyte (Z.land (Z.shiftr value 24) 0xFF);
                       Zbyte (Z.land (Z.shiftr value 16) 0xFF);
                       Zbyte (Z.land (Z.shiftr value 8) 0xFF);
                       Zbyte (Z.land value 0xFF)]) b.

(** Each pool writer appends and returns [size() - 1] cast to [uint16_t]. *)
Definition writeString (str : string) (b : Bytecode) : Z * Bytecode :=
  let b' := set_strings (strings b ++ [str]) b in
  (to_u16 (size (strings b') - 1), b').

Definition writeNumber (num : double) (b : Bytecode) : Z * Bytecode :=
  let b' := set_numbers (numbers b ++ [num]) b in
  (to_u16 (size (numbers b') - 1), b').

Definition writeConstant (name : string) (b : Bytecode) : Z * Bytecode :=
  let b' := set_constants (constants b ++ [name]) b in
  (to_u16 (size (constants b') - 1), b').

Definition writeFunction (name : string) (b : Bytecode) : Z * Bytecode :=
  let b' := set_functions (functions b ++ [name]) b in
  (to_u16 (size (functions b') - 1), b').

Definition getPosition (b : Bytecode) : Z := size (code b).

Definition writePositionPlaceholder (b : Bytecode) : Bytecode := writeInt 0 b.

(** [bytes[0..3]] at [&code[pos]] are overwritten; outside the vector the
    write has no defined behaviour. *)
Definition updatePositionPlaceholder (pos targetPos : Z) (b : Bytecode) : Outcome Bytecode :=
  if (0 <=? pos) && (pos + 4 <=? size (code b)) then
    let p := Z.to_nat pos in
    Ok (set_code
          (<[(p + 3)%nat := Zbyte (Z.land targetPos 0xFF)]>
           (<[(p + 2)%nat := Zbyte (Z.land (Z.shiftr targetPos 8) 0xFF)]>
            (<[(p + 1)%nat := Zbyte (Z.land (Z.shiftr targetPos 16) 0xFF)]>
             (<[p := Zbyte (Z.land (Z.shiftr targetPos 24) 0xFF)]> (code b))))) b)
  else Undefined.

(** [writeDouble]: the eight bytes of the object representation of the
    number (read through the union), the byte at offset 7 first. *)
Definition writeDouble (value : double) (b : Bytecode) : Bytecode :=
  set_code (code b ++ List.map (fun i => nth i (d_bytes value) x00)
                               [7; 6; 5; 4; 3; 2; 1; 0]%nat) b.

End Container.

(** ** bytecode.cpp: the binary codec

    A file is the list of its bytes.  [saveBytecodeToFile] is modelled by
    the bytes it writes once the file is open (it throws before writing
    anything when the file cannot be opened), [loadBytecodeFromFile] by
    what it makes of a file's bytes.  Every multi-byte integer is written
    and read through [reinterpret_cast], that is in the byte order of the
    host. *)

Section Codec.
Context {H : Host}.

(** The [n]-byte object representation of the unsigned integer [z]. *)
Definition native_bytes (n : nat) (z : Z) : list byte :=
  let le := List.map (fun i => Zbyte (Z.shiftr z (8 * Z.of_nat i))) (seq 0 n) in
  match host_endian with
  | LittleEndian => le
  | BigEndian => rev le
  end.

Definition native_value (bs : list byte) : Z :=
  let le := match host_endian with
            | LittleEndian => bs
            | BigEndian => rev bs
            end in
  fold_right (fun b acc => byteZ b + 256 * acc) 0 le.

Definition magic : list byte := list_byte_of_string "SLBT".

(** One length-prefixed pool of strings: the count is truncated to 16
    bits, yet the loop runs over every string of the pool; each length is
    truncated to 16 bits and that many characters are written. *)
Definition save_string (str : string) : list byte :=
  let strSize := to_u16 (ssize str) in
  native_bytes 2 strSize ++ take (Z.to_nat strSize) (list_byte_of_string str).

Definition save_pool (pool : list string) : list byte :=
  native_bytes 2 (to_u16 (size pool)) ++ flat_map save_string pool.

Definition save_numbers (pool : list double) : list byte :=
  let numberCount := to_u16 (size pool) in
  native_bytes 2 numberCount ++ flat_map d_bytes (take (Z.to_nat numberCount) pool).

Definition saveBytecodeToFile (bytecode : Bytecode) : list byte :=
  let codeSize := to_u32 (size (code bytecode)) in
  magic
  ++ native_bytes 2 0x0100
  ++ native_bytes 4 codeSize ++ take (Z.to_nat codeSize) (code bytecode)
  ++ save_pool (strings bytecode)
  ++ save_numbers (numbers bytecode)
  ++ save_pool (constants bytecode)
  ++ save_pool (functions bytecode).

(** An input stream: the bytes not yet read and its fail bit.  The loader
    never tests the stream, so after a short read every later read leaves
    its destination as it was. *)
Record ifstream := mkStream { pending : list byte; failed : bool }.

(** [file.read] into a destination of [n] zero bytes (a vector or string
    that was just resized, or [char magic[5] = {0}]). *)
Definition read_buf (n : nat) (f : ifstream) : list byte * ifstream :=
  if failed f then (repeat x00 n, f)
  else if (n <=? List.length (pending f))%nat
       then (take n (pending f), mkStream (drop n (pending f)) false)
       else (pending f ++ repeat x00 (n - List.length (pending f)), mkStream [] true).

(** [file.read] into an uninitialised local integer of [n] bytes: after a
    short read its value is indeterminate. *)
Definition read_uint (n : nat) (f : ifstream) : Outcome (Z * ifstream) :=
  if failed f || (List.length (pending f) <? n)%nat then Undefined
  else Ok (native_value (take n (pending f)), mkStream (drop n (pending f)) false).

(** [std::string(magic)]: the characters before the first NUL. *)
Fixpoint c_str (bs : list byte) : list byte :=
  match bs with
  | [] => []
  | b :: tl => if Byte.eqb b x00 then [] else b :: c_str tl
  end.

Fixpoint load_strings (count : nat) (f : ifstream) : Outcome (list string * ifstream) :=
  match count with
  | O => Ok ([], f)
  | S count' =>
      '(strSize, f) ← read_uint 2 f;
      let '(str, f) := read_buf (Z.to_nat strSize) f in
      '(rest, f) ← load_strings count' f;
      Ok (string_of_list_byte str :: rest, f)
  end.

Definition load_pool (f : ifstream) : Outcome (list string * ifstream) :=
  '(stringCount, f) ← read_uint 2 f;
  load_strings (Z.to_nat stringCount) f.

Fixpoint group8 (count : nat) (bs : list byte) : list (list byte) :=
  match count with
  | O => []
  | S count' => take 8 bs :: group8 count' (drop 8 bs)
  end.

Definition load_numbers (f : ifstream) : Outcome (list double * ifstream) :=
  '(numberCount, f) ← read_uint 2 f;
  let '(raw, f) := read_buf (Z.to_nat numberCount * 8) f in
  Ok (List.map d_of_bytes (group8 (Z.to_nat numberCount) raw), f).

Definition loadBytecodeFromFile (file : list byte) : Outcome Bytecode :=
  let f := mkStream file false in
  let '(magic_read, f) := read_buf 4 f in
  if negb (String.eqb (string_of_list_byte (c_str magic_read)) "SLBT")
  then Throw "Invalid bytecode file format"
  else
    '(version, f) ← read_uint 2 f;
    if negb (version =? 0x0100) then Throw "Unsupported bytecode version"
    else
      '(codeSize, f) ← read_uint 4 f;
      let '(code_read, f) := read_buf (Z.to_nat codeSize) f in
      '(strings_read, f) ← load_pool f;
      '(numbers_read, f) ← load_numbers f;
      '(constants_read, f) ← load_pool f;
      '(functions_read, f) ← load_pool f;
      Ok (mkBytecode code_read strings_read numbers_read constants_read functions_read).

End Codec.

(** ** value.h: the value model *)

Inductive Type_ := NUMBER | STRING | BOOLEAN | NIL | ARRAY | HASH.

Definition Type_eqb (a b : Type_) : bool :=
  match a, b with
  | NUMBER, NUMBER | STRING, STRING | BOOLEAN, BOOLEAN
  | NIL, NIL | ARRAY, ARRAY | HASH, HASH => true
  | _, _ => false
  end.

#[local] Set Warnings "-register-all".

(** A [std::map<std::string, Value>] inside a value is the list of its
    entries in key order, as iteration visits them.  [Value] is the
    value over the host's [double]s. *)
Inductive Value_ (num : Type) :=
| VNumber (number : num)
| VString (str : string)
| VBoolean (boolean : bool)
| VNil
| VArray (array : list (Value_ num))
| VHash (hash : list (string * Value_ num)).
Arguments VNumber {num} number.
Arguments VString {num} str.
Arguments VBoolean {num} boolean.
Arguments VNil {num}.
Arguments VArray {num} array.
Arguments VHash {num} hash.
Abbreviation Value := (Value_ double).

Section ValueModel.
Context {H : Host}.

Definition getType (v : Value) : Type_ :=
  match v with
  | VNumber _ => NUMBER
  | VString _ => STRING
  | VBoolean _ => BOOLEAN
  | VNil => NIL
  | VArray _ => ARRAY
  | VHash _ => HASH
  end.

Definition isNumber (v : Value) : bool := Type_eqb (getType v) NUMBER.
Definition isString (v : Value) : bool := Type_eqb (getType v) STRING.
Definition isBoolean (v : Value) : bool := Type_eqb (getType v) BOOLEAN.
Definition isNil (v : Value) : bool := Type_eqb (getType v) NIL.
Definition isArray (v : Value) : bool := Type_eqb (getType v) ARRAY.
Definition isHash (v : Value) : bool := Type_eqb (getType v) HASH.

(** The checked accessors. *)
Definition asNumber (v : Value) : Outcome double :=
  match v with
  | VNumber d => Ok d
  | _ => Throw "Value is not a number"
  end.

Definition asString (v : Value) : Outcome string :=
  match v with
  | VString s => Ok s
  | _ => Throw "Value is not a string"
  end.

Definition asBoolean (v : Value) : Outcome bool :=
  match v with
  | VBoolean b => Ok b
  | _ => Throw "Value is not a boolean"
  end.

Definition asArray (v : Value) : Outcome (list Value) :=
  match v with
  | VArray l => Ok l
  | _ => Throw "Value is not an array"
  end.

Definition asHash (v : Value) : Outcome (list (string * Value)) :=
  match v with
  | VHash h => Ok h
  | _ => Throw "Value is not a hash"
  end.

(** [std::map::find] on the entries of a hash. *)
Fixpoint hash_find (key : string) (h : list (string * Value)) : option Value :=
  match h with
  | [] => None
  | (k, v) :: tl => if String.eqb k key then Some v else hash_find key tl
  end.

Fixpoint toString (v : Value) : string :=
  match v with
  | VNumber d => to_string d
  | VString s => s
  | VBoolean b => if b then "true" else "false"
  | VNil => "nil"
  | VArray array =>
      "[" +:+
      (fix items (first : bool) (l : list Value) : string :=
         match l with
         | [] => ""
         | x :: tl => (if first then "" else ", ") +:+ toString x +:+ items false tl
         end) true array
      +:+ "]"
  | VHash hash =>
      "{" +:+
      (fix items (first : bool) (l : list (string * Value)) : string :=
         match l with
         | [] => ""
         | (k, x) :: tl =>
             (if first then "" else ", ") +:+ (k +:+ ": " +:+ toString x) +:+ items false tl
         end) true hash
      +:+ "}"
  end.

Definition toNumber (v : Value) : double :=
  match v with
  | VNumber d => d
  | VString s => match stod s with
                 | Some d => d
                 | None => d_zero      (* catch (...) { return 0.0; } *)
                 end
  | VBoolean b => if b then d_one else d_zero
  | VNil => d_zero
  | VArray array => d_of_size (List.length array)
  | VHash hash => d_of_size (List.length hash)
  end.

Definition toBoolean (v : Value) : bool :=
  match v with
  | VNumber d => negb (d_eqb d d_zero)
  | VString s => negb (String.eqb s "")
  | VBoolean b => b
  | VNil => false
  | VArray array => negb (Nat.eqb (List.length array) 0)
  | VHash hash => negb (Nat.eqb (List.length hash) 0)
  end.

(** [operator==]: the type tags are compared first; values of one type
    are then compared by content. *)
Fixpoint value_eq (a other : Value) {struct a} : bool :=
  if negb (Type_eqb (getType a) (getType other)) then false
  else
    match a, other with
    | VNumber x, VNumber y => d_eqb x y
    | VString x, VString y => String.eqb x y
    | VBoolean x, VBoolean y => Bool.eqb x y
    | VNil, VNil => true
    | VArray arr1, VArray arr2 =>
        if negb (Nat.eqb (List.length arr1) (List.length arr2)) then false
        else
          (fix each (l1 l2 : list Value) : bool :=
             match l1, l2 with
             | x :: t1, y :: t2 => if negb (value_eq x y) then false else each t1 t2
             | _, _ => true
             end) arr1 arr2
    | VHash hash1, VHash hash2 =>
        if negb (Nat.eqb (List.length hash1) (List.length hash2)) then false
        else
          (fix each (l1 : list (string * Value)) : bool :=
             match l1 with
             | [] => true
             | (k, x) :: t1 =>
                 match hash_find k hash2 with
                 | None => false
                 | Some y => if negb (value_eq x y) then false else each t1
                 end
             end) hash1
    | _, _ => false
    end.

(** [operator!=] *)
Definition value_ne (a other : Value) : bool := negb (value_eq a other).

End ValueModel.

(** ** value.h: containers and the arithmetic operators

    The operators convert between [double] and [int].  [static_cast<int>]
    of a double truncates toward zero and has no defined behaviour when
    the truncated value is no [int] (a NaN and the infinities included);
    [static_cast<double>] of an [int] is exact. *)

Class Conversions (H : Host) := {
  d_to_int : double -> option Z;
  d_of_int : Z -> double
}.

Definition INT_MIN : Z := -2147483648.
Definition INT_MAX : Z := 2147483647.

(** [static_cast<int>] of a [size_t], on the usual two's complement
    machine. *)
Definition size_to_int (z : Z) : Z := (z + 2147483648) mod 4294967296 - 2147483648.

Section ValueOperators.
Context {H : Host} {C : Conversions H}.

(** [push] *)
Definition value_push (item : Value) (this : Value) : Outcome Value :=
  array ← asArray this;
  Ok (VArray (array ++ [item])).

(** [std::map::operator[]] on the entries of a hash, kept in key order:
    the value of the entry with the key, after a nil entry has been
    inserted when there was none. *)
Fixpoint hash_at (key : string) (h : list (string * Value))
  : Value * list (string * Value) :=
  match h with
  | [] => (VNil, [(key, VNil)])
  | (k, y) :: tl =>
      if String.eqb k key then (y, h)
      else if String.ltb key k then (VNil, (key, VNil) :: h)
      else let '(x, tl') := hash_at key tl in (x, (k, y) :: tl')
  end.

(** [operator[]] returns a reference into the container: the element it
    refers to, and the container after the access. *)
Definition value_index (index : Value) (this : Value) : Outcome (Value * Value) :=
  if isArray this then
    match d_to_int (toNumber index) with
    | None => Undefined
    | Some idx =>
        array ← asArray this;
        if (idx <? 0) || (size_to_int (size array) <=? idx) then
          Throw "Array index out of bounds"
        else
          match array !! Z.to_nat idx with
          | Some x => Ok (x, this)
          | None => Undefined
          end
    end
  else if isHash this then
    hash ← asHash this;
    key ← asString index;
    let '(x, hash') := hash_at key hash in
    Ok (x, VHash hash')
  else Throw "Indexing not supported for this type".

(** [operator+] *)
Definition value_add (this other : Value) : Outcome Value :=
  if isNumber this && isNumber other then
    x ← asNumber this; y ← asNumber other; Ok (VNumber (d_add x y))
  else Ok (VString (toString this +:+ toString other)).

(** [operator-] *)
Definition value_sub (this other : Value) : Outcome Value :=
  if isNumber this && isNumber other then
    x ← asNumber this; y ← asNumber other; Ok (VNumber (d_sub x y))
  else Ok (VNumber d_zero).

(** [for (int i = 0; i < times; i++) result += str;] *)
Fixpoint repeat_string (times : nat) (str result : string) : string :=
  match times with
  | O => result
  | S n => repeat_string n str (result +:+ str)
  end.

Definition repetition (str : string) (count : double) : Outcome Value :=
  match d_to_int count with
  | None => Undefined
  | Some times => Ok (VString (repeat_string (Z.to_nat times) str ""))
  end.

(** [operator*] *)
Definition value_mul (this other : Value) : Outcome Value :=
  if isNumber this && isNumber other then
    x ← asNumber this; y ← asNumber other; Ok (VNumber (d_mul x y))
  else if isString this && isNumber other then
    str ← asString this; count ← asNumber other; repetition str count
  else if isNumber this && isString other then
    count ← asNumber this; str ← asString other; repetition str count
  else Ok (VNumber d_zero).

(** [operator/] *)
Definition value_div (this other : Value) : Outcome Value :=
  if isNumber this && isNumber other then
    x ← asNumber this; y ← asNumber other;
    if negb (d_eqb y d_zero) then Ok (VNumber (d_div x y))
    else Throw "Division by zero"
  else Ok (VNumber d_zero).

(** [operator%]: the remainder of the two operands as [int]s, which has
    no defined behaviour for a divisor that truncates to zero and for
    [INT_MIN % -1]. *)
Definition value_mod (this other : Value) : Outcome Value :=
  if isNumber this && isNumber other then
    x ← asNumber this; y ← asNumber other;
    if negb (d_eqb y d_zero) then
      match d_to_int x, d_to_int y with
      | Some i, Some j =>
          if (j =? 0) || ((i =? INT_MIN) && (j =? -1)) then Undefined
          else Ok (VNumber (d_of_int (Z.rem i j)))
      | _, _ => Undefined
      end
    else Throw "Modulo by zero"
  else Ok (VNumber d_zero).

End ValueOperators.

(** ** simple_interpreter.cpp: the stack machine

    The machine keeps its operands as [GCValue]s, which are [Value]s that
    also report themselves to the collector.  The collector is a separate
    engine (see [GC] below) that never changes a value, so the machine is
    modelled over [Value]; what it writes to [std::cout] and [std::cerr]
    is accumulated in [out] and [err]. *)

(** [std::to_string(int)] *)
Definition decimal (z : Z) : string := NilZero.string_of_int (Z.to_int z).

Definition endl : string := String (ascii_of_nat 10) "".

Record Console_ (env_t : Type) := mkConsole {
  out : string;          (* std::cout *)
  err : string;          (* std::cerr *)
  env : env_t            (* std::cin and the clock *)
}.
Arguments mkConsole {env_t} out err env.
Arguments out {env_t} c.
Arguments err {env_t} c.
Arguments env {env_t} c.
Abbreviation Console := (Console_ world).

Record VM_ (num env_t : Type) := mkVM {
  stack : list (Value_ num);
  variables : gmap string (Value_ num);
  programCounter : Z;
  console : Console_ env_t
}.
Arguments mkVM {num env_t} stack variables programCounter console.
Arguments stack {num env_t} v.
Arguments variables {num env_t} v.
Arguments programCounter {num env_t} v.
Arguments console {num env_t} v.
Abbreviation VM := (VM_ double world).

(** What the machine dispatches at a program counter, for an account of
    a run: the instruction with its operands as [executeInstruction]
    reads them, a pool index resolved to the pool's entry where it is in
    range. *)
Inductive Instruction_ (num : Type) :=
| I_nop
| I_push_num (number : option num)
| I_push_str (str : option string)
| I_push_const (constant : option string)
| I_pop | I_add | I_sub | I_mul | I_div | I_mod
| I_call (name : option string) (argCount : Z)
| I_jmp (target : Z)
| I_jmp_if_false (target : Z)
| I_jmp_if_true (target : Z)
| I_load (name : option string)
| I_store (name : option string)
| I_ret
| I_halt
| I_unknown (op : Z).
Arguments I_nop {num}.
Arguments I_push_num {num} number.
Arguments I_push_str {num} str.
Arguments I_push_const {num} constant.
Arguments I_pop {num}.
Arguments I_add {num}.
Arguments I_sub {num}.
Arguments I_mul {num}.
Arguments I_div {num}.
Arguments I_mod {num}.
Arguments I_call {num} name argCount.
Arguments I_jmp {num} target.
Arguments I_jmp_if_false {num} target.
Arguments I_jmp_if_true {num} target.
Arguments I_load {num} name.
Arguments I_store {num} name.
Arguments I_ret {num}.
Arguments I_halt {num}.
Arguments I_unknown {num} op.
Abbreviation Instruction := (Instruction_ double).

Section Machine.
Context {H : Host}.

Definition print (text : string) (c : Console) : Console :=
  mkConsole (out c +:+ text) (err c) (env c).

Definition eprint (text : string) (c : Console) : Console :=
  mkConsole (out c) (err c +:+ text) (env c).

(** A built-in: [std::function<void(const std::vector<std::string>&)>]. *)
Definition builtin : Type := list string -> Console -> Outcome Console.

Definition concat_args (args : list string) : string :=
  fold_left (fun acc arg => acc +:+ arg) args "".

Definition stod_or_throw (s : string) : Outcome double :=
  match stod s with
  | Some d => Ok d
  | None => Throw "stod"
  end.

Definition output_print : builtin := fun args c =>
  Ok (print endl (print (concat_args args) c)).

Definition input_read : builtin := fun args c =>
  let '(input, w) := read_word (env c) in
  Ok (print input (mkConsole (out c) (err c) w)).

Definition input_readline : builtin := fun args c =>
  let '(input, w) := read_line (env c) in
  Ok (print input (mkConsole (out c) (err c) w)).

Definition time_now : builtin := fun args c =>
  let '(milliseconds, w) := now_ms (env c) in
  Ok (print (decimal milliseconds) (mkConsole (out c) (err c) w)).

Definition math_binary (op : double -> double -> double) : builtin := fun args c =>
  match args with
  | a0 :: a1 :: _ =>
      a ← stod_or_throw a0;
      b ← stod_or_throw a1;
      Ok (print (show_double (op a b)) c)
  | _ => Ok c
  end.

Definition math_guarded (op : double -> double -> double) (message : string) : builtin :=
  fun args c =>
  match args with
  | a0 :: a1 :: _ =>
      a ← stod_or_throw a0;
      b ← stod_or_throw a1;
      if negb (d_eqb b d_zero) then Ok (print (show_double (op a b)) c)
      else Ok (print message c)
  | _ => Ok c
  end.

Definition initBaselib : gmap string builtin :=
  <["System.Math.Modulo" := math_guarded d_fmod "Error: Modulo by zero"]>
  (<["System.Math.Divide" := math_guarded d_div "Error: Division by zero"]>
  (<["System.Math.Multiply" := math_binary d_mul]>
  (<["System.Math.Subtract" := math_binary d_sub]>
  (<["System.Math.Add" := math_binary d_add]>
  (<["System.Time.Now" := time_now]>
  (<["System.Input.ReadLine" := input_readline]>
  (<["System.Input.Read" := input_read]>
  (<["System.Output.Println" := output_print]>
  (<["System.Output.Print" := output_print]> ∅))))))))).

Definition set_stack (s : list Value) (vm : VM) : VM :=
  mkVM s (variables vm) (programCounter vm) (console vm).
Definition set_variables (vars : gmap string Value) (vm : VM) : VM :=
  mkVM (stack vm) vars (programCounter vm) (console vm).
Definition set_pc (pc : Z) (vm : VM) : VM :=
  mkVM (stack vm) (variables vm) pc (console vm).
Definition set_console (c : Console) (vm : VM) : VM :=
  mkVM (stack vm) (variables vm) (programCounter vm) c.

(** [stack.back()] with [stack.pop_back()] *)
Definition pop (vm : VM) : Outcome (Value * VM) :=
  match last (stack vm) with
  | None => Throw "Stack underflow"
  | Some value => Ok (value, set_stack (removelast (stack vm)) vm)
  end.

Definition push (value : Value) (vm : VM) : VM :=
  set_stack (stack vm ++ [value]) vm.

(** [bytecode.code[i]]: [vector::operator[]] is unchecked. *)
Definition code_at (bytecode : Bytecode) (i : Z) : Outcome Z :=
  if i <? 0 then Undefined
  else match code bytecode !! Z.to_nat i with
       | Some b => Ok (byteZ b)
       | None => Undefined
       end.

(** [(code[pc] << 8) | code[pc + 1]] as a [uint16_t] *)
Definition operand16 (bytecode : Bytecode) (pc : Z) : Outcome Z :=
  hi ← code_at bytecode pc;
  lo ← code_at bytecode (pc + 1);
  Ok (to_u16 (Z.lor (Z.shiftl hi 8) lo)).

(** The four bytes at [pc], most significant first, as a [uint32_t] *)
Definition operand32 (bytecode : Bytecode) (pc : Z) : Outcome Z :=
  b0 ← code_at bytecode pc;
  b1 ← code_at bytecode (pc + 1);
  b2 ← code_at bytecode (pc + 2);
  b3 ← code_at bytecode (pc + 3);
  Ok (to_u32 (Z.lor (Z.lor (Z.lor (Z.shiftl b0 24) (Z.shiftl b1 16)) (Z.shiftl b2 8)) b3)).

(** [pool[index]] behind the guard [index < pool.size()] *)
Definition pool_at {A : Type} (pool : list A) (index : Z) : option A :=
  if index <? size pool then pool !! Z.to_nat index else None.

Fixpoint pop_n (n : nat) (vm : VM) : Outcome VM :=
  match n with
  | O => Ok vm
  | S n' => '(_, vm) ← pop vm; pop_n n' vm
  end.

Definition binary_numeric (op : double -> double -> double) (vm : VM) : Outcome VM :=
  '(b, vm) ← pop vm;
  '(a, vm) ← pop vm;
  Ok (push (VNumber (op (toNumber a) (toNumber b))) vm).

Definition executeInstruction (bytecode : Bytecode) (vm : VM) : Outcome VM :=
  if size (code bytecode) <=? programCounter vm
  then Throw "Program counter out of bounds"
  else
    op ← code_at bytecode (programCounter vm);
    let vm := set_pc (programCounter vm + 1) vm in
    let pc := programCounter vm in
    if op =? OP_NOP then Ok vm
    else if op =? OP_PUSH_NUM then
      index ← operand16 bytecode pc;
      let vm := set_pc (pc + 2) vm in
      match pool_at (numbers bytecode) index with
      | Some d => Ok (push (VNumber d) vm)
      | None => Ok vm
      end
    else if op =? OP_PUSH_STR then
      index ← operand16 bytecode pc;
      let vm := set_pc (pc + 2) vm in
      match pool_at (strings bytecode) index with
      | Some s => Ok (push (VString s) vm)
      | None => Ok vm
      end
    else if op =? OP_PUSH_CONST then
      index ← operand16 bytecode pc;
      let vm := set_pc (pc + 2) vm in
      match pool_at (constants bytecode) index with
      | Some s => Ok (push (VString s) vm)
      | None => Ok vm
      end
    else if op =? OP_POP then
      '(_, vm) ← pop vm; Ok vm
    else if op =? OP_ADD then
      '(b, vm) ← pop vm;
      '(a, vm) ← pop vm;
      if isString a || isString b
      then Ok (push (VString (toString a +:+ toString b)) vm)
      else Ok (push (VNumber (d_add (toNumber a) (toNumber b))) vm)
    else if op =? OP_SUB then binary_numeric d_sub vm
    else if op =? OP_MUL then binary_numeric d_mul vm
    else if op =? OP_DIV then
      '(b, vm) ← pop vm;
      '(a, vm) ← pop vm;
      let divisor := toNumber b in
      if negb (d_eqb divisor d_zero)
      then Ok (push (VNumber (d_div (toNumber a) divisor)) vm)
      else Throw "Division by zero"
    else if op =? OP_MOD then
      '(b, vm) ← pop vm;
      '(a, vm) ← pop vm;
      let divisor := toNumber b in
      if negb (d_eqb divisor d_zero)
      then Ok (push (VNumber (d_fmod (toNumber a) divisor)) vm)
      else Throw "Modulo by zero"
    else if op =? OP_CALL then
      funcIndex ← operand16 bytecode pc;
      argCount ← code_at bytecode (pc + 2);
      let vm := set_pc (pc + 3) vm in
      match pool_at (functions bytecode) funcIndex with
      | Some funcName =>
          (* stack[stack.size() - 1 - i] for i = argCount - 1 down to 0 *)
          if size (stack vm) <? argCount then Undefined
          else
            let args := List.map toString
                          (drop (List.length (stack vm) - Z.to_nat argCount) (stack vm)) in
            vm ← pop_n (Z.to_nat argCount) vm;
            match initBaselib !! funcName with
            | Some f => c ← f args (console vm); Ok (set_console c vm)
            | None =>
                Ok (set_console
                      (eprint ("Error: Unknown function " +:+ funcName +:+ endl) (console vm)) vm)
            end
      | None => Ok vm
      end
    else if op =? OP_JMP then
      target ← operand32 bytecode pc;
      Ok (set_pc target vm)
    else if op =? OP_JMP_IF_FALSE then
      target ← operand32 bytecode pc;
      let vm := set_pc (pc + 4) vm in
      '(condition, vm) ← pop vm;
      c ← asBoolean condition;
      if negb c then Ok (set_pc target vm) else Ok vm
    else if op =? OP_JMP_IF_TRUE then
      target ← operand32 bytecode pc;
      let vm := set_pc (pc + 4) vm in
      '(condition, vm) ← pop vm;
      c ← asBoolean condition;
      if (c : bool) then Ok (set_pc target vm) else Ok vm
    else if op =? OP_LOAD then
      varIndex ← operand16 bytecode pc;
      let vm := set_pc (pc + 2) vm in
      match pool_at (constants bytecode) varIndex with
      | Some varName =>
          match variables vm !! varName with
          | Some value => Ok (push value vm)
          | None => Ok (push VNil vm)
          end
      | None => Ok vm
      end
    else if op =? OP_STORE then
      varIndex ← operand16 bytecode pc;
      let vm := set_pc (pc + 2) vm in
      match pool_at (constants bytecode) varIndex with
      | Some varName =>
          '(value, vm) ← pop vm;
          Ok (set_variables (<[varName := value]> (variables vm)) vm)
      | None => Ok vm
      end
    else if op =? OP_RET then Ok vm
    else if op =? OP_HALT then Ok (set_pc (to_u32 (size (code bytecode))) vm)
    else Throw ("Unknown opcode: " +:+ decimal op).

(** The machine as [execute] leaves it before its loop. *)
Definition initial (w : world) : VM := mkVM [] ∅ 0 (mkConsole "" "" w).

(** The loop of [execute]: [None] when [fuel] instructions did not reach
    the end of the code.  An exception leaves the loop at once. *)
Fixpoint run (fuel : nat) (bytecode : Bytecode) (vm : VM) : option (Outcome VM) :=
  if size (code bytecode) <=? programCounter vm then Some (Ok vm)
  else
    match fuel with
    | O => None
    | S fuel' =>
        match executeInstruction bytecode vm with
        | Ok vm' => run fuel' bytecode vm'
        | Throw what => Some (Throw what)
        | Undefined => Some Undefined
        end
    end.

Definition execute (fuel : nat) (bytecode : Bytecode) (w : world) : option (Outcome VM) :=
  run fuel bytecode (initial w).

Definition instruction_at (bytecode : Bytecode) (pc : Z) : Outcome Instruction :=
  op ← code_at bytecode pc;
  if op =? OP_NOP then Ok I_nop
  else if op =? OP_PUSH_NUM then
    index ← operand16 bytecode (pc + 1); Ok (I_push_num (pool_at (numbers bytecode) index))
  else if op =? OP_PUSH_STR then
    index ← operand16 bytecode (pc + 1); Ok (I_push_str (pool_at (strings bytecode) index))
  else if op =? OP_PUSH_CONST then
    index ← operand16 bytecode (pc + 1); Ok (I_push_const (pool_at (constants bytecode) index))
  else if op =? OP_POP then Ok I_pop
  else if op =? OP_ADD then Ok I_add
  else if op =? OP_SUB then Ok I_sub
  else if op =? OP_MUL then Ok I_mul
  else if op =? OP_DIV then Ok I_div
  else if op =? OP_MOD then Ok I_mod
  else if op =? OP_CALL then
    index ← operand16 bytecode (pc + 1);
    argCount ← code_at bytecode (pc + 3);
    Ok (I_call (pool_at (functions bytecode) index) argCount)
  else if op =? OP_JMP then target ← operand32 bytecode (pc + 1); Ok (I_jmp target)
  else if op =? OP_JMP_IF_FALSE then
    target ← operand32 bytecode (pc + 1); Ok (I_jmp_if_false target)
  else if op =? OP_JMP_IF_TRUE then
    target ← operand32 bytecode (pc + 1); Ok (I_jmp_if_true target)
  else if op =? OP_LOAD then
    index ← operand16 bytecode (pc + 1); Ok (I_load (pool_at (constants bytecode) index))
  else if op =? OP_STORE then
    index ← operand16 bytecode (pc + 1); Ok (I_store (pool_at (constants bytecode) index))
  else if op =? OP_RET then Ok I_ret
  else if op =? OP_HALT then Ok I_halt
  else Ok (I_unknown op).

(** The instructions the loop of [execute] dispatches, in order, within
    [fuel] steps. *)
Fixpoint dispatched (fuel : nat) (bytecode : Bytecode) (vm : VM) : list Instruction :=
  if size (code bytecode) <=? programCounter vm then []
  else
    match fuel with
    | O => []
    | S fuel' =>
        match instruction_at bytecode (programCounter vm) with
        | Ok i =>
            i :: match executeInstruction bytecode vm with
                 | Ok vm' => dispatched fuel' bytecode vm'
                 | _ => []
                 end
        | _ => []
        end
    end.

End Machine.

(** ** bytecode.h: BytecodeReader

    A reader is a container and a position in its code.  An operation of
    the reader runs at a position; it returns or throws, and leaves the
    reader at a position: an operation that throws after it has read some
    bytes leaves the reader behind them. *)

Definition Reader (A : Type) : Type := Z -> Outcome A * Z.

Definition reader_ret {A : Type} (a : A) : Reader A := fun position => (Ok a, position).

Definition reader_throw {A : Type} (what : string) : Reader A :=
  fun position => (Throw what, position).

Definition reader_bind {A B : Type} (m : Reader A) (k : A -> Reader B) : Reader B :=
  fun position =>
    match m position with
    | (Ok a, position') => k a position'
    | (Throw what, position') => (Throw what, position')
    | (Undefined, position') => (Undefined, position')
    end.

Global Instance reader_mret : MRet Reader := @reader_ret.
Global Instance reader_mbind : MBind Reader := fun A B k m => reader_bind m k.

Module BytecodeReader.
Section Reader.
Context {H : Host}.
Variable bytecode : Bytecode.

Definition readByte : Reader Z := fun position =>
  if size (code bytecode) <=? position
  then (Throw "BytecodeReader: end of code", position)
  else (code_at bytecode position, position + 1).

Definition readOpCode : Reader Z := readByte.

Definition readShort : Reader Z :=
  hi ← readByte;
  lo ← readByte;
  reader_ret (to_u16 (Z.lor (to_u16 (Z.shiftl hi 8)) lo)).

Definition readInt : Reader Z :=
  b0 ← readByte;
  b1 ← readByte;
  b2 ← readByte;
  b3 ← readByte;
  reader_ret (to_u32 (Z.lor (to_u32 (Z.lor (to_u32 (Z.lor (to_u32 (Z.shiftl b0 24))
                                                          (to_u32 (Z.shiftl b1 16))))
                                           (to_u32 (Z.shiftl b2 8))))
                            b3)).

(** The loop of [readDouble], which fills the union from offset 7 down:
    the bytes read, in the order of their offsets. *)
Fixpoint readBytesDown (n : nat) : Reader (list byte) :=
  match n with
  | O => reader_ret []
  | S n' =>
      b ← readByte;
      lower ← readBytesDown n';
      reader_ret (lower ++ [Zbyte b])
  end.

Definition readDouble : Reader double :=
  bytes ← readBytesDown 8;
  reader_ret (d_of_bytes bytes).

Definition readIndexed {A : Type} (pool : list A) (what : string) : Reader A :=
  index ← readShort;
  match pool_at pool index with
  | Some entry => reader_ret entry
  | None => reader_throw what
  end.

Definition readString : Reader string :=
  readIndexed (strings bytecode) "BytecodeReader: invalid string index".

Definition readNumber : Reader double :=
  readIndexed (numbers bytecode) "BytecodeReader: invalid number index".

Definition readConstant : Reader string :=
  readIndexed (constants bytecode) "BytecodeReader: invalid constant index".

Definition readFunction : Reader string :=
  readIndexed (functions bytecode) "BytecodeReader: invalid function index".

Definition setPosition (pos : Z) : Reader unit := fun position =>
  if size (code bytecode) <? pos
  then (Throw "BytecodeReader: position out of bounds", position)
  else (Ok tt, pos).

Definition getPosition : Reader Z := fun position => (Ok position, position).

Definition isAtEnd : Reader bool := fun position =>
  (Ok (size (code bytecode) <=? position), position).

End Reader.
End BytecodeReader.

(** ** simple_interpreter.cpp: the syntax tree and the code generator *)

Inductive NodeType :=
| NODE_PROGRAM | NODE_STATEMENT | NODE_CALL | NODE_STRING_LITERAL
| NODE_NUMBER_LITERAL | NODE_IDENTIFIER | NODE_DIRECTIVE | NODE_EXPRESSION
| NODE_OPERATOR | NODE_IF_STATEMENT | NODE_WHILE_STATEMENT | NODE_FOR_STATEMENT
| NODE_BREAK_STATEMENT | NODE_CONTINUE_STATEMENT | NODE_COMPARISON
| NODE_LOGICAL_OPERATOR | NODE_ASSIGN | NODE_BLOCK.

#[local] Set Warnings "-register-all".
Inductive ASTNode :=
| mkNode (type : NodeType) (value : string) (children : list ASTNode).

Definition node_type (n : ASTNode) : NodeType := let 'mkNode t _ _ := n in t.
Definition node_value (n : ASTNode) : string := let 'mkNode _ v _ := n in v.
Definition node_children (n : ASTNode) : list ASTNode := let 'mkNode _ _ c := n in c.

Record BytecodeGenerator_ (num : Type) := mkGen {
  bytecode : Bytecode_ num;
  stringConstants : gmap string Z;
  numberConstants : list (num * Z);
  generalConstants : gmap string Z;
  functionNames : gmap string Z;
  loopStack : list (Z * Z)
}.
Arguments mkGen {num} bytecode stringConstants numberConstants generalConstants
  functionNames loopStack.
Arguments bytecode {num} b.
Arguments stringConstants {num} b.
Arguments numberConstants {num} b.
Arguments generalConstants {num} b.
Arguments functionNames {num} b.
Arguments loopStack {num} b.
Abbreviation BytecodeGenerator := (BytecodeGenerator_ double).

Section Generator.
Context {H : Host}.

(** [std::map<double, uint16_t>]: its entries in key order.  [find] is
    [lower_bound] followed by the test that the key is not less than the
    entry found; [operator[]] inserts at that place or overwrites the
    entry found. *)
Fixpoint num_find (key : double) (m : list (double * Z)) : option Z :=
  match m with
  | [] => None
  | (k, v) :: tl =>
      if d_ltb k key then num_find key tl
      else if d_ltb key k then None else Some v
  end.

Fixpoint num_insert (key : double) (v : Z) (m : list (double * Z)) : list (double * Z) :=
  match m with
  | [] => [(key, v)]
  | (k, v') :: tl =>
      if d_ltb k key then (k, v') :: num_insert key v tl
      else if d_ltb key k then (key, v) :: m else (k, v) :: tl
  end.


Definition set_bytecode (b : Bytecode) (g : BytecodeGenerator) : BytecodeGenerator :=
  mkGen b (stringConstants g) (numberConstants g) (generalConstants g)
        (functionNames g) (loopStack g).
Definition set_loopStack (l : list (Z * Z)) (g : BytecodeGenerator) : BytecodeGenerator :=
  mkGen (bytecode g) (stringConstants g) (numberConstants g) (generalConstants g)
        (functionNames g) l.

(** The writer of the generator writes into the generator's container. *)
Definition emit (w : Bytecode -> Bytecode) (g : BytecodeGenerator) : BytecodeGenerator :=
  set_bytecode (w (bytecode g)) g.

Definition patch (pos targetPos : Z) (g : BytecodeGenerator) : Outcome BytecodeGenerator :=
  b ← updatePositionPlaceholder pos targetPos (bytecode g);
  Ok (set_bytecode b g).

Definition position (g : BytecodeGenerator) : Z := getPosition (bytecode g).

(** The generator as [generate] resets it. *)
Definition fresh : BytecodeGenerator := mkGen emptyBytecode ∅ [] ∅ ∅ [].

Definition addStringConstant (str : string) (g : BytecodeGenerator) : Z * BytecodeGenerator :=
  match stringConstants g !! str with
  | Some index => (index, g)
  | None =>
      let index := to_u16 (size (strings (bytecode g))) in
      (index,
       mkGen (set_strings (strings (bytecode g) ++ [str]) (bytecode g))
             (<[str := index]> (stringConstants g)) (numberConstants g)
             (generalConstants g) (functionNames g) (loopStack g))
  end.

Definition addNumberConstant (num : double) (g : BytecodeGenerator) : Z * BytecodeGenerator :=
  match num_find num (numberConstants g) with
  | Some index => (index, g)
  | None =>
      let index := to_u16 (size (numbers (bytecode g))) in
      (index,
       mkGen (set_numbers (numbers (bytecode g) ++ [num]) (bytecode g))
             (stringConstants g) (num_insert num index (numberConstants g))
             (generalConstants g) (functionNames g) (loopStack g))
  end.

Definition addGeneralConstant (constant : string) (g : BytecodeGenerator)
  : Z * BytecodeGenerator :=
  match generalConstants g !! constant with
  | Some index => (index, g)
  | None =>
      let index := to_u16 (size (constants (bytecode g))) in
      (index,
       mkGen (set_constants (constants (bytecode g) ++ [constant]) (bytecode g))
             (stringConstants g) (numberConstants g)
             (<[constant := index]> (generalConstants g)) (functionNames g) (loopStack g))
  end.

Definition addFunctionName (functionName : string) (g : BytecodeGenerator)
  : Z * BytecodeGenerator :=
  match functionNames g !! functionName with
  | Some index => (index, g)
  | None =>
      let index := to_u16 (size (functions (bytecode g))) in
      (index,
       mkGen (set_functions (functions (bytecode g) ++ [functionName]) (bytecode g))
             (stringConstants g) (numberConstants g) (generalConstants g)
             (<[functionName := index]> (functionNames g)) (loopStack g))
  end.

(** The functions below generate the children of a node through [gen],
    which [generateNode] instantiates with itself. *)
Section Nodes.
Variable gen : ASTNode -> BytecodeGenerator -> Outcome BytecodeGenerator.

Fixpoint generateAll (nodes : list ASTNode) (g : BytecodeGenerator)
  : Outcome BytecodeGenerator :=
  match nodes with
  | [] => Ok g
  | child :: tl => g ← gen child g; generateAll tl g
  end.

Definition generateStatement (value : string) (children : list ASTNode)
  (g : BytecodeGenerator) : Outcome BytecodeGenerator :=
  if String.eqb value "use" then
    match children with
    | child :: _ => gen child g
    | [] => Ok g
    end
  else if String.eqb value "cra" then
    match children with
    | _ :: body => generateAll body g
    | [] => Ok g
    end
  else Ok g.

Definition generateIfStatement (children : list ASTNode) (g : BytecodeGenerator)
  : Outcome BytecodeGenerator :=
  match children with
  | condition :: thenBlock :: rest =>
      g ← gen condition g;
      let elseJumpPos := position g in
      let g := emit (writeOpCode OP_JMP_IF_FALSE) g in
      let g := emit writePositionPlaceholder g in
      g ← gen thenBlock g;
      match rest with
      | elseBlock :: _ =>
          let endJumpPos := position g in
          let g := emit (writeOpCode OP_JMP) g in
          let g := emit writePositionPlaceholder g in
          let elseStartPos := position g in
          g ← patch elseJumpPos elseStartPos g;
          g ← gen elseBlock g;
          let endPos := position g in
          patch endJumpPos endPos g
      | [] =>
          let endPos := position g in
          patch elseJumpPos endPos g
      end
  | _ => Ok g
  end.

Definition generateWhileStatement (children : list ASTNode) (g : BytecodeGenerator)
  : Outcome BytecodeGenerator :=
  match children with
  | condition :: body :: _ =>
      let loopStartPos := position g in
      g ← gen condition g;
      let loopEndJumpPos := position g in
      let g := emit (writeOpCode OP_JMP_IF_FALSE) g in
      let g := emit writePositionPlaceholder g in
      let g := set_loopStack (loopStack g ++ [(loopStartPos, loopEndJumpPos)]) g in
      g ← gen body g;
      let g := emit (writeOpCode OP_JMP) g in
      let g := emit (writeInt (to_u32 loopStartPos)) g in
      let loopEndPos := position g in
      g ← patch loopEndJumpPos loopEndPos g;
      Ok (set_loopStack (removelast (loopStack g)) g)
  | _ => Ok g
  end.

Definition generateForStatement (children : list ASTNode) (g : BytecodeGenerator)
  : Outcome BytecodeGenerator :=
  match children with
  | init :: condition :: increment :: body :: _ =>
      g ← gen init g;
      let loopStartPos := position g in
      g ← gen condition g;
      let loopEndJumpPos := position g in
      let g := emit (writeOpCode OP_JMP_IF_FALSE) g in
      let g := emit writePositionPlaceholder g in
      let loopEndPosPlaceholder := position g in
      let g := emit (writeOpCode OP_NOP) g in
      let g := emit writePositionPlaceholder g in
      let g := set_loopStack (loopStack g ++ [(loopStartPos, 0)]) g in
      g ← gen body g;
      g ← gen increment g;
      let g := emit (writeOpCode OP_JMP) g in
      let g := emit (writeInt (to_u32 loopStartPos)) g in
      let loopEndPos := position g in
      g ← patch loopEndJumpPos loopEndPos g;
      Ok (set_loopStack (removelast (loopStack g)) g)
  | _ => Ok g
  end.

Definition generateBreakStatement (g : BytecodeGenerator) : Outcome BytecodeGenerator :=
  Ok (emit (writeOpCode OP_BREAK) g).

Definition generateContinueStatement (g : BytecodeGenerator) : Outcome BytecodeGenerator :=
  Ok (emit (writeOpCode OP_CONTINUE) g).

Definition generateAssignment (children : list ASTNode) (g : BytecodeGenerator)
  : Outcome BytecodeGenerator :=
  match children with
  | left_ :: right_ :: _ =>
      g ← gen right_ g;
      match node_type left_ with
      | NODE_IDENTIFIER =>
          let '(varIndex, g) := addGeneralConstant (node_value left_) g in
          let g := emit (writeOpCode OP_STORE) g in
          Ok (emit (writeShort varIndex) g)
      | _ => Ok g
      end
  | _ => Ok g
  end.

Definition generateCall (value : string) (children : list ASTNode) (g : BytecodeGenerator)
  : Outcome BytecodeGenerator :=
  g ← generateAll children g;
  let '(funcIndex, g) := addFunctionName value g in
  let g := emit (writeOpCode OP_CALL) g in
  let g := emit (writeShort funcIndex) g in
  Ok (emit (writeByte (to_u8 (size children))) g).

Definition generateExpression (type : NodeType) (value : string) (children : list ASTNode)
  (g : BytecodeGenerator) : Outcome BytecodeGenerator :=
  match type with
  | NODE_NUMBER_LITERAL =>
      match stod value with
      | None => Throw "stod"
      | Some number =>
          let '(index, g) := addNumberConstant number g in
          let g := emit (writeOpCode OP_PUSH_NUM) g in
          Ok (emit (writeShort index) g)
      end
  | NODE_STRING_LITERAL =>
      let '(index, g) := addStringConstant value g in
      let g := emit (writeOpCode OP_PUSH_STR) g in
      Ok (emit (writeShort index) g)
  | NODE_IDENTIFIER =>
      let '(varIndex, g) := addGeneralConstant value g in
      let g := emit (writeOpCode OP_LOAD) g in
      Ok (emit (writeShort varIndex) g)
  | NODE_OPERATOR =>
      match children with
      | left_ :: right_ :: _ =>
          g ← gen left_ g;
          g ← gen right_ g;
          if String.eqb value "+" then Ok (emit (writeOpCode OP_ADD) g)
          else if String.eqb value "-" then Ok (emit (writeOpCode OP_SUB) g)
          else if String.eqb value "*" then Ok (emit (writeOpCode OP_MUL) g)
          else if String.eqb value "/" then Ok (emit (writeOpCode OP_DIV) g)
          else if String.eqb value "%" then Ok (emit (writeOpCode OP_MOD) g)
          else Ok g
      | _ => Ok g
      end
  | NODE_EXPRESSION => generateAll children g
  | _ => Ok g
  end.

End Nodes.

Fixpoint generateNode (node : ASTNode) (g : BytecodeGenerator) {struct node}
  : Outcome BytecodeGenerator :=
  match node with
  | mkNode type value children =>
      match type with
      | NODE_PROGRAM => generateAll generateNode children g
      | NODE_STATEMENT => generateStatement generateNode value children g
      | NODE_IF_STATEMENT => generateIfStatement generateNode children g
      | NODE_WHILE_STATEMENT => generateWhileStatement generateNode children g
      | NODE_FOR_STATEMENT => generateForStatement generateNode children g
      | NODE_BREAK_STATEMENT => generateBreakStatement g
      | NODE_CONTINUE_STATEMENT => generateContinueStatement g
      | NODE_ASSIGN => generateAssignment generateNode children g
      | NODE_CALL => generateCall generateNode value children g
      | NODE_OPERATOR | NODE_NUMBER_LITERAL | NODE_EXPRESSION | NODE_IDENTIFIER =>
          generateExpression generateNode type value children g
      | NODE_DIRECTIVE => Ok g
      | _ => Ok g
      end
  end.

Definition generate (ast : ASTNode) : Outcome Bytecode :=
  g ← generateNode ast fresh;
  Ok (bytecode (emit (writeOpCode OP_HALT) g)).

End Generator.

(** ** simple_interpreter.cpp: the tree-walking interpreter

    [Interpreter] keeps its variables as [GCValue]s and registers the
    same built-in functions as the machine ([Interpreter::initBaselib]
    and [BytecodeVM::initBaselib] have the same body, here
    [initBaselib]).  As for the machine, the collector never changes a
    value and is left out. *)

Record Interpreter_ (num env_t : Type) := mkInterpreter {
  i_variables : gmap string (Value_ num);     (* variables *)
  i_console : Console_ env_t
}.
Arguments mkInterpreter {num env_t} i_variables i_console.
Arguments i_variables {num env_t} i.
Arguments i_console {num env_t} i.
Abbreviation Interpreter := (Interpreter_ double world).

Module TreeWalker.
Section Interpreter.
Context {H : Host}.

(** [Interpreter::evaluateExpression].  Only literals, identifiers and
    operator nodes have a case; every other node, and an operator node
    with fewer than two children or an operator it does not know, is
    nil. *)
Fixpoint evaluateExpression (variables : gmap string Value) (node : ASTNode) {struct node}
  : Outcome Value :=
  match node with
  | mkNode type value children =>
      match type with
      | NODE_NUMBER_LITERAL =>
          match stod value with
          | Some number => Ok (VNumber number)
          | None => Throw "stod"
          end
      | NODE_STRING_LITERAL => Ok (VString value)
      | NODE_IDENTIFIER =>
          match variables !! value with
          | Some found => Ok found
          | None => Ok VNil
          end
      | NODE_OPERATOR =>
          match children with
          | left_ :: right_ :: _ =>
              left_ ← evaluateExpression variables left_;
              right_ ← evaluateExpression variables right_;
              if String.eqb value "+" then
                if isString left_ || isString right_
                then Ok (VString (toString left_ +:+ toString right_))
                else Ok (VNumber (d_add (toNumber left_) (toNumber right_)))
              else if String.eqb value "-" then
                Ok (VNumber (d_sub (toNumber left_) (toNumber right_)))
              else if String.eqb value "*" then
                Ok (VNumber (d_mul (toNumber left_) (toNumber right_)))
              else if String.eqb value "/" then
                let r := toNumber right_ in
                if negb (d_eqb r d_zero) then Ok (VNumber (d_div (toNumber left_) r))
                else Throw "Division by zero"
              else if String.eqb value "%" then
                let r := toNumber right_ in
                if negb (d_eqb r d_zero) then Ok (VNumber (d_fmod (toNumber left_) r))
                else Throw "Modulo by zero"
              else Ok VNil
          | _ => Ok VNil
          end
      | _ => Ok VNil
      end
  end.

(** The arguments of a call: each child evaluated and converted with
    [toString], in order. *)
Fixpoint evaluateArguments (variables : gmap string Value) (nodes : list ASTNode)
  : Outcome (list string) :=
  match nodes with
  | [] => Ok []
  | node :: rest =>
      value ← evaluateExpression variables node;
      args ← evaluateArguments variables rest;
      Ok (toString value :: args)
  end.

(** A statement that ran to its end, threw, or did not end within the
    fuel given ([None]). *)
Definition Run : Type := option (Outcome Interpreter).

Definition andThen (r : Run) (k : Interpreter -> Run) : Run :=
  match r with
  | Some (Ok st) => k st
  | other => other
  end.

Definition lift {A : Type} (o : Outcome A) (k : A -> Run) : Run :=
  match o with
  | Ok a => k a
  | Throw what => Some (Throw what)
  | Undefined => Some Undefined
  end.

Section Statements.
(** [interpret] on the children of a node. *)
Variable interpret : ASTNode -> Interpreter -> Run.

Fixpoint interpretAll (nodes : list ASTNode) (st : Interpreter) : Run :=
  match nodes with
  | [] => Some (Ok st)
  | child :: rest => andThen (interpret child st) (interpretAll rest)
  end.

(** The loop of a [while] statement ([increment] absent) and of a [for]
    statement, for at most [rounds] rounds. *)
Fixpoint loop (rounds : nat) (condition body : ASTNode) (increment : option ASTNode)
  (st : Interpreter) : Run :=
  match rounds with
  | O => None
  | S rounds' =>
      lift (evaluateExpression (i_variables st) condition) (fun condValue =>
      lift (asBoolean condValue) (fun continue =>
      if negb continue then Some (Ok st)
      else
        andThen (interpret body st) (fun st =>
        andThen (match increment with
                 | Some node => interpret node st
                 | None => Some (Ok st)
                 end)
                (loop rounds' condition body increment))))
  end.

End Statements.

(** [Interpreter::interpret], with [fuel] bounding the depth of the
    statements and the rounds of each loop. *)
Fixpoint interpret (fuel : nat) (node : ASTNode) (st : Interpreter) : Run :=
  match fuel with
  | O => None
  | S fuel' =>
      match node with
      | mkNode type value children =>
          match type with
          | NODE_PROGRAM => interpretAll (interpret fuel') children st
          | NODE_STATEMENT =>
              if String.eqb value "use" then
                match children with
                | child :: _ => interpret fuel' child st
                | [] => Some (Ok st)
                end
              else Some (Ok st)
          | NODE_ASSIGN =>
              match children with
              | left_ :: right_ :: _ =>
                  match node_type left_ with
                  | NODE_IDENTIFIER =>
                      lift (evaluateExpression (i_variables st) right_) (fun value =>
                      Some (Ok (mkInterpreter
                                  (<[node_value left_ := value]> (i_variables st))
                                  (i_console st))))
                  | _ => Some (Ok st)
                  end
              | _ => Some (Ok st)
              end
          | NODE_CALL =>
              lift (evaluateArguments (i_variables st) children) (fun args =>
              match initBaselib !! value with
              | Some function =>
                  lift (function args (i_console st)) (fun c =>
                  Some (Ok (mkInterpreter (i_variables st) c)))
              | None =>
                  Some (Ok (mkInterpreter (i_variables st)
                              (eprint ("Error: Unknown function " +:+ value +:+ endl)
                                      (i_console st))))
              end)
          | NODE_IF_STATEMENT =>
              match children with
              | condition :: blocks =>
                  lift (evaluateExpression (i_variables st) condition) (fun condition =>
                  lift (asBoolean condition) (fun holds =>
                  if (holds : bool) then
                    match blocks with
                    | thenBlock :: _ => interpret fuel' thenBlock st
                    | [] => Some (Ok st)
                    end
                  else
                    match blocks with
                    | _ :: elseBlock :: _ => interpret fuel' elseBlock st
                    | _ => Some (Ok st)
                    end))
              | [] => Some (Ok st)
              end
          | NODE_WHILE_STATEMENT =>
              match children with
              | condition :: body :: _ => loop (interpret fuel') fuel' condition body None st
              | _ => Some (Ok st)
              end
          | NODE_FOR_STATEMENT =>
              match children with
              | init :: condition :: increment :: body :: _ =>
                  andThen (interpret fuel' init st)
                          (loop (interpret fuel') fuel' condition body (Some increment))
              | _ => Some (Ok st)
              end
          | NODE_BREAK_STATEMENT => Some (Throw "break statement outside loop")
          | NODE_CONTINUE_STATEMENT => Some (Throw "continue statement outside loop")
          | _ => Some (Ok st)
          end
      end
  end.

(** The interpreter as its constructor leaves it. *)
Definition start (w : world) : Interpreter := mkInterpreter ∅ (mkConsole "" "" w).

End Interpreter.
End TreeWalker.

(** ** simple_interpreter.cpp: the lexer

    The lexer and the parser are loops over a state.  A computation over
    a state [S] returns a result and the next state, throws, has no
    defined behaviour, or needs more fuel than it was given ([None]):
    every loop round and every call of a recursive function takes one
    unit of fuel. *)

Definition Step (S A : Type) : Type := S -> option (Outcome (A * S)).

Definition step_ret {S A : Type} (a : A) : Step S A := fun s => Some (Ok (a, s)).

Definition step_bind {S A B : Type} (k : A -> Step S B) (m : Step S A) : Step S B :=
  fun s =>
    match m s with
    | Some (Ok (a, s')) => k a s'
    | Some (Throw what) => Some (Throw what)
    | Some Undefined => Some Undefined
    | None => None
    end.

Global Instance step_mret {S : Type} : MRet (Step S) := fun A => step_ret.
Global Instance step_mbind {S : Type} : MBind (Step S) := fun A B => step_bind.

Definition step_throw {S A : Type} (what : string) : Step S A := fun _ => Some (Throw what).
Definition out_of_fuel {S A : Type} : Step S A := fun _ => None.
Definition get_state {S : Type} : Step S S := fun s => Some (Ok (s, s)).
Definition put_state {S : Type} (s : S) : Step S unit := fun _ => Some (Ok (tt, s)).

Definition step_lift {S A : Type} (o : Outcome A) : Step S A :=
  fun s =>
    match o with
    | Ok a => Some (Ok (a, s))
    | Throw what => Some (Throw what)
    | Undefined => Some Undefined
    end.

(** [while (cond) body] *)
Fixpoint while {S : Type} (fuel : nat) (cond : Step S bool) (body : Step S unit)
  : Step S unit :=
  match fuel with
  | O => out_of_fuel
  | S fuel => b ← cond; if b : bool then body;; while fuel cond body else mret tt
  end.

Inductive TokenType :=
| TOKEN_EOF | TOKEN_KEYWORD | TOKEN_IDENTIFIER | TOKEN_NUMBER | TOKEN_STRING
| TOKEN_PUNCTUATION | TOKEN_DIRECTIVE.

(** The value of the enumerator, as [std::to_string(type)] prints it. *)
Definition TokenType_value (t : TokenType) : Z :=
  match t with
  | TOKEN_EOF => 0 | TOKEN_KEYWORD => 1 | TOKEN_IDENTIFIER => 2 | TOKEN_NUMBER => 3
  | TOKEN_STRING => 4 | TOKEN_PUNCTUATION => 5 | TOKEN_DIRECTIVE => 6
  end.

Definition TokenType_eqb (a b : TokenType) : bool := TokenType_value a =? TokenType_value b.

Record Token := mkToken {
  token_type : TokenType;
  token_value : string;
  token_line : Z;
  token_column : Z
}.

(** <cctype> in the "C" locale.  The argument is the [char] converted to
    [int].  [char] is signed on this host: a byte of 128 to 254 is a
    negative argument other than [EOF], for which the functions have no
    defined behaviour, and the byte 255 is [EOF], which is in no class. *)
Definition cctype (class : nat -> bool) (c : ascii) : Outcome bool :=
  let n := nat_of_ascii c in
  if (n <? 128)%nat then Ok (class n)
  else if (n =? 255)%nat then Ok false
  else Undefined.

Definition space_class (n : nat) : bool := ((n =? 32) || ((9 <=? n) && (n <=? 13)))%nat.
Definition digit_class (n : nat) : bool := ((48 <=? n) && (n <=? 57))%nat.
Definition alpha_class (n : nat) : bool :=
  (((65 <=? n) && (n <=? 90)) || ((97 <=? n) && (n <=? 122)))%nat.

Definition isspace : ascii -> Outcome bool := cctype space_class.
Definition isdigit : ascii -> Outcome bool := cctype digit_class.
Definition isalpha : ascii -> Outcome bool := cctype alpha_class.
Definition isalnum : ascii -> Outcome bool :=
  cctype (fun n => alpha_class n || digit_class n).

(** [x++] on an [int]. *)
Definition increment (x : Z) : Outcome Z := if x <? INT_MAX then Ok (x + 1) else Undefined.

Module Lexer.

Record Lexer := mkLexer {
  input : string;
  position : nat;
  line : Z;
  column : Z
}.

Definition new (input : string) : Lexer := mkLexer input 0 1 1.

Definition isAtEnd (lx : Lexer) : bool := (String.length (input lx) <=? position lx)%nat.

(** [input[position]]: at [input.size()] it is the terminating zero,
    beyond it the access has no defined behaviour. *)
Definition current : Step Lexer ascii := fun lx =>
  match String.get (position lx) (input lx) with
  | Some c => Some (Ok (c, lx))
  | None =>
      if (position lx =? String.length (input lx))%nat then Some (Ok (Ascii.zero, lx))
      else Some Undefined
  end.

Definition advance : Step Lexer ascii :=
  lx ← get_state;
  column' ← step_lift (increment (column lx));
  c ← current;
  put_state (mkLexer (input lx) (S (position lx)) (line lx) column');;
  mret c.

Definition peek : Step Lexer ascii :=
  lx ← get_state;
  if isAtEnd lx then mret Ascii.zero else current.

Definition getPosition : Step Lexer nat :=
  lx ← get_state;
  mret (position lx).

(** [input.substr(start, position - start)] *)
Definition since (start : nat) : Step Lexer string :=
  lx ← get_state;
  mret (String.substring start (position lx - start) (input lx)).

(** [{type, value, line, column}] *)
Definition token (type : TokenType) (value : string) : Step Lexer Token :=
  lx ← get_state;
  mret (mkToken type value (line lx) (column lx)).

(** [!isAtEnd() && test(input[position])] *)
Definition here (test : ascii -> Outcome bool) : Step Lexer bool :=
  lx ← get_state;
  if isAtEnd lx then mret false
  else c ← current; step_lift (test c).

Definition char_is (a : ascii) (c : ascii) : bool := Ascii.eqb c a.

Definition newline : ascii := ascii_of_nat 10.
Definition quote : ascii := ascii_of_nat 34.
Definition backslash : ascii := ascii_of_nat 92.

Definition skipWhitespace (fuel : nat) : Step Lexer unit :=
  while fuel (here isspace)
    (c ← current;
     (if char_is newline c then
        lx ← get_state;
        line' ← step_lift (increment (line lx));
        put_state (mkLexer (input lx) (position lx) line' 1)
      else mret tt);;
     advance;; mret tt).

Definition skipComment (fuel : nat) : Step Lexer unit :=
  while fuel (here (fun c => Ok (negb (char_is newline c)))) (advance;; mret tt);;
  lx ← get_state;
  if negb (isAtEnd lx) then advance;; mret tt else mret tt.

Definition keywords : list string :=
  ["cra"; "cre"; "use"; "del"; "if"; "else"; "while"; "for"; "break"; "continue"].

Definition identifier (fuel : nat) : Step Lexer Token :=
  start ← getPosition;
  while fuel
    (here (fun c => alnum ← isalnum c; Ok (alnum || char_is "_" c || char_is "." c)))
    (advance;; mret tt);;
  value ← since start;
  if existsb (String.eqb value) keywords then token TOKEN_KEYWORD value
  else token TOKEN_IDENTIFIER value.

Definition string_ (fuel : nat) : Step Lexer Token :=
  advance;;
  start ← getPosition;
  while fuel (here (fun c => Ok (negb (char_is quote c))))
    (c ← current;
     (if char_is backslash c then advance;; mret tt else mret tt);;
     advance;; mret tt);;
  lx ← get_state;
  if isAtEnd lx then step_throw "Unterminated string"
  else
    value ← since start;
    advance;;
    token TOKEN_STRING value.

Definition number (fuel : nat) : Step Lexer Token :=
  start ← getPosition;
  while fuel (here (fun c => digit ← isdigit c; Ok (digit || char_is "." c))) (advance;; mret tt);;
  value ← since start;
  token TOKEN_NUMBER value.

Definition directive (fuel : nat) : Step Lexer Token :=
  start ← getPosition;
  advance;;
  while fuel (here (fun c => space ← isspace c; Ok (negb space && negb (char_is ";" c))))
    (advance;; mret tt);;
  value ← since start;
  token TOKEN_DIRECTIVE value.

Definition one_of (chars : string) (c : ascii) : bool :=
  existsb (Ascii.eqb c) (list_ascii_of_string chars).

Fixpoint getNextToken (fuel : nat) : Step Lexer Token :=
  match fuel with
  | O => out_of_fuel
  | S fuel =>
      lx ← get_state;
      if isAtEnd lx then token TOKEN_EOF ""
      else
        c ← current;
        space ← step_lift (isspace c);
        if space : bool then skipWhitespace fuel;; getNextToken fuel
        else if char_is "#" c then directive fuel
        else if char_is quote c then string_ fuel
        else
          digit ← step_lift (isdigit c);
          if digit : bool then number fuel
          else
            alpha ← step_lift (isalpha c);
            if (alpha : bool) || char_is "_" c then identifier fuel
            else if one_of "+-*/%" c then
              advance;;
              comment ← (if char_is "/" c then next ← peek; mret (char_is "/" next)
                         else mret false);
              if comment : bool then skipComment fuel;; getNextToken fuel
              else token TOKEN_PUNCTUATION (String c "")
            else if one_of "=!<>" c then
              advance;;
              next ← peek;
              if char_is "=" next then
                op2 ← advance;
                token TOKEN_PUNCTUATION (String c (String op2 ""))
              else token TOKEN_PUNCTUATION (String c "")
            else if one_of "&|" c then
              advance;;
              next ← peek;
              if char_is c next then
                advance;;
                token TOKEN_PUNCTUATION (String c (String c ""))
              else
                lx ← get_state;
                step_throw ("Invalid operator at line " +:+ decimal (line lx))
            else
              advance;;
              token TOKEN_PUNCTUATION (String c "")
  end.

End Lexer.

(** ** simple_interpreter.cpp: the parser *)

Module Parser.

Record Parser := mkParser {
  lexer : Lexer.Lexer;
  currentToken : Token
}.

(** The constructor reads the first token. *)
Definition new (fuel : nat) (lx : Lexer.Lexer) : option (Outcome Parser) :=
  match Lexer.getNextToken fuel lx with
  | Some (Ok (tok, lx')) => Some (Ok (mkParser lx' tok))
  | Some (Throw what) => Some (Throw what)
  | Some Undefined => Some Undefined
  | None => None
  end.

(** [currentToken = lexer.getNextToken()] *)
Definition next (fuel : nat) : Step Parser unit := fun p =>
  match Lexer.getNextToken fuel (lexer p) with
  | Some (Ok (tok, lx')) => Some (Ok (tt, mkParser lx' tok))
  | Some (Throw what) => Some (Throw what)
  | Some Undefined => Some Undefined
  | None => None
  end.

Definition current : Step Parser Token :=
  p ← get_state;
  mret (currentToken p).

Definition eat (fuel : nat) (type : TokenType) : Step Parser unit :=
  tok ← current;
  if TokenType_eqb (token_type tok) type then next fuel
  else
    step_throw ("Syntax Error: Expected token type " +:+ decimal (TokenType_value type) +:+
                " but got " +:+ decimal (TokenType_value (token_type tok)) +:+
                " at line " +:+ decimal (token_line tok)).

(** [currentToken.type == type] *)
Definition has_type (type : TokenType) (tok : Token) : bool :=
  TokenType_eqb (token_type tok) type.

(** [currentToken.type == type && currentToken.value == value] *)
Definition is_token (type : TokenType) (value : string) (tok : Token) : bool :=
  has_type type tok && String.eqb (token_value tok) value.

Definition isAtEndOfLine (tok : Token) : bool :=
  is_token TOKEN_PUNCTUATION ";" tok ||
  has_type TOKEN_KEYWORD tok ||
  has_type TOKEN_DIRECTIVE tok ||
  has_type TOKEN_EOF tok.

(** The three levels of an arithmetic expression.  [expr_loop] and
    [term_loop] are the [while] loops of [expr] and [term], with the tree
    built so far. *)
Fixpoint expr (fuel : nat) : Step Parser ASTNode :=
  match fuel with
  | O => out_of_fuel
  | S fuel =>
      left ← term fuel;
      expr_loop fuel left
  end
with expr_loop (fuel : nat) (left : ASTNode) : Step Parser ASTNode :=
  match fuel with
  | O => out_of_fuel
  | S fuel =>
      tok ← current;
      if has_type TOKEN_PUNCTUATION tok &&
         (String.eqb (token_value tok) "+" || String.eqb (token_value tok) "-") then
        eat fuel TOKEN_PUNCTUATION;;
        right ← term fuel;
        expr_loop fuel (mkNode NODE_OPERATOR (token_value tok) [left; right])
      else mret left
  end
with term (fuel : nat) : Step Parser ASTNode :=
  match fuel with
  | O => out_of_fuel
  | S fuel =>
      left ← factor fuel;
      term_loop fuel left
  end
with term_loop (fuel : nat) (left : ASTNode) : Step Parser ASTNode :=
  match fuel with
  | O => out_of_fuel
  | S fuel =>
      tok ← current;
      if has_type TOKEN_PUNCTUATION tok &&
         (String.eqb (token_value tok) "*" || String.eqb (token_value tok) "/" ||
          String.eqb (token_value tok) "%") then
        eat fuel TOKEN_PUNCTUATION;;
        right ← factor fuel;
        term_loop fuel (mkNode NODE_OPERATOR (token_value tok) [left; right])
      else mret left
  end
with factor (fuel : nat) : Step Parser ASTNode :=
  match fuel with
  | O => out_of_fuel
  | S fuel =>
      tok ← current;
      if has_type TOKEN_NUMBER tok then
        eat fuel TOKEN_NUMBER;;
        mret (mkNode NODE_NUMBER_LITERAL (token_value tok) [])
      else if has_type TOKEN_IDENTIFIER tok then
        eat fuel TOKEN_IDENTIFIER;;
        mret (mkNode NODE_IDENTIFIER (token_value tok) [])
      else if is_token TOKEN_PUNCTUATION "(" tok then
        eat fuel TOKEN_PUNCTUATION;;
        node ← expr fuel;
        tok ← current;
        if is_token TOKEN_PUNCTUATION ")" tok then
          eat fuel TOKEN_PUNCTUATION;;
          mret node
        else
          step_throw ("Syntax Error: Missing closing parenthesis at line " +:+
                      decimal (token_line tok))
      else
        step_throw ("Syntax Error: Unexpected token at line " +:+ decimal (token_line tok))
  end.

Definition expression (fuel : nat) : Step Parser ASTNode :=
  tok ← current;
  if has_type TOKEN_STRING tok then
    eat fuel TOKEN_STRING;;
    mret (mkNode NODE_STRING_LITERAL (token_value tok) [])
  else if has_type TOKEN_NUMBER tok || is_token TOKEN_PUNCTUATION "(" tok then
    child ← expr fuel;
    mret (mkNode NODE_EXPRESSION "" [child])
  else if has_type TOKEN_IDENTIFIER tok then
    let identifier := mkNode NODE_IDENTIFIER (token_value tok) [] in
    eat fuel TOKEN_IDENTIFIER;;
    tok ← current;
    if is_token TOKEN_PUNCTUATION "=" tok then
      eat fuel TOKEN_PUNCTUATION;;
      tok ← current;
      rightExpr ← (if has_type TOKEN_STRING tok then
                     eat fuel TOKEN_STRING;;
                     mret (mkNode NODE_STRING_LITERAL (token_value tok) [])
                   else
                     child ← expr fuel;
                     mret (mkNode NODE_EXPRESSION "" [child]));
      mret (mkNode NODE_ASSIGN "" [identifier; rightExpr])
    else mret identifier
  else
    step_throw ("Syntax Error: Unexpected token at line " +:+ decimal (token_line tok)).

Definition call (fuel : nat) : Step Parser ASTNode :=
  tok ← current;
  value ← (if has_type TOKEN_IDENTIFIER tok then
             eat fuel TOKEN_IDENTIFIER;; mret (token_value tok)
           else mret "");
  tok ← current;
  if negb (has_type TOKEN_EOF tok) && negb (has_type TOKEN_KEYWORD tok) &&
     negb (is_token TOKEN_PUNCTUATION "}" tok) then
    child ← expression fuel;
    mret (mkNode NODE_CALL value [child])
  else mret (mkNode NODE_CALL value []).

(** The loop of [directive], with the children added so far. *)
Fixpoint directive_loop (fuel : nat) (children : list ASTNode)
  : Step Parser (list ASTNode) :=
  match fuel with
  | O => out_of_fuel
  | S fuel =>
      tok ← current;
      if negb (isAtEndOfLine tok) && negb (has_type TOKEN_EOF tok) then
        if has_type TOKEN_STRING tok || has_type TOKEN_IDENTIFIER tok ||
           has_type TOKEN_NUMBER tok then
          child ← expression fuel;
          directive_loop fuel (children ++ [child])
        else
          eat fuel (token_type tok);;
          directive_loop fuel children
      else mret children
  end.

Definition directive (fuel : nat) : Step Parser ASTNode :=
  tok ← current;
  eat fuel TOKEN_DIRECTIVE;;
  children ← directive_loop fuel [];
  mret (mkNode NODE_DIRECTIVE (token_value tok) children).

Definition parseBreakStatement (fuel : nat) : Step Parser ASTNode :=
  eat fuel TOKEN_KEYWORD;;
  mret (mkNode NODE_BREAK_STATEMENT "" []).

Definition parseContinueStatement (fuel : nat) : Step Parser ASTNode :=
  eat fuel TOKEN_KEYWORD;;
  mret (mkNode NODE_CONTINUE_STATEMENT "" []).

(** [if (currentToken is "(") { eat; add expression(); if (currentToken is ")") eat; }],
    the condition of an [if] and of a [while]. *)
Definition condition (fuel : nat) : Step Parser (list ASTNode) :=
  tok ← current;
  if is_token TOKEN_PUNCTUATION "(" tok then
    eat fuel TOKEN_PUNCTUATION;;
    child ← expression fuel;
    tok ← current;
    (if is_token TOKEN_PUNCTUATION ")" tok then eat fuel TOKEN_PUNCTUATION else mret tt);;
    mret [child]
  else mret [].

(** [if (currentToken is "}") eat(TOKEN_PUNCTUATION);] *)
Definition closing_brace (fuel : nat) : Step Parser unit :=
  tok ← current;
  if is_token TOKEN_PUNCTUATION "}" tok then eat fuel TOKEN_PUNCTUATION else mret tt.

(** The loop of a [cre] statement, with the children added so far. *)
Fixpoint cre_loop (fuel : nat) (children : list ASTNode) : Step Parser (list ASTNode) :=
  match fuel with
  | O => out_of_fuel
  | S fuel =>
      tok ← current;
      if negb (has_type TOKEN_EOF tok) && negb (has_type TOKEN_KEYWORD tok) &&
         negb (is_token TOKEN_PUNCTUATION "}" tok) then
        if has_type TOKEN_STRING tok || has_type TOKEN_IDENTIFIER tok then
          child ← expression fuel;
          cre_loop fuel (children ++ [child])
        else
          eat fuel (token_type tok);;
          cre_loop fuel children
      else mret children
  end.

(** Statements.  [statements] is the loop
    [while (currentToken.type != TOKEN_EOF && !(currentToken is "}")) add statement()]
    of a body in braces, with the children added so far, and [braces]
    the body in braces of an [if], [while] or [for], a block node. *)
Fixpoint statement (fuel : nat) : Step Parser ASTNode :=
  match fuel with
  | O => out_of_fuel
  | S fuel =>
      tok ← current;
      if is_token TOKEN_KEYWORD "if" tok then parseIfStatement fuel
      else if is_token TOKEN_KEYWORD "while" tok then parseWhileStatement fuel
      else if is_token TOKEN_KEYWORD "for" tok then parseForStatement fuel
      else if is_token TOKEN_KEYWORD "break" tok then parseBreakStatement fuel
      else if is_token TOKEN_KEYWORD "continue" tok then parseContinueStatement fuel
      else if has_type TOKEN_KEYWORD tok then
        let value := token_value tok in
        eat fuel TOKEN_KEYWORD;;
        if String.eqb value "use" then
          child ← call fuel;
          mret (mkNode NODE_STATEMENT value [child])
        else if String.eqb value "cra" || String.eqb value "del" then
          tok ← current;
          name ← (if has_type TOKEN_IDENTIFIER tok then
                    eat fuel TOKEN_IDENTIFIER;;
                    mret [mkNode NODE_IDENTIFIER (token_value tok) []]
                  else mret []);
          tok ← current;
          if is_token TOKEN_PUNCTUATION "{" tok then
            eat fuel TOKEN_PUNCTUATION;;
            children ← statements fuel name;
            closing_brace fuel;;
            mret (mkNode NODE_STATEMENT value children)
          else mret (mkNode NODE_STATEMENT value name)
        else if String.eqb value "cre" then
          children ← cre_loop fuel [];
          mret (mkNode NODE_STATEMENT value children)
        else mret (mkNode NODE_STATEMENT value [])
      else mret (mkNode NODE_STATEMENT "" [])
  end
with statements (fuel : nat) (children : list ASTNode) : Step Parser (list ASTNode) :=
  match fuel with
  | O => out_of_fuel
  | S fuel =>
      tok ← current;
      if negb (has_type TOKEN_EOF tok) && negb (is_token TOKEN_PUNCTUATION "}" tok) then
        child ← statement fuel;
        statements fuel (children ++ [child])
      else mret children
  end
with braces (fuel : nat) : Step Parser ASTNode :=
  match fuel with
  | O => out_of_fuel
  | S fuel =>
      tok ← current;
      if is_token TOKEN_PUNCTUATION "{" tok then
        eat fuel TOKEN_PUNCTUATION;;
        children ← statements fuel [];
        closing_brace fuel;;
        mret (mkNode NODE_BLOCK "" children)
      else mret (mkNode NODE_BLOCK "" [])
  end
with parseIfStatement (fuel : nat) : Step Parser ASTNode :=
  match fuel with
  | O => out_of_fuel
  | S fuel =>
      eat fuel TOKEN_KEYWORD;;
      test ← condition fuel;
      ifBlock ← braces fuel;
      tok ← current;
      if is_token TOKEN_KEYWORD "else" tok then
        eat fuel TOKEN_KEYWORD;;
        tok ← current;
        if is_token TOKEN_PUNCTUATION "{" tok then
          elseBlock ← braces fuel;
          mret (mkNode NODE_IF_STATEMENT "" (test ++ [ifBlock; elseBlock]))
        else if is_token TOKEN_KEYWORD "if" tok then
          elseIf ← parseIfStatement fuel;
          mret (mkNode NODE_IF_STATEMENT ""
                       (test ++ [ifBlock; mkNode NODE_BLOCK "" [elseIf]]))
        else mret (mkNode NODE_IF_STATEMENT "" (test ++ [ifBlock]))
      else mret (mkNode NODE_IF_STATEMENT "" (test ++ [ifBlock]))
  end
with parseWhileStatement (fuel : nat) : Step Parser ASTNode :=
  match fuel with
  | O => out_of_fuel
  | S fuel =>
      eat fuel TOKEN_KEYWORD;;
      test ← condition fuel;
      loopBlock ← braces fuel;
      mret (mkNode NODE_WHILE_STATEMENT "" (test ++ [loopBlock]))
  end
with parseForStatement (fuel : nat) : Step Parser ASTNode :=
  match fuel with
  | O => out_of_fuel
  | S fuel =>
      eat fuel TOKEN_KEYWORD;;
      tok ← current;
      header ←
        (if is_token TOKEN_PUNCTUATION "(" tok then
           eat fuel TOKEN_PUNCTUATION;;
           tok ← current;
           init ← (if negb (is_token TOKEN_PUNCTUATION ";" tok) then
                     child ← statement fuel; mret [child]
                   else mret []);
           tok ← current;
           (if is_token TOKEN_PUNCTUATION ";" tok then eat fuel TOKEN_PUNCTUATION
            else mret tt);;
           tok ← current;
           test ← (if negb (is_token TOKEN_PUNCTUATION ";" tok) then
                     child ← expression fuel; mret [child]
                   else mret []);
           tok ← current;
           (if is_token TOKEN_PUNCTUATION ";" tok then eat fuel TOKEN_PUNCTUATION
            else mret tt);;
           tok ← current;
           update ← (if negb (is_token TOKEN_PUNCTUATION ")" tok) then
                       child ← statement fuel; mret [child]
                     else mret []);
           tok ← current;
           (if is_token TOKEN_PUNCTUATION ")" tok then eat fuel TOKEN_PUNCTUATION
            else mret tt);;
           mret (init ++ test ++ update)
         else mret []);
      loopBlock ← braces fuel;
      mret (mkNode NODE_FOR_STATEMENT "" (header ++ [loopBlock]))
  end.

(** The loop of [program], with the children added so far. *)
Fixpoint program_loop (fuel : nat) (children : list ASTNode) : Step Parser ASTNode :=
  match fuel with
  | O => out_of_fuel
  | S fuel =>
      tok ← current;
      if negb (has_type TOKEN_EOF tok) then
        child ← (if has_type TOKEN_DIRECTIVE tok then directive fuel else statement fuel);
        program_loop fuel (children ++ [child])
      else mret (mkNode NODE_PROGRAM "" children)
  end.

Definition program (fuel : nat) : Step Parser ASTNode := program_loop fuel [].

Definition parse (fuel : nat) : Step Parser ASTNode := program fuel.

End Parser.

(** ** simple_interpreter.cpp: from source text to a run

    [Interpreter::execute] parses the text and interprets the tree;
    [main] with [--compile] parses the text and generates the bytecode
    that it then saves.  The calls of [execute] that register the
    variables with the collector and collect are left out, as in the
    interpreter. *)

Module Toolchain.
Section Toolchain.
Context {H : Host}.

(** [Lexer lexer(code); Parser parser(lexer); ASTNode* ast = parser.parse();] *)
Definition parse (fuel : nat) (code : string) : option (Outcome ASTNode) :=
  match Parser.new fuel (Lexer.new code) with
  | Some (Ok parser) =>
      match Parser.parse fuel parser with
      | Some (Ok (ast, _)) => Some (Ok ast)
      | Some (Throw what) => Some (Throw what)
      | Some Undefined => Some Undefined
      | None => None
      end
  | Some (Throw what) => Some (Throw what)
  | Some Undefined => Some Undefined
  | None => None
  end.

(** [Interpreter::execute] *)
Definition execute (fuel : nat) (code : string) (st : Interpreter) : TreeWalker.Run :=
  match parse fuel code with
  | Some (Ok ast) => TreeWalker.interpret fuel ast st
  | Some (Throw what) => Some (Throw what)
  | Some Undefined => Some Undefined
  | None => None
  end.


End Toolchain.
End Toolchain.

(** ** slime_gc.h and gc_value.h: values known to the collector

    The collector is reached through the C interface of slime_gc.h; its
    implementation is not part of the sources.  An object is known to it
    by its address. *)

(** A value in memory: the shape of a [Value] with the address of every
    [Value] object in it, the elements of its arrays and the values of
    its hashes included. *)
Inductive Located_ (num : Type) :=
| LNumber (address : Z) (number : num)
| LString (address : Z) (str : string)
| LBoolean (address : Z) (boolean : bool)
| LNil (address : Z)
| LArray (address : Z) (array : list (Located_ num))
| LHash (address : Z) (hash : list (string * Located_ num)).
Arguments LNumber {num} address number.
Arguments LString {num} address str.
Arguments LBoolean {num} address boolean.
Arguments LNil {num} address.
Arguments LArray {num} address array.
Arguments LHash {num} address hash.
Abbreviation Located := (Located_ double).

Section Collector.

(** Modelled from the spec: the collector of slime_gc.h, whose
    implementation is missing.  It is "a node set of registered object
    identities plus a directed adjacency relation (object A holds a
    reference to object B), and a root set". *)
Record GarbageCollector := mkGC {
  objects : gset Z;
  references : gset (Z * Z);
  roots : gset Z
}.

(** Modelled from the spec: [slime_gc_new], an empty graph. *)
Definition slime_gc_new : GarbageCollector := mkGC ∅ ∅ ∅.

(** Modelled from the spec: [slime_gc_register_object]. *)
Definition slime_gc_register_object (gc : GarbageCollector) (obj : Z) : GarbageCollector :=
  mkGC (objects gc ∪ {[obj]}) (references gc) (roots gc).

(** Modelled from the spec: [slime_gc_unregister_object]. *)
Definition slime_gc_unregister_object (gc : GarbageCollector) (obj : Z) : GarbageCollector :=
  mkGC (objects gc ∖ {[obj]}) (references gc) (roots gc).

(** Modelled from the spec: [slime_gc_add_reference], the edge [from -> to]. *)
Definition slime_gc_add_reference (gc : GarbageCollector) (from to : Z) : GarbageCollector :=
  mkGC (objects gc) (references gc ∪ {[(from, to)]}) (roots gc).

(** Modelled from the spec: [slime_gc_clear_references], which drops the
    edges that leave [obj]. *)
Definition slime_gc_clear_references (gc : GarbageCollector) (obj : Z) : GarbageCollector :=
  mkGC (objects gc) (filter (fun e => e.1 ≠ obj) (references gc)) (roots gc).

Context {H : Host}.

Definition address_of (x : Located) : Z :=
  match x with
  | LNumber a _ | LString a _ | LBoolean a _ | LNil a | LArray a _ | LHash a _ => a
  end.

(** The [Value] stored at an object. *)
Fixpoint value_of (x : Located) : Value :=
  match x with
  | LNumber _ d => VNumber d
  | LString _ s => VString s
  | LBoolean _ b => VBoolean b
  | LNil _ => VNil
  | LArray _ array => VArray (List.map value_of array)
  | LHash _ hash => VHash (List.map (fun kv => (kv.1, value_of kv.2)) hash)
  end.

(** The addresses of the values an object contains, at any depth. *)
Fixpoint contained (x : Located) : list Z :=
  match x with
  | LArray _ array => flat_map (fun y => address_of y :: contained y) array
  | LHash _ hash => flat_map (fun kv => address_of kv.2 :: contained kv.2) hash
  | _ => []
  end.

(** The copy constructor of [Value] builds the copy of [x] at [address];
    what the copy contains is allocated from [next] onwards.  The result
    is the copy and the next free address. *)
Fixpoint copy_to (address next : Z) (x : Located) {struct x} : Located * Z :=
  match x with
  | LNumber _ d => (LNumber address d, next)
  | LString _ s => (LString address s, next)
  | LBoolean _ b => (LBoolean address b, next)
  | LNil _ => (LNil address, next)
  | LArray _ array =>
      let '(array', next') :=
        (fix each (l : list Located) (next : Z) : list Located * Z :=
           match l with
           | [] => ([], next)
           | y :: tl =>
               let '(y', n1) := copy_to next (next + 1) y in
               let '(tl', n2) := each tl n1 in
               (y' :: tl', n2)
           end) array next in
      (LArray address array', next')
  | LHash _ hash =>
      let '(hash', next') :=
        (fix each (l : list (string * Located)) (next : Z) : list (string * Located) * Z :=
           match l with
           | [] => ([], next)
           | (k, y) :: tl =>
               let '(y', n1) := copy_to next (next + 1) y in
               let '(tl', n2) := each tl n1 in
               ((k, y') :: tl', n2)
           end) hash next in
      (LHash address hash', next')
  end.

(** The process: the collector [gc_] and the next free address. *)
Record Memory := mkMemory { gc_ : GarbageCollector; free : Z }.

(** [hash[key] = value] on the entries of a [std::map], kept in key
    order: an entry with the key is assigned in place, a new entry is
    allocated. *)
Fixpoint hash_assign (key : string) (value : Located) (next : Z)
  (h : list (string * Located)) : list (string * Located) * Z :=
  match h with
  | [] => let '(copy, next') := copy_to next (next + 1) value in ([(key, copy)], next')
  | (k, y) :: tl =>
      if String.eqb k key then
        let '(copy, next') := copy_to (address_of y) next value in ((k, copy) :: tl, next')
      else if String.ltb key k then
        let '(copy, next') := copy_to next (next + 1) value in ((key, copy) :: h, next')
      else
        let '(tl', next') := hash_assign key value next tl in ((k, y) :: tl', next')
  end.

(** [GCValue::addAllReferences]: the edge to [other]; the branches for
    arrays and hashes are empty. *)
Definition addAllReferences (this : Z) (other : Located) (gc : GarbageCollector)
  : GarbageCollector :=
  let gc := slime_gc_add_reference gc this (address_of other) in
  match other with
  | LArray _ array => gc
  | LHash _ hash => gc
  | _ => gc
  end.

(** [GCValue::push]: on an array, [array.push_back(item)] and one edge. *)
Definition gc_push (this item : Located) (m : Memory) : Located * Memory :=
  match this with
  | LArray a array =>
      let '(copy, next) := copy_to (free m) (free m + 1) item in
      (LArray a (array ++ [copy]),
       mkMemory (slime_gc_add_reference (gc_ m) a (address_of item)) next)
  | _ => (this, m)
  end.

(** [GCValue::set]: on a hash, [hash[key] = value] and one edge. *)
Definition gc_set (this : Located) (key : string) (value : Located) (m : Memory)
  : Located * Memory :=
  match this with
  | LHash a hash =>
      let '(hash', next) := hash_assign key value (free m) hash in
      (LHash a hash',
       mkMemory (slime_gc_add_reference (gc_ m) a (address_of value)) next)
  | _ => (this, m)
  end.

(** [GCValue::operator=(const GCValue&)] *)
Definition gc_assign (this other : Located) (m : Memory) : Located * Memory :=
  if address_of this =? address_of other then (this, m)
  else
    let gc := slime_gc_clear_references (gc_ m) (address_of this) in
    let '(copy, next) := copy_to (address_of this) (free m) other in
    (copy, mkMemory (addAllReferences (address_of this) other gc) next).

End Collector.

(** ** The host [Binary64]: IEEE-754 binary64 on a little-endian machine

    A [double] is its eight bytes in memory.  Arithmetic decodes them to
    the Standard Library's specification of IEEE floats ([SpecFloat],
    precision 53, [emax] 1024, round to nearest even) and encodes the
    result, and passes on the NaN of an operand as the instructions of
    the machine do; comparison goes through the exact value of a number
    scaled by [2^1074], which is an integer. *)

Module Binary64.

Record binary64 := B64 {
  byte0 : byte; byte1 : byte; byte2 : byte; byte3 : byte;
  byte4 : byte; byte5 : byte; byte6 : byte; byte7 : byte
}.

Definition to_bytes (d : binary64) : list byte :=
  [byte0 d; byte1 d; byte2 d; byte3 d; byte4 d; byte5 d; byte6 d; byte7 d].

Definition of_bytes (l : list byte) : binary64 :=
  B64 (nth 0 l x00) (nth 1 l x00) (nth 2 l x00) (nth 3 l x00)
      (nth 4 l x00) (nth 5 l x00) (nth 6 l x00) (nth 7 l x00).

Definition bits (d : binary64) : Z :=
  fold_right (fun b acc => byteZ b + 256 * acc) 0 (to_bytes d).

Definition of_bits (z : Z) : binary64 :=
  of_bytes (List.map (fun i => Zbyte (Z.shiftr z (8 * Z.of_nat i))) (seq 0 8)).

Definition prec : Z := 53.
Definition emax : Z := 1024.

Definition sign_bit (d : binary64) : bool := Z.testbit (bits d) 63.
Definition exponent_field (d : binary64) : Z := Z.land (Z.shiftr (bits d) 52) 0x7FF.
Definition fraction_field (d : binary64) : Z := Z.land (bits d) (2 ^ 52 - 1).

Definition decode (d : binary64) : spec_float :=
  let s := sign_bit d in
  let e := exponent_field d in
  let f := fraction_field d in
  if e =? 0 then
    match f with
    | Zpos m => S754_finite s m (-1074)
    | _ => S754_zero s
    end
  else if e =? 0x7FF then
    if f =? 0 then S754_infinity s else S754_nan
  else
    match f + 2 ^ 52 with
    | Zpos m => S754_finite s m (e - 1075)
    | _ => S754_nan
    end.

Definition sign_field (s : bool) : Z := if s then 2 ^ 63 else 0.

(** The quiet NaN an x86-64 arithmetic instruction produces for an
    invalid operation on numbers ([0.0 / 0.0], the difference of two
    infinities).  The NaN of an operand is propagated instead, see
    [propagated]. *)
Definition default_nan : Z := 0xFFF8000000000000.

Definition encode (x : spec_float) : binary64 :=
  of_bits
    match x with
    | S754_zero s => sign_field s
    | S754_infinity s => sign_field s + Z.shiftl 0x7FF 52
    | S754_nan => default_nan
    | S754_finite s m e =>
        if Zpos m <? 2 ^ 52 then sign_field s + Zpos m
        else sign_field s + Z.shiftl (e + 1075) 52 + (Zpos m - 2 ^ 52)
    end.

(** A NaN with its quiet bit set. *)
Definition quieted (d : binary64) : binary64 := of_bits (Z.lor (bits d) (2 ^ 51)).

(** The result of [ADDSD], [SUBSD], [MULSD] and [DIVSD] on a NaN
    operand: that operand, quieted; the first operand when both are
    NaNs (the operands are taken in source order). *)
Definition propagated (a b : binary64) : option binary64 :=
  match decode a, decode b with
  | S754_nan, _ => Some (quieted a)
  | _, S754_nan => Some (quieted b)
  | _, _ => None
  end.

Definition lift2 (op : spec_float -> spec_float -> spec_float) (a b : binary64) : binary64 :=
  match propagated a b with
  | Some nan => nan
  | None => encode (op (decode a) (decode b))
  end.

Definition add := lift2 (SFadd prec emax).
Definition sub := lift2 (SFsub prec emax).
Definition mul := lift2 (SFmul prec emax).
Definition div := lift2 (SFdiv prec emax).

Definition of_Z (z : Z) : binary64 := encode (binary_normalize prec emax z 0 false).

(** The exact value of a number times [2^1074]; an infinity lies beyond
    every finite number; a NaN has none. *)
Definition key (d : binary64) : option Z :=
  match decode d with
  | S754_nan => None
  | S754_zero _ => Some 0
  | S754_infinity s => Some (if s then - 2 ^ 2100 else 2 ^ 2100)
  | S754_finite s m e =>
      let v := Zpos m * 2 ^ (e + 1074) in Some (if s then - v else v)
  end.

Definition isnan (d : binary64) : bool :=
  match key d with
  | None => true
  | Some _ => false
  end.

Definition eqb (a b : binary64) : bool :=
  match key a, key b with
  | Some x, Some y => x =? y
  | _, _ => false
  end.

Definition ltb (a b : binary64) : bool :=
  match key a, key b with
  | Some x, Some y => x <? y
  | _, _ => false
  end.

(** [fmod x y]: [x - n * y] for the integer [n] of [x / y] truncated
    towards zero; the result is exact and has the sign of [x].  The
    library returns [(x * y) / (x * y)] when an operand is a NaN, [x] is
    an infinity or [y] is zero: the NaN of the operand, as the
    instructions propagate it, or the NaN of an invalid operation. *)
Definition scaled (m : positive) (e : Z) : Z := Zpos m * 2 ^ (e + 1074).

Definition fmod (a b : binary64) : binary64 :=
  match decode a, decode b with
  | S754_nan, _ => quieted a
  | _, S754_nan => quieted b
  | S754_infinity _, _ => encode S754_nan
  | _, S754_zero _ => encode S754_nan
  | _, S754_infinity _ => a
  | S754_zero _, _ => a
  | S754_finite sx mx ex, S754_finite _ my ey =>
      encode (binary_normalize prec emax
                (let r := Z.rem (scaled mx ex) (scaled my ey) in if sx then - r else r)
                (-1074) sx)
  end.

(** *** Printing: [std::to_string] is [printf("%f")], a stream prints
    with [printf("%g")]; both round the exact value to nearest even. *)

Definition round_div (num den : Z) : Z :=
  let q := num / den in
  match 2 * (num mod den) ?= den with
  | Lt => q
  | Gt => q + 1
  | Eq => if Z.even q then q else q + 1
  end.

Fixpoint zeros (n : nat) : string :=
  match n with
  | O => ""
  | S n' => "0" +:+ zeros n'
  end.

(** [n] written with at least [width] digits. *)
Definition padded (width : nat) (n : Z) : string :=
  let digits := decimal n in
  zeros (width - String.length digits) +:+ digits.

Definition minus (s : bool) : string := if s then "-" else "".

(** The magnitude [num / den] with [places] decimals. *)
Definition fixed (places : nat) (num den : Z) : string :=
  let scale := 10 ^ Z.of_nat places in
  let n := round_div (num * scale) den in
  decimal (n / scale) +:+
  match places with
  | O => ""
  | _ => "." +:+ padded places (n mod scale)
  end.

(** The magnitude of a finite number as a fraction. *)
Definition fraction (m : positive) (e : Z) : Z * Z :=
  if 0 <=? e then (Zpos m * 2 ^ e, 1) else (Zpos m, 2 ^ (- e)).

Definition special (d : binary64) : option string :=
  match decode d with
  | S754_nan => Some (minus (sign_bit d) +:+ "nan")
  | S754_infinity s => Some (minus s +:+ "inf")
  | _ => None
  end.

Definition to_string (d : binary64) : string :=
  match decode d with
  | S754_finite s m e => let '(num, den) := fraction m e in minus s +:+ fixed 6 num den
  | S754_zero s => minus s +:+ fixed 6 0 1
  | _ => default "" (special d)
  end.

(** The decimal exponent of [num / den]: the largest [x] with
    [10^x <= num / den]. *)
Fixpoint log10_up (fuel : nat) (num den x : Z) : Z :=
  match fuel with
  | O => x
  | S fuel' => if den * 10 ^ (x + 1) <=? num then log10_up fuel' num den (x + 1) else x
  end.

Fixpoint log10_down (fuel : nat) (num den x : Z) : Z :=
  match fuel with
  | O => x
  | S fuel' => if den <=? num * 10 ^ (- x) then x else log10_down fuel' num den (x - 1)
  end.

Definition log10 (num den : Z) : Z :=
  if den <=? num then log10_up 400 num den 0 else log10_down 400 num den (-1).

Fixpoint strip_zeros_rev (l : list ascii) : list ascii :=
  match l with
  | "0"%char :: tl => strip_zeros_rev tl
  | "."%char :: tl => tl
  | _ => l
  end.

(** Trailing zeros of a fraction are dropped, and the point with them. *)
Definition strip_zeros (s : string) : string :=
  if existsb (Ascii.eqb ".") (list_ascii_of_string s)
  then string_of_list_ascii (rev (strip_zeros_rev (rev (list_ascii_of_string s))))
  else s.

Definition general (num den : Z) : string :=
  let x0 := log10 num den in
  let sig := if 5 <=? x0 then round_div num (den * 10 ^ (x0 - 5))
             else round_div (num * 10 ^ (5 - x0)) den in
  let '(x, sig) := if sig =? 10 ^ 6 then (x0 + 1, 10 ^ 5) else (x0, sig) in
  if (-4 <=? x) && (x <? 6) then
    (* fixed notation with 5 - x decimals *)
    strip_zeros (fixed (Z.to_nat (5 - x)) sig (10 ^ (5 - x)))
  else
    strip_zeros (fixed 5 sig (10 ^ 5)) +:+ "e" +:+ (if x <? 0 then "-" else "+")
    +:+ padded 2 (Z.abs x).

Definition show (d : binary64) : string :=
  match decode d with
  | S754_finite s m e => let '(num, den) := fraction m e in minus s +:+ general num den
  | S754_zero s => minus s +:+ "0"
  | _ => default "" (special d)
  end.

(** *** Parsing: [std::stod] is [strtod] in the C locale, throwing when
    nothing was converted or [errno] is [ERANGE] *)

Definition code_of (c : ascii) : Z := Z.of_nat (nat_of_ascii c).

Definition is_space (c : ascii) : bool :=
  (code_of c =? 32) || ((9 <=? code_of c) && (code_of c <=? 13)).

Definition digit_of (c : ascii) : option Z :=
  if (48 <=? code_of c) && (code_of c <=? 57) then Some (code_of c - 48) else None.

Definition lower (c : ascii) : ascii :=
  if (65 <=? code_of c) && (code_of c <=? 90)
  then ascii_of_nat (nat_of_ascii c + 32) else c.

Definition hex_digit_of (c : ascii) : option Z :=
  match digit_of c with
  | Some d => Some d
  | None =>
      let n := code_of (lower c) in
      if (97 <=? n) && (n <=? 102) then Some (n - 87) else None
  end.

Fixpoint skip_spaces (l : list ascii) : list ascii :=
  match l with
  | c :: tl => if is_space c then skip_spaces tl else l
  | [] => []
  end.

(** The longest run of digits at the head of [l]: the number they write
    after [acc], how many they are, and what follows. *)
Fixpoint read_digits (digit : ascii -> option Z) (base acc : Z) (count : nat)
  (l : list ascii) : Z * nat * list ascii :=
  match l with
  | c :: tl =>
      match digit c with
      | Some d => read_digits digit base (base * acc + d) (S count) tl
      | None => (acc, count, l)
      end
  | [] => (acc, count, l)
  end.

(** An exponent part [e+12], [E-3], [p5]: zero when no digit follows. *)
Definition read_exponent (marker : ascii) (l : list ascii) : Z :=
  match l with
  | c :: tl =>
      if Ascii.eqb (lower c) marker then
        let '(neg, tl) := match tl with
                          | "-"%char :: r => (true, r)
                          | "+"%char :: r => (false, r)
                          | _ => (false, tl)
                          end in
        let '(e, n, _) := read_digits digit_of 10 0 0 tl in
        if neg then - e else e
      else 0
  | [] => 0
  end.

(** A mantissa [12.5]: its digits as an integer, the number of digits
    before and after the point, and what follows. *)
Definition read_mantissa (digit : ascii -> option Z) (base : Z) (l : list ascii)
  : Z * nat * nat * list ascii :=
  let '(ip, n1, r1) := read_digits digit base 0 0 l in
  match r1 with
  | "."%char :: r =>
      let '(m, n2, r2) := read_digits digit base ip 0 r in
      if Nat.eqb (n1 + n2) 0 then (0, 0%nat, 0%nat, l) else (m, n1, n2, r2)
  | _ => (ip, n1, 0%nat, r1)
  end.

Fixpoint starts_with (word l : list ascii) : bool :=
  match word, l with
  | [], _ => true
  | w :: word', c :: l' => Ascii.eqb w (lower c) && starts_with word' l'
  | _ :: _, [] => false
  end.

(** [sign * num / den] rounded to nearest even, with [ERANGE] when the
    result overflows, or is subnormal or zero and not exact. *)
Definition round_fraction (s : bool) (num den : positive) : option binary64 :=
  let r := SFdiv prec emax (S754_finite s num 0) (S754_finite false den 0) in
  match r with
  | S754_finite _ m e =>
      let exact := if 0 <=? e then Zpos m * 2 ^ e * Zpos den =? Zpos num
                   else Zpos m * Zpos den =? Zpos num * 2 ^ (- e) in
      if (Zpos m <? 2 ^ 52) && negb exact then None else Some (encode r)
  | S754_zero _ => None
  | _ => None
  end.

Definition round_scaled (s : bool) (m base e : Z) : option binary64 :=
  match m with
  | Zpos p =>
      if 0 <=? e then
        match p * Z.to_pos (base ^ e) with
        | n => round_fraction s n 1
        end%positive
      else round_fraction s p (Z.to_pos (base ^ (- e)))
  | _ => Some (encode (S754_zero s))
  end.

Definition strtod (l : list ascii) : option binary64 :=
  let l := skip_spaces l in
  let '(s, l) := match l with
                 | "-"%char :: r => (true, r)
                 | "+"%char :: r => (false, r)
                 | _ => (false, l)
                 end in
  if starts_with (list_ascii_of_string "inf") l then Some (encode (S754_infinity s))
  else if starts_with (list_ascii_of_string "nan") l
  then Some (of_bits (sign_field s + 0x7FF8000000000000))
  else
    let hex := match l with
               | "0"%char :: x :: r =>
                   if Ascii.eqb (lower x) "x" then
                     let '(m, n1, n2, r') := read_mantissa hex_digit_of 16 r in
                     if Nat.eqb (n1 + n2) 0 then None
                     else Some (m, read_exponent "p" r' - 4 * Z.of_nat n2)
                   else None
               | _ => None
               end in
    match hex with
    | Some (m, e) => round_scaled s m 2 e
    | None =>
        let '(m, n1, n2, r) := read_mantissa digit_of 10 l in
        if Nat.eqb (n1 + n2) 0 then None
        else round_scaled s m 10 (read_exponent "e" r - Z.of_nat n2)
    end.

Definition stod (str : string) : option binary64 := strtod (list_ascii_of_string str).

(** *** Standard input and the clock

    The characters not yet read, and the reading of the clock at each
    query. *)

Record World := mkWorld { stdin : list ascii; clock : nat -> Z; queries : nat }.

Fixpoint take_word (l : list ascii) : list ascii * list ascii :=
  match l with
  | c :: tl => if is_space c then ([], l)
               else let '(w, r) := take_word tl in (c :: w, r)
  | [] => ([], [])
  end.

Fixpoint take_line (l : list ascii) : list ascii * list ascii :=
  match l with
  | c :: tl => if code_of c =? 10 then ([], tl)
               else let '(w, r) := take_line tl in (c :: w, r)
  | [] => ([], [])
  end.

Definition read_word (w : World) : string * World :=
  let '(word, rest) := take_word (skip_spaces (stdin w)) in
  (string_of_list_ascii word, mkWorld rest (clock w) (queries w)).

Definition read_line (w : World) : string * World :=
  let '(line, rest) := take_line (stdin w) in
  (string_of_list_ascii line, mkWorld rest (clock w) (queries w)).

Definition now_ms (w : World) : Z * World :=
  (clock w (queries w), mkWorld (stdin w) (clock w) (S (queries w))).

Definition host : Host :=
  Build_Host
    binary64 (of_Z 0) (of_Z 1) (fun n => of_Z (Z.of_nat n))
    add sub mul div fmod eqb ltb isnan
    stod to_string show
    to_bytes of_bytes LittleEndian
    World read_word read_line now_ms.

(** A world with nothing to read, whose clock stands at zero. *)
Definition quiet : @world host := mkWorld [] (fun _ => 0) 0.

End Binary64.

(** The conversions between [double] and [int] on this host. *)
Module Binary64Conversions.
Import Binary64.

Definition truncate (d : binary64) : option Z :=
  match decode d with
  | S754_zero _ => Some 0
  | S754_finite s m e =>
      let magnitude := if 0 <=? e then Zpos m * 2 ^ e else Zpos m / 2 ^ (- e) in
      Some (if s then - magnitude else magnitude)
  | _ => None
  end.

Definition to_int (d : binary64) : option Z :=
  match truncate d with
  | Some z => if (INT_MIN <=? z) && (z <=? INT_MAX) then Some z else None
  | None => None
  end.

Definition conversions : Conversions host := Build_Conversions host to_int of_Z.

End Binary64Conversions.

#[local] Existing Instance Binary64.host.

(** * Properties *)

(** ** Value equality *)

Section ValueEquality.
Context {H : Host}.

(** C10. [operator==] is strict about types: two values with different
    type tags are unequal (and [operator!=] holds of them), so the number
    0, the boolean false, the empty string and nil are pairwise unequal;
    two nil values are equal. *)
Theorem value_eq_type_strict :
  (forall a b : Value, getType a <> getType b ->
     value_eq a b = false /\ value_ne a b = true) /\
  (value_eq (VNumber d_zero) (VBoolean false) = false /\
   value_eq (VNumber d_zero) (VString "") = false /\
   value_eq (VNumber d_zero) VNil = false /\
   value_eq (VBoolean false) (VString "") = false /\
   value_eq (VBoolean false) VNil = false /\
   value_eq (VString "") VNil = false) /\
  (value_eq (VBoolean false) (VNumber d_zero) = false /\
   value_eq (VString "") (VNumber d_zero) = false /\
   value_eq VNil (VNumber d_zero) = false /\
   value_eq (VString "") (VBoolean false) = false /\
   value_eq VNil (VBoolean false) = false /\
   value_eq VNil (VString "") = false) /\
  (forall a b : Value, getType a = NIL -> getType b = NIL -> value_eq a b = true).
Proof.
  assert (strict : forall a b : Value, getType a <> getType b -> value_eq a b = false).
  { intros a b Hne. destruct a, b; simpl in *; try reflexivity; congruence. }
  split; [| split; [| split]].
  - intros a b Hne. unfold value_ne. rewrite (strict a b Hne). split; reflexivity.
  - repeat split; apply strict; discriminate.
  - repeat split; apply strict; discriminate.
  - intros a b Ha Hb. destruct a; try discriminate. destruct b; try discriminate.
    reflexivity.
Qed.

End ValueEquality.

(** ** The pool writers of [BytecodeWriter] *)

Lemma size_app {A : Type} (l k : list A) : size (l ++ k) = size l + size k.
Proof. unfold size. rewrite length_app. lia. Qed.

Lemma size_nonneg {A : Type} (l : list A) : 0 <= size l.
Proof. unfold size. lia. Qed.

Lemma to_u16_small (z : Z) : 0 <= z < 65536 -> to_u16 z = z.
Proof. intros Hz. unfold to_u16. apply Z.mod_small. lia. Qed.

Section Writers.
Context {H : Host}.

(** What one pool writer does when called twice with the same value on a
    pool [pool]: [i1], [i2] are the indices returned, [pool2] the pool
    after the second call. *)
Definition appended_twice {A : Type} (pool : list A) (v : A) (i1 i2 : Z) (pool2 : list A)
  : Prop :=
  pool2 = pool ++ [v; v] /\
  i1 = to_u16 (size pool) /\ i2 = to_u16 (size pool + 1) /\
  (size pool < 65535 -> i1 = size pool /\ i2 = i1 + 1 /\ i2 = size pool2 - 1).

Lemma appended_twice_intro {A : Type} (pool : list A) (v : A) :
  appended_twice pool v
    (to_u16 (size (pool ++ [v]) - 1)) (to_u16 (size ((pool ++ [v]) ++ [v]) - 1))
    ((pool ++ [v]) ++ [v]).
Proof.
  pose proof (size_nonneg pool) as Hpos.
  unfold appended_twice. rewrite !size_app. change (size [v]) with 1.
  replace (size pool + 1 - 1) with (size pool) by lia.
  replace (size pool + 1 + 1 - 1) with (size pool + 1) by lia.
  split; [now rewrite <- app_assoc |]. split; [reflexivity |]. split; [reflexivity |].
  intros Hsmall. rewrite !to_u16_small by lia. lia.
Qed.

(** C9 (amended). Each pool writer appends its argument whatever the pool
    holds, and returns the new last index reduced modulo 65536; called
    twice with one value it grows the pool by two entries, and on a pool
    of fewer than 65535 entries the two indices are the consecutive last
    indices [size] and [size + 1]. *)
Theorem writers_append_without_deduplication (b : Bytecode) (s : string) (d : double) :
  (let '(i1, b1) := writeString s b in
   let '(i2, b2) := writeString s b1 in
   appended_twice (strings b) s i1 i2 (strings b2)) /\
  (let '(i1, b1) := writeNumber d b in
   let '(i2, b2) := writeNumber d b1 in
   appended_twice (numbers b) d i1 i2 (numbers b2)) /\
  (let '(i1, b1) := writeConstant s b in
   let '(i2, b2) := writeConstant s b1 in
   appended_twice (constants b) s i1 i2 (constants b2)) /\
  (let '(i1, b1) := writeFunction s b in
   let '(i2, b2) := writeFunction s b1 in
   appended_twice (functions b) s i1 i2 (functions b2)).
Proof.
  split; [| split; [| split]];
    unfold writeString, writeNumber, writeConstant, writeFunction; cbn;
    apply appended_twice_intro.
Qed.

End Writers.

(** A string pool of 65535 entries. *)
Definition crowded : Bytecode := set_strings (repeat "" (Z.to_nat 65535)) emptyBytecode.

(** C9, as stated, fails on a pool of 65535 entries: the second of two
    calls returns 0, which is neither the new last index 65536 nor the
    successor of the first index 65535. *)
Lemma writeString_index_wraps :
  let '(i1, b1) := writeString "" crowded in
  let '(i2, b2) := writeString "" b1 in
  i1 = 65535 /\ i2 = 0 /\ size (strings b2) - 1 = 65536 /\
  i2 <> size (strings b2) - 1 /\ i2 <> i1 + 1.
Proof. vm_compute. repeat split; discriminate. Qed.

(** ** The stack machine *)

Section MachineFacts.
Context {H : Host}.

Lemma pop_snoc (vm : VM) (rest : list Value) (v : Value) :
  stack vm = rest ++ [v] -> pop vm = Ok (v, set_stack rest vm).
Proof.
  intros Hs. unfold pop. rewrite Hs, last_snoc, removelast_last. reflexivity.
Qed.

Lemma code_at_in_range (bc : Bytecode) (pc op : Z) :
  code_at bc pc = Ok op -> 0 <= pc < size (code bc).
Proof.
  unfold code_at. destruct (pc <? 0) eqn:Hneg; [discriminate |].
  destruct (code bc !! Z.to_nat pc) eqn:Hl; [| discriminate].
  intros _. apply lookup_lt_Some in Hl. unfold size. lia.
Qed.

(** The first two steps of [executeInstruction]: the bounds test passes
    and the opcode is fetched. *)
Lemma executeInstruction_fetch (bc : Bytecode) (vm : VM) (op : Z) :
  code_at bc (programCounter vm) = Ok op ->
  (size (code bc) <=? programCounter vm) = false.
Proof. intros Hop. apply code_at_in_range in Hop. lia. Qed.

(** An exception thrown by an instruction leaves the loop of [execute]. *)
Lemma run_throws (fuel : nat) (bc : Bytecode) (vm : VM) (op : Z) (what : string) :
  code_at bc (programCounter vm) = Ok op ->
  executeInstruction bc vm = Throw what ->
  run (S fuel) bc vm = Some (Throw what).
Proof.
  intros Hop Hthrow. cbn [run].
  rewrite (executeInstruction_fetch bc vm op Hop), Hthrow. reflexivity.
Qed.

(** C7. A div or mod instruction whose right operand (popped first) is
    numerically zero throws "Division by zero" or "Modulo by zero", which
    ends the instruction loop with nothing pushed; otherwise the quotient
    or the [fmod] remainder of the two operands converted to numbers is
    pushed in their place. *)
Theorem div_mod_by_zero (bc : Bytecode) (vm : VM) (op : Z) (a b : Value) (rest : list Value) :
  code_at bc (programCounter vm) = Ok op ->
  op = OP_DIV \/ op = OP_MOD ->
  stack vm = rest ++ [a; b] ->
  let operation := if op =? OP_DIV then d_div else d_fmod in
  let what := if op =? OP_DIV then "Division by zero" else "Modulo by zero" in
  if d_eqb (toNumber b) d_zero
  then executeInstruction bc vm = Throw what /\
       forall fuel, run (S fuel) bc vm = Some (Throw what)
  else executeInstruction bc vm =
       Ok (mkVM (rest ++ [VNumber (operation (toNumber a) (toNumber b))])
                (variables vm) (programCounter vm + 1) (console vm)).
Proof.
  intros Hop Hdm Hstack operation what.
  assert (Hexec : executeInstruction bc vm =
    if negb (d_eqb (toNumber b) d_zero)
    then Ok (mkVM (rest ++ [VNumber (operation (toNumber a) (toNumber b))])
                  (variables vm) (programCounter vm + 1) (console vm))
    else Throw what).
  { unfold executeInstruction.
    rewrite (executeInstruction_fetch bc vm op Hop), Hop.
    assert (Hb : pop (set_pc (programCounter vm + 1) vm)
                 = Ok (b, set_stack (rest ++ [a]) (set_pc (programCounter vm + 1) vm))).
    { apply pop_snoc. cbn. rewrite Hstack.
      change [a; b] with ([a] ++ [b]). now rewrite app_assoc. }
    assert (Ha : pop (set_stack (rest ++ [a]) (set_pc (programCounter vm + 1) vm))
                 = Ok (a, set_stack rest (set_pc (programCounter vm + 1) vm))).
    { exact (pop_snoc (set_stack (rest ++ [a]) (set_pc (programCounter vm + 1) vm))
                      rest a eq_refl). }
    subst operation what.
    destruct Hdm as [-> | ->]; cbn; rewrite Hb; cbn; rewrite Ha; cbn;
      destruct (d_eqb (toNumber b) d_zero); reflexivity. }
  destruct (d_eqb (toNumber b) d_zero); cbn in Hexec.
  - split; [exact Hexec |]. intros fuel. now apply run_throws with (op := op).
  - exact Hexec.
Qed.

(** C2 (amended). A push-number, push-string or push-const instruction
    whose 2-byte index is not below the size of its pool pushes nothing:
    the program counter moves past the operand, the stack is unchanged
    and nothing fails. *)
Theorem push_out_of_range_is_skipped (bc : Bytecode) (vm : VM) (op index : Z) :
  code_at bc (programCounter vm) = Ok op ->
  operand16 bc (programCounter vm + 1) = Ok index ->
  (op = OP_PUSH_NUM /\ size (numbers bc) <= index) \/
  (op = OP_PUSH_STR /\ size (strings bc) <= index) \/
  (op = OP_PUSH_CONST /\ size (constants bc) <= index) ->
  executeInstruction bc vm =
  Ok (mkVM (stack vm) (variables vm) (programCounter vm + 3) (console vm)).
Proof.
  intros Hop Hindex Hrange.
  assert (Hskip : forall (A : Type) (pool : list A),
             size pool <= index -> pool_at pool index = None).
  { intros A pool Hle. unfold pool_at.
    destruct (index <? size pool) eqn:Hlt; [lia | reflexivity]. }
  unfold executeInstruction.
  rewrite (executeInstruction_fetch bc vm op Hop), Hop.
  replace (programCounter vm + 3) with (programCounter vm + 1 + 2) by lia.
  destruct Hrange as [[-> Hle] | [[-> Hle] | [-> Hle]]];
    cbn; rewrite Hindex; cbn; rewrite (Hskip _ _ Hle); reflexivity.
Qed.

(** C4 (amended). A conditional jump pops the top of the stack and reads
    it with [asBoolean]: a boolean branches by its own truth, to the
    target when it matches the polarity of the instruction and to the
    next instruction otherwise; any other value makes the instruction
    fail with "Value is not a boolean". *)
Theorem conditional_jump_requires_boolean (bc : Bytecode) (vm : VM) (op target : Z)
  (condition : Value) (rest : list Value) :
  code_at bc (programCounter vm) = Ok op ->
  op = OP_JMP_IF_FALSE \/ op = OP_JMP_IF_TRUE ->
  operand32 bc (programCounter vm + 1) = Ok target ->
  stack vm = rest ++ [condition] ->
  executeInstruction bc vm =
  match condition with
  | VBoolean b =>
      Ok (mkVM rest (variables vm)
               (if Bool.eqb b (op =? OP_JMP_IF_TRUE) then target else programCounter vm + 5)
               (console vm))
  | _ => Throw "Value is not a boolean"
  end.
Proof.
  intros Hop Hjump Htarget Hstack.
  unfold executeInstruction.
  rewrite (executeInstruction_fetch bc vm op Hop), Hop.
  assert (Hpop : pop (set_pc (programCounter vm + 1 + 4) (set_pc (programCounter vm + 1) vm))
                 = Ok (condition,
                       set_stack rest
                         (set_pc (programCounter vm + 1 + 4) (set_pc (programCounter vm + 1) vm)))).
  { apply pop_snoc. exact Hstack. }
  replace (programCounter vm + 5) with (programCounter vm + 1 + 4) by lia.
  destruct Hjump as [-> | ->]; cbn; rewrite Htarget; cbn; rewrite Hpop; cbn;
    destruct condition as [| | [|] | | |]; reflexivity.
Qed.

End MachineFacts.

(** [10 / 0]: a div instruction on the operands 10 and 0. *)
Definition division : Bytecode := set_code [Zbyte OP_DIV] emptyBytecode.
Definition ten_by_zero : VM :=
  set_stack [VNumber (Binary64.of_Z 10); VNumber (Binary64.of_Z 0)] (initial Binary64.quiet).

Lemma div_mod_by_zero_witness :
  code_at division (programCounter ten_by_zero) = Ok OP_DIV /\
  stack ten_by_zero = [] ++ [VNumber (Binary64.of_Z 10); VNumber (Binary64.of_Z 0)] /\
  executeInstruction division ten_by_zero = Throw "Division by zero" /\
  forall fuel, run (S fuel) division ten_by_zero = Some (Throw "Division by zero").
Proof.
  split; [reflexivity |]. split; [reflexivity |].
  exact (div_mod_by_zero division ten_by_zero OP_DIV
           (VNumber (Binary64.of_Z 10)) (VNumber (Binary64.of_Z 0)) []
           eq_refl (or_introl eq_refl) eq_refl).
Defined.

(** A push-number instruction with index 5 over an empty number pool. *)
Definition stray_push : Bytecode :=
  set_code [Zbyte OP_PUSH_NUM; Zbyte 0; Zbyte 5] emptyBytecode.

Lemma push_out_of_range_is_skipped_witness :
  code_at stray_push (programCounter (initial Binary64.quiet)) = Ok OP_PUSH_NUM /\
  operand16 stray_push (programCounter (initial Binary64.quiet) + 1) = Ok 5 /\
  size (numbers stray_push) <= 5 /\
  executeInstruction stray_push (initial Binary64.quiet) =
  Ok (mkVM [] ∅ 3 (console (initial Binary64.quiet))).
Proof.
  split; [reflexivity |]. split; [reflexivity |]. split; [discriminate |].
  apply (push_out_of_range_is_skipped stray_push (initial Binary64.quiet) OP_PUSH_NUM 5);
    [reflexivity | reflexivity | left; split; [reflexivity | discriminate]].
Defined.

(** C2, as stated, fails: the instruction above raises nothing, and the
    machine goes on with an unchanged stack. *)
Lemma push_out_of_range_does_not_fail :
  size (numbers stray_push) <= 5 /\
  executeInstruction stray_push (initial Binary64.quiet)
  = Ok (set_pc 3 (initial Binary64.quiet)) /\
  forall what, executeInstruction stray_push (initial Binary64.quiet) <> Throw what.
Proof. split; [discriminate |]. split; [reflexivity |]. intros what. discriminate. Qed.

(** A jump-if-false to offset 9 with the number 0 on the stack. *)
Definition branch_on_number : Bytecode :=
  set_code [Zbyte OP_JMP_IF_FALSE; Zbyte 0; Zbyte 0; Zbyte 0; Zbyte 9] emptyBytecode.
Definition zero_on_stack : VM :=
  set_stack [VNumber (Binary64.of_Z 0)] (initial Binary64.quiet).

Lemma conditional_jump_requires_boolean_witness :
  code_at branch_on_number (programCounter zero_on_stack) = Ok OP_JMP_IF_FALSE /\
  operand32 branch_on_number (programCounter zero_on_stack + 1) = Ok 9 /\
  stack zero_on_stack = [] ++ [VNumber (Binary64.of_Z 0)] /\
  executeInstruction branch_on_number zero_on_stack = Throw "Value is not a boolean".
Proof.
  split; [reflexivity |]. split; [reflexivity |]. split; [reflexivity |].
  exact (conditional_jump_requires_boolean branch_on_number zero_on_stack
           OP_JMP_IF_FALSE 9 (VNumber (Binary64.of_Z 0)) []
           eq_refl (or_introl eq_refl) eq_refl eq_refl).
Defined.

(** C4, as stated, fails: the number 0 is falsy ([toBoolean] is false), yet
    the jump-if-false that pops it does not branch; it fails. *)
Lemma conditional_jump_fails_on_number :
  toBoolean (VNumber (Binary64.of_Z 0)) = false /\
  executeInstruction branch_on_number zero_on_stack = Throw "Value is not a boolean" /\
  forall vm, executeInstruction branch_on_number zero_on_stack <> Ok vm.
Proof. split; [reflexivity |]. split; [reflexivity |]. intros vm. discriminate. Qed.

(** ** The code generator *)

Section BreakContinue.
Context {H : Host}.

(** The program [break], as the parser builds it. *)
Definition stray_break : ASTNode :=
  mkNode NODE_PROGRAM "" [mkNode NODE_BREAK_STATEMENT "" []].

(** A while loop whose body is a break. *)
Definition breaking_loop : ASTNode :=
  mkNode NODE_WHILE_STATEMENT ""
    [mkNode NODE_IDENTIFIER "c" []; mkNode NODE_BREAK_STATEMENT "" []].

(** C3 (what the code does). A Break or Continue node compiles, inside a
    loop or outside one, to its bare opcode: no jump is emitted, the loop
    stack is not consulted and generation never fails.  The machine has no
    case for either opcode, so executing one fails with "Unknown opcode". *)
Theorem break_continue_emit_bare_opcode :
  (forall (g : BytecodeGenerator) (value : string) (children : list ASTNode),
     generateNode (mkNode NODE_BREAK_STATEMENT value children) g
     = Ok (emit (writeOpCode OP_BREAK) g) /\
     generateNode (mkNode NODE_CONTINUE_STATEMENT value children) g
     = Ok (emit (writeOpCode OP_CONTINUE) g)) /\
  generate stray_break = Ok (set_code [Zbyte OP_BREAK; Zbyte OP_HALT] emptyBytecode) /\
  (forall w, execute 1 (set_code [Zbyte OP_BREAK; Zbyte OP_HALT] emptyBytecode) w
             = Some (Throw "Unknown opcode: 32")) /\
  (forall w, execute 1 (set_code [Zbyte OP_CONTINUE; Zbyte OP_HALT] emptyBytecode) w
             = Some (Throw "Unknown opcode: 33")) /\
  (exists b, generate breaking_loop = Ok b /\
             List.map byteZ (code b)
             = [OP_LOAD; 0; 0; 0; 0; 0; 14; 0; OP_BREAK; OP_JMP; 0; 0; 0; 0; OP_HALT]).
Proof.
  split; [intros g value children; split; reflexivity |].
  split; [reflexivity |].
  split; [intros w; reflexivity |].
  split; [intros w; reflexivity |].
  eexists. split; [vm_compute; reflexivity | reflexivity].
Qed.

End BreakContinue.

(** ** Scenario A: [x = 1 + 2 * 3] followed by a call of the print built-in

    The program tree of the scenario has two statements: the assign node
    that [Parser::expression] builds for the text [x = 1 + 2 * 3] (the
    identifier and the expression, the product binding tighter than the
    sum), which is the node [generateAssignment] takes, and the statement
    node that the parser builds for [use System.Output.Print x].  The
    parser itself never puts an assign node among the statements of a
    program; what it does with the text of the scenario is settled with
    the scenario below, after the facts about the parser. *)

Definition number_literal (text : string) : ASTNode := mkNode NODE_NUMBER_LITERAL text [].




Definition scenario_A_bytecode : Bytecode :=
  mkBytecode
    (List.map Zbyte
       [OP_PUSH_NUM; 0; 0; OP_PUSH_NUM; 0; 1; OP_PUSH_NUM; 0; 2; OP_MUL; OP_ADD;
        OP_STORE; 0; 0; OP_LOAD; 0; 0; OP_CALL; 0; 0; 1; OP_HALT])
    [] [Binary64.of_Z 1; Binary64.of_Z 2; Binary64.of_Z 3] ["x"] ["System.Output.Print"].



(** ** The host [Binary64] obeys the laws *)

Lemma binary64_laws : HostLaws Binary64.host.
Proof.
  split.
  - intros d. reflexivity.
  - intros [b0 b1 b2 b3 b4 b5 b6 b7]. reflexivity.
  - intros a. change (Binary64.ltb a a = false). unfold Binary64.ltb.
    destruct (Binary64.key a); [apply Z.ltb_irrefl | reflexivity].
  - intros a b c. change (Binary64.ltb a b = true -> Binary64.ltb b c = true ->
                          Binary64.ltb a c = true).
    unfold Binary64.ltb.
    destruct (Binary64.key a), (Binary64.key b), (Binary64.key c);
      try discriminate; lia.
  - intros a b. change (Binary64.isnan a = true -> Binary64.ltb a b = false).
    unfold Binary64.isnan, Binary64.ltb. destruct (Binary64.key a); [discriminate | reflexivity].
  - intros a b. change (Binary64.isnan b = true -> Binary64.ltb a b = false).
    unfold Binary64.isnan, Binary64.ltb.
    destruct (Binary64.key a), (Binary64.key b); try discriminate; reflexivity.
  - intros a b.
    change (Binary64.isnan a = false -> Binary64.isnan b = false ->
            Binary64.eqb a b = negb (Binary64.ltb a b) && negb (Binary64.ltb b a)).
    unfold Binary64.isnan, Binary64.eqb, Binary64.ltb.
    destruct (Binary64.key a), (Binary64.key b); try discriminate. intros _ _. lia.
  - intros a b c.
    change (Binary64.isnan a = false -> Binary64.isnan b = false ->
            Binary64.isnan c = false -> Binary64.ltb a b = false ->
            Binary64.ltb b c = false -> Binary64.ltb a c = false).
    unfold Binary64.isnan, Binary64.ltb.
    destruct (Binary64.key a), (Binary64.key b), (Binary64.key c);
      try discriminate; lia.
Qed.

(** ** The binary codec *)

Lemma byteZ_Zbyte (z : Z) : byteZ (Zbyte z) = z mod 256.
Proof.
  unfold byteZ, Zbyte, to_u8.
  assert (Hr : 0 <= z mod 256 < 256) by (apply Z.mod_pos_bound; lia).
  destruct (Byte.of_N (Z.to_N (z mod 256))) as [b |] eqn:Hb.
  - apply Byte.to_of_N in Hb. rewrite Hb. lia.
  - apply Byte.of_N_None_iff in Hb. lia.
Qed.

Lemma list_byte_of_string_length (s : string) :
  List.length (list_byte_of_string s) = String.length s.
Proof.
  induction s as [| c s IH]; [reflexivity |].
  change (list_byte_of_string (String c s))
    with (byte_of_ascii c :: list_byte_of_string s).
  cbn [List.length String.length]. now rewrite IH.
Qed.

Section CodecFacts.
Context {H : Host} {HL : HostLaws H}.

Lemma native_bytes_length (n : nat) (z : Z) : List.length (native_bytes n z) = n.
Proof.
  unfold native_bytes.
  destruct host_endian; rewrite ?length_rev, length_map, length_seq; reflexivity.
Qed.

Lemma native_value_bytes_2 (z : Z) :
  0 <= z < 65536 -> native_value (native_bytes 2 z) = z.
Proof.
  intros Hz. unfold native_value, native_bytes.
  destruct host_endian; cbn [seq List.map rev app]; rewrite ?rev_involutive;
    cbn [rev app fold_right]; rewrite !byteZ_Zbyte, !Z.shiftr_div_pow2 by lia;
    change (2 ^ (8 * Z.of_nat 0)) with 1; change (2 ^ (8 * Z.of_nat 1)) with 256;
    rewrite Z.div_1_r; Z.div_mod_to_equations; lia.
Qed.

Lemma native_value_bytes_4 (z : Z) :
  0 <= z < 4294967296 -> native_value (native_bytes 4 z) = z.
Proof.
  intros Hz. unfold native_value, native_bytes.
  destruct host_endian; cbn [seq List.map rev app]; rewrite ?rev_involutive;
    cbn [rev app fold_right]; rewrite !byteZ_Zbyte, !Z.shiftr_div_pow2 by lia;
    change (2 ^ (8 * Z.of_nat 0)) with 1; change (2 ^ (8 * Z.of_nat 1)) with 256;
    change (2 ^ (8 * Z.of_nat 2)) with 65536; change (2 ^ (8 * Z.of_nat 3)) with 16777216;
    rewrite Z.div_1_r; Z.div_mod_to_equations; lia.
Qed.

Lemma read_buf_app (bs rest : list byte) (n : nat) :
  n = List.length bs ->
  read_buf n (mkStream (bs ++ rest) false) = (bs, mkStream rest false).
Proof.
  intros ->. unfold read_buf. cbn [failed pending].
  rewrite length_app.
  destruct (List.length bs <=? List.length bs + List.length rest)%nat eqn:Hle.
  - now rewrite take_app_length, drop_app_length.
  - apply Nat.leb_gt in Hle. lia.
Qed.

Lemma read_uint_app (n : nat) (z : Z) (rest : list byte) :
  native_value (native_bytes n z) = z ->
  read_uint n (mkStream (native_bytes n z ++ rest) false) = Ok (z, mkStream rest false).
Proof.
  intros Hv. unfold read_uint. cbn [failed pending orb].
  rewrite length_app, native_bytes_length.
  destruct (n + List.length rest <? n)%nat eqn:Hlt.
  - apply Nat.ltb_lt in Hlt. lia.
  - rewrite (take_app_length' _ _ n), (drop_app_length' _ _ n), Hv
      by (now rewrite native_bytes_length).
    reflexivity.
Qed.

Lemma load_strings_save (pool : list string) (rest : list byte) :
  Forall (fun str => ssize str < 65536) pool ->
  load_strings (List.length pool) (mkStream (flat_map save_string pool ++ rest) false)
  = Ok (pool, mkStream rest false).
Proof.
  induction 1 as [| str pool Hstr _ IH]; [reflexivity |].
  cbn [List.length flat_map load_strings]. unfold save_string at 1.
  assert (Hsize : to_u16 (ssize str) = ssize str).
  { apply to_u16_small. unfold ssize in *. lia. }
  rewrite Hsize, <- !app_assoc.
  rewrite read_uint_app by (apply native_value_bytes_2; unfold ssize in *; lia).
  cbn [mbind outcome_bind].
  assert (Hall : take (Z.to_nat (ssize str)) (list_byte_of_string str)
                 = list_byte_of_string str).
  { apply take_ge. rewrite list_byte_of_string_length. unfold ssize. lia. }
  rewrite Hall, read_buf_app
    by (rewrite list_byte_of_string_length; unfold ssize; lia).
  rewrite IH. cbn [mbind outcome_bind]. now rewrite string_of_list_byte_of_string.
Qed.

Lemma load_pool_save (pool : list string) (rest : list byte) :
  size pool < 65536 ->
  Forall (fun str => ssize str < 65536) pool ->
  load_pool (mkStream (save_pool pool ++ rest) false) = Ok (pool, mkStream rest false).
Proof.
  intros Hsize Hall. unfold load_pool, save_pool.
  pose proof (size_nonneg pool) as Hpos.
  rewrite to_u16_small, <- app_assoc by lia.
  rewrite read_uint_app by (apply native_value_bytes_2; lia).
  cbn [mbind outcome_bind]. unfold size. rewrite Nat2Z.id. now apply load_strings_save.
Qed.

Lemma group8_bytes (pool : list double) :
  List.map d_of_bytes (group8 (List.length pool) (flat_map d_bytes pool)) = pool.
Proof.
  induction pool as [| d pool IH]; [reflexivity |].
  cbn [List.length flat_map group8 List.map].
  rewrite (take_app_length' _ _ 8), (drop_app_length' _ _ 8), IH, d_of_bytes_bytes
    by (now rewrite d_bytes_length).
  reflexivity.
Qed.

Lemma flat_map_bytes_length (pool : list double) :
  List.length (flat_map d_bytes pool) = (List.length pool * 8)%nat.
Proof.
  induction pool as [| d pool IH]; [reflexivity |].
  cbn [flat_map List.length]. rewrite length_app, d_bytes_length, IH. lia.
Qed.

Lemma load_numbers_save (pool : list double) (rest : list byte) :
  size pool < 65536 ->
  load_numbers (mkStream (save_numbers pool ++ rest) false) = Ok (pool, mkStream rest false).
Proof.
  intros Hsize. unfold load_numbers, save_numbers.
  pose proof (size_nonneg pool) as Hpos.
  rewrite to_u16_small, <- app_assoc by lia.
  rewrite read_uint_app by (apply native_value_bytes_2; lia).
  cbn [mbind outcome_bind]. unfold size. rewrite Nat2Z.id, firstn_all.
  rewrite read_buf_app by (now rewrite flat_map_bytes_length).
  now rewrite group8_bytes.
Qed.

(** A container the format can hold: the code is shorter than [2^32]
    bytes, every pool has fewer than [2^16] entries and every string
    fewer than [2^16] characters. *)
Definition representable (b : Bytecode) : Prop :=
  size (code b) < 4294967296 /\
  size (strings b) < 65536 /\ Forall (fun str => ssize str < 65536) (strings b) /\
  size (numbers b) < 65536 /\
  size (constants b) < 65536 /\ Forall (fun str => ssize str < 65536) (constants b) /\
  size (functions b) < 65536 /\ Forall (fun str => ssize str < 65536) (functions b).

(** C1 (amended). Loading what was saved gives back the container, its
    instruction bytes and its four pools, entry for entry, whenever the
    container fits the widths of the format's length fields. *)
Theorem load_save_round_trip (b : Bytecode) :
  representable b -> loadBytecodeFromFile (saveBytecodeToFile b) = Ok b.
Proof.
  intros (Hcode & Hs & Hsl & Hn & Hc & Hcl & Hf & Hfl).
  pose proof (size_nonneg (code b)) as Hpos.
  unfold loadBytecodeFromFile, saveBytecodeToFile.
  rewrite read_buf_app by reflexivity.
  change (negb (String.eqb (string_of_list_byte (c_str magic)) "SLBT")) with false.
  cbv iota.
  rewrite read_uint_app by (apply native_value_bytes_2; lia).
  cbn [mbind outcome_bind]. unfold to_u32. rewrite Z.mod_small by lia.
  rewrite read_uint_app by (apply native_value_bytes_4; lia).
  cbn [mbind outcome_bind]. unfold size at 1 2. rewrite Nat2Z.id, firstn_all.
  rewrite read_buf_app by reflexivity.
  rewrite load_pool_save by assumption. cbn [mbind outcome_bind].
  rewrite load_numbers_save by assumption. cbn [mbind outcome_bind].
  rewrite load_pool_save by assumption. cbn [mbind outcome_bind].
  rewrite <- (app_nil_r (save_pool (functions b))).
  rewrite load_pool_save by assumption. cbn [mbind outcome_bind].
  destruct b; reflexivity.
Qed.

End CodecFacts.

(** The saved form of a container with one string of 65536 characters. *)
Definition long_string : string :=
  string_of_list_ascii (repeat "a"%char (Z.to_nat 65536)).
Definition oversized : Bytecode := set_strings [long_string] emptyBytecode.

Lemma load_save_round_trip_witness :
  representable scenario_A_bytecode /\
  loadBytecodeFromFile (saveBytecodeToFile scenario_A_bytecode) = Ok scenario_A_bytecode.
Proof.
  assert (Hfits : representable scenario_A_bytecode).
  { unfold representable, size, ssize. cbn.
    repeat split; try lia; repeat constructor. }
  split; [exact Hfits |].
  exact (load_save_round_trip (HL := binary64_laws) scenario_A_bytecode Hfits).
Defined.

(** C1, as stated, fails: the length of the long string is written as 0,
    so the container that is loaded holds the empty string instead. *)
Lemma load_save_loses_long_string :
  loadBytecodeFromFile (saveBytecodeToFile oversized) = Ok (set_strings [""] emptyBytecode) /\
  loadBytecodeFromFile (saveBytecodeToFile oversized) <> Ok oversized.
Proof.
  assert (Hload : loadBytecodeFromFile (saveBytecodeToFile oversized)
                  = Ok (set_strings [""] emptyBytecode)) by (vm_compute; reflexivity).
  split; [exact Hload |]. rewrite Hload. intros Heq.
  injection Heq as Heq. discriminate Heq.
Qed.

(** ** Interning into the constant pools *)

Section Interning.
Context {H : Host} {HL : HostLaws H}.

(** A pool of strings and its lookup table agree: the table maps a string
    to an index exactly when the pool holds the string at that index. *)
Definition indexed (pool : list string) (m : gmap string Z) : Prop :=
  forall (s : string) (i : Z),
    m !! s = Some i <-> 0 <= i /\ pool !! Z.to_nat i = Some s.

Lemma indexed_empty : indexed [] ∅.
Proof.
  intros s i. rewrite lookup_empty. split; [discriminate |].
  intros [_ Hl]. discriminate Hl.
Qed.

Lemma indexed_present (pool : list string) (m : gmap string Z) (n : nat) (s : string) :
  indexed pool m -> pool !! n = Some s -> m !! s = Some (Z.of_nat n).
Proof.
  intros Hi Hn. apply Hi. rewrite Nat2Z.id. split; [lia | exact Hn].
Qed.

Lemma indexed_absent (pool : list string) (m : gmap string Z) (s : string) :
  indexed pool m -> s ∉ pool -> m !! s = None.
Proof.
  intros Hi Hnot. destruct (m !! s) as [i |] eqn:Hm; [| reflexivity].
  apply Hi in Hm as [_ Hl]. exfalso. apply Hnot. eapply list_elem_of_lookup_2, Hl.
Qed.

Lemma indexed_insert (pool : list string) (m : gmap string Z) (s : string) :
  indexed pool m -> m !! s = None ->
  indexed (pool ++ [s]) (<[s := size pool]> m).
Proof.
  intros Hi Hnone s' i. unfold size.
  destruct (decide (s = s')) as [<- | Hne].
  - rewrite lookup_insert_eq. split.
    + intros [= <-]. rewrite Nat2Z.id. split; [lia |].
      rewrite lookup_app_r by lia. now rewrite Nat.sub_diag.
    + intros [Hpos Hl]. f_equal.
      destruct (decide (Z.to_nat i < List.length pool)%nat) as [Hlt | Hge].
      * rewrite lookup_app_l in Hl by exact Hlt.
        assert (Hm : m !! s = Some i) by (apply Hi; now split).
        congruence.
      * apply lookup_lt_Some in Hl. rewrite length_app in Hl. cbn in Hl. lia.
  - rewrite lookup_insert_ne by exact Hne. rewrite (Hi s' i). split.
    + intros [Hpos Hl]. split; [exact Hpos |].
      rewrite lookup_app_l; [exact Hl |]. now apply lookup_lt_Some in Hl.
    + intros [Hpos Hl]. split; [exact Hpos |].
      destruct (decide (Z.to_nat i < List.length pool)%nat) as [Hlt | Hge].
      * now rewrite lookup_app_l in Hl.
      * rewrite lookup_app_r in Hl by lia.
        destruct (Z.to_nat i - List.length pool)%nat; cbn in Hl; [congruence | discriminate].
Qed.


(** *** The table of the number pool *)

Definition key_lt (a b : double * Z) : Prop := d_ltb a.1 b.1 = true.

(** Two numbers are the same constant when [==] holds of them. *)
Definition same_number (u v : double) : Prop := d_eqb u v = true.

Definition no_nan (m : list (double * Z)) : Prop :=
  Forall (fun e => d_isnan e.1 = false) m.

Lemma num_find_hit (m : list (double * Z)) (v k : double) (i : Z) :
  StronglySorted key_lt m -> no_nan m -> d_isnan v = false ->
  (k, i) ∈ m -> same_number k v -> num_find v m = Some i.
Proof.
  intros Hsorted. revert k i.
  induction Hsorted as [| [k0 i0] tl Hs IH Hlt]; intros k i Hnan Hv Hin Hsame.
  - inversion Hin.
  - apply Forall_cons in Hnan as [Hk0 Htl]. cbn in Hk0.
    assert (Hk : d_isnan k = false).
    { apply elem_of_cons in Hin as [[= -> ->] | Hin]; [exact Hk0 |].
      rewrite Forall_forall in Htl. exact (Htl _ Hin). }
    unfold same_number in Hsame. rewrite d_eqb_ltb in Hsame by assumption.
    apply andb_true_iff in Hsame as [Hkv Hvk].
    apply negb_true_iff in Hkv, Hvk.
    cbn [num_find].
    apply elem_of_cons in Hin as [[= -> ->] | Hin].
    + now rewrite Hkv, Hvk.
    + assert (Hk0k : d_ltb k0 k = true).
      { rewrite Forall_forall in Hlt. exact (Hlt _ Hin). }
      destruct (d_ltb k0 v) eqn:Hk0v.
      * apply (IH k i); try assumption.
        unfold same_number. rewrite d_eqb_ltb by assumption. now rewrite Hkv, Hvk.
      * rewrite (d_geb_trans k0 v k) in Hk0k by assumption. discriminate.
Qed.

Lemma num_find_miss (m : list (double * Z)) (v : double) :
  no_nan m -> d_isnan v = false ->
  (forall k i, (k, i) ∈ m -> ~ same_number k v) -> num_find v m = None.
Proof.
  intros Hnan Hv. induction Hnan as [| [k0 i0] tl Hk0 Htl IH]; intros Hmiss.
  - reflexivity.
  - cbn in Hk0. cbn [num_find].
    destruct (d_ltb k0 v) eqn:Hk0v.
    + apply IH. intros k i Hin. apply (Hmiss k i). now right.
    + destruct (d_ltb v k0) eqn:Hvk0; [reflexivity |].
      exfalso. apply (Hmiss k0 i0); [now left |].
      unfold same_number. rewrite d_eqb_ltb by assumption. now rewrite Hk0v, Hvk0.
Qed.

Lemma num_insert_elem (m : list (double * Z)) (v : double) (i : Z) :
  num_find v m = None ->
  forall e, e ∈ num_insert v i m <-> e = (v, i) \/ e ∈ m.
Proof.
  induction m as [| [k0 i0] tl IH]; intros Hnone e.
  - cbn. rewrite list_elem_of_singleton. split; [now left | intros [-> | Hin]];
      [reflexivity | inversion Hin].
  - cbn [num_find num_insert] in *.
    destruct (d_ltb k0 v).
    + rewrite !elem_of_cons, (IH Hnone). tauto.
    + destruct (d_ltb v k0); [| discriminate].
      rewrite !elem_of_cons. tauto.
Qed.

Lemma num_insert_sorted (m : list (double * Z)) (v : double) (i : Z) :
  StronglySorted key_lt m -> num_find v m = None ->
  StronglySorted key_lt (num_insert v i m).
Proof.
  induction 1 as [| [k0 i0] tl Hs IH Hlt]; intros Hnone.
  - cbn. repeat constructor.
  - cbn [num_find num_insert] in *.
    destruct (d_ltb k0 v) eqn:Hk0v.
    + constructor; [now apply IH |].
      rewrite Forall_forall. intros e He.
      apply (num_insert_elem _ _ i Hnone) in He as [-> | He]; [exact Hk0v |].
      rewrite Forall_forall in Hlt. exact (Hlt _ He).
    + destruct (d_ltb v k0) eqn:Hvk0; [| discriminate].
      constructor; [now constructor |].
      constructor; [exact Hvk0 |].
      rewrite Forall_forall in Hlt |- *. intros e He.
      unfold key_lt. cbn. eapply d_ltb_trans; [exact Hvk0 |]. exact (Hlt _ He).
Qed.

(** The number pool and its table agree: the table is in key order, holds
    no NaN, and has the entry [(k, i)] exactly when the pool holds [k] at
    index [i]. *)
Definition num_indexed (pool : list double) (m : list (double * Z)) : Prop :=
  StronglySorted key_lt m /\ no_nan m /\
  forall (k : double) (i : Z), (k, i) ∈ m <-> 0 <= i /\ pool !! Z.to_nat i = Some k.

Lemma num_indexed_empty : num_indexed [] [].
Proof.
  split; [constructor |]. split; [constructor |].
  intros k i. split; [intros Hin; inversion Hin | intros [_ Hl]; discriminate Hl].
Qed.

Lemma num_indexed_insert (pool : list double) (m : list (double * Z)) (v : double) :
  num_indexed pool m -> d_isnan v = false -> num_find v m = None ->
  num_indexed (pool ++ [v]) (num_insert v (size pool) m).
Proof.
  intros (Hsorted & Hnan & Hi) Hv Hnone.
  split; [now apply num_insert_sorted |]. split.
  - unfold no_nan. rewrite Forall_forall. intros e He.
    apply (num_insert_elem _ _ _ Hnone) in He as [-> | He]; [exact Hv |].
    unfold no_nan in Hnan. rewrite Forall_forall in Hnan. exact (Hnan _ He).
  - intros k i. rewrite (num_insert_elem _ _ _ Hnone), (Hi k i). unfold size. split.
    + intros [[= -> ->] | [Hpos Hl]].
      * rewrite Nat2Z.id. split; [lia |].
        rewrite lookup_app_r by lia. now rewrite Nat.sub_diag.
      * split; [exact Hpos |].
        rewrite lookup_app_l; [exact Hl |]. now apply lookup_lt_Some in Hl.
    + intros [Hpos Hl].
      destruct (decide (Z.to_nat i < List.length pool)%nat) as [Hlt | Hge].
      * right. split; [exact Hpos |]. now rewrite lookup_app_l in Hl.
      * left. pose proof (lookup_lt_Some _ _ _ Hl) as Hlen.
        rewrite length_app in Hlen. cbn in Hlen.
        rewrite lookup_app_r in Hl by lia.
        replace (Z.to_nat i - List.length pool)%nat with 0%nat in Hl by lia.
        cbn in Hl. injection Hl as <-. f_equal. lia.
Qed.


(** *** The four pools of the generator *)

Definition consistent (g : BytecodeGenerator) : Prop :=
  indexed (strings (bytecode g)) (stringConstants g) /\
  num_indexed (numbers (bytecode g)) (numberConstants g) /\
  indexed (constants (bytecode g)) (generalConstants g) /\
  indexed (functions (bytecode g)) (functionNames g).

Lemma consistent_fresh : consistent fresh.
Proof.
  split; [apply indexed_empty |]. split; [apply num_indexed_empty |].
  split; apply indexed_empty.
Qed.

(** Interning [v] took the pool from [pool] to [pool'] and returned
    [index]: a value already in the pool (up to [same]) keeps its index
    and the pool; a value not in the pool is appended and gets the new
    last index. *)
Definition interned {A : Type} (same : A -> A -> Prop) (pool : list A) (v : A)
  (index : Z) (pool' : list A) : Prop :=
  (forall (n : nat) (u : A), pool !! n = Some u -> same u v ->
     index = Z.of_nat n /\ pool' = pool) /\
  ((forall u : A, u ∈ pool -> ~ same u v) ->
     index = size pool /\ pool' = pool ++ [v] /\ index = size pool' - 1).

Lemma interned_hit (pool : list string) (m : gmap string Z) (s : string) (i : Z) :
  indexed pool m -> m !! s = Some i -> interned eq pool s i pool.
Proof.
  intros Hi Hm. split.
  - intros n u Hn ->. split; [| reflexivity].
    rewrite (indexed_present pool m n s Hi Hn) in Hm. congruence.
  - intros Habsent. exfalso.
    apply Hi in Hm as [_ Hl]. apply (Habsent s); [| reflexivity].
    eapply list_elem_of_lookup_2, Hl.
Qed.

Lemma interned_miss (pool : list string) (m : gmap string Z) (s : string) :
  indexed pool m -> m !! s = None -> size pool < 65536 ->
  interned eq pool s (to_u16 (size pool)) (pool ++ [s]).
Proof.
  intros Hi Hm Hsize. pose proof (size_nonneg pool) as Hpos.
  rewrite to_u16_small by lia. split.
  - intros n u Hn ->. rewrite (indexed_present pool m n s Hi Hn) in Hm. discriminate.
  - intros _. rewrite size_app. change (size [s]) with 1. repeat split; lia.
Qed.

Lemma num_interned_hit (pool : list double) (m : list (double * Z)) (v : double) (i : Z) :
  num_indexed pool m -> d_isnan v = false -> num_find v m = Some i ->
  interned same_number pool v i pool.
Proof.
  intros (Hsorted & Hnan & Hi) Hv Hfind. split.
  - intros n u Hn Hsame. split; [| reflexivity].
    assert (Hin : (u, Z.of_nat n) ∈ m).
    { apply Hi. rewrite Nat2Z.id. split; [lia | exact Hn]. }
    rewrite (num_find_hit m v u (Z.of_nat n) Hsorted Hnan Hv Hin Hsame) in Hfind.
    congruence.
  - intros Habsent. exfalso.
    rewrite (num_find_miss m v Hnan Hv) in Hfind; [discriminate |].
    intros k j Hin. apply Habsent. apply Hi in Hin as [_ Hl].
    eapply list_elem_of_lookup_2, Hl.
Qed.

Lemma num_interned_miss (pool : list double) (m : list (double * Z)) (v : double) :
  num_indexed pool m -> d_isnan v = false -> num_find v m = None -> size pool < 65536 ->
  interned same_number pool v (to_u16 (size pool)) (pool ++ [v]).
Proof.
  intros (Hsorted & Hnan & Hi) Hv Hfind Hsize. pose proof (size_nonneg pool) as Hpos.
  rewrite to_u16_small by lia. split.
  - intros n u Hn Hsame.
    assert (Hin : (u, Z.of_nat n) ∈ m).
    { apply Hi. rewrite Nat2Z.id. split; [lia | exact Hn]. }
    rewrite (num_find_hit m v u (Z.of_nat n) Hsorted Hnan Hv Hin Hsame) in Hfind.
    discriminate.
  - intros _. rewrite size_app. change (size [v]) with 1. repeat split; lia.
Qed.

Lemma same_number_refl (v : double) : d_isnan v = false -> same_number v v.
Proof.
  intros Hv. unfold same_number. rewrite d_eqb_ltb by assumption.
  now rewrite d_ltb_irrefl.
Qed.

(** C6 (amended). In a generator whose pools agree with their tables, as
    they do from [fresh] on, and hold fewer than 65536 entries, interning
    into any of the four pools returns the index of the value when the
    pool holds it (the same text, or a number equal to it) and leaves the
    pool as it is, and otherwise appends the value and returns the new
    last index; interning the value once more returns the same index and
    changes nothing.  A number must not be a NaN. *)
Theorem interning_is_idempotent (g : BytecodeGenerator) (s : string) (d : double) :
  consistent g ->
  size (strings (bytecode g)) < 65536 ->
  size (numbers (bytecode g)) < 65536 ->
  size (constants (bytecode g)) < 65536 ->
  size (functions (bytecode g)) < 65536 ->
  d_isnan d = false ->
  (let '(i1, g1) := addStringConstant s g in
   interned eq (strings (bytecode g)) s i1 (strings (bytecode g1)) /\
   addStringConstant s g1 = (i1, g1) /\ consistent g1) /\
  (let '(i1, g1) := addNumberConstant d g in
   interned same_number (numbers (bytecode g)) d i1 (numbers (bytecode g1)) /\
   addNumberConstant d g1 = (i1, g1) /\ consistent g1) /\
  (let '(i1, g1) := addGeneralConstant s g in
   interned eq (constants (bytecode g)) s i1 (constants (bytecode g1)) /\
   addGeneralConstant s g1 = (i1, g1) /\ consistent g1) /\
  (let '(i1, g1) := addFunctionName s g in
   interned eq (functions (bytecode g)) s i1 (functions (bytecode g1)) /\
   addFunctionName s g1 = (i1, g1) /\ consistent g1).
Proof.
  intros (Hs & Hn & Hc & Hf) Hss Hsn Hsc Hsf Hd.
  pose proof (size_nonneg (strings (bytecode g))) as Hps.
  pose proof (size_nonneg (numbers (bytecode g))) as Hpn.
  pose proof (size_nonneg (constants (bytecode g))) as Hpc.
  pose proof (size_nonneg (functions (bytecode g))) as Hpf.
  split; [| split; [| split]].
  - unfold addStringConstant at 1.
    destruct (stringConstants g !! s) as [i |] eqn:Hm.
    + split; [now apply interned_hit with (m := stringConstants g) |].
      split; [unfold addStringConstant; now rewrite Hm | exact (conj Hs (conj Hn (conj Hc Hf)))].
    + split; [now apply interned_miss with (m := stringConstants g) |].
      split; [unfold addStringConstant; cbn; now rewrite lookup_insert_eq |].
      (split; [| split; [| split]]); cbn; try assumption.
      rewrite to_u16_small by lia. now apply indexed_insert.
  - unfold addNumberConstant at 1.
    destruct (num_find d (numberConstants g)) as [i |] eqn:Hm.
    + split; [now apply num_interned_hit with (m := numberConstants g) |].
      split; [unfold addNumberConstant; now rewrite Hm | exact (conj Hs (conj Hn (conj Hc Hf)))].
    + assert (Hn' : num_indexed (numbers (bytecode g) ++ [d])
                      (num_insert d (size (numbers (bytecode g))) (numberConstants g)))
        by now apply num_indexed_insert.
      split; [now apply num_interned_miss with (m := numberConstants g) |].
      rewrite to_u16_small by lia.
      split; [| (split; [| split; [| split]]); cbn; assumption].
      unfold addNumberConstant; cbn.
      destruct Hn' as (Hsorted' & Hnan' & _).
      rewrite (num_find_hit _ d d (size (numbers (bytecode g))) Hsorted' Hnan' Hd);
        [reflexivity | | now apply same_number_refl].
      apply num_insert_elem; [exact Hm | now left].
  - unfold addGeneralConstant at 1.
    destruct (generalConstants g !! s) as [i |] eqn:Hm.
    + split; [now apply interned_hit with (m := generalConstants g) |].
      split; [unfold addGeneralConstant; now rewrite Hm | exact (conj Hs (conj Hn (conj Hc Hf)))].
    + split; [now apply interned_miss with (m := generalConstants g) |].
      split; [unfold addGeneralConstant; cbn; now rewrite lookup_insert_eq |].
      (split; [| split; [| split]]); cbn; try assumption.
      rewrite to_u16_small by lia. now apply indexed_insert.
  - unfold addFunctionName at 1.
    destruct (functionNames g !! s) as [i |] eqn:Hm.
    + split; [now apply interned_hit with (m := functionNames g) |].
      split; [unfold addFunctionName; now rewrite Hm | exact (conj Hs (conj Hn (conj Hc Hf)))].
    + split; [now apply interned_miss with (m := functionNames g) |].
      split; [unfold addFunctionName; cbn; now rewrite lookup_insert_eq |].
      (split; [| split; [| split]]); cbn; try assumption.
      rewrite to_u16_small by lia. now apply indexed_insert.
Qed.


(** Interning a list of names, one after the other. *)
Definition intern_all (names : list string) (g : BytecodeGenerator) : BytecodeGenerator :=
  fold_left (fun g name => (addGeneralConstant name g).2) names g.

(** Up to 65536 distinct names are interned in order, each at its place. *)
Lemma intern_all_distinct (names : list string) :
  NoDup names -> size names <= 65536 ->
  constants (bytecode (intern_all names fresh)) = names /\
  consistent (intern_all names fresh).
Proof.
  induction names as [| name names IH] using rev_ind; intros Hdistinct Hsize.
  - split; [reflexivity | apply consistent_fresh].
  - apply NoDup_app in Hdistinct as (Hnames & Hnew & _).
    rewrite size_app in Hsize. change (size [name]) with 1 in Hsize.
    destruct IH as [Hpool (Hs & Hn & Hc & Hf)]; [exact Hnames | lia |].
    unfold intern_all in *. rewrite fold_left_app. cbn [fold_left].
    set (g := fold_left _ names fresh) in *.
    assert (Hnone : generalConstants g !! name = None).
    { apply (indexed_absent (constants (bytecode g))); [exact Hc |].
      rewrite Hpool. intros Hin. apply (Hnew name Hin). now left. }
    unfold addGeneralConstant. rewrite Hnone. cbn.
    split; [now rewrite Hpool |].
    (split; [| split; [| split]]); cbn; try assumption.
    pose proof (size_nonneg names).
    rewrite to_u16_small by (rewrite Hpool; lia). now apply indexed_insert.
Qed.

End Interning.

(** The two-character name of [k]. *)
Definition name_of (k : nat) : string :=
  String (ascii_of_nat (k / 256)) (String (ascii_of_nat (k mod 256)) "").

Lemma two_characters_distinct (a b c d : nat) :
  (a < 256)%nat -> (b < 256)%nat -> (c < 256)%nat -> (d < 256)%nat ->
  String (ascii_of_nat a) (String (ascii_of_nat b) "")
  = String (ascii_of_nat c) (String (ascii_of_nat d) "") ->
  a = c /\ b = d.
Proof.
  intros Ha Hb Hc Hd Heq. injection Heq as Hhi Hlo.
  apply (f_equal nat_of_ascii) in Hhi, Hlo.
  rewrite !nat_ascii_embedding in Hhi, Hlo by assumption. now split.
Qed.

Lemma name_of_distinct (j k : nat) :
  Z.of_nat j < 65536 -> Z.of_nat k < 65536 -> name_of j = name_of k -> j = k.
Proof.
  intros Hj Hk Heq.
  destruct (two_characters_distinct (j / 256) (j mod 256) (k / 256) (k mod 256))
    as [Hhi Hlo]; try exact Heq;
    try (apply Nat.Div0.div_lt_upper_bound; lia);
    try (apply Nat.mod_upper_bound; lia).
  rewrite (Nat.div_mod_eq j 256), (Nat.div_mod_eq k 256), Hhi, Hlo. reflexivity.
Qed.

(** 65536 distinct names, and the generator that has interned them all. *)
Definition many_names : list string := name_of <$> seq 0 (Z.to_nat 65536).
Definition packed : BytecodeGenerator := intern_all many_names fresh.

Lemma many_names_size : size many_names = 65536.
Proof. unfold size, many_names. rewrite length_fmap, length_seq. lia. Qed.

Lemma names_distinct (n : nat) :
  Z.of_nat n <= 65536 -> NoDup (name_of <$> seq 0 n).
Proof.
  intros Hn. apply (NoDup_fmap_2_strong name_of); [| apply NoDup_seq].
  intros j k Hj Hk. apply elem_of_seq in Hj, Hk.
  apply name_of_distinct; lia.
Qed.

Lemma many_names_distinct : NoDup many_names.
Proof. apply names_distinct. rewrite Z2Nat.id; lia. Qed.

Lemma interning_is_idempotent_witness :
  consistent fresh /\ d_isnan (Binary64.of_Z 1) = false /\
  let '(i1, g1) := addGeneralConstant "x" fresh in
  i1 = 0 /\ constants (bytecode g1) = ["x"] /\ addGeneralConstant "x" g1 = (i1, g1).
Proof.
  split; [apply consistent_fresh |]. split; [reflexivity |].
  pose proof (interning_is_idempotent (HL := binary64_laws) fresh "x" (Binary64.of_Z 1)
                consistent_fresh eq_refl eq_refl eq_refl eq_refl eq_refl)
    as (_ & _ & Hgeneral & _).
  destruct (addGeneralConstant "x" fresh) as [i1 g1].
  destruct Hgeneral as ((_ & Hnew) & Hagain & _).
  destruct Hnew as (Hindex & Hpool & _).
  { intros u Hu. inversion Hu. }
  split; [exact Hindex |]. split; [exact Hpool | exact Hagain].
Defined.

Lemma many_names_fit : size many_names <= 65536.
Proof. rewrite many_names_size. lia. Qed.

Lemma packed_pool : constants (bytecode packed) = many_names /\ consistent packed.
Proof. exact (intern_all_distinct many_names many_names_distinct many_names_fit). Qed.

Lemma fresh_is_new : "fresh" ∉ many_names.
Proof.
  unfold many_names. intros Hin. apply list_elem_of_fmap in Hin as (k & Hk & _).
  discriminate Hk.
Qed.

Lemma packed_lookup : generalConstants packed !! "fresh" = None.
Proof.
  destruct packed_pool as (Hpool & _ & _ & Hc & _).
  apply (indexed_absent (constants (bytecode packed))); [exact Hc |].
  rewrite Hpool. apply fresh_is_new.
Qed.

Lemma packed_interns_fresh :
  addGeneralConstant "fresh" packed
  = (0, mkGen (set_constants (many_names ++ ["fresh"]) (bytecode packed))
              (stringConstants packed) (numberConstants packed)
              (<["fresh" := 0]> (generalConstants packed)) (functionNames packed)
              (loopStack packed)).
Proof.
  unfold addGeneralConstant. rewrite packed_lookup.
  rewrite (proj1 packed_pool), many_names_size. reflexivity.
Qed.

(** C6, as stated, fails on a pool of 65536 entries: a name the pool does
    not hold is appended at index 65536 and index 0 is returned, which is
    not the new last index. *)
Lemma interning_wraps_at_65536 :
  consistent packed /\
  size (constants (bytecode packed)) = 65536 /\
  ("fresh" ∉ constants (bytecode packed)) /\
  (addGeneralConstant "fresh" packed).1 = 0 /\
  constants (bytecode (addGeneralConstant "fresh" packed).2)
  = constants (bytecode packed) ++ ["fresh"] /\
  (addGeneralConstant "fresh" packed).1
  <> size (constants (bytecode (addGeneralConstant "fresh" packed).2)) - 1.
Proof.
  rewrite packed_interns_fresh. cbn [fst snd bytecode constants set_constants].
  rewrite (proj1 packed_pool), size_app, many_names_size.
  split; [apply packed_pool |]. split; [reflexivity |]. split; [apply fresh_is_new |].
  split; [reflexivity |]. split; [reflexivity | discriminate].
Qed.

(** ** Reference edges of values that hold values *)

Section ReferenceEdges.
Context {H : Host}.

(** An empty array at address 1, and at address 2 an array that holds one
    nil value at address 3. *)
Definition shelf : Located := LArray 1 [].
Definition nested : Located := LArray 2 [LNil 3].
Definition registry : Located := LHash 1 [].

(** A process in which only the two top-level values are registered. *)
Definition start : Memory :=
  mkMemory (slime_gc_register_object (slime_gc_register_object slime_gc_new 1) 2) 10.

(** C5 (what the code does). Array append, hash assignment and
    whole-value assignment each add at most the one edge from the
    container to the value assigned; nothing is added for the values
    that value contains.  After [shelf.push(nested)] the graph has the
    edge from 1 to 2 and no edge from 1 to 3, the address of the element
    of [nested]; likewise after [registry.set("k", nested)] and after
    [shelf = nested]. *)
Theorem container_edges_stop_at_the_assigned_value :
  (forall (this item : Located) (m : Memory),
     references (gc_ (gc_push this item m).2)
     ⊆ references (gc_ m) ∪ {[(address_of this, address_of item)]}) /\
  (forall (this : Located) (key : string) (value : Located) (m : Memory),
     references (gc_ (gc_set this key value m).2)
     ⊆ references (gc_ m) ∪ {[(address_of this, address_of value)]}) /\
  (forall (this other : Located) (m : Memory),
     references (gc_ (gc_assign this other m).2)
     ⊆ references (gc_ m) ∪ {[(address_of this, address_of other)]}) /\
  3 ∈ contained nested /\
  references (gc_ (gc_push shelf nested start).2) = {[(1, 2)]} /\
  ((1, 3) ∉ references (gc_ (gc_push shelf nested start).2)) /\
  references (gc_ (gc_set registry "k" nested start).2) = {[(1, 2)]} /\
  ((1, 3) ∉ references (gc_ (gc_set registry "k" nested start).2)) /\
  references (gc_ (gc_assign shelf nested start).2) = {[(1, 2)]} /\
  (1, 3) ∉ references (gc_ (gc_assign shelf nested start).2).
Proof.
  split; [| split; [| split]].
  - intros this item m. unfold gc_push.
    destruct this; try apply union_subseteq_l.
    destruct (copy_to (free m) (free m + 1) item). reflexivity.
  - intros this key value m. unfold gc_set.
    destruct this; try apply union_subseteq_l.
    destruct (hash_assign key value (free m) hash). reflexivity.
  - intros this other m. unfold gc_assign.
    destruct (address_of this =? address_of other); [apply union_subseteq_l |].
    destruct (copy_to (address_of this) (free m) other).
    assert (Hedges : references (gc_ (mkMemory
                       (addAllReferences (address_of this) other
                          (slime_gc_clear_references (gc_ m) (address_of this))) z))
                     = filter (fun e => e.1 <> address_of this) (references (gc_ m))
                       ∪ {[(address_of this, address_of other)]})
      by (destruct other; reflexivity).
    cbn [snd]. rewrite Hedges. apply union_mono_r.
    intros e He. apply elem_of_filter in He. apply He.
  - assert (Hpush : references (gc_ (gc_push shelf nested start).2) = {[(1, 2)]})
      by (cbn; apply (left_id_L ∅ (∪))).
    assert (Hset : references (gc_ (gc_set registry "k" nested start).2) = {[(1, 2)]})
      by (cbn; apply (left_id_L ∅ (∪))).
    assert (Hassign : references (gc_ (gc_assign shelf nested start).2) = {[(1, 2)]}).
    { cbn. rewrite filter_empty_L by apply _. apply (left_id_L ∅ (∪)). }
    assert (Hother : (1, 3) ∉ ({[(1, 2)]} : gset (Z * Z))).
    { rewrite elem_of_singleton. discriminate. }
    rewrite Hpush, Hset, Hassign.
    split; [cbn; apply list_elem_of_here |]. repeat split; exact Hother.
Qed.

End ReferenceEdges.

(** * Further properties of the code *)

(** ** The stack machine: opcodes, operands and the stack *)

Section MachineBehaviour.
Context {H : Host}.

Ltac other_opcode :=
  repeat match goal with
         | |- context [?a =? ?b] =>
             destruct (Z.eqb_spec a b) as [Heq | _];
             [ exfalso; revert Heq;
               unfold OP_NOP, OP_PUSH_NUM, OP_PUSH_STR, OP_PUSH_CONST, OP_POP, OP_ADD,
                 OP_SUB, OP_MUL, OP_DIV, OP_MOD, OP_CALL, OP_JMP, OP_JMP_IF_FALSE,
                 OP_JMP_IF_TRUE, OP_LOAD, OP_STORE, OP_RET, OP_HALT; lia |]
         end.

(** X1. The machine implements the opcodes 0x00 to 0x11 only: any other
    opcode byte, the declared comparison, logical, loop and if opcodes
    0x12 to 0x21 included, throws "Unknown opcode: " followed by the byte
    in decimal, which ends the run. *)
Theorem unknown_opcode_throws (bc : Bytecode) (vm : VM) (op : Z) :
  code_at bc (programCounter vm) = Ok op ->
  OP_HALT < op ->
  executeInstruction bc vm = Throw ("Unknown opcode: " +:+ decimal op) /\
  forall fuel, run (S fuel) bc vm = Some (Throw ("Unknown opcode: " +:+ decimal op)).
Proof.
  intros Hop Hother.
  assert (Hexec : executeInstruction bc vm = Throw ("Unknown opcode: " +:+ decimal op)).
  { unfold executeInstruction.
    rewrite (executeInstruction_fetch bc vm op Hop), Hop. cbn [mbind outcome_bind].
    unfold OP_HALT in Hother. other_opcode. reflexivity. }
  split; [exact Hexec |]. intros fuel. exact (run_throws fuel bc vm op _ Hop Hexec).
Qed.

Lemma pop_nil (vm : VM) : stack vm = [] -> pop vm = Throw "Stack underflow".
Proof. intros Hs. unfold pop. rewrite Hs. reflexivity. Qed.

Lemma pop_short (vm : VM) :
  size (stack vm) < 2 ->
  ('(b, vm1) ← pop vm; '(a, vm2) ← pop vm1; Ok (a, b, vm2)) = Throw "Stack underflow".
Proof.
  intros Hshort. destruct (stack vm) as [| x [| y l]] eqn:Hs.
  - rewrite (pop_nil vm Hs). reflexivity.
  - rewrite (pop_snoc vm [] x Hs). cbn [mbind outcome_bind].
    rewrite (pop_nil (set_stack [] vm) eq_refl). reflexivity.
  - unfold size in Hshort. cbn [List.length] in Hshort. lia.
Qed.

(** X2. An instruction that finds fewer operands on the stack than it
    pops throws "Stack underflow": [OP_POP], a conditional jump and
    [OP_STORE] (with a variable index in range) on an empty stack, and
    the five arithmetic instructions on a stack of fewer than two
    values. *)
Theorem stack_underflow (bc : Bytecode) (vm : VM) (op : Z) :
  code_at bc (programCounter vm) = Ok op ->
  (op = OP_POP /\ stack vm = []) \/
  ((op = OP_ADD \/ op = OP_SUB \/ op = OP_MUL \/ op = OP_DIV \/ op = OP_MOD) /\
   size (stack vm) < 2) \/
  ((op = OP_JMP_IF_FALSE \/ op = OP_JMP_IF_TRUE) /\
   (exists target, operand32 bc (programCounter vm + 1) = Ok target) /\ stack vm = []) \/
  (op = OP_STORE /\
   (exists index name, operand16 bc (programCounter vm + 1) = Ok index /\
                       pool_at (constants bc) index = Some name) /\ stack vm = []) ->
  executeInstruction bc vm = Throw "Stack underflow".
Proof.
  intros Hop Hcase.
  unfold executeInstruction.
  rewrite (executeInstruction_fetch bc vm op Hop), Hop. cbn [mbind outcome_bind].
  destruct Hcase as [[-> Hs] | [[Hbin Hs] | [[Hjump [[target Ht] Hs]] | [-> [Hstore Hs]]]]].
  - cbn. rewrite pop_nil by exact Hs. reflexivity.
  - pose proof (pop_short (set_pc (programCounter vm + 1) vm) Hs) as Hpop.
    destruct (pop (set_pc (programCounter vm + 1) vm)) as [[b vm1] | what |] eqn:Hb;
      cbn [mbind outcome_bind] in Hpop.
    + destruct (pop vm1) as [[a vm2] | what |] eqn:Ha;
        cbn [mbind outcome_bind] in Hpop; try discriminate Hpop.
      destruct Hbin as [-> | [-> | [-> | [-> | ->]]]]; cbn; unfold binary_numeric;
        cbn; rewrite ?Hb; cbn; rewrite Ha; cbn; now inversion Hpop.
    + destruct Hbin as [-> | [-> | [-> | [-> | ->]]]]; cbn; unfold binary_numeric;
        cbn; rewrite ?Hb; cbn; now inversion Hpop.
    + discriminate Hpop.
  - destruct Hjump as [-> | ->]; cbn; rewrite Ht; cbn; rewrite pop_nil by exact Hs; reflexivity.
  - destruct Hstore as (index & name & Hi & Hname).
    cbn. rewrite Hi. cbn. rewrite Hname. rewrite pop_nil by exact Hs. reflexivity.
Qed.

(** X3. A variable stored is the variable loaded: [OP_STORE] of the top
    of the stack under a name of the constant pool, followed by [OP_LOAD]
    of a name, leaves the stack as it was before the store when the two
    names are the same; for another name it pushes the value that name
    had, or nil when it has none.  Neither instruction fails. *)
Theorem store_then_load (bc : Bytecode) (vm : VM) (i j : Z) (name other : string)
  (value : Value) (rest : list Value) :
  code_at bc (programCounter vm) = Ok OP_STORE ->
  operand16 bc (programCounter vm + 1) = Ok i ->
  pool_at (constants bc) i = Some name ->
  code_at bc (programCounter vm + 3) = Ok OP_LOAD ->
  operand16 bc (programCounter vm + 4) = Ok j ->
  pool_at (constants bc) j = Some other ->
  stack vm = rest ++ [value] ->
  (vm1 ← executeInstruction bc vm; executeInstruction bc vm1) =
  Ok (mkVM (rest ++ [if String.eqb other name then value
                     else default VNil (variables vm !! other)])
           (<[name := value]> (variables vm)) (programCounter vm + 6) (console vm)).
Proof.
  intros Hstore Hi Hname Hload Hj Hother Hstack.
  assert (Hfirst : executeInstruction bc vm =
                   Ok (mkVM rest (<[name := value]> (variables vm))
                            (programCounter vm + 3) (console vm))).
  { unfold executeInstruction.
    rewrite (executeInstruction_fetch bc vm _ Hstore), Hstore. cbn.
    rewrite Hi. cbn. rewrite Hname.
    rewrite (pop_snoc _ rest value) by exact Hstack. cbn.
    replace (programCounter vm + 1 + 2) with (programCounter vm + 3) by lia. reflexivity. }
  rewrite Hfirst. cbn [mbind outcome_bind].
  unfold executeInstruction. cbn [programCounter code].
  assert (Hin : (size (code bc) <=? programCounter vm + 3) = false)
    by (apply code_at_in_range in Hload; lia).
  rewrite Hin, Hload.
  cbn. replace (programCounter vm + 3 + 1) with (programCounter vm + 4) by lia.
  rewrite Hj. cbn. rewrite Hother.
  replace (programCounter vm + 4 + 2) with (programCounter vm + 6) by lia.
  destruct (String.eqb_spec other name) as [-> | Hne].
  - rewrite lookup_insert_eq. reflexivity.
  - rewrite lookup_insert_ne by congruence.
    destruct (variables vm !! other); reflexivity.
Qed.

Lemma pop_n_app (args rest : list Value) (vm : VM) :
  stack vm = rest ++ args -> pop_n (List.length args) vm = Ok (set_stack rest vm).
Proof.
  revert vm. induction args as [| a args IH] using rev_ind; intros vm Hs.
  - rewrite app_nil_r in Hs. cbn. destruct vm; cbn in *. now subst.
  - rewrite length_app, Nat.add_comm. cbn [List.length Nat.add pop_n].
    rewrite app_assoc in Hs. rewrite (pop_snoc vm (rest ++ args) a Hs).
    cbn [mbind outcome_bind]. rewrite (IH (set_stack (rest ++ args) vm) eq_refl).
    reflexivity.
Qed.

Lemma drop_arguments (args rest : list Value) :
  drop (List.length (rest ++ args) - Z.to_nat (size args)) (rest ++ args) = args.
Proof.
  unfold size. rewrite Nat2Z.id, length_app.
  replace (List.length rest + List.length args - List.length args)%nat
    with (List.length rest) by lia.
  apply drop_app_length.
Qed.

(** What [OP_CALL] does up to the call itself: the top [argCount] values
    of the stack, converted with [toString] in stack order, are the
    arguments, and they are popped. *)
Lemma call_arguments (bc : Bytecode) (vm : VM) (f n : Z) (name : string)
  (args rest : list Value) :
  code_at bc (programCounter vm) = Ok OP_CALL ->
  operand16 bc (programCounter vm + 1) = Ok f ->
  code_at bc (programCounter vm + 3) = Ok n ->
  pool_at (functions bc) f = Some name ->
  stack vm = rest ++ args ->
  size args = n ->
  executeInstruction bc vm =
  let vm' := mkVM rest (variables vm) (programCounter vm + 4) (console vm) in
  match initBaselib !! name with
  | Some builtin => c ← builtin (List.map toString args) (console vm); Ok (set_console c vm')
  | None => Ok (set_console
                  (eprint ("Error: Unknown function " +:+ name +:+ endl) (console vm)) vm')
  end.
Proof.
  intros Hop Hf Hn Hname Hstack Hsize.
  unfold executeInstruction.
  rewrite (executeInstruction_fetch bc vm _ Hop), Hop. cbn.
  rewrite Hf. cbn.
  replace (programCounter vm + 1 + 2) with (programCounter vm + 3) by lia.
  rewrite Hn. cbn. rewrite Hname, Hstack.
  assert (Hfits : (size (rest ++ args) <? n) = false).
  { rewrite size_app. pose proof (size_nonneg rest). lia. }
  rewrite Hfits. subst n. rewrite drop_arguments.
  unfold size at 1. rewrite Nat2Z.id.
  rewrite (pop_n_app args rest) by exact Hstack.
  cbn. replace (programCounter vm + 1 + 3) with (programCounter vm + 4) by lia.
  destruct (initBaselib !! name) as [builtin |]; reflexivity.
Qed.

(** X4. A call of the print built-in ([System.Output.Print] or
    [System.Output.Println]) with [argCount] values on top of the stack
    removes them and writes their [toString] texts to standard output in
    the order they were pushed, followed by a newline. *)
Theorem call_print (bc : Bytecode) (vm : VM) (f n : Z) (name : string)
  (args rest : list Value) :
  code_at bc (programCounter vm) = Ok OP_CALL ->
  operand16 bc (programCounter vm + 1) = Ok f ->
  code_at bc (programCounter vm + 3) = Ok n ->
  pool_at (functions bc) f = Some name ->
  name = "System.Output.Print" \/ name = "System.Output.Println" ->
  stack vm = rest ++ args ->
  size args = n ->
  executeInstruction bc vm =
  Ok (mkVM rest (variables vm) (programCounter vm + 4)
           (mkConsole ((out (console vm) +:+ concat_args (List.map toString args)) +:+ endl)
                      (err (console vm)) (env (console vm)))).
Proof.
  intros Hop Hf Hn Hname Hprint Hstack Hsize.
  rewrite (call_arguments bc vm f n name args rest Hop Hf Hn Hname Hstack Hsize).
  destruct Hprint as [-> | ->].
  - change (initBaselib !! "System.Output.Print") with (Some output_print).
    reflexivity.
  - change (initBaselib !! "System.Output.Println") with (Some output_print).
    reflexivity.
Qed.

(** X5. A call of a name that is no built-in is no failure: the
    arguments are popped, "Error: Unknown function " with the name is
    written to standard error, nothing is written to standard output and
    the run goes on with the next instruction. *)
Theorem call_unknown_function (bc : Bytecode) (vm : VM) (f n : Z) (name : string)
  (args rest : list Value) :
  code_at bc (programCounter vm) = Ok OP_CALL ->
  operand16 bc (programCounter vm + 1) = Ok f ->
  code_at bc (programCounter vm + 3) = Ok n ->
  pool_at (functions bc) f = Some name ->
  initBaselib !! name = None ->
  stack vm = rest ++ args ->
  size args = n ->
  executeInstruction bc vm =
  Ok (mkVM rest (variables vm) (programCounter vm + 4)
           (mkConsole (out (console vm))
                      (err (console vm) +:+ "Error: Unknown function " +:+ name +:+ endl)
                      (env (console vm)))).
Proof.
  intros Hop Hf Hn Hname Hunknown Hstack Hsize.
  rewrite (call_arguments bc vm f n name args rest Hop Hf Hn Hname Hstack Hsize).
  cbv zeta. unfold builtin in *. rewrite Hunknown. reflexivity.
Qed.

(** *** The machine never holds a boolean *)

(** No value of the stack and no variable is a boolean. *)
Definition boolean_free (vm : VM) : Prop :=
  Forall (fun v => isBoolean v = false) (stack vm) /\
  map_Forall (fun _ v => isBoolean v = false) (variables vm).

(** The states of a run: the machine as [execute] starts it, and every
    state an instruction leaves. *)
Inductive reachable (bc : Bytecode) : VM -> Prop :=
| reachable_initial (w : world) : reachable bc (initial w)
| reachable_step (vm vm' : VM) :
    reachable bc vm -> executeInstruction bc vm = Ok vm' -> reachable bc vm'.

Lemma boolean_free_pop (vm vm' : VM) (v : Value) :
  boolean_free vm -> pop vm = Ok (v, vm') -> boolean_free vm' /\ isBoolean v = false.
Proof.
  intros [Hs Hv] Hpop. unfold pop in Hpop.
  destruct (stack vm) as [| x l] eqn:Hstack using rev_ind; [discriminate |].
  clear IHl. rewrite last_snoc, removelast_last in Hpop. injection Hpop as <- <-.
  apply Forall_app in Hs as [Hl Hx]. rewrite Forall_singleton in Hx.
  split; [split; assumption | exact Hx].
Qed.

Lemma boolean_free_pop_n (n : nat) (vm vm' : VM) :
  boolean_free vm -> pop_n n vm = Ok vm' -> boolean_free vm'.
Proof.
  revert vm. induction n as [| n IH]; intros vm Hfree Hpop; cbn in Hpop.
  - now injection Hpop as <-.
  - destruct (pop vm) as [[v vm1] | |] eqn:Hp; try discriminate.
    cbn in Hpop. apply (IH vm1); [| exact Hpop].
    apply (boolean_free_pop vm vm1 v Hfree Hp).
Qed.

Lemma boolean_free_push (v : Value) (vm : VM) :
  boolean_free vm -> isBoolean v = false -> boolean_free (push v vm).
Proof.
  intros [Hs Hv] Hb. split; [| exact Hv].
  cbn. apply Forall_app. split; [exact Hs | now apply Forall_singleton].
Qed.

Lemma boolean_free_set_pc (pc : Z) (vm : VM) : boolean_free vm -> boolean_free (set_pc pc vm).
Proof. intros Hfree. exact Hfree. Qed.

Lemma boolean_free_set_console (c : Console) (vm : VM) :
  boolean_free vm -> boolean_free (set_console c vm).
Proof. intros Hfree. exact Hfree. Qed.

Lemma boolean_free_store (name : string) (v : Value) (vm : VM) :
  boolean_free vm -> isBoolean v = false ->
  boolean_free (set_variables (<[name := v]> (variables vm)) vm).
Proof.
  intros [Hs Hv] Hb. split; [exact Hs |].
  cbn. apply map_Forall_insert_2; assumption.
Qed.

Lemma boolean_free_pop_state (vm vm' : VM) (v : Value) :
  pop vm = Ok (v, vm') -> boolean_free vm -> boolean_free vm'.
Proof. intros Hpop Hfree. apply (boolean_free_pop vm vm' v Hfree Hpop). Qed.

Lemma boolean_free_pop_value (vm vm' : VM) (v : Value) :
  pop vm = Ok (v, vm') -> boolean_free vm -> isBoolean v = false.
Proof. intros Hpop Hfree. apply (boolean_free_pop vm vm' v Hfree Hpop). Qed.

Lemma boolean_free_load (vm : VM) (name : string) (v : Value) :
  variables vm !! name = Some v -> boolean_free vm -> isBoolean v = false.
Proof. intros Hlookup [_ Hv]. exact (Hv name v Hlookup). Qed.

Ltac instruction_step Hstep :=
  match type of Hstep with
  | (if ?c then _ else _) = _ => destruct c eqn:?
  | mbind _ ?m = _ => destruct m as [? | ? |] eqn:?; cbn [mbind outcome_bind] in Hstep
  | match ?x with _ => _ end = _ => destruct x eqn:?
  end; try discriminate Hstep.

Ltac keeps_free Hfree :=
  repeat first
    [ exact Hfree
    | reflexivity
    | match goal with
      | |- boolean_free (set_pc _ _) => apply boolean_free_set_pc
      | |- boolean_free (set_console _ _) => apply boolean_free_set_console
      | |- boolean_free (push _ _) => apply boolean_free_push
      | |- boolean_free (set_variables _ _) => apply boolean_free_store
      | Hp : pop ?a = Ok (_, ?b) |- boolean_free ?b =>
          apply (boolean_free_pop_state a b _ Hp)
      | Hp : pop ?a = Ok (?v, _) |- isBoolean ?v = false =>
          apply (boolean_free_pop_value a _ v Hp)
      | Hp : pop_n _ ?a = Ok ?b |- boolean_free ?b =>
          apply (fun Hf => boolean_free_pop_n _ a b Hf Hp)
      | Hl : variables ?a !! _ = Some ?v |- isBoolean ?v = false =>
          apply (boolean_free_load a _ v Hl)
      end ].

(** Every instruction keeps the machine free of booleans: what it pushes
    is a number, a string, nil or the value of a variable. *)
Lemma boolean_free_step (bc : Bytecode) (vm vm' : VM) :
  boolean_free vm -> executeInstruction bc vm = Ok vm' -> boolean_free vm'.
Proof.
  intros Hfree Hstep. unfold executeInstruction, binary_numeric in Hstep.
  cbv zeta in Hstep.
  repeat instruction_step Hstep.
  all: injection Hstep as <-.
  all: keeps_free Hfree.
Qed.

Lemma reachable_boolean_free (bc : Bytecode) (vm : VM) : reachable bc vm -> boolean_free vm.
Proof.
  induction 1 as [w | vm vm' _ IH Hstep].
  - split; [apply Forall_nil_2 | apply map_Forall_empty].
  - exact (boolean_free_step bc vm vm' IH Hstep).
Qed.

Lemma operand32_never_throws (bc : Bytecode) (pc : Z) (what : string) :
  operand32 bc pc <> Throw what.
Proof.
  unfold operand32, code_at.
  repeat match goal with
         | |- context [if ?c then _ else _] => destruct c
         | |- context [match ?x with _ => _ end] => destruct x
         end; cbn; discriminate.
Qed.

Lemma conditional_jump_fails (bc : Bytecode) (vm : VM) (op : Z) :
  boolean_free vm ->
  code_at bc (programCounter vm) = Ok op ->
  op = OP_JMP_IF_FALSE \/ op = OP_JMP_IF_TRUE ->
  executeInstruction bc vm = Undefined \/
  executeInstruction bc vm = Throw "Stack underflow" \/
  executeInstruction bc vm = Throw "Value is not a boolean".
Proof.
  intros Hfree Hop Hjump.
  unfold executeInstruction.
  rewrite (executeInstruction_fetch bc vm op Hop), Hop. cbn [mbind outcome_bind].
  assert (Hpop : forall vm0 : VM, boolean_free vm0 ->
            pop vm0 = Throw "Stack underflow" \/
            exists v vm1, pop vm0 = Ok (v, vm1) /\ asBoolean v = Throw "Value is not a boolean").
  { intros vm0 Hfree0. destruct (pop vm0) as [[v vm1] | what |] eqn:Hp.
    - right. exists v, vm1. split; [reflexivity |].
      pose proof (boolean_free_pop_value vm0 vm1 v Hp Hfree0) as Hv.
      destruct v; try reflexivity. discriminate Hv.
    - left. unfold pop in Hp. destruct (last (stack vm0)); [discriminate |].
      symmetry. exact Hp.
    - unfold pop in Hp. destruct (last (stack vm0)); discriminate. }
  destruct (operand32 bc (programCounter vm + 1)) as [target | what |] eqn:Htarget.
  - destruct (Hpop (set_pc (programCounter vm + 1 + 4) (set_pc (programCounter vm + 1) vm)))
      as [Hempty | (v & vm1 & Hv & Hnot)]; [exact Hfree | |];
      destruct Hjump as [-> | ->]; cbn; rewrite Htarget; cbn.
    + right. left. rewrite Hempty. reflexivity.
    + right. left. rewrite Hempty. reflexivity.
    + right. right. rewrite Hv. cbn. rewrite Hnot. reflexivity.
    + right. right. rewrite Hv. cbn. rewrite Hnot. reflexivity.
  - now apply operand32_never_throws in Htarget.
  - left. destruct Hjump as [-> | ->]; cbn; rewrite Htarget; reflexivity.
Qed.

(** X6. The machine never holds a boolean, so it can take no conditional
    branch: in every state a run reaches from the initial machine,
    whatever the program, a jump-if-false or jump-if-true instruction
    fails.  It throws "Stack underflow" on an empty stack and "Value is
    not a boolean" otherwise (and has no defined behaviour when its
    operand bytes lie beyond the end of the code). *)
Theorem conditional_jump_never_branches (bc : Bytecode) (vm : VM) (op : Z) :
  reachable bc vm ->
  code_at bc (programCounter vm) = Ok op ->
  op = OP_JMP_IF_FALSE \/ op = OP_JMP_IF_TRUE ->
  executeInstruction bc vm = Undefined \/
  executeInstruction bc vm = Throw "Stack underflow" \/
  executeInstruction bc vm = Throw "Value is not a boolean".
Proof.
  intros Hreach. apply conditional_jump_fails.
  exact (reachable_boolean_free bc vm Hreach).
Qed.

Definition conditional (i : Instruction) : bool :=
  match i with
  | I_jmp_if_false _ | I_jmp_if_true _ => true
  | _ => false
  end.

Lemma instruction_at_conditional (bc : Bytecode) (pc : Z) (i : Instruction) :
  instruction_at bc pc = Ok i -> conditional i = true ->
  exists op, code_at bc pc = Ok op /\ (op = OP_JMP_IF_FALSE \/ op = OP_JMP_IF_TRUE).
Proof.
  intros Hat Hcond. unfold instruction_at in Hat.
  destruct (code_at bc pc) as [op | |] eqn:Hop; try discriminate Hat.
  cbn [mbind outcome_bind] in Hat. exists op. split; [reflexivity |].
  destruct (Z.eqb_spec op OP_JMP_IF_FALSE) as [-> | Hfalse]; [now left |].
  destruct (Z.eqb_spec op OP_JMP_IF_TRUE) as [-> | Htrue]; [now right |].
  exfalso.
  repeat match type of Hat with
         | (if ?c then _ else _) = _ => destruct c eqn:?
         | mbind _ ?m = _ => destruct m as [? | ? |] eqn:?; cbn [mbind outcome_bind] in Hat
         end; try discriminate Hat; try lia;
    injection Hat as <-; discriminate Hcond.
Qed.

Lemma run_without_branch (fuel : nat) (bc : Bytecode) (vm vm' : VM) :
  boolean_free vm ->
  run fuel bc vm = Some (Ok vm') ->
  Forall (fun i => conditional i = false) (dispatched fuel bc vm).
Proof.
  revert vm. induction fuel as [| fuel IH]; intros vm Hfree Hrun.
  - cbn in *. destruct (size (code bc) <=? programCounter vm); constructor.
  - cbn [run dispatched] in *.
    destruct (size (code bc) <=? programCounter vm); [constructor |].
    destruct (instruction_at bc (programCounter vm)) as [i | |] eqn:Hat; try constructor.
    + destruct (conditional i) eqn:Hcond; [| reflexivity].
      destruct (instruction_at_conditional bc _ i Hat Hcond) as (op & Hop & Hjump).
      destruct (conditional_jump_fails bc vm op Hfree Hop Hjump) as [Hu | [Ht | Ht]];
        rewrite ?Hu, ?Ht in Hrun; discriminate Hrun.
    + destruct (executeInstruction bc vm) as [vm1 | |] eqn:Hstep; try constructor.
      apply (IH vm1); [exact (boolean_free_step bc vm vm1 Hfree Hstep) | exact Hrun].
Qed.

(** X7. A run that ends normally has taken no conditional branch: when
    [execute] reaches the end of the code without an exception, none of
    the instructions it dispatched is a jump-if-false or jump-if-true. *)
Theorem completed_run_has_no_conditional_jump (fuel : nat) (bc : Bytecode) (w : world)
  (vm' : VM) :
  execute fuel bc w = Some (Ok vm') ->
  Forall (fun i => conditional i = false) (dispatched fuel bc (initial w)).
Proof.
  apply run_without_branch.
  split; [apply Forall_nil_2 | apply map_Forall_empty].
Qed.

End MachineBehaviour.

(** A program whose one instruction is the declared opcode
    [OP_COMPARE_LT]. *)
Definition lone_compare : Bytecode := set_code [Zbyte OP_COMPARE_LT] emptyBytecode.

Lemma unknown_opcode_throws_witness :
  code_at lone_compare (programCounter (initial Binary64.quiet)) = Ok OP_COMPARE_LT /\
  OP_HALT < OP_COMPARE_LT /\
  executeInstruction lone_compare (initial Binary64.quiet) = Throw "Unknown opcode: 20" /\
  forall fuel, run (S fuel) lone_compare (initial Binary64.quiet)
               = Some (Throw "Unknown opcode: 20").
Proof.
  split; [reflexivity |]. split; [reflexivity |].
  exact (unknown_opcode_throws lone_compare (initial Binary64.quiet) OP_COMPARE_LT
           eq_refl eq_refl).
Defined.

(** An addition with a single operand on the stack. *)
Definition lone_add : Bytecode := set_code [Zbyte OP_ADD] emptyBytecode.
Definition one_operand : VM := set_stack [VNumber (Binary64.of_Z 1)] (initial Binary64.quiet).

Lemma stack_underflow_witness :
  code_at lone_add (programCounter one_operand) = Ok OP_ADD /\
  size (stack one_operand) < 2 /\
  executeInstruction lone_add one_operand = Throw "Stack underflow".
Proof.
  split; [reflexivity |]. split; [reflexivity |].
  apply (stack_underflow lone_add one_operand OP_ADD); [reflexivity |].
  right. left. split; [left; reflexivity | reflexivity].
Defined.

(** A store to [x] followed by a load of [x], with 7 on the stack. *)
Definition store_load : Bytecode :=
  set_constants ["x"]
    (set_code (List.map Zbyte [OP_STORE; 0; 0; OP_LOAD; 0; 0]) emptyBytecode).
Definition seven_on_stack : VM :=
  set_stack [VNumber (Binary64.of_Z 7)] (initial Binary64.quiet).

Lemma store_then_load_witness :
  pool_at (constants store_load) 0 = Some "x" /\
  stack seven_on_stack = [] ++ [VNumber (Binary64.of_Z 7)] /\
  (vm1 ← executeInstruction store_load seven_on_stack; executeInstruction store_load vm1) =
  Ok (mkVM [VNumber (Binary64.of_Z 7)] (<["x" := VNumber (Binary64.of_Z 7)]> ∅) 6
           (console (initial Binary64.quiet))).
Proof.
  split; [reflexivity |]. split; [reflexivity |].
  exact (store_then_load store_load seven_on_stack 0 0 "x" "x" (VNumber (Binary64.of_Z 7)) []
           eq_refl eq_refl eq_refl eq_refl eq_refl eq_refl eq_refl).
Defined.

(** A call of function 0 with two arguments, over the text [a] and the
    number 7. *)
Definition call_two (name : string) : Bytecode :=
  set_functions [name] (set_code (List.map Zbyte [OP_CALL; 0; 0; 2]) emptyBytecode).
Definition two_arguments : VM :=
  set_stack [VString "a"; VNumber (Binary64.of_Z 7)] (initial Binary64.quiet).

Lemma call_print_witness :
  pool_at (functions (call_two "System.Output.Print")) 0 = Some "System.Output.Print" /\
  stack two_arguments = [] ++ [VString "a"; VNumber (Binary64.of_Z 7)] /\
  executeInstruction (call_two "System.Output.Print") two_arguments =
  Ok (mkVM [] ∅ 4 (mkConsole ("a7.000000" +:+ endl) "" Binary64.quiet)).
Proof.
  split; [reflexivity |]. split; [reflexivity |].
  exact (call_print (call_two "System.Output.Print") two_arguments 0 2
           "System.Output.Print" [VString "a"; VNumber (Binary64.of_Z 7)] []
           eq_refl eq_refl eq_refl eq_refl (or_introl eq_refl) eq_refl eq_refl).
Defined.

Lemma call_unknown_function_witness :
  pool_at (functions (call_two "Missing")) 0 = Some "Missing" /\
  initBaselib !! "Missing" = None /\
  executeInstruction (call_two "Missing") two_arguments =
  Ok (mkVM [] ∅ 4 (mkConsole "" ("Error: Unknown function Missing" +:+ endl) Binary64.quiet)).
Proof.
  split; [reflexivity |]. split; [reflexivity |].
  exact (call_unknown_function (call_two "Missing") two_arguments 0 2
           "Missing" [VString "a"; VNumber (Binary64.of_Z 7)] []
           eq_refl eq_refl eq_refl eq_refl eq_refl eq_refl eq_refl).
Defined.

(** A program that pushes the number 0 and tests it. *)
Definition guarded : Bytecode :=
  set_numbers [Binary64.of_Z 0]
    (set_code (List.map Zbyte [OP_PUSH_NUM; 0; 0; OP_JMP_IF_FALSE; 0; 0; 0; 9]) emptyBytecode).
Definition zero_pushed : VM :=
  mkVM [VNumber (Binary64.of_Z 0)] ∅ 3 (mkConsole "" "" Binary64.quiet).

Lemma conditional_jump_never_branches_witness :
  reachable guarded zero_pushed /\
  code_at guarded (programCounter zero_pushed) = Ok OP_JMP_IF_FALSE /\
  (executeInstruction guarded zero_pushed = Undefined \/
   executeInstruction guarded zero_pushed = Throw "Stack underflow" \/
   executeInstruction guarded zero_pushed = Throw "Value is not a boolean").
Proof.
  assert (Hreach : reachable guarded zero_pushed).
  { apply (reachable_step guarded (initial Binary64.quiet));
      [apply reachable_initial | reflexivity]. }
  split; [exact Hreach |]. split; [reflexivity |].
  exact (conditional_jump_never_branches guarded zero_pushed OP_JMP_IF_FALSE
           Hreach eq_refl (or_introl eq_refl)).
Defined.

(** The program that pushes a number and halts. *)
Definition push_and_halt : Bytecode :=
  set_numbers [Binary64.of_Z 0]
    (set_code (List.map Zbyte [OP_PUSH_NUM; 0; 0; OP_HALT]) emptyBytecode).

Lemma completed_run_has_no_conditional_jump_witness :
  execute 2 push_and_halt Binary64.quiet
  = Some (Ok (mkVM [VNumber (Binary64.of_Z 0)] ∅ 4 (mkConsole "" "" Binary64.quiet))) /\
  Forall (fun i => conditional i = false)
         (dispatched 2 push_and_halt (initial Binary64.quiet)).
Proof.
  split; [reflexivity |].
  exact (completed_run_has_no_conditional_jump 2 push_and_halt Binary64.quiet
           (mkVM [VNumber (Binary64.of_Z 0)] ∅ 4 (mkConsole "" "" Binary64.quiet)) eq_refl).
Defined.

(** ** The writer, the reader and the operands of the machine *)

Lemma byteZ_range (b : byte) : 0 <= byteZ b < 256.
Proof. unfold byteZ. pose proof (Byte.to_N_bounded b). lia. Qed.

Lemma lor_shifted (a b k : Z) :
  0 <= k -> 0 <= b < 2 ^ k -> Z.lor (Z.shiftl a k) b = a * 2 ^ k + b.
Proof.
  intros Hk Hb. rewrite Z.shiftl_mul_pow2 by exact Hk.
  symmetry. apply Z.add_nocarry_lor.
  apply Z.bits_inj'. intros n Hn. rewrite Z.land_spec, Z.bits_0.
  destruct (Z.lt_ge_cases n k) as [Hlow | Hhigh].
  - rewrite Z.mul_pow2_bits_low by lia. reflexivity.
  - replace b with (b mod 2 ^ k) by (apply Z.mod_small; exact Hb).
    rewrite Z.mod_pow2_bits_high by lia. apply andb_false_r.
Qed.

Lemma land_byte (z : Z) : Z.land z 0xFF = z mod 256.
Proof. change 0xFF with (Z.ones 8). rewrite Z.land_ones by lia. reflexivity. Qed.

(** The value of two bytes, the most significant first, as the reader and
    the machine assemble it. *)
Lemma short_of_bytes (hi lo : Z) :
  0 <= hi < 256 -> 0 <= lo < 256 ->
  to_u16 (Z.lor (Z.shiftl hi 8) lo) = hi * 256 + lo /\
  to_u16 (Z.shiftl hi 8) = Z.shiftl hi 8.
Proof.
  intros Hhi Hlo. rewrite lor_shifted by lia. rewrite Z.shiftl_mul_pow2 by lia.
  change (2 ^ 8) with 256. unfold to_u16. rewrite !Z.mod_small by lia. split; reflexivity.
Qed.

Lemma lor_disjoint (a b k : Z) :
  0 <= k -> 0 <= b < 2 ^ k -> a mod 2 ^ k = 0 -> Z.lor a b = a + b.
Proof.
  intros Hk Hb Ha.
  assert (Hpow : 0 < 2 ^ k) by (apply Z.pow_pos_nonneg; lia).
  pose proof (Z.div_mod a (2 ^ k) ltac:(lia)) as Hdiv. rewrite Ha in Hdiv.
  replace a with (Z.shiftl (a / 2 ^ k) k) at 1
    by (rewrite Z.shiftl_mul_pow2 by exact Hk; lia).
  rewrite lor_shifted by assumption. lia.
Qed.

Lemma int_of_bytes (b0 b1 b2 b3 : Z) :
  0 <= b0 < 256 -> 0 <= b1 < 256 -> 0 <= b2 < 256 -> 0 <= b3 < 256 ->
  Z.lor (Z.lor (Z.lor (Z.shiftl b0 24) (Z.shiftl b1 16)) (Z.shiftl b2 8)) b3
  = b0 * 16777216 + b1 * 65536 + b2 * 256 + b3.
Proof.
  intros H0 H1 H2 H3. rewrite !Z.shiftl_mul_pow2 by lia.
  change (2 ^ 24) with 16777216. change (2 ^ 16) with 65536. change (2 ^ 8) with 256.
  rewrite (lor_disjoint (b0 * 16777216) (b1 * 65536) 24);
    [| lia | change (2 ^ 24) with 16777216; lia | apply Z.mod_mul; discriminate].
  rewrite (lor_disjoint (b0 * 16777216 + b1 * 65536) (b2 * 256) 16);
    [| lia | change (2 ^ 16) with 65536; lia
     | change (2 ^ 16) with 65536; Z.div_mod_to_equations; lia].
  rewrite (lor_disjoint (b0 * 16777216 + b1 * 65536 + b2 * 256) b3 8);
    [| lia | change (2 ^ 8) with 256; lia
     | change (2 ^ 8) with 256; Z.div_mod_to_equations; lia].
  reflexivity.
Qed.

Lemma short_bytes (v : Z) :
  0 <= v < 65536 ->
  byteZ (Zbyte (Z.land (Z.shiftr v 8) 0xFF)) * 256 + byteZ (Zbyte (Z.land v 0xFF)) = v.
Proof.
  intros Hv.
  rewrite !byteZ_Zbyte, !land_byte, Z.shiftr_div_pow2 by lia.
  rewrite !Z.mod_mod by lia. change (2 ^ 8) with 256.
  Z.div_mod_to_equations. lia.
Qed.

Lemma int_bytes (v : Z) :
  0 <= v < 4294967296 ->
  byteZ (Zbyte (Z.land (Z.shiftr v 24) 0xFF)) * 16777216
  + byteZ (Zbyte (Z.land (Z.shiftr v 16) 0xFF)) * 65536
  + byteZ (Zbyte (Z.land (Z.shiftr v 8) 0xFF)) * 256
  + byteZ (Zbyte (Z.land v 0xFF)) = v.
Proof.
  intros Hv.
  rewrite !byteZ_Zbyte, !land_byte, !Z.shiftr_div_pow2 by lia.
  rewrite !Z.mod_mod by lia.
  change (2 ^ 24) with 16777216. change (2 ^ 16) with 65536. change (2 ^ 8) with 256.
  Z.div_mod_to_equations. lia.
Qed.

Lemma to_u32_small (z : Z) : 0 <= z < 4294967296 -> to_u32 z = z.
Proof. intros Hz. unfold to_u32. apply Z.mod_small. lia. Qed.

Lemma Zbyte_byteZ (b : byte) : Zbyte (byteZ b) = b.
Proof.
  unfold Zbyte, to_u8. rewrite Z.mod_small by apply byteZ_range.
  unfold byteZ. rewrite N2Z.id, Byte.of_to_N. reflexivity.
Qed.

Section ReaderFacts.
Context {H : Host}.

(** The container [b] after further bytes were written to its code. *)
Definition followed_by (b : Bytecode) (post : list byte) : Bytecode :=
  set_code (code b ++ post) b.

Lemma code_at_here (bc : Bytecode) (pre post : list byte) (b : byte) :
  code bc = pre ++ b :: post -> code_at bc (size pre) = Ok (byteZ b).
Proof.
  intros Hcode. unfold code_at.
  pose proof (size_nonneg pre) as Hpos.
  destruct (size pre <? 0) eqn:Hneg; [lia |].
  unfold size. rewrite Nat2Z.id, Hcode, list_lookup_middle by reflexivity. reflexivity.
Qed.

Lemma readByte_here (bc : Bytecode) (pre post : list byte) (b : byte) :
  code bc = pre ++ b :: post ->
  BytecodeReader.readByte bc (size pre) = (Ok (byteZ b), size pre + 1).
Proof.
  intros Hcode. unfold BytecodeReader.readByte.
  assert (Hin : (size (code bc) <=? size pre) = false).
  { rewrite Hcode, size_app. apply Z.leb_gt. unfold size. cbn [List.length]. lia. }
  rewrite Hin, (code_at_here bc pre post b Hcode). reflexivity.
Qed.

Lemma readBytesDown_here (bc : Bytecode) (bs pre post : list byte) :
  code bc = pre ++ bs ++ post ->
  BytecodeReader.readBytesDown bc (List.length bs) (size pre)
  = (Ok (rev bs), size pre + size bs).
Proof.
  revert pre. induction bs as [| b bs IH]; intros pre Hcode.
  - cbn. unfold reader_ret, size. cbn. now rewrite Z.add_0_r.
  - cbn [List.length BytecodeReader.readBytesDown]. unfold mbind, reader_mbind, reader_bind.
    rewrite (readByte_here bc pre (bs ++ post) b Hcode).
    replace (size pre + 1) with (size (pre ++ [b])) by (rewrite size_app; reflexivity).
    rewrite (IH (pre ++ [b])) by (rewrite <- app_assoc; exact Hcode).
    unfold reader_ret. rewrite Zbyte_byteZ. cbn [rev].
    rewrite size_app. unfold size. cbn [List.length]. f_equal. lia.
Qed.

Lemma readShort_here (bc : Bytecode) (pre post : list byte) (hi lo : byte) :
  code bc = pre ++ [hi; lo] ++ post ->
  BytecodeReader.readShort bc (size pre) = (Ok (byteZ hi * 256 + byteZ lo), size pre + 2).
Proof.
  intros Hcode. unfold BytecodeReader.readShort, mbind, reader_mbind, reader_bind.
  rewrite (readByte_here bc pre (lo :: post) hi Hcode).
  replace (size pre + 1) with (size (pre ++ [hi])) by (rewrite size_app; reflexivity).
  rewrite (readByte_here bc (pre ++ [hi]) post lo) by (rewrite <- app_assoc; exact Hcode).
  unfold reader_ret.
  destruct (short_of_bytes (byteZ hi) (byteZ lo) (byteZ_range hi) (byteZ_range lo))
    as [Hvalue Hhigh].
  rewrite Hhigh, Hvalue, size_app. f_equal. unfold size. cbn [List.length]. lia.
Qed.

Lemma readInt_here (bc : Bytecode) (pre post : list byte) (b0 b1 b2 b3 : byte) :
  code bc = pre ++ [b0; b1; b2; b3] ++ post ->
  BytecodeReader.readInt bc (size pre)
  = (Ok (byteZ b0 * 16777216 + byteZ b1 * 65536 + byteZ b2 * 256 + byteZ b3), size pre + 4).
Proof.
  intros Hcode. unfold BytecodeReader.readInt, mbind, reader_mbind, reader_bind.
  rewrite (readByte_here bc pre ([b1; b2; b3] ++ post) b0 Hcode).
  replace (size pre + 1) with (size (pre ++ [b0])) by (rewrite size_app; reflexivity).
  rewrite (readByte_here bc (pre ++ [b0]) ([b2; b3] ++ post) b1)
    by (rewrite <- app_assoc; exact Hcode).
  replace (size (pre ++ [b0]) + 1) with (size (pre ++ [b0; b1]))
    by (rewrite !size_app; unfold size; cbn [List.length]; lia).
  rewrite (readByte_here bc (pre ++ [b0; b1]) ([b3] ++ post) b2)
    by (rewrite <- app_assoc; exact Hcode).
  replace (size (pre ++ [b0; b1]) + 1) with (size (pre ++ [b0; b1; b2]))
    by (rewrite !size_app; unfold size; cbn [List.length]; lia).
  rewrite (readByte_here bc (pre ++ [b0; b1; b2]) post b3)
    by (rewrite <- app_assoc; exact Hcode).
  unfold reader_ret.
  pose proof (byteZ_range b0) as R0. pose proof (byteZ_range b1) as R1.
  pose proof (byteZ_range b2) as R2. pose proof (byteZ_range b3) as R3.
  assert (E0 : to_u32 (Z.shiftl (byteZ b0) 24) = Z.shiftl (byteZ b0) 24).
  { unfold to_u32. rewrite Z.shiftl_mul_pow2 by lia. change (2 ^ 24) with 16777216.
    apply Z.mod_small. lia. }
  assert (E1 : to_u32 (Z.shiftl (byteZ b1) 16) = Z.shiftl (byteZ b1) 16).
  { unfold to_u32. rewrite Z.shiftl_mul_pow2 by lia. change (2 ^ 16) with 65536.
    apply Z.mod_small. lia. }
  assert (E2 : to_u32 (Z.shiftl (byteZ b2) 8) = Z.shiftl (byteZ b2) 8).
  { unfold to_u32. rewrite Z.shiftl_mul_pow2 by lia. change (2 ^ 8) with 256.
    apply Z.mod_small. lia. }
  rewrite E0, E1, E2.
  assert (E3 : Z.lor (Z.shiftl (byteZ b0) 24) (Z.shiftl (byteZ b1) 16)
               = byteZ b0 * 16777216 + byteZ b1 * 65536).
  { pose proof (int_of_bytes (byteZ b0) (byteZ b1) 0 0 R0 R1 ltac:(lia) ltac:(lia)) as E.
    rewrite Z.shiftl_0_l, !Z.lor_0_r in E. lia. }
  assert (E4 : Z.lor (Z.lor (Z.shiftl (byteZ b0) 24) (Z.shiftl (byteZ b1) 16))
                     (Z.shiftl (byteZ b2) 8)
               = byteZ b0 * 16777216 + byteZ b1 * 65536 + byteZ b2 * 256).
  { pose proof (int_of_bytes (byteZ b0) (byteZ b1) (byteZ b2) 0 R0 R1 R2 ltac:(lia)) as E.
    rewrite Z.lor_0_r in E. lia. }
  pose proof (int_of_bytes _ _ _ _ R0 R1 R2 R3) as E5.
  rewrite E4 in E5. rewrite E3 in E4.
  rewrite E3, (to_u32_small (byteZ b0 * 16777216 + byteZ b1 * 65536)) by lia.
  rewrite E4, (to_u32_small (byteZ b0 * 16777216 + byteZ b1 * 65536 + byteZ b2 * 256)) by lia.
  rewrite E5, to_u32_small by lia.
  f_equal. rewrite size_app. unfold size. cbn [List.length]. lia.
Qed.

Lemma operand16_here (bc : Bytecode) (pre post : list byte) (hi lo : byte) :
  code bc = pre ++ [hi; lo] ++ post ->
  operand16 bc (size pre) = Ok (byteZ hi * 256 + byteZ lo).
Proof.
  intros Hcode. unfold operand16.
  rewrite (code_at_here bc pre (lo :: post) hi Hcode). cbn [mbind outcome_bind].
  replace (size pre + 1) with (size (pre ++ [hi])) by (rewrite size_app; reflexivity).
  rewrite (code_at_here bc (pre ++ [hi]) post lo) by (rewrite <- app_assoc; exact Hcode).
  cbn [mbind outcome_bind].
  now rewrite (proj1 (short_of_bytes _ _ (byteZ_range hi) (byteZ_range lo))).
Qed.

Lemma operand32_here (bc : Bytecode) (pre post : list byte) (b0 b1 b2 b3 : byte) :
  code bc = pre ++ [b0; b1; b2; b3] ++ post ->
  operand32 bc (size pre)
  = Ok (byteZ b0 * 16777216 + byteZ b1 * 65536 + byteZ b2 * 256 + byteZ b3).
Proof.
  intros Hcode. unfold operand32.
  rewrite (code_at_here bc pre ([b1; b2; b3] ++ post) b0 Hcode). cbn [mbind outcome_bind].
  replace (size pre + 1) with (size (pre ++ [b0])) by (rewrite size_app; reflexivity).
  rewrite (code_at_here bc (pre ++ [b0]) ([b2; b3] ++ post) b1)
    by (rewrite <- app_assoc; exact Hcode).
  cbn [mbind outcome_bind].
  replace (size pre + 2) with (size (pre ++ [b0; b1]))
    by (rewrite !size_app; unfold size; cbn [List.length]; lia).
  rewrite (code_at_here bc (pre ++ [b0; b1]) ([b3] ++ post) b2)
    by (rewrite <- app_assoc; exact Hcode).
  cbn [mbind outcome_bind].
  replace (size pre + 3) with (size (pre ++ [b0; b1; b2]))
    by (rewrite !size_app; unfold size; cbn [List.length]; lia).
  rewrite (code_at_here bc (pre ++ [b0; b1; b2]) post b3)
    by (rewrite <- app_assoc; exact Hcode).
  cbn [mbind outcome_bind].
  pose proof (byteZ_range b0). pose proof (byteZ_range b1).
  pose proof (byteZ_range b2). pose proof (byteZ_range b3).
  rewrite int_of_bytes by assumption. rewrite to_u32_small by lia. reflexivity.
Qed.

(** X8. What the writer writes, the reader reads back: an opcode, a
    16-bit and a 32-bit integer and a number written at the end of the
    code are returned by the matching read at the position they were
    written at, whatever is written after them, and the reader is left
    behind them. *)
Theorem reader_reads_what_writer_wrote {HL : HostLaws H} (b : Bytecode) (post : list byte)
  (op v16 v32 : Z) (d : double) :
  0 <= op < 256 -> 0 <= v16 < 65536 -> 0 <= v32 < 4294967296 ->
  BytecodeReader.readOpCode (followed_by (writeOpCode op b) post) (getPosition b)
  = (Ok op, getPosition b + 1) /\
  BytecodeReader.readShort (followed_by (writeShort v16 b) post) (getPosition b)
  = (Ok v16, getPosition b + 2) /\
  BytecodeReader.readInt (followed_by (writeInt v32 b) post) (getPosition b)
  = (Ok v32, getPosition b + 4) /\
  BytecodeReader.readDouble (followed_by (writeDouble d b) post) (getPosition b)
  = (Ok d, getPosition b + 8).
Proof.
  intros Hop H16 H32. unfold getPosition.
  split; [| split; [| split]].
  - unfold BytecodeReader.readOpCode.
    rewrite (readByte_here _ (code b) post (Zbyte op))
      by (cbn; now rewrite <- app_assoc).
    rewrite byteZ_Zbyte, Z.mod_small by lia. reflexivity.
  - rewrite (readShort_here _ (code b) post
               (Zbyte (Z.land (Z.shiftr v16 8) 0xFF)) (Zbyte (Z.land v16 0xFF)))
      by (cbn; now rewrite <- app_assoc).
    now rewrite short_bytes.
  - rewrite (readInt_here _ (code b) post
               (Zbyte (Z.land (Z.shiftr v32 24) 0xFF)) (Zbyte (Z.land (Z.shiftr v32 16) 0xFF))
               (Zbyte (Z.land (Z.shiftr v32 8) 0xFF)) (Zbyte (Z.land v32 0xFF)))
      by (cbn; now rewrite <- app_assoc).
    now rewrite int_bytes.
  - unfold BytecodeReader.readDouble, mbind, reader_mbind, reader_bind.
    pose proof (d_bytes_length d) as Hlen.
    destruct (d_bytes d) as [| x0 [| x1 [| x2 [| x3 [| x4 [| x5 [| x6 [| x7 [| x8 l]]]]]]]]]
      eqn:Hbytes; try discriminate Hlen.
    rewrite (readBytesDown_here _ [x7; x6; x5; x4; x3; x2; x1; x0] (code b) post)
      by (cbn; rewrite Hbytes; cbn; now rewrite <- app_assoc).
    unfold reader_ret. cbn [rev app]. rewrite <- Hbytes, d_of_bytes_bytes. reflexivity.
Qed.

End ReaderFacts.
Section ReaderEdges.
Context {H : Host}.

Lemma readByte_cases (bc : Bytecode) (position : Z) :
  0 <= position <= size (code bc) ->
  (position = size (code bc) /\
   BytecodeReader.readByte bc position = (Throw "BytecodeReader: end of code", position)) \/
  (position < size (code bc) /\
   exists b, BytecodeReader.readByte bc position = (Ok b, position + 1)).
Proof.
  intros Hpos. unfold BytecodeReader.readByte.
  destruct (Z.leb_spec (size (code bc)) position) as [Hend | Hin].
  - left. split; [lia | reflexivity].
  - right. split; [exact Hin |]. unfold code_at.
    destruct (Z.ltb_spec position 0) as [Hneg | _]; [lia |].
    destruct (code bc !! Z.to_nat position) as [b |] eqn:Hb.
    + now exists (byteZ b).
    + apply lookup_ge_None in Hb. unfold size in Hin. lia.
Qed.

Lemma readBytesDown_short (bc : Bytecode) (n : nat) (position : Z) :
  0 <= position <= size (code bc) ->
  size (code bc) - position < Z.of_nat n ->
  BytecodeReader.readBytesDown bc n position
  = (Throw "BytecodeReader: end of code", size (code bc)).
Proof.
  revert position. induction n as [| n IH]; intros position Hpos Hshort; [lia |].
  cbn [BytecodeReader.readBytesDown]. unfold mbind, reader_mbind, reader_bind.
  destruct (readByte_cases bc position Hpos) as [[Hend Hb] | [Hin [b Hb]]]; rewrite Hb.
  - now rewrite Hend.
  - fold (BytecodeReader.readBytesDown bc n).
    rewrite (IH (position + 1)) by lia. reflexivity.
Qed.

(** X9. A read that finds fewer bytes than it needs throws
    "BytecodeReader: end of code" after it has consumed the bytes that
    were left: a 16-bit read with fewer than 2 bytes, a 32-bit read with
    fewer than 4 and a read of a number with fewer than 8 bytes before
    the end of the code leave the reader at the end of the code. *)
Theorem short_read_throws (bc : Bytecode) (position : Z) :
  0 <= position <= size (code bc) ->
  (size (code bc) - position < 2 ->
   BytecodeReader.readShort bc position
   = (Throw "BytecodeReader: end of code", size (code bc))) /\
  (size (code bc) - position < 4 ->
   BytecodeReader.readInt bc position
   = (Throw "BytecodeReader: end of code", size (code bc))) /\
  (size (code bc) - position < 8 ->
   BytecodeReader.readDouble bc position
   = (Throw "BytecodeReader: end of code", size (code bc))).
Proof.
  intros Hpos. split; [| split]; intros Hshort.
  - unfold BytecodeReader.readShort, mbind, reader_mbind, reader_bind.
    destruct (readByte_cases bc position Hpos) as [[Hend Hb] | [Hin [b Hb]]]; rewrite Hb;
      [now rewrite Hend |].
    destruct (readByte_cases bc (position + 1) ltac:(lia)) as [[Hend Hb'] | [Hin' _]];
      [rewrite Hb'; now rewrite Hend | lia].
  - unfold BytecodeReader.readInt, mbind, reader_mbind, reader_bind.
    destruct (readByte_cases bc position Hpos) as [[Hend Hb] | [Hin [b Hb]]]; rewrite Hb;
      [now rewrite Hend |].
    destruct (readByte_cases bc (position + 1) ltac:(lia))
      as [[Hend Hb1] | [Hin1 [b1 Hb1]]]; rewrite Hb1; [now rewrite Hend |].
    destruct (readByte_cases bc (position + 1 + 1) ltac:(lia))
      as [[Hend Hb2] | [Hin2 [b2 Hb2]]]; rewrite Hb2; [now rewrite Hend |].
    destruct (readByte_cases bc (position + 1 + 1 + 1) ltac:(lia))
      as [[Hend Hb3] | [Hin3 _]]; [rewrite Hb3; now rewrite Hend | lia].
  - unfold BytecodeReader.readDouble, mbind, reader_mbind, reader_bind.
    rewrite (readBytesDown_short bc 8 position Hpos) by lia. reflexivity.
Qed.

End ReaderEdges.

(** A container whose code is the single byte 7. *)
Definition one_byte : Bytecode := set_code [Zbyte 7] emptyBytecode.

Lemma short_read_throws_witness :
  0 <= 0 <= size (code one_byte) /\
  size (code one_byte) - 0 < 2 /\
  BytecodeReader.readShort one_byte 0 = (Throw "BytecodeReader: end of code", 1) /\
  BytecodeReader.readInt one_byte 0 = (Throw "BytecodeReader: end of code", 1) /\
  BytecodeReader.readDouble one_byte 0 = (Throw "BytecodeReader: end of code", 1).
Proof.
  assert (Hpos : 0 <= 0 <= size (code one_byte)) by (split; discriminate).
  split; [exact Hpos |]. split; [reflexivity |].
  destruct (short_read_throws one_byte 0 Hpos) as (Hshort & Hint & Hdouble).
  split; [apply Hshort; reflexivity |].
  split; [apply Hint; reflexivity | apply Hdouble; reflexivity].
Defined.

Section PoolReads.
Context {H : Host}.

Lemma pool_at_last {A : Type} (pool : list A) (entry : A) :
  pool_at (pool ++ [entry]) (size pool) = Some entry.
Proof.
  unfold pool_at. rewrite size_app.
  destruct (Z.ltb_spec (size pool) (size pool + size [entry])) as [_ | Hge].
  - unfold size. rewrite Nat2Z.id. apply list_lookup_middle. reflexivity.
  - unfold size in Hge. cbn [List.length] in Hge. lia.
Qed.

Lemma pool_at_beyond {A : Type} (pool : list A) (index : Z) :
  size pool <= index -> pool_at pool index = None.
Proof.
  intros Hle. unfold pool_at.
  destruct (Z.ltb_spec index (size pool)) as [Hlt | _]; [lia | reflexivity].
Qed.

Lemma readIndexed_here {A : Type} (bc : Bytecode) (pool : list A) (what : string)
  (pre post : list byte) (index : Z) :
  0 <= index < 65536 ->
  code bc = pre ++ [Zbyte (Z.land (Z.shiftr index 8) 0xFF); Zbyte (Z.land index 0xFF)] ++ post ->
  BytecodeReader.readIndexed bc pool what (size pre)
  = (match pool_at pool index with
     | Some entry => Ok entry
     | None => Throw what
     end, size pre + 2).
Proof.
  intros Hindex Hcode.
  unfold BytecodeReader.readIndexed, mbind, reader_mbind, reader_bind.
  rewrite (readShort_here bc pre post _ _ Hcode), short_bytes by exact Hindex.
  destruct (pool_at pool index); reflexivity.
Qed.

(** X10. An entry written to a pool is read back through its index: when
    a pool holds fewer than 65536 entries, the index a pool writer
    returns, written as a 16-bit operand, makes the matching reader
    operation return the entry.  An operand that is not below the size of
    its pool makes the read throw "BytecodeReader: invalid ... index",
    with the reader left behind the operand. *)
Theorem pool_entry_read_back (b : Bytecode) (post : list byte) (s : string) (d : double)
  (index : Z) :
  size (strings b) < 65536 -> size (numbers b) < 65536 ->
  size (constants b) < 65536 -> size (functions b) < 65536 ->
  0 <= index < 65536 ->
  (let '(i, b1) := writeString s b in
   BytecodeReader.readString (followed_by (writeShort i b1) post) (getPosition b)
   = (Ok s, getPosition b + 2)) /\
  (let '(i, b1) := writeNumber d b in
   BytecodeReader.readNumber (followed_by (writeShort i b1) post) (getPosition b)
   = (Ok d, getPosition b + 2)) /\
  (let '(i, b1) := writeConstant s b in
   BytecodeReader.readConstant (followed_by (writeShort i b1) post) (getPosition b)
   = (Ok s, getPosition b + 2)) /\
  (let '(i, b1) := writeFunction s b in
   BytecodeReader.readFunction (followed_by (writeShort i b1) post) (getPosition b)
   = (Ok s, getPosition b + 2)) /\
  (size (strings b) <= index ->
   BytecodeReader.readString (followed_by (writeShort index b) post) (getPosition b)
   = (Throw "BytecodeReader: invalid string index", getPosition b + 2)) /\
  (size (numbers b) <= index ->
   BytecodeReader.readNumber (followed_by (writeShort index b) post) (getPosition b)
   = (Throw "BytecodeReader: invalid number index", getPosition b + 2)) /\
  (size (constants b) <= index ->
   BytecodeReader.readConstant (followed_by (writeShort index b) post) (getPosition b)
   = (Throw "BytecodeReader: invalid constant index", getPosition b + 2)) /\
  (size (functions b) <= index ->
   BytecodeReader.readFunction (followed_by (writeShort index b) post) (getPosition b)
   = (Throw "BytecodeReader: invalid function index", getPosition b + 2)).
Proof.
  intros Hs Hn Hc Hf Hindex.
  pose proof (size_nonneg (strings b)). pose proof (size_nonneg (numbers b)).
  pose proof (size_nonneg (constants b)). pose proof (size_nonneg (functions b)).
  assert (Hlast : forall (A : Type) (pool : list A) (entry : A),
            0 <= size pool < 65536 -> to_u16 (size (pool ++ [entry]) - 1) = size pool).
  { intros A pool entry Hsmall. rewrite size_app. change (size [entry]) with 1.
    replace (size pool + 1 - 1) with (size pool) by lia. now apply to_u16_small. }
  unfold writeString, writeNumber, writeConstant, writeFunction, getPosition.
  cbn [strings numbers constants functions set_strings set_numbers set_constants
       set_functions code].
  rewrite !Hlast by lia.
  unfold BytecodeReader.readString, BytecodeReader.readNumber,
    BytecodeReader.readConstant, BytecodeReader.readFunction.
  repeat split; intros;
    match goal with
    | |- BytecodeReader.readIndexed (followed_by (writeShort ?i _) _) _ _ (size ?pre) = _ =>
        rewrite (readIndexed_here _ _ _ pre post i)
          by (first [lia | cbn; rewrite <- app_assoc; reflexivity])
    end;
    cbn [strings numbers constants functions followed_by writeShort set_code
         set_strings set_numbers set_constants set_functions];
    rewrite ?pool_at_last, ?pool_at_beyond by assumption; reflexivity.
Qed.

End PoolReads.

Lemma pool_entry_read_back_witness :
  size (strings emptyBytecode) < 65536 /\ 0 <= 5 < 65536 /\
  BytecodeReader.readString
    (followed_by (writeShort 0 (set_strings ["x"] emptyBytecode)) []) 0 = (Ok "x", 2) /\
  BytecodeReader.readString (followed_by (writeShort 5 emptyBytecode) []) 0
  = (Throw "BytecodeReader: invalid string index", 2).
Proof.
  assert (Hindex : 0 <= 5 < 65536) by (split; [discriminate | reflexivity]).
  split; [reflexivity |]. split; [exact Hindex |].
  destruct (pool_entry_read_back (H := Binary64.host) emptyBytecode [] "x"
              (Binary64.of_Z 7) 5 eq_refl eq_refl eq_refl eq_refl Hindex)
    as (Hwritten & _ & _ & _ & Hbeyond & _).
  split; [exact Hwritten | apply Hbeyond; discriminate].
Defined.

Lemma reader_reads_what_writer_wrote_witness :
  0 <= 17 < 256 /\ 0 <= 513 < 65536 /\ 0 <= 67305985 < 4294967296 /\
  BytecodeReader.readOpCode (followed_by (writeOpCode 17 emptyBytecode) []) 0 = (Ok 17, 1) /\
  BytecodeReader.readShort (followed_by (writeShort 513 emptyBytecode) []) 0 = (Ok 513, 2) /\
  BytecodeReader.readInt (followed_by (writeInt 67305985 emptyBytecode) []) 0
  = (Ok 67305985, 4) /\
  BytecodeReader.readDouble (followed_by (writeDouble (Binary64.of_Z 7) emptyBytecode) []) 0
  = (Ok (Binary64.of_Z 7), 8).
Proof.
  assert (H8 : 0 <= 17 < 256) by (split; [discriminate | reflexivity]).
  assert (H16 : 0 <= 513 < 65536) by (split; [discriminate | reflexivity]).
  assert (H32 : 0 <= 67305985 < 4294967296) by (split; [discriminate | reflexivity]).
  split; [exact H8 |]. split; [exact H16 |]. split; [exact H32 |].
  exact (reader_reads_what_writer_wrote (HL := binary64_laws) emptyBytecode []
           17 513 67305985 (Binary64.of_Z 7) H8 H16 H32).
Defined.

Section Patching.
Context {H : Host}.

(** X11. Filling in a placeholder gives the code that writing the target
    in the first place would have given: after [writePositionPlaceholder]
    at a position, whatever is written next, [updatePositionPlaceholder]
    of that position leaves the container that [writeInt] of the target
    followed by the same bytes yields. *)
Theorem placeholder_update_is_writeInt (b : Bytecode) (post : list byte) (targetPos : Z) :
  updatePositionPlaceholder (getPosition b) targetPos
    (followed_by (writePositionPlaceholder b) post)
  = Ok (followed_by (writeInt targetPos b) post).
Proof.
  unfold updatePositionPlaceholder, getPosition, writePositionPlaceholder, followed_by,
    writeInt. cbn [code set_code strings numbers constants functions].
  pose proof (size_nonneg (code b)) as Hpos. pose proof (size_nonneg post) as Hpost.
  assert (Hin : (0 <=? size (code b))
                && (size (code b) + 4 <=? size ((code b ++ [Zbyte (Z.land (Z.shiftr 0 24) 0xFF);
                      Zbyte (Z.land (Z.shiftr 0 16) 0xFF); Zbyte (Z.land (Z.shiftr 0 8) 0xFF);
                      Zbyte (Z.land 0 0xFF)]) ++ post)) = true).
  { rewrite !size_app. apply andb_true_intro. split; [apply Z.leb_le; lia |].
    apply Z.leb_le. unfold size. cbn [List.length]. unfold size in Hpost. lia. }
  rewrite Hin. f_equal. unfold set_code. f_equal.
  unfold size. rewrite Nat2Z.id, <- !app_assoc.
  rewrite <- (Nat.add_0_r (List.length (code b))) at 4.
  rewrite !insert_app_r. reflexivity.
Qed.

Lemma prefix_at {A : Type} (l : list A) (n : nat) (position : Z) :
  0 <= position -> position + Z.of_nat n <= size l ->
  exists pre mid post,
    l = pre ++ mid ++ post /\ size pre = position /\ List.length mid = n.
Proof.
  intros Hpos Hfit. unfold size in *.
  exists (take (Z.to_nat position) l), (take n (drop (Z.to_nat position) l)),
    (drop n (drop (Z.to_nat position) l)).
  rewrite take_drop, take_drop.
  split; [reflexivity |]. split.
  - rewrite length_take. lia.
  - rewrite length_take, length_drop. lia.
Qed.

(** X12. The machine decodes its operands as [BytecodeReader] does: at a
    position with two (four) bytes before the end of the code, the
    16-bit (32-bit) operand [executeInstruction] assembles is the value
    [readShort] ([readInt]) returns there. *)
Theorem machine_operands_as_reader (bc : Bytecode) (position : Z) :
  0 <= position ->
  (position + 2 <= size (code bc) ->
   BytecodeReader.readShort bc position = (operand16 bc position, position + 2)) /\
  (position + 4 <= size (code bc) ->
   BytecodeReader.readInt bc position = (operand32 bc position, position + 4)).
Proof.
  intros Hpos. split; intros Hfit.
  - destruct (prefix_at (code bc) 2 position Hpos Hfit) as (pre & mid & post & Hcode & <- & Hmid).
    destruct mid as [| hi [| lo [| x mid]]]; try discriminate Hmid.
    rewrite (readShort_here bc pre post hi lo Hcode),
      (operand16_here bc pre post hi lo Hcode). reflexivity.
  - destruct (prefix_at (code bc) 4 position Hpos Hfit) as (pre & mid & post & Hcode & <- & Hmid).
    destruct mid as [| b0 [| b1 [| b2 [| b3 [| x mid]]]]]; try discriminate Hmid.
    rewrite (readInt_here bc pre post b0 b1 b2 b3 Hcode),
      (operand32_here bc pre post b0 b1 b2 b3 Hcode). reflexivity.
Qed.

End Patching.

Lemma machine_operands_as_reader_witness :
  0 <= 1 /\ 1 + 2 <= size (code stray_push) /\
  BytecodeReader.readShort stray_push 1 = (operand16 stray_push 1, 1 + 2).
Proof.
  assert (Hpos : 0 <= 1) by discriminate.
  split; [exact Hpos |]. split; [discriminate |].
  apply (machine_operands_as_reader stray_push 1 Hpos). discriminate.
Defined.

(** ** The loader on files that are no bytecode files *)

Section LoaderErrors.
Context {H : Host}.

Lemma c_str_magic (bs : list byte) : c_str bs = magic -> take 4 bs = magic.
Proof.
  unfold magic. cbn.
  destruct bs as [| b0 [| b1 [| b2 [| b3 tl]]]]; cbn;
    repeat match goal with
           | |- context [Byte.eqb ?b x00] => destruct (Byte.eqb b x00)
           end; try discriminate.
  intros Heq. injection Heq as -> -> -> -> _. reflexivity.
Qed.

Lemma string_of_list_byte_inj (l k : list byte) :
  string_of_list_byte l = string_of_list_byte k -> l = k.
Proof.
  intros Heq. rewrite <- (list_byte_of_string_of_list_byte l),
    <- (list_byte_of_string_of_list_byte k). now rewrite Heq.
Qed.

(** X13. A file that does not begin with the four bytes "SLBT", an empty
    or shorter file included, is rejected with "Invalid bytecode file
    format". *)
Theorem load_rejects_other_magic (file : list byte) :
  take 4 file <> magic ->
  loadBytecodeFromFile file = Throw "Invalid bytecode file format".
Proof.
  intros Hmagic. unfold loadBytecodeFromFile.
  destruct (read_buf 4 (mkStream file false)) as [magic_read f] eqn:Hread.
  destruct (String.eqb_spec (string_of_list_byte (c_str magic_read)) "SLBT") as [Heq | Hne];
    [| reflexivity].
  exfalso. apply Hmagic.
  change "SLBT"%string with (string_of_list_byte magic) in Heq.
  apply string_of_list_byte_inj, c_str_magic in Heq.
  unfold read_buf in Hread. cbn [failed pending] in Hread.
  destruct (4 <=? List.length file)%nat eqn:Hlen.
  - injection Hread as <- _. now rewrite take_take in Heq.
  - injection Hread as <- _. apply Nat.leb_gt in Hlen.
    assert (Hzero : x00 ∈ take 4 (file ++ repeat x00 (4 - List.length file))).
    { rewrite take_ge by (rewrite length_app, repeat_length; lia).
      apply elem_of_app. right.
      destruct (4 - List.length file)%nat as [| k] eqn:Hk; [lia |]. cbn. left. }
    rewrite Heq in Hzero. unfold magic in Hzero. cbn in Hzero.
    repeat (apply elem_of_cons in Hzero as [Hzero | Hzero]; [discriminate Hzero |]).
    inversion Hzero.
Qed.

(** X14. A file with the right magic and any version other than 0x0100
    is rejected with "Unsupported bytecode version", whatever follows. *)
Theorem load_rejects_other_version (version : Z) (rest : list byte) :
  0 <= version < 65536 -> version <> 0x0100 ->
  loadBytecodeFromFile (magic ++ native_bytes 2 version ++ rest)
  = Throw "Unsupported bytecode version".
Proof.
  intros Hrange Hversion. unfold loadBytecodeFromFile.
  rewrite (read_buf_app magic) by reflexivity.
  change (negb (String.eqb (string_of_list_byte (c_str magic)) "SLBT")) with false.
  cbn match.
  rewrite read_uint_app by (apply native_value_bytes_2; exact Hrange).
  cbn [mbind outcome_bind].
  destruct (Z.eqb_spec version 256) as [Heq | _]; [contradiction | reflexivity].
Qed.

End LoaderErrors.

Lemma load_rejects_other_magic_witness :
  take 4 (list_byte_of_string "SLB") <> magic /\
  loadBytecodeFromFile [] = Throw "Invalid bytecode file format" /\
  loadBytecodeFromFile (list_byte_of_string "SLB") = Throw "Invalid bytecode file format".
Proof.
  assert (Hshort : take 4 (list_byte_of_string "SLB") <> magic) by discriminate.
  split; [exact Hshort |].
  split; [apply load_rejects_other_magic; discriminate |].
  exact (load_rejects_other_magic (list_byte_of_string "SLB") Hshort).
Defined.

Lemma load_rejects_other_version_witness :
  0 <= 0x0200 < 65536 /\ 0x0200 <> 0x0100 /\
  loadBytecodeFromFile (magic ++ native_bytes 2 0x0200 ++ [])
  = Throw "Unsupported bytecode version".
Proof.
  assert (Hrange : 0 <= 0x0200 < 65536) by (split; [discriminate | reflexivity]).
  assert (Hother : 0x0200 <> 0x0100) by discriminate.
  split; [exact Hrange |]. split; [exact Hother |].
  exact (load_rejects_other_version 0x0200 [] Hrange Hother).
Defined.

(** ** The code generator at its edges *)

Section GeneratorEdges.
Context {H : Host}.

(** X15. In the number table a NaN is equivalent to every key: once the
    table has an entry, interning a NaN finds the first entry, returns
    its index and adds nothing, and when the first key of the table is a
    NaN every number interned afterwards finds that entry. *)
Theorem nan_is_found_at_first_entry {HL : HostLaws H} (g : BytecodeGenerator)
  (d k : double) (i : Z) (rest : list (double * Z)) :
  numberConstants g = (k, i) :: rest ->
  d_isnan d = true \/ d_isnan k = true ->
  addNumberConstant d g = (i, g).
Proof.
  intros Htable Hnan. unfold addNumberConstant. rewrite Htable. cbn [num_find].
  assert (Hkd : d_ltb k d = false)
    by (destruct Hnan; [now apply d_ltb_nan_r | now apply d_ltb_nan_l]).
  assert (Hdk : d_ltb d k = false)
    by (destruct Hnan; [now apply d_ltb_nan_l | now apply d_ltb_nan_r]).
  now rewrite Hkd, Hdk.
Qed.

(** The tree of [use f "s"]: a call of [f] on one string literal. *)
Definition call_on_literal (f s : string) : ASTNode :=
  mkNode NODE_PROGRAM ""
    [mkNode NODE_STATEMENT "use" [mkNode NODE_CALL f [mkNode NODE_STRING_LITERAL s []]]].

(** X16. [generateNode] has no case for a string literal, so a call on a
    string literal is compiled to the call alone: the code is the call
    with argument count 1 and the halt, the string pool stays empty, and
    the machine, which finds no argument on its stack, reads the stack
    out of its bounds. *)
Theorem call_on_string_literal_pushes_nothing (f s : string) (w : world) (fuel : nat) :
  generate (call_on_literal f s)
  = Ok (mkBytecode (List.map Zbyte [OP_CALL; 0; 0; 1; OP_HALT]) [] [] [] [f]) /\
  run (S fuel) (mkBytecode (List.map Zbyte [OP_CALL; 0; 0; 1; OP_HALT]) [] [] [] [f])
      (initial w) = Some Undefined.
Proof.
  split.
  - unfold generate, call_on_literal. cbn. unfold addFunctionName. cbn.
    rewrite lookup_empty. reflexivity.
  - reflexivity.
Qed.

Lemma patched_bytes (l : list byte) (p : nat) (a b c d : byte) :
  (p + 4 <= List.length l)%nat ->
  take 4 (drop p (<[(p + 3)%nat := d]> (<[(p + 2)%nat := c]> (<[(p + 1)%nat := b]>
                   (<[p := a]> l)))))
  = [a; b; c; d].
Proof.
  intros Hfit.
  assert (Hsplit : l = take p l ++ drop p l) by (symmetry; apply take_drop).
  assert (Hp : p = List.length (take p l)) by (rewrite length_take; lia).
  assert (Hrest : List.length (drop p l) = (List.length l - p)%nat) by apply length_drop.
  remember (take p l) as pre eqn:Hpre. remember (drop p l) as rest eqn:Hdrop.
  clear Hpre Hdrop. subst p l.
  destruct rest as [| w [| x [| y [| z post]]]];
    try (rewrite length_app in Hfit; cbn in Hfit; lia).
  rewrite !insert_app_r_alt by (rewrite ?length_insert; lia).
  replace (List.length pre - List.length pre)%nat with 0%nat by lia.
  replace (List.length pre + 1 - List.length pre)%nat with 1%nat by lia.
  replace (List.length pre + 2 - List.length pre)%nat with 2%nat by lia.
  replace (List.length pre + 3 - List.length pre)%nat with 3%nat by lia.
  rewrite drop_app_length. reflexivity.
Qed.

(** The four bytes of a 32-bit target, the most significant first. *)
Definition target_bytes (targetPos : Z) : list byte :=
  [Zbyte (Z.land (Z.shiftr targetPos 24) 0xFF); Zbyte (Z.land (Z.shiftr targetPos 16) 0xFF);
   Zbyte (Z.land (Z.shiftr targetPos 8) 0xFF); Zbyte (Z.land targetPos 0xFF)].

Lemma patch_bytes (pos targetPos : Z) (g g' : BytecodeGenerator) :
  patch pos targetPos g = Ok g' ->
  position g' = position g /\
  take 4 (drop (Z.to_nat pos) (code (bytecode g'))) = target_bytes targetPos.
Proof.
  unfold patch, updatePositionPlaceholder.
  destruct ((0 <=? pos) && (pos + 4 <=? size (code (bytecode g)))) eqn:Hin;
    [| discriminate].
  cbn [mbind outcome_bind]. intros Heq. injection Heq as <-.
  apply andb_prop in Hin as [Hpos Hfit].
  apply Z.leb_le in Hpos, Hfit. unfold size in Hfit.
  split.
  - unfold position, getPosition, size. cbn. now rewrite !length_insert.
  - cbn. apply patched_bytes. lia.
Qed.

(** X17. The conditional jump of a generated [if] or [while] statement
    is overwritten by its own target: the generator fills in the target
    at the position of the jump opcode, not behind it, so in the code of
    the statement the four bytes from the opcode's position on are the
    end position of the statement, and the opcode is gone. *)
Theorem jump_opcode_is_overwritten (value : string) (condition body : ASTNode)
  (g g' : BytecodeGenerator) :
  generateNode (mkNode NODE_IF_STATEMENT value [condition; body]) g = Ok g' \/
  generateNode (mkNode NODE_WHILE_STATEMENT value [condition; body]) g = Ok g' ->
  exists g1,
    generateNode condition g = Ok g1 /\
    take 4 (drop (Z.to_nat (position g1)) (code (bytecode g'))) = target_bytes (position g').
Proof.
  intros [Hif | Hwhile].
  - cbn [generateNode] in Hif. unfold generateIfStatement in Hif.
    destruct (generateNode condition g) as [g1 | |] eqn:Hcond; try discriminate Hif.
    exists g1. split; [reflexivity |].
    cbn [mbind outcome_bind] in Hif.
    destruct (generateNode body _) as [g2 | |] eqn:Hbody; try discriminate Hif.
    cbn [mbind outcome_bind] in Hif.
    destruct (patch_bytes _ _ _ _ Hif) as [Hsame Hbytes].
    now rewrite Hsame.
  - cbn [generateNode] in Hwhile. unfold generateWhileStatement in Hwhile.
    destruct (generateNode condition g) as [g1 | |] eqn:Hcond; try discriminate Hwhile.
    exists g1. split; [reflexivity |].
    cbn [mbind outcome_bind] in Hwhile.
    destruct (generateNode body _) as [g2 | |] eqn:Hbody; try discriminate Hwhile.
    cbn [mbind outcome_bind] in Hwhile.
    destruct (patch _ _ _) as [g3 | |] eqn:Hpatch; try discriminate Hwhile.
    cbn [mbind outcome_bind] in Hwhile. injection Hwhile as <-.
    destruct (patch_bytes _ _ _ _ Hpatch) as [Hsame Hbytes].
    unfold position, getPosition in *. cbn [bytecode set_loopStack].
    rewrite Hsame. exact Hbytes.
Qed.

End GeneratorEdges.

(** A generator that has interned the number 1, and a NaN. *)
Definition one_interned : BytecodeGenerator := (addNumberConstant (Binary64.of_Z 1) fresh).2.
Definition not_a_number : Binary64.binary64 := Binary64.of_bits Binary64.default_nan.

Lemma nan_is_found_at_first_entry_witness :
  numberConstants one_interned = (Binary64.of_Z 1, 0) :: [] /\
  d_isnan not_a_number = true /\
  numbers (bytecode one_interned) = [Binary64.of_Z 1] /\
  addNumberConstant not_a_number one_interned = (0, one_interned).
Proof.
  split; [reflexivity |]. split; [reflexivity |]. split; [reflexivity |].
  exact (nan_is_found_at_first_entry (HL := binary64_laws) one_interned not_a_number
           (Binary64.of_Z 1) 0 [] eq_refl (or_introl eq_refl)).
Defined.

(** The tree of [if (c) { }] and the generator after it. *)
Definition guarded_block : ASTNode :=
  mkNode NODE_IF_STATEMENT "" [mkNode NODE_IDENTIFIER "c" []; mkNode NODE_BLOCK "" []].
Definition guarded_block_code : BytecodeGenerator :=
  mkGen (mkBytecode (List.map Zbyte [OP_LOAD; 0; 0; 0; 0; 0; 8; 0]) [] [] ["c"] [])
        ∅ [] (<["c" := 0]> ∅) ∅ [].

Lemma jump_opcode_is_overwritten_witness :
  generateNode guarded_block fresh = Ok guarded_block_code /\
  exists g1,
    generateNode (mkNode NODE_IDENTIFIER "c" []) fresh = Ok g1 /\
    take 4 (drop (Z.to_nat (position g1)) (code (bytecode guarded_block_code)))
    = target_bytes (position guarded_block_code).
Proof.
  assert (Hcode : generateNode guarded_block fresh = Ok guarded_block_code) by reflexivity.
  split; [exact Hcode |].
  exact (jump_opcode_is_overwritten (H := Binary64.host) "" (mkNode NODE_IDENTIFIER "c" [])
           (mkNode NODE_BLOCK "" []) fresh guarded_block_code (or_introl Hcode)).
Defined.

(** ** The tree-walking interpreter *)

(** Induction on a tree with the property at hand for every child. *)
Lemma ASTNode_children_ind (P : ASTNode -> Prop) :
  (forall type value children, Forall P children -> P (mkNode type value children)) ->
  forall node, P node.
Proof.
  intros Hnode. fix IH 1. intros [type value children]. apply Hnode.
  induction children as [| child rest IHrest]; constructor; [apply IH | exact IHrest].
Qed.

Section InterpreterFacts.
Context {H : Host}.

Import TreeWalker.

(** No variable is a boolean. *)
Definition boolean_free_variables (st : Interpreter) : Prop :=
  map_Forall (fun _ v => isBoolean v = false) (i_variables st).

(** The statements with a condition to test. *)
Definition tests_condition (node : ASTNode) : bool :=
  match node with
  | mkNode NODE_IF_STATEMENT _ (_ :: _) => true
  | mkNode NODE_WHILE_STATEMENT _ (_ :: _ :: _) => true
  | mkNode NODE_FOR_STATEMENT _ (_ :: _ :: _ :: _ :: _) => true
  | _ => false
  end.

Lemma evaluateExpression_defined (variables : gmap string Value) (node : ASTNode) :
  evaluateExpression variables node <> Undefined.
Proof.
  induction node as [type value children IH] using ASTNode_children_ind.
  destruct type; cbn; try discriminate.
  - destruct (stod value); discriminate.
  - destruct (variables !! value); discriminate.
  - destruct children as [| left_ [| right_ rest]]; try discriminate.
    apply Forall_cons in IH as [Hleft IH]. apply Forall_cons in IH as [Hright _].
    destruct (evaluateExpression variables left_) as [l | |]; try discriminate;
      [| contradiction].
    cbn [mbind outcome_bind].
    destruct (evaluateExpression variables right_) as [r | |]; try discriminate;
      [| contradiction].
    cbn [mbind outcome_bind].
    repeat match goal with
           | |- (if ?c then _ else _) <> _ => destruct c
           end; discriminate.
Qed.

Lemma evaluateExpression_no_boolean (st : Interpreter) (node : ASTNode) (v : Value) :
  boolean_free_variables st ->
  evaluateExpression (i_variables st) node = Ok v -> isBoolean v = false.
Proof.
  intros Hfree Heval. destruct node as [type value children].
  destruct type; cbn in Heval; try (injection Heval as <-; reflexivity).
  - destruct (stod value); [injection Heval as <-; reflexivity | discriminate].
  - destruct (i_variables st !! value) as [found |] eqn:Hfound.
    + injection Heval as <-. exact (Hfree value found Hfound).
    + injection Heval as <-. reflexivity.
  - destruct children as [| left_ [| right_ rest]];
      try (injection Heval as <-; reflexivity).
    destruct (evaluateExpression (i_variables st) left_) as [l | |];
      try discriminate Heval.
    cbn [mbind outcome_bind] in Heval.
    destruct (evaluateExpression (i_variables st) right_) as [r | |];
      try discriminate Heval.
    cbn [mbind outcome_bind] in Heval.
    repeat match type of Heval with
           | (if ?c then _ else _) = _ => destruct c
           end;
      try discriminate Heval; injection Heval as <-; reflexivity.
Qed.

(** The test of a condition never holds or fails: the evaluation of the
    condition throws, or its value is no boolean and [asBoolean]
    throws. *)
Lemma condition_throws (st : Interpreter) (condition : ASTNode) (k : bool -> Run) :
  boolean_free_variables st ->
  exists what,
    lift (evaluateExpression (i_variables st) condition)
         (fun value => lift (asBoolean value) k) = Some (Throw what).
Proof.
  intros Hfree.
  destruct (evaluateExpression (i_variables st) condition) as [v | what |] eqn:Heval.
  - pose proof (evaluateExpression_no_boolean st condition v Hfree Heval) as Hv.
    exists "Value is not a boolean"%string. cbn.
    destruct v; try reflexivity. discriminate Hv.
  - exists what. reflexivity.
  - now apply evaluateExpression_defined in Heval.
Qed.

Lemma loop_never_completes (rec : ASTNode -> Interpreter -> Run) (rounds : nat)
  (condition body : ASTNode) (increment : option ASTNode) (st st' : Interpreter) :
  boolean_free_variables st ->
  loop rec rounds condition body increment st <> Some (Ok st').
Proof.
  intros Hfree. destruct rounds as [| rounds]; [discriminate |].
  cbn [loop]. destruct (condition_throws st condition
    (fun continue => if negb continue then Some (Ok st)
       else andThen (rec body st) (fun st0 =>
            andThen (match increment with
                     | Some node => rec node st0
                     | None => Some (Ok st0)
                     end) (loop rec rounds condition body increment))) Hfree) as [what Hthrow].
  rewrite Hthrow. discriminate.
Qed.

Lemma interpret_completed (fuel : nat) (node : ASTNode) (st st' : Interpreter) :
  boolean_free_variables st ->
  interpret fuel node st = Some (Ok st') ->
  boolean_free_variables st' /\ tests_condition node = false.
Proof.
  revert node st st'. induction fuel as [| fuel IH]; intros node st st' Hfree Hrun;
    [discriminate |].
  destruct node as [type value children]. cbn [interpret] in Hrun.
  destruct type; try discriminate Hrun;
    try (injection Hrun as <-; split; [exact Hfree | reflexivity]).
  - (* program *)
    split; [| reflexivity]. revert st Hfree Hrun.
    induction children as [| child rest IHrest]; intros st Hfree Hrun; cbn in Hrun.
    + now injection Hrun as <-.
    + destruct (interpret fuel child st) as [[st1 | |] |] eqn:Hchild;
        try discriminate Hrun.
      cbn in Hrun. apply (IHrest st1); [| exact Hrun].
      apply (IH child st st1 Hfree Hchild).
  - (* statement *)
    split; [| reflexivity].
    destruct (String.eqb value "use"); [| now injection Hrun as <-].
    destruct children as [| child rest]; [now injection Hrun as <- |].
    apply (IH child st st' Hfree Hrun).
  - (* call *)
    split; [| reflexivity].
    destruct (evaluateArguments (i_variables st) children) as [args | |];
      try discriminate Hrun. cbn [lift] in Hrun.
    destruct (initBaselib !! value) as [function |].
    + destruct (function args (i_console st)) as [c | |]; try discriminate Hrun.
      cbn in Hrun. injection Hrun as <-. exact Hfree.
    + injection Hrun as <-. exact Hfree.
  - (* if *)
    destruct children as [| condition blocks];
      [injection Hrun as <-; split; [exact Hfree | reflexivity] |].
    exfalso.
    destruct (condition_throws st condition
      (fun holds : bool => if holds
         then match blocks with
              | thenBlock :: _ => interpret fuel thenBlock st
              | [] => Some (Ok st)
              end
         else match blocks with
              | _ :: elseBlock :: _ => interpret fuel elseBlock st
              | _ => Some (Ok st)
              end) Hfree) as [what Hthrow].
    rewrite Hthrow in Hrun. discriminate Hrun.
  - (* while *)
    destruct children as [| condition [| body rest]];
      try (injection Hrun as <-; split; [exact Hfree | reflexivity]).
    exfalso. exact (loop_never_completes _ _ _ _ _ _ _ Hfree Hrun).
  - (* for *)
    destruct children as [| init [| condition [| increment [| body rest]]]];
      try (injection Hrun as <-; split; [exact Hfree | reflexivity]).
    exfalso.
    destruct (interpret fuel init st) as [[st1 | |] |] eqn:Hinit; try discriminate Hrun.
    cbn [andThen] in Hrun.
    apply (loop_never_completes _ _ _ _ _ _ _ (proj1 (IH init st st1 Hfree Hinit)) Hrun).
  - (* assignment *)
    split; [| reflexivity].
    destruct children as [| left_ [| right_ rest]]; try (now injection Hrun as <-).
    destruct (node_type left_); try (now injection Hrun as <-).
    destruct (evaluateExpression (i_variables st) right_) as [v | |] eqn:Heval;
      try discriminate Hrun.
    cbn in Hrun. injection Hrun as <-.
    apply map_Forall_insert_2; [| exact Hfree].
    exact (evaluateExpression_no_boolean st right_ v Hfree Heval).
Qed.

(** X18. The tree-walking interpreter can test no condition: no
    expression evaluates to a boolean and no variable ever holds one, so
    an [if] statement with a condition and a [while] statement with a
    condition and a body throw (the error of the condition, or "Value is
    not a boolean"), and a statement that runs to its end is no [if],
    [while] or [for] statement with a condition, and leaves the variables
    free of booleans. *)
Theorem interpreter_passes_no_condition (fuel : nat) (node : ASTNode) (st : Interpreter) :
  boolean_free_variables st ->
  (forall st', interpret fuel node st = Some (Ok st') ->
               boolean_free_variables st' /\ tests_condition node = false) /\
  (match node with
   | mkNode NODE_IF_STATEMENT _ (_ :: _) | mkNode NODE_WHILE_STATEMENT _ (_ :: _ :: _) =>
       exists what, interpret (S (S fuel)) node st = Some (Throw what)
   | _ => True
   end).
Proof.
  intros Hfree. split.
  - intros st'. now apply interpret_completed.
  - destruct node as [type value children]. destruct type; try exact I.
    + destruct children as [| condition blocks]; [exact I |].
      cbn [interpret]. apply (condition_throws st condition _ Hfree).
    + destruct children as [| condition [| body rest]]; try exact I.
      cbn [interpret loop]. apply (condition_throws st condition _ Hfree).
Qed.

End InterpreterFacts.

(** The statement [if ("yes") break]. *)
Definition if_on_string : ASTNode :=
  mkNode NODE_IF_STATEMENT ""
    [mkNode NODE_STRING_LITERAL "yes" []; mkNode NODE_BREAK_STATEMENT "" []].

Lemma interpreter_passes_no_condition_witness :
  boolean_free_variables (TreeWalker.start Binary64.quiet) /\
  exists what,
    TreeWalker.interpret 2 if_on_string (TreeWalker.start Binary64.quiet) = Some (Throw what).
Proof.
  assert (Hfree : boolean_free_variables (TreeWalker.start Binary64.quiet))
    by apply map_Forall_empty.
  split; [exact Hfree |].
  exact (proj2 (interpreter_passes_no_condition 0 if_on_string
                  (TreeWalker.start Binary64.quiet) Hfree)).
Defined.

(** ** The generator and the machine against the tree-walking interpreter *)

Section Compilation.
Context {H : Host} {HL : HostLaws H}.

(** The trees of arithmetic: number literals, identifiers and the five
    binary operators on two such trees. *)
Definition known_operator (value : string) : bool :=
  String.eqb value "+" || String.eqb value "-" || String.eqb value "*"
  || String.eqb value "/" || String.eqb value "%".

Fixpoint arithmetic (node : ASTNode) : bool :=
  match node with
  | mkNode type value children =>
      match type with
      | NODE_NUMBER_LITERAL | NODE_IDENTIFIER => true
      | NODE_OPERATOR =>
          match children with
          | left_ :: right_ :: _ =>
              known_operator value && arithmetic left_ && arithmetic right_
          | _ => false
          end
      | _ => false
      end
  end.

(** The numbers of the literals of a tree, in source order. *)
Fixpoint literals (node : ASTNode) : list double :=
  match node with
  | mkNode type value children =>
      match type with
      | NODE_NUMBER_LITERAL =>
          match stod value with
          | Some number => [number]
          | None => []
          end
      | NODE_OPERATOR =>
          match children with
          | left_ :: right_ :: _ => literals left_ ++ literals right_
          | _ => []
          end
      | _ => []
      end
  end.

(** Numbers that the number table tells apart: none is a NaN, and two of
    them that are [==] are the same number (so not [0.0] and [-0.0]). *)
Definition unambiguous (ds : list double) : Prop :=
  Forall (fun d => d_isnan d = false) ds /\
  forall a b, a ∈ ds -> b ∈ ds -> d_eqb a b = true -> a = b.

(** [n] instructions, one after the other. *)
Fixpoint execute_n (n : nat) (bc : Bytecode) (vm : VM) : Outcome VM :=
  match n with
  | O => Ok vm
  | S n' => vm' ← executeInstruction bc vm; execute_n n' bc vm'
  end.

(** The bytes [c] lie in the code at position [p]. *)
Definition placed (bc : Bytecode) (p : Z) (c : list byte) : Prop :=
  exists pre post, code bc = pre ++ c ++ post /\ size pre = p.

Lemma execute_n_app (n m : nat) (bc : Bytecode) (vm vm' : VM) :
  execute_n n bc vm = Ok vm' -> execute_n (n + m) bc vm = execute_n m bc vm'.
Proof.
  revert vm. induction n as [| n IH]; intros vm Hn; cbn in *.
  - now injection Hn as <-.
  - destruct (executeInstruction bc vm) as [vm1 | |]; try discriminate Hn.
    cbn in *. now apply IH.
Qed.

Lemma execute_n_throws (n m : nat) (bc : Bytecode) (vm : VM) (what : string) :
  execute_n n bc vm = Throw what -> execute_n (n + m) bc vm = Throw what.
Proof.
  revert vm. induction n as [| n IH]; intros vm Hn; cbn in *; [discriminate |].
  destruct (executeInstruction bc vm) as [vm1 | |]; try discriminate Hn; cbn in *.
  - now apply IH.
  - exact Hn.
Qed.

Lemma placed_app_l (bc : Bytecode) (p : Z) (c c' : list byte) :
  placed bc p (c ++ c') -> placed bc p c.
Proof.
  intros (pre & post & Hcode & Hp). exists pre, (c' ++ post).
  split; [now rewrite Hcode, <- app_assoc | exact Hp].
Qed.

Lemma placed_app_r (bc : Bytecode) (p : Z) (c c' : list byte) :
  placed bc p (c ++ c') -> placed bc (p + size c) c'.
Proof.
  intros (pre & post & Hcode & Hp). exists (pre ++ c), post.
  split; [now rewrite Hcode, <- !app_assoc | rewrite size_app; lia].
Qed.

Lemma placed_opcode (bc : Bytecode) (p : Z) (b : byte) (c : list byte) :
  placed bc p (b :: c) -> code_at bc p = Ok (byteZ b) /\ placed bc (p + 1) c.
Proof.
  intros (pre & post & Hcode & <-). split.
  - exact (code_at_here bc pre (c ++ post) b Hcode).
  - apply (placed_app_r bc (size pre) [b] c). now exists pre, post.
Qed.

Lemma placed_operand16 (bc : Bytecode) (p index : Z) (c : list byte) :
  0 <= index < 65536 ->
  placed bc p (Zbyte (Z.land (Z.shiftr index 8) 0xFF) :: Zbyte (Z.land index 0xFF) :: c) ->
  operand16 bc p = Ok index.
Proof.
  intros Hindex (pre & post & Hcode & <-).
  rewrite (operand16_here bc pre (c ++ post) _ _ Hcode). now rewrite short_bytes.
Qed.

Lemma byteZ_opcode (op : Z) : 0 <= op < 256 -> byteZ (Zbyte op) = op.
Proof. intros Hop. rewrite byteZ_Zbyte. now apply Z.mod_small. Qed.

(** One push of a pool entry, as the generator emits it. *)
Lemma push_num_step (bc : Bytecode) (vm : VM) (index : Z) (d : double) (c : list byte) :
  placed bc (programCounter vm)
    (Zbyte OP_PUSH_NUM :: Zbyte (Z.land (Z.shiftr index 8) 0xFF)
     :: Zbyte (Z.land index 0xFF) :: c) ->
  0 <= index < 65536 ->
  pool_at (numbers bc) index = Some d ->
  executeInstruction bc vm =
  Ok (mkVM (stack vm ++ [VNumber d]) (variables vm) (programCounter vm + 3) (console vm)).
Proof.
  intros Hplaced Hindex Hpool.
  apply placed_opcode in Hplaced as [Hop Hplaced].
  rewrite byteZ_opcode in Hop by (unfold OP_PUSH_NUM; lia).
  apply (placed_operand16 _ _ index c Hindex) in Hplaced.
  unfold executeInstruction.
  rewrite (executeInstruction_fetch bc vm _ Hop), Hop. cbn.
  rewrite Hplaced. cbn. rewrite Hpool. cbn.
  replace (programCounter vm + 1 + 2) with (programCounter vm + 3) by lia. reflexivity.
Qed.

Lemma load_step (bc : Bytecode) (vm : VM) (index : Z) (name : string) (c : list byte) :
  placed bc (programCounter vm)
    (Zbyte OP_LOAD :: Zbyte (Z.land (Z.shiftr index 8) 0xFF)
     :: Zbyte (Z.land index 0xFF) :: c) ->
  0 <= index < 65536 ->
  pool_at (constants bc) index = Some name ->
  executeInstruction bc vm =
  Ok (mkVM (stack vm ++ [default VNil (variables vm !! name)]) (variables vm)
           (programCounter vm + 3) (console vm)).
Proof.
  intros Hplaced Hindex Hpool.
  apply placed_opcode in Hplaced as [Hop Hplaced].
  rewrite byteZ_opcode in Hop by (unfold OP_LOAD; lia).
  apply (placed_operand16 _ _ index c Hindex) in Hplaced.
  unfold executeInstruction.
  rewrite (executeInstruction_fetch bc vm _ Hop), Hop. cbn.
  rewrite Hplaced. cbn. rewrite Hpool.
  replace (programCounter vm + 1 + 2) with (programCounter vm + 3) by lia.
  destruct (variables vm !! name); reflexivity.
Qed.

(** The operator of the interpreter, and the opcode the generator emits
    for it. *)
Definition operate (value : string) (left_ right_ : Value) : Outcome Value :=
  if String.eqb value "+" then
    if isString left_ || isString right_
    then Ok (VString (toString left_ +:+ toString right_))
    else Ok (VNumber (d_add (toNumber left_) (toNumber right_)))
  else if String.eqb value "-" then
    Ok (VNumber (d_sub (toNumber left_) (toNumber right_)))
  else if String.eqb value "*" then
    Ok (VNumber (d_mul (toNumber left_) (toNumber right_)))
  else if String.eqb value "/" then
    if negb (d_eqb (toNumber right_) d_zero)
    then Ok (VNumber (d_div (toNumber left_) (toNumber right_)))
    else Throw "Division by zero"
  else if String.eqb value "%" then
    if negb (d_eqb (toNumber right_) d_zero)
    then Ok (VNumber (d_fmod (toNumber left_) (toNumber right_)))
    else Throw "Modulo by zero"
  else Ok VNil.

Definition opcode_of (value : string) : Z :=
  if String.eqb value "+" then OP_ADD
  else if String.eqb value "-" then OP_SUB
  else if String.eqb value "*" then OP_MUL
  else if String.eqb value "/" then OP_DIV
  else OP_MOD.

Lemma evaluate_operator (variables : gmap string Value) (value : string)
  (left_ right_ : ASTNode) (rest : list ASTNode) :
  TreeWalker.evaluateExpression variables (mkNode NODE_OPERATOR value (left_ :: right_ :: rest))
  = (l ← TreeWalker.evaluateExpression variables left_;
     r ← TreeWalker.evaluateExpression variables right_;
     operate value l r).
Proof. reflexivity. Qed.

Lemma generate_operator (value : string) (left_ right_ : ASTNode) (rest : list ASTNode)
  (g : BytecodeGenerator) :
  known_operator value = true ->
  generateNode (mkNode NODE_OPERATOR value (left_ :: right_ :: rest)) g
  = (g1 ← generateNode left_ g;
     g2 ← generateNode right_ g1;
     Ok (emit (writeOpCode (opcode_of value)) g2)).
Proof.
  intros Hknown. cbn [generateNode generateExpression].
  destruct (generateNode left_ g) as [g1 | |]; try reflexivity. cbn [mbind outcome_bind].
  destruct (generateNode right_ g1) as [g2 | |]; try reflexivity. cbn [mbind outcome_bind].
  unfold known_operator in Hknown. unfold opcode_of.
  destruct (String.eqb value "+"); [reflexivity |].
  destruct (String.eqb value "-"); [reflexivity |].
  destruct (String.eqb value "*"); [reflexivity |].
  destruct (String.eqb value "/"); [reflexivity |].
  destruct (String.eqb value "%"); [reflexivity | discriminate Hknown].
Qed.

(** The machine's arithmetic instruction on two operands is the
    interpreter's operator on them. *)
Lemma operator_step (bc : Bytecode) (vm : VM) (value : string) (a b : Value)
  (s : list Value) :
  known_operator value = true ->
  code_at bc (programCounter vm) = Ok (opcode_of value) ->
  stack vm = s ++ [a; b] ->
  executeInstruction bc vm =
  (v ← operate value a b;
   Ok (mkVM (s ++ [v]) (variables vm) (programCounter vm + 1) (console vm))).
Proof.
  intros Hknown Hop Hstack.
  unfold executeInstruction.
  rewrite (executeInstruction_fetch bc vm _ Hop), Hop. cbn [mbind outcome_bind].
  assert (Hb : pop (set_pc (programCounter vm + 1) vm)
               = Ok (b, set_stack (s ++ [a]) (set_pc (programCounter vm + 1) vm))).
  { apply pop_snoc. cbn. rewrite Hstack.
    change [a; b] with ([a] ++ [b]). now rewrite app_assoc. }
  assert (Ha : pop (set_stack (s ++ [a]) (set_pc (programCounter vm + 1) vm))
               = Ok (a, set_stack s (set_pc (programCounter vm + 1) vm))).
  { exact (pop_snoc (set_stack (s ++ [a]) (set_pc (programCounter vm + 1) vm)) s a eq_refl). }
  unfold known_operator in Hknown. unfold opcode_of, operate in *.
  destruct (String.eqb value "+");
    [cbn; rewrite Hb; cbn; rewrite Ha; cbn;
     destruct (isString a || isString b); reflexivity |].
  destruct (String.eqb value "-");
    [cbn; unfold binary_numeric; rewrite Hb; cbn; rewrite Ha; reflexivity |].
  destruct (String.eqb value "*");
    [cbn; unfold binary_numeric; rewrite Hb; cbn; rewrite Ha; reflexivity |].
  destruct (String.eqb value "/");
    [cbn; rewrite Hb; cbn; rewrite Ha; cbn;
     destruct (d_eqb (toNumber b) d_zero); reflexivity |].
  destruct (String.eqb value "%"); [| discriminate Hknown].
  cbn; rewrite Hb; cbn; rewrite Ha; cbn.
  destruct (d_eqb (toNumber b) d_zero); reflexivity.
Qed.

Lemma num_find_some (m : list (double * Z)) (v : double) (i : Z) :
  num_find v m = Some i ->
  exists k, (k, i) ∈ m /\ d_ltb k v = false /\ d_ltb v k = false.
Proof.
  induction m as [| [k0 i0] tl IH]; intros Hfind; [discriminate |].
  cbn [num_find] in Hfind.
  destruct (d_ltb k0 v) eqn:Hk0v.
  - destruct (IH Hfind) as (k & Hin & Hlt). exists k. split; [now right | exact Hlt].
  - destruct (d_ltb v k0) eqn:Hvk0; [discriminate |].
    injection Hfind as <-. exists k0. split; [now left | now split].
Qed.

Lemma unambiguous_subset (ds ds' : list double) :
  unambiguous ds -> (forall d, d ∈ ds' -> d ∈ ds) -> unambiguous ds'.
Proof.
  intros [Hnan Hsame] Hsub. split.
  - rewrite Forall_forall in Hnan |- *. intros d Hd. apply Hnan, Hsub, Hd.
  - intros a b Ha Hb. apply Hsame; now apply Hsub.
Qed.

Lemma pool_at_prefix {A : Type} (pool pool' : list A) (n : nat) (entry : A) :
  pool `prefix_of` pool' -> pool !! n = Some entry ->
  pool_at pool' (Z.of_nat n) = Some entry.
Proof.
  intros [k ->] Hn. unfold pool_at. pose proof (lookup_lt_Some _ _ _ Hn) as Hlt.
  rewrite size_app. unfold size.
  destruct (Z.ltb_spec (Z.of_nat n) (Z.of_nat (List.length pool) + Z.of_nat (List.length k)))
    as [_ | Hge]; [| lia].
  rewrite Nat2Z.id. now apply lookup_app_l_Some.
Qed.

(** What the generation of a tree added to the generator: the code [c]
    behind the code there was, and entries behind those of the number and
    constant pools. *)
Definition extends (g g' : BytecodeGenerator) (c : list byte) : Prop :=
  code (bytecode g') = code (bytecode g) ++ c /\
  numbers (bytecode g) `prefix_of` numbers (bytecode g') /\
  constants (bytecode g) `prefix_of` constants (bytecode g').

(** The code [c] of a tree computes the value of the tree: started at
    [c] in any machine state, the machine pushes the value the
    interpreter computes from the same variables and arrives behind [c],
    or throws what the interpreter throws. *)
Definition computes (e : ASTNode) (g' : BytecodeGenerator) (c : list byte) : Prop :=
  forall (bc : Bytecode) (vm : VM),
    placed bc (programCounter vm) c ->
    numbers (bytecode g') `prefix_of` numbers bc ->
    constants (bytecode g') `prefix_of` constants bc ->
    match TreeWalker.evaluateExpression (variables vm) e with
    | Ok v =>
        exists n, execute_n n bc vm =
                  Ok (mkVM (stack vm ++ [v]) (variables vm)
                           (programCounter vm + size c) (console vm))
    | Throw what => exists n, execute_n n bc vm = Throw what
    | Undefined => False
    end.

Lemma compile_literal (value : string) (children : list ASTNode)
  (g g' : BytecodeGenerator) :
  consistent g ->
  generateNode (mkNode NODE_NUMBER_LITERAL value children) g = Ok g' ->
  size (numbers (bytecode g')) <= 65536 ->
  unambiguous (numbers (bytecode g) ++ literals (mkNode NODE_NUMBER_LITERAL value children)) ->
  exists c, extends g g' c /\ consistent g' /\
    (forall d, d ∈ numbers (bytecode g') ->
               d ∈ numbers (bytecode g)
                   ++ literals (mkNode NODE_NUMBER_LITERAL value children)) /\
    computes (mkNode NODE_NUMBER_LITERAL value children) g' c.
Proof.
  intros (Hs & Hn & Hc & Hf) Hgen Hsize [Hnan Hsame].
  cbn [generateNode generateExpression] in Hgen. cbn [literals] in *.
  destruct (stod value) as [d |] eqn:Hstod; [| discriminate Hgen].
  assert (Hd : d_isnan d = false).
  { rewrite Forall_forall in Hnan. apply Hnan, elem_of_app. right. left. }
  destruct Hn as (Hsorted & Htable & Hidx).
  destruct (addNumberConstant d g) as [index g1] eqn:Hadd.
  injection Hgen as <-. cbn in Hsize.
  assert (Hfacts :
            0 <= index < 65536 /\
            numbers (bytecode g1) !! Z.to_nat index = Some d /\
            numbers (bytecode g) `prefix_of` numbers (bytecode g1) /\
            consistent g1 /\
            (forall x, x ∈ numbers (bytecode g1) -> x ∈ numbers (bytecode g) ++ [d]) /\
            code (bytecode g1) = code (bytecode g) /\
            constants (bytecode g1) = constants (bytecode g)).
  { unfold addNumberConstant in Hadd.
    destruct (num_find d (numberConstants g)) as [i |] eqn:Hfind.
    - injection Hadd as <- <-.
      destruct (num_find_some _ _ _ Hfind) as (k & Hin & Hkd & Hdk).
      pose proof Hin as Hin'. apply Hidx in Hin' as [Hi Hlookup].
      assert (Hk : d_isnan k = false).
      { unfold no_nan in Htable. rewrite Forall_forall in Htable. exact (Htable _ Hin). }
      assert (Heq : k = d).
      { apply Hsame.
        - apply elem_of_app. left. eapply list_elem_of_lookup_2, Hlookup.
        - apply elem_of_app. right. left.
        - rewrite d_eqb_ltb by assumption. now rewrite Hkd, Hdk. }
      subst k.
      split; [apply lookup_lt_Some in Hlookup; unfold size in Hsize; lia |].
      split; [exact Hlookup |]. split; [reflexivity |].
      split; [exact (conj Hs (conj (conj Hsorted (conj Htable Hidx)) (conj Hc Hf))) |].
      split; [intros x Hx; apply elem_of_app; now left |]. split; reflexivity.
    - injection Hadd as <- <-. cbn in Hsize |- *.
      rewrite size_app in Hsize. change (size [d]) with 1 in Hsize.
      pose proof (size_nonneg (numbers (bytecode g))) as Hpos.
      rewrite to_u16_small by lia.
      split; [lia |].
      split; [unfold size; rewrite Nat2Z.id, lookup_app_r by lia; now rewrite Nat.sub_diag |].
      split; [now apply prefix_app_r |].
      split; [| split; [intros x Hx; exact Hx | split; reflexivity]].
      split; [exact Hs |]. split; [| split; [exact Hc | exact Hf]].
      apply num_indexed_insert;
        [exact (conj Hsorted (conj Htable Hidx)) | exact Hd | exact Hfind]. }
  destruct Hfacts as (Hindex & Hlookup & Hprefix & Hcons & Hsub & Hcode & Hconst).
  exists [Zbyte OP_PUSH_NUM; Zbyte (Z.land (Z.shiftr index 8) 0xFF);
          Zbyte (Z.land index 0xFF)].
  split; [| split; [| split]].
  - split; [cbn; now rewrite Hcode, <- app_assoc |].
    split; [exact Hprefix | cbn; now rewrite Hconst].
  - destruct Hcons as (Hs1 & Hn1 & Hc1 & Hf1).
    split; [exact Hs1 |]. split; [exact Hn1 |]. split; [exact Hc1 | exact Hf1].
  - exact Hsub.
  - intros bc vm Hplaced Hnumbers _. cbn [TreeWalker.evaluateExpression]. rewrite Hstod.
    exists 1%nat. cbn [execute_n].
    rewrite (push_num_step bc vm index d [] Hplaced);
      [reflexivity | exact Hindex |].
    rewrite <- (Z2Nat.id index) by lia.
    exact (pool_at_prefix _ _ _ _ Hnumbers Hlookup).
Qed.

Lemma compile_identifier (value : string) (children : list ASTNode)
  (g g' : BytecodeGenerator) :
  consistent g ->
  generateNode (mkNode NODE_IDENTIFIER value children) g = Ok g' ->
  size (constants (bytecode g')) <= 65536 ->
  exists c, extends g g' c /\ consistent g' /\
    numbers (bytecode g') = numbers (bytecode g) /\
    computes (mkNode NODE_IDENTIFIER value children) g' c.
Proof.
  intros (Hs & Hn & Hc & Hf) Hgen Hsize.
  cbn [generateNode generateExpression] in Hgen.
  destruct (addGeneralConstant value g) as [index g1] eqn:Hadd.
  injection Hgen as <-. cbn in Hsize.
  assert (Hfacts :
            0 <= index < 65536 /\
            constants (bytecode g1) !! Z.to_nat index = Some value /\
            constants (bytecode g) `prefix_of` constants (bytecode g1) /\
            consistent g1 /\
            code (bytecode g1) = code (bytecode g) /\
            numbers (bytecode g1) = numbers (bytecode g)).
  { unfold addGeneralConstant in Hadd.
    destruct (generalConstants g !! value) as [i |] eqn:Hfind.
    - injection Hadd as <- <-.
      pose proof Hfind as Hin. apply Hc in Hin as [Hi Hlookup].
      split; [apply lookup_lt_Some in Hlookup; unfold size in Hsize; lia |].
      split; [exact Hlookup |]. split; [reflexivity |].
      split; [exact (conj Hs (conj Hn (conj Hc Hf))) |]. split; reflexivity.
    - injection Hadd as <- <-. cbn in Hsize |- *.
      rewrite size_app in Hsize. change (size [value]) with 1 in Hsize.
      pose proof (size_nonneg (constants (bytecode g))) as Hpos.
      rewrite to_u16_small by lia.
      split; [lia |].
      split; [unfold size; rewrite Nat2Z.id, lookup_app_r by lia; now rewrite Nat.sub_diag |].
      split; [now apply prefix_app_r |].
      split; [| split; reflexivity].
      split; [exact Hs |]. split; [exact Hn |]. split; [| exact Hf].
      now apply indexed_insert. }
  destruct Hfacts as (Hindex & Hlookup & Hprefix & Hcons & Hcode & Hnum).
  exists [Zbyte OP_LOAD; Zbyte (Z.land (Z.shiftr index 8) 0xFF); Zbyte (Z.land index 0xFF)].
  split; [| split; [| split]].
  - split; [cbn; now rewrite Hcode, <- app_assoc |].
    split; [cbn; rewrite Hnum; reflexivity | exact Hprefix].
  - destruct Hcons as (Hs1 & Hn1 & Hc1 & Hf1).
    split; [exact Hs1 |]. split; [exact Hn1 |]. split; [exact Hc1 | exact Hf1].
  - exact Hnum.
  - intros bc vm Hplaced _ Hconstants. cbn [TreeWalker.evaluateExpression].
    assert (Hstep : executeInstruction bc vm =
              Ok (mkVM (stack vm ++ [default VNil (variables vm !! value)]) (variables vm)
                       (programCounter vm + 3) (console vm))).
    { apply (load_step bc vm index value [] Hplaced Hindex).
      rewrite <- (Z2Nat.id index) by lia.
      exact (pool_at_prefix _ _ _ _ Hconstants Hlookup). }
    destruct (variables vm !! value) as [found |]; exists 1%nat; cbn [execute_n];
      rewrite Hstep; reflexivity.
Qed.

Lemma addNumberConstant_grows (d : double) (g : BytecodeGenerator) :
  numbers (bytecode g) `prefix_of` numbers (bytecode (addNumberConstant d g).2) /\
  constants (bytecode (addNumberConstant d g).2) = constants (bytecode g).
Proof.
  unfold addNumberConstant. destruct (num_find d (numberConstants g)); cbn.
  - split; reflexivity.
  - split; [now apply prefix_app_r | reflexivity].
Qed.

Lemma addGeneralConstant_grows (s : string) (g : BytecodeGenerator) :
  numbers (bytecode (addGeneralConstant s g).2) = numbers (bytecode g) /\
  constants (bytecode g) `prefix_of` constants (bytecode (addGeneralConstant s g).2).
Proof.
  unfold addGeneralConstant. destruct (generalConstants g !! s); cbn.
  - split; reflexivity.
  - split; [reflexivity | now apply prefix_app_r].
Qed.

(** Whatever the pools hold, a tree of arithmetic only adds entries
    behind them. *)
Lemma arithmetic_grows (e : ASTNode) :
  arithmetic e = true ->
  forall g g' : BytecodeGenerator,
    generateNode e g = Ok g' ->
    numbers (bytecode g) `prefix_of` numbers (bytecode g') /\
    constants (bytecode g) `prefix_of` constants (bytecode g').
Proof.
  induction e as [type value children IH] using ASTNode_children_ind.
  intros Harith g g' Hgen. destruct type; try discriminate Harith.
  - cbn [generateNode generateExpression] in Hgen.
    destruct (stod value) as [d |]; [| discriminate Hgen].
    destruct (addNumberConstant_grows d g) as [Hn Hc].
    destruct (addNumberConstant d g) as [index g1]. injection Hgen as <-.
    cbn in *. split; [exact Hn | now rewrite Hc].
  - cbn [generateNode generateExpression] in Hgen.
    destruct (addGeneralConstant_grows value g) as [Hn Hc].
    destruct (addGeneralConstant value g) as [index g1]. injection Hgen as <-.
    cbn in *. split; [now rewrite Hn | exact Hc].
  - destruct children as [| left_ [| right_ rest]]; try discriminate Harith.
    cbn [arithmetic] in Harith.
    apply andb_prop in Harith as [Harith Hright].
    apply andb_prop in Harith as [Hknown Hleft].
    apply Forall_cons in IH as [IHleft IH]. apply Forall_cons in IH as [IHright _].
    rewrite (generate_operator value left_ right_ rest g Hknown) in Hgen.
    destruct (generateNode left_ g) as [g1 | |] eqn:Hgen1; try discriminate Hgen.
    cbn [mbind outcome_bind] in Hgen.
    destruct (generateNode right_ g1) as [g2 | |] eqn:Hgen2; try discriminate Hgen.
    cbn [mbind outcome_bind] in Hgen. injection Hgen as <-.
    destruct (IHleft Hleft g g1 Hgen1) as [Hn1 Hc1].
    destruct (IHright Hright g1 g2 Hgen2) as [Hn2 Hc2].
    cbn. split; etrans; eassumption.
Qed.

Lemma prefix_size {A : Type} (l k : list A) : l `prefix_of` k -> size l <= size k.
Proof. intros [rest ->]. rewrite size_app. pose proof (size_nonneg rest). lia. Qed.

(** The generator compiles a tree of arithmetic to code that computes
    it. *)
Lemma compile_arithmetic (e : ASTNode) :
  arithmetic e = true ->
  forall g g' : BytecodeGenerator,
    consistent g ->
    generateNode e g = Ok g' ->
    size (numbers (bytecode g')) <= 65536 ->
    size (constants (bytecode g')) <= 65536 ->
    unambiguous (numbers (bytecode g) ++ literals e) ->
    exists c, extends g g' c /\ consistent g' /\
      (forall d, d ∈ numbers (bytecode g') -> d ∈ numbers (bytecode g) ++ literals e) /\
      computes e g' c.
Proof.
  induction e as [type value children IH] using ASTNode_children_ind.
  intros Harith g g' Hcons Hgen Hnumbers Hconstants Hexact.
  destruct type; try discriminate Harith.
  - (* a number literal *)
    exact (compile_literal value children g g' Hcons Hgen Hnumbers Hexact).
  - (* an identifier *)
    destruct (compile_identifier value children g g' Hcons Hgen Hconstants)
      as (c & Hext & Hcons' & Hsame & Hcomputes).
    exists c. split; [exact Hext |]. split; [exact Hcons' |]. split; [| exact Hcomputes].
    intros d Hd. rewrite Hsame in Hd. apply elem_of_app. now left.
  - (* an operator *)
    destruct children as [| left_ [| right_ rest]]; try discriminate Harith.
    cbn [arithmetic] in Harith.
    apply andb_prop in Harith as [Harith Hright].
    apply andb_prop in Harith as [Hknown Hleft].
    apply Forall_cons in IH as [IHleft IH]. apply Forall_cons in IH as [IHright _].
    rewrite (generate_operator value left_ right_ rest g Hknown) in Hgen.
    destruct (generateNode left_ g) as [g1 | |] eqn:Hgen1; try discriminate Hgen.
    cbn [mbind outcome_bind] in Hgen.
    destruct (generateNode right_ g1) as [g2 | |] eqn:Hgen2; try discriminate Hgen.
    cbn [mbind outcome_bind] in Hgen. injection Hgen as <-.
    cbn [emit set_bytecode bytecode writeOpCode set_code numbers constants code]
      in Hnumbers, Hconstants.
    cbn [literals] in Hexact.
    destruct (arithmetic_grows right_ Hright g1 g2 Hgen2) as [Hgrow_n Hgrow_c].
    apply prefix_size in Hgrow_n, Hgrow_c.
    (* the left operand *)
    destruct (IHleft Hleft g g1 Hcons Hgen1) as (c1 & Hext1 & Hcons1 & Hsub1 & Hcomp1);
      [lia | lia | |].
    { apply (unambiguous_subset _ _ Hexact). intros d Hd.
      apply elem_of_app in Hd as [Hd | Hd]; apply elem_of_app;
        [now left | right; apply elem_of_app; now left]. }
    (* the right operand *)
    destruct (IHright Hright g1 g2 Hcons1 Hgen2) as (c2 & Hext2 & Hcons2 & Hsub2 & Hcomp2);
      [lia | lia | |].
    { apply (unambiguous_subset _ _ Hexact). intros d Hd.
      apply elem_of_app in Hd as [Hd | Hd].
      - apply Hsub1, elem_of_app in Hd as [Hd | Hd]; apply elem_of_app;
          [now left | right; apply elem_of_app; now left].
      - apply elem_of_app. right. apply elem_of_app. now right. }
    destruct Hext1 as (Hcode1 & Hnum1 & Hconst1).
    destruct Hext2 as (Hcode2 & Hnum2 & Hconst2).
    exists (c1 ++ c2 ++ [Zbyte (opcode_of value)]).
    split; [| split; [| split]].
    + split; [cbn; rewrite Hcode2, Hcode1; now rewrite <- !app_assoc |].
      split; cbn; etrans; eassumption.
    + destruct Hcons2 as (Hs2 & Hn2 & Hc2 & Hf2).
      split; [exact Hs2 |]. split; [exact Hn2 |]. split; [exact Hc2 | exact Hf2].
    + intros d Hd. cbn in Hd. apply Hsub2, elem_of_app in Hd as [Hd | Hd].
      * apply Hsub1, elem_of_app in Hd as [Hd | Hd]; apply elem_of_app;
          [now left | right; apply elem_of_app; now left].
      * apply elem_of_app. right. apply elem_of_app. now right.
    + intros bc vm Hplaced Hnumbers_bc Hconstants_bc.
      cbn [emit set_bytecode bytecode writeOpCode set_code numbers constants]
        in Hnumbers_bc, Hconstants_bc.
      rewrite evaluate_operator.
      pose proof (placed_app_l _ _ _ _ Hplaced) as Hplaced1.
      pose proof (placed_app_r _ _ _ _ Hplaced) as Hplaced23.
      pose proof (placed_app_l _ _ _ _ Hplaced23) as Hplaced2.
      pose proof (placed_app_r _ _ _ _ Hplaced23) as Hplaced3.
      apply placed_opcode in Hplaced3 as [Hop _].
      assert (Hopcode : 0 <= opcode_of value < 256).
      { unfold opcode_of, OP_ADD, OP_SUB, OP_MUL, OP_DIV, OP_MOD.
        repeat match goal with |- context [if ?c then _ else _] => destruct c end; lia. }
      rewrite byteZ_opcode in Hop by exact Hopcode.
      specialize (Hcomp1 bc vm Hplaced1).
      destruct (TreeWalker.evaluateExpression (variables vm) left_) as [vl | what |];
        cbn [mbind outcome_bind].
      * destruct Hcomp1 as [n1 Hrun1]; [etrans; eassumption | etrans; eassumption |].
        set (vm1 := mkVM (stack vm ++ [vl]) (variables vm)
                         (programCounter vm + size c1) (console vm)) in *.
        specialize (Hcomp2 bc vm1 Hplaced2 Hnumbers_bc Hconstants_bc).
        change (variables vm1) with (variables vm) in Hcomp2.
        destruct (TreeWalker.evaluateExpression (variables vm) right_) as [vr | what |];
          cbn [mbind outcome_bind].
        -- destruct Hcomp2 as [n2 Hrun2].
           set (vm2 := mkVM (stack vm1 ++ [vr]) (variables vm1)
                            (programCounter vm1 + size c2) (console vm1)) in *.
           assert (Hstep : executeInstruction bc vm2 =
                     (v ← operate value vl vr;
                      Ok (mkVM (stack vm ++ [v]) (variables vm2)
                               (programCounter vm2 + 1) (console vm2)))).
           { apply operator_step; [exact Hknown | exact Hop |].
             cbn. now rewrite <- app_assoc. }
           assert (Hrun : execute_n (n1 + (n2 + 1)) bc vm = executeInstruction bc vm2).
           { rewrite (execute_n_app n1 (n2 + 1) bc vm vm1 Hrun1).
             rewrite (execute_n_app n2 1 bc vm1 vm2 Hrun2). cbn [execute_n].
             destruct (executeInstruction bc vm2); reflexivity. }
           destruct (operate value vl vr) as [v | what |] eqn:Hoperate.
           ++ exists (n1 + (n2 + 1))%nat. rewrite Hrun, Hstep. cbn.
              rewrite !size_app. change (size [Zbyte (opcode_of value)]) with 1.
              do 2 f_equal. lia.
           ++ exists (n1 + (n2 + 1))%nat. rewrite Hrun, Hstep. reflexivity.
           ++ unfold operate in Hoperate.
              repeat match type of Hoperate with
                     | (if ?c then _ else _) = _ => destruct c
                     end; discriminate Hoperate.
        -- destruct Hcomp2 as [n2 Hrun2]. exists (n1 + n2)%nat.
           now rewrite (execute_n_app n1 n2 bc vm vm1 Hrun1).
        -- exact Hcomp2.
      * destruct Hcomp1 as [n1 Hrun1]; [etrans; eassumption | etrans; eassumption |].
        exists n1. exact Hrun1.
      * apply Hcomp1; etrans; eassumption.
Qed.

Lemma run_execute_n (n fuel : nat) (bc : Bytecode) (vm vm' : VM) :
  execute_n n bc vm = Ok vm' -> run (n + fuel) bc vm = run fuel bc vm'.
Proof.
  revert vm. induction n as [| n IH]; intros vm Hn; cbn [execute_n] in Hn.
  - now injection Hn as <-.
  - cbn [Nat.add run].
    destruct (executeInstruction bc vm) as [vm1 | |] eqn:Hstep; try discriminate Hn.
    cbn [mbind outcome_bind] in Hn.
    assert (Hin : (size (code bc) <=? programCounter vm) = false).
    { unfold executeInstruction in Hstep.
      destruct (size (code bc) <=? programCounter vm); [discriminate | reflexivity]. }
    rewrite Hin. now apply IH.
Qed.

Lemma run_execute_n_throws (n fuel : nat) (bc : Bytecode) (vm : VM) (what : string) :
  what <> "Program counter out of bounds"%string ->
  execute_n n bc vm = Throw what -> run (n + fuel) bc vm = Some (Throw what).
Proof.
  intros Hwhat. revert vm. induction n as [| n IH]; intros vm Hn; cbn [execute_n] in Hn;
    [discriminate |].
  cbn [Nat.add run].
  assert (Hin : (size (code bc) <=? programCounter vm) = false).
  { destruct (size (code bc) <=? programCounter vm) eqn:Hout; [| reflexivity].
    unfold executeInstruction in Hn. rewrite Hout in Hn. cbn in Hn. congruence. }
  rewrite Hin.
  destruct (executeInstruction bc vm) as [vm1 | what' |]; try discriminate Hn;
    cbn [mbind outcome_bind] in Hn.
  - now apply IH.
  - now injection Hn as ->.
Qed.

(** The exceptions of [evaluateExpression]: a literal that [std::stod]
    rejects, and a division or remainder by zero. *)
Lemma evaluateExpression_throws (variables : gmap string Value) (e : ASTNode)
  (what : string) :
  TreeWalker.evaluateExpression variables e = Throw what ->
  what = "stod"%string \/ what = "Division by zero"%string \/ what = "Modulo by zero"%string.
Proof.
  induction e as [type value children IH] using ASTNode_children_ind.
  destruct type; cbn; try discriminate.
  - destruct (stod value); [discriminate |]. intros [= <-]. now left.
  - destruct (variables !! value); discriminate.
  - destruct children as [| left_ [| right_ rest]]; try discriminate.
    apply Forall_cons in IH as [Hleft IH]. apply Forall_cons in IH as [Hright _].
    destruct (TreeWalker.evaluateExpression variables left_) as [l | w |];
      cbn [mbind outcome_bind]; [| intros [= <-]; now apply Hleft | discriminate].
    destruct (TreeWalker.evaluateExpression variables right_) as [r | w |];
      cbn [mbind outcome_bind]; [| intros [= <-]; now apply Hright | discriminate].
    repeat match goal with
           | |- (if ?c then _ else _) = _ -> _ => destruct c
           end; try discriminate; intros [= <-]; auto.
Qed.

(** X19. The code the generator emits for a tree of arithmetic computes
    what the tree-walking interpreter computes.  The tree is generated in
    a generator whose tables agree with its pools, its number and
    constant pools end with at most 65536 entries, and the numbers at
    hand are unambiguous.  Then a machine that holds the emitted code at
    its program counter, and the pools, pushes the value
    [evaluateExpression] yields under the machine's variables and arrives
    behind the code with nothing else changed; it throws what
    [evaluateExpression] throws. *)
Theorem generated_arithmetic_computes (e : ASTNode) (g g' : BytecodeGenerator)
  (bc : Bytecode) (vm : VM) :
  arithmetic e = true ->
  consistent g ->
  generateNode e g = Ok g' ->
  size (numbers (bytecode g')) <= 65536 ->
  size (constants (bytecode g')) <= 65536 ->
  unambiguous (numbers (bytecode g) ++ literals e) ->
  placed bc (programCounter vm)
         (drop (List.length (code (bytecode g))) (code (bytecode g'))) ->
  numbers (bytecode g') `prefix_of` numbers bc ->
  constants (bytecode g') `prefix_of` constants bc ->
  match TreeWalker.evaluateExpression (variables vm) e with
  | Ok v =>
      exists n, execute_n n bc vm =
                Ok (mkVM (stack vm ++ [v]) (variables vm)
                         (programCounter vm + (position g' - position g)) (console vm))
  | Throw what => exists n, execute_n n bc vm = Throw what
  | Undefined => False
  end.
Proof.
  intros Harith Hcons Hgen Hnumbers Hconstants Hexact Hplaced Hn Hc.
  destruct (compile_arithmetic e Harith g g' Hcons Hgen Hnumbers Hconstants Hexact)
    as (c & (Hcode & _ & _) & _ & _ & Hcomputes).
  rewrite Hcode, drop_app_length in Hplaced.
  specialize (Hcomputes bc vm Hplaced Hn Hc).
  replace (position g' - position g) with (size c); [exact Hcomputes |].
  unfold position, getPosition. rewrite Hcode, size_app. lia.
Qed.

(** X20. A program that is one tree of arithmetic, compiled and run,
    ends with the value of the tree alone on the stack, or with the
    exception of its evaluation: [generate] followed by [execute] agrees
    with [evaluateExpression] over no variables, when the pools end with
    at most 65536 entries, the code is shorter than 2^32 bytes and the
    literals are unambiguous. *)
Theorem compiled_expression_agrees_with_interpreter (e : ASTNode) (bc : Bytecode)
  (w : world) :
  arithmetic e = true ->
  unambiguous (literals e) ->
  generate (mkNode NODE_PROGRAM "" [e]) = Ok bc ->
  size (numbers bc) <= 65536 ->
  size (constants bc) <= 65536 ->
  size (code bc) < 4294967296 ->
  match TreeWalker.evaluateExpression ∅ e with
  | Ok v =>
      exists fuel, execute fuel bc w =
                   Some (Ok (mkVM [v] ∅ (size (code bc)) (mkConsole "" "" w)))
  | Throw what => exists fuel, execute fuel bc w = Some (Throw what)
  | Undefined => False
  end.
Proof.
  intros Harith Hexact Hgen Hnumbers Hconstants Hcode.
  unfold generate in Hgen. cbn [generateNode generateAll] in Hgen.
  destruct (generateNode e fresh) as [g' | |] eqn:Hgen'; try discriminate Hgen.
  cbn [mbind outcome_bind] in Hgen. injection Hgen as <-.
  change (bytecode (emit (writeOpCode OP_HALT) g')) with (writeOpCode OP_HALT (bytecode g'))
    in *.
  set (bc := writeOpCode OP_HALT (bytecode g')) in *.
  destruct (compile_arithmetic e Harith fresh g' consistent_fresh Hgen' Hnumbers Hconstants
              Hexact) as (c & (Hc & _ & _) & _ & _ & Hcomputes).
  assert (Hbc : code bc = c ++ [Zbyte OP_HALT]) by (cbn; now rewrite Hc).
  assert (Hplaced : placed bc 0 c) by (exists [], [Zbyte OP_HALT]; split; [exact Hbc | reflexivity]).
  specialize (Hcomputes bc (initial w) Hplaced (reflexivity _) (reflexivity _)).
  change (variables (initial w)) with (∅ : gmap string Value) in Hcomputes.
  destruct (TreeWalker.evaluateExpression ∅ e) as [v | what |] eqn:Heval.
  - destruct Hcomputes as [n Hrun]. exists (n + 1)%nat. unfold execute.
    change (programCounter (initial w) + size c) with (size c) in Hrun.
    rewrite (run_execute_n n 1 bc _ _ Hrun). cbn [run programCounter].
    assert (Hhalt : code_at bc (size c) = Ok OP_HALT).
    { rewrite (code_at_here bc c [] (Zbyte OP_HALT) Hbc). reflexivity. }
    assert (Hin : (size (code bc) <=? size c) = false).
    { apply code_at_in_range in Hhalt. lia. }
    rewrite Hin. unfold executeInstruction. cbn [programCounter].
    rewrite Hin, Hhalt. cbn [mbind outcome_bind].
    pose proof (size_nonneg (code bc)) as Hpos.
    cbn. change (code (bytecode g') ++ [Zbyte OP_HALT]) with (code bc).
    rewrite to_u32_small by lia.
    rewrite Z.leb_refl. reflexivity.
  - destruct Hcomputes as [n Hrun]. exists (n + 0)%nat. unfold execute.
    apply run_execute_n_throws; [| exact Hrun].
    destruct (evaluateExpression_throws _ _ _ Heval) as [-> | [-> | ->]]; discriminate.
  - exact Hcomputes.
Qed.

End Compilation.

(** The tree of [1 + 2 * 3] and the program it compiles to. *)
Definition sum_of_products : ASTNode :=
  mkNode NODE_OPERATOR "+"
    [number_literal "1";
     mkNode NODE_OPERATOR "*" [number_literal "2"; number_literal "3"]].

Definition sum_of_products_code : Bytecode :=
  mkBytecode
    (List.map Zbyte [OP_PUSH_NUM; 0; 0; OP_PUSH_NUM; 0; 1; OP_PUSH_NUM; 0; 2;
                     OP_MUL; OP_ADD; OP_HALT])
    [] [Binary64.of_Z 1; Binary64.of_Z 2; Binary64.of_Z 3] [] [].

Lemma sum_of_products_unambiguous : unambiguous (literals sum_of_products).
Proof.
  assert (Hliterals : literals sum_of_products
                      = [Binary64.of_Z 1; Binary64.of_Z 2; Binary64.of_Z 3])
    by (vm_compute; reflexivity).
  rewrite Hliterals. split; [repeat constructor |].
  intros a b Ha Hb Heq.
  rewrite !elem_of_cons in Ha, Hb.
  destruct Ha as [-> | [-> | [-> | Ha]]]; [| | | inversion Ha];
    (destruct Hb as [-> | [-> | [-> | Hb]]]; [| | | inversion Hb]);
    first [reflexivity | vm_compute in Heq; discriminate Heq].
Qed.

Lemma compiled_expression_agrees_with_interpreter_witness :
  arithmetic sum_of_products = true /\
  unambiguous (literals sum_of_products) /\
  generate (mkNode NODE_PROGRAM "" [sum_of_products]) = Ok sum_of_products_code /\
  TreeWalker.evaluateExpression ∅ sum_of_products = Ok (VNumber (Binary64.of_Z 7)) /\
  exists fuel,
    execute fuel sum_of_products_code Binary64.quiet
    = Some (Ok (mkVM [VNumber (Binary64.of_Z 7)] ∅ 12 (mkConsole "" "" Binary64.quiet))).
Proof.
  assert (Hgen : generate (mkNode NODE_PROGRAM "" [sum_of_products])
                 = Ok sum_of_products_code) by (vm_compute; reflexivity).
  assert (Heval : TreeWalker.evaluateExpression ∅ sum_of_products
                  = Ok (VNumber (Binary64.of_Z 7))) by (vm_compute; reflexivity).
  assert (Hnumbers : size (numbers sum_of_products_code) <= 65536) by discriminate.
  assert (Hconstants : size (constants sum_of_products_code) <= 65536) by discriminate.
  assert (Hcode : size (code sum_of_products_code) < 4294967296) by reflexivity.
  split; [reflexivity |]. split; [exact sum_of_products_unambiguous |].
  split; [exact Hgen |]. split; [exact Heval |].
  pose proof (compiled_expression_agrees_with_interpreter (HL := binary64_laws)
                sum_of_products sum_of_products_code Binary64.quiet eq_refl
                sum_of_products_unambiguous Hgen Hnumbers Hconstants Hcode) as Hrun.
  rewrite Heval in Hrun. exact Hrun.
Defined.

(** The tree of [x * 2], the generator after it, and a machine in which
    [x] is 3. *)
Definition doubled : ASTNode :=
  mkNode NODE_OPERATOR "*" [mkNode NODE_IDENTIFIER "x" []; number_literal "2"].

Definition doubled_code : BytecodeGenerator :=
  mkGen (mkBytecode (List.map Zbyte [OP_LOAD; 0; 0; OP_PUSH_NUM; 0; 0; OP_MUL])
                    [] [Binary64.of_Z 2] ["x"] [])
        ∅ [(Binary64.of_Z 2, 0)] (<["x" := 0]> ∅) ∅ [].

Definition x_is_three : VM :=
  mkVM [] (<["x" := VNumber (Binary64.of_Z 3)]> ∅) 0 (mkConsole "" "" Binary64.quiet).

Lemma doubled_unambiguous : unambiguous (numbers (bytecode fresh) ++ literals doubled).
Proof.
  assert (Hliterals : numbers (bytecode fresh) ++ literals doubled = [Binary64.of_Z 2])
    by (vm_compute; reflexivity).
  rewrite Hliterals. split; [repeat constructor |].
  intros a b Ha Hb _. apply list_elem_of_singleton in Ha, Hb. congruence.
Qed.

Lemma generated_arithmetic_computes_witness :
  arithmetic doubled = true /\
  consistent fresh /\
  generateNode doubled fresh = Ok doubled_code /\
  TreeWalker.evaluateExpression (variables x_is_three) doubled
  = Ok (VNumber (Binary64.of_Z 6)) /\
  exists n,
    execute_n n (bytecode doubled_code) x_is_three
    = Ok (mkVM [VNumber (Binary64.of_Z 6)] (variables x_is_three) 7
               (mkConsole "" "" Binary64.quiet)).
Proof.
  assert (Hgen : generateNode doubled fresh = Ok doubled_code) by (vm_compute; reflexivity).
  assert (Heval : TreeWalker.evaluateExpression (variables x_is_three) doubled
                  = Ok (VNumber (Binary64.of_Z 6))) by (vm_compute; reflexivity).
  assert (Hnumbers : size (numbers (bytecode doubled_code)) <= 65536) by discriminate.
  assert (Hconstants : size (constants (bytecode doubled_code)) <= 65536) by discriminate.
  assert (Hplaced : placed (bytecode doubled_code) (programCounter x_is_three)
                      (drop (List.length (code (bytecode fresh)))
                            (code (bytecode doubled_code))))
    by (exists [], []; split; reflexivity).
  split; [reflexivity |]. split; [exact consistent_fresh |].
  split; [exact Hgen |]. split; [exact Heval |].
  pose proof (generated_arithmetic_computes (HL := binary64_laws) doubled fresh doubled_code
                (bytecode doubled_code) x_is_three eq_refl consistent_fresh Hgen
                Hnumbers Hconstants doubled_unambiguous Hplaced
                (reflexivity _) (reflexivity _)) as Hrun.
  rewrite Heval in Hrun. exact Hrun.
Defined.

(** ** value.h: arrays, hashes and string repetition *)

Lemma string_compare_refl (s : string) : (s ?= s)%string = Eq.
Proof.
  pose proof (String.compare_antisym s s) as Hs.
  destruct (s ?= s)%string; simpl in Hs; congruence.
Qed.

Lemma string_compare_lt_trans (a b c : string) :
  (a ?= b)%string = Lt -> (b ?= c)%string = Lt -> (a ?= c)%string = Lt.
Proof.
  revert b c. induction a as [| x a IH]; intros [| y b] [| z c]; simpl; try congruence.
  destruct (Ascii.compare x y) eqn:Exy; destruct (Ascii.compare y z) eqn:Eyz;
    try discriminate; intros Hab Hbc.
  - apply Ascii.compare_eq_iff in Exy, Eyz. subst.
    assert (Hzz : Ascii.compare z z = Eq).
    { unfold Ascii.compare. apply N.compare_refl. }
    rewrite Hzz. now apply (IH b c).
  - apply Ascii.compare_eq_iff in Exy. subst. now rewrite Eyz.
  - apply Ascii.compare_eq_iff in Eyz. subst. now rewrite Exy.
  - unfold Ascii.compare in *. rewrite N.compare_lt_iff in Exy, Eyz.
    assert (Hxz : (N_of_ascii x ?= N_of_ascii z)%N = Lt) by (apply N.compare_lt_iff; lia).
    now rewrite Hxz.
Qed.

Lemma ltb_trans (a b c : string) :
  String.ltb a b = true -> String.ltb b c = true -> String.ltb a c = true.
Proof.
  unfold String.ltb. intros Hab Hbc.
  destruct (a ?= b)%string eqn:Eab; try discriminate.
  destruct (b ?= c)%string eqn:Ebc; try discriminate.
  now rewrite (string_compare_lt_trans a b c Eab Ebc).
Qed.

Lemma ltb_not_eqb (a b : string) : String.ltb a b = true -> String.eqb a b = false.
Proof.
  unfold String.ltb. intros Hab. apply String.eqb_neq. intros ->.
  now rewrite string_compare_refl in Hab.
Qed.

Lemma ltb_total (a b : string) :
  String.ltb a b = false -> String.eqb b a = false -> String.ltb b a = true.
Proof.
  unfold String.ltb. intros Hab Hne. apply String.eqb_neq in Hne.
  rewrite (String.compare_antisym b a).
  destruct (a ?= b)%string eqn:Eab; simpl; try reflexivity; try discriminate.
  apply String.compare_eq_iff in Eab. congruence.
Qed.

Section ValueContainers.
Context {H : Host} {C : Conversions H}.

Lemma size_to_int_small (z : Z) : 0 <= z <= INT_MAX -> size_to_int z = z.
Proof.
  unfold size_to_int, INT_MAX. intros Hz. rewrite Z.mod_small by lia. lia.
Qed.

(** X21. An item pushed on an array is the element at the index that was
    the size of the array, and the elements before it keep their indices:
    on an array of fewer than [INT_MAX] elements, [push] followed by
    [operator[]] with an index that converts to the old size returns the
    item, an index below the old size returns the element it returned
    before the push, and an index that is negative or beyond the item
    throws "Array index out of bounds". *)
Theorem pushed_item_is_indexed (array : list Value) (item index : Value) (idx : Z) :
  size array < INT_MAX ->
  d_to_int (toNumber index) = Some idx ->
  value_push item (VArray array) = Ok (VArray (array ++ [item])) /\
  (idx = size array ->
   value_index index (VArray (array ++ [item])) = Ok (item, VArray (array ++ [item]))) /\
  (0 <= idx < size array ->
   exists x, value_index index (VArray array) = Ok (x, VArray array) /\
             value_index index (VArray (array ++ [item]))
             = Ok (x, VArray (array ++ [item]))) /\
  (idx < 0 \/ size array < idx ->
   value_index index (VArray (array ++ [item])) = Throw "Array index out of bounds").
Proof.
  intros Hsize Hidx.
  assert (Hgrown : size (array ++ [item]) = size array + 1).
  { unfold size. rewrite length_app. simpl. lia. }
  assert (Hnonneg : 0 <= size array) by (unfold size; lia).
  split; [reflexivity |].
  unfold value_index. cbn [isArray getType Type_eqb asArray mbind outcome_bind].
  rewrite Hidx. cbn. rewrite Hgrown.
  rewrite !size_to_int_small by (unfold INT_MAX in *; lia).
  split; [| split].
  - intros ->.
    replace (size array <? 0) with false by (symmetry; apply Z.ltb_ge; lia).
    replace (size array + 1 <=? size array) with false by (symmetry; apply Z.leb_gt; lia).
    cbn. unfold size. rewrite Nat2Z.id.
    now rewrite list_lookup_middle.
  - intros Hin.
    replace (idx <? 0) with false by (symmetry; apply Z.ltb_ge; lia).
    replace (size array + 1 <=? idx) with false by (symmetry; apply Z.leb_gt; lia).
    replace (size array <=? idx) with false by (symmetry; apply Z.leb_gt; lia).
    cbn.
    destruct (array !! Z.to_nat idx) as [x |] eqn:Hx.
    + exists x. split; [reflexivity |].
      now rewrite (lookup_app_l_Some _ _ _ _ Hx).
    + apply lookup_ge_None in Hx. unfold size in Hin. lia.
  - intros [Hneg | Hbeyond].
    + replace (idx <? 0) with true by (symmetry; apply Z.ltb_lt; lia). reflexivity.
    + replace (size array + 1 <=? idx) with true by (symmetry; apply Z.leb_le; lia).
      now rewrite orb_true_r.
Qed.

(** The entries of a [std::map] are in ascending key order. *)
Definition keys_ascend (h : list (string * Value)) : Prop :=
  StronglySorted (fun a b => String.ltb a.1 b.1 = true) h.

Lemma hash_find_above (key : string) (h : list (string * Value)) :
  Forall (fun e => String.ltb key e.1 = true) h -> hash_find key h = None.
Proof.
  induction 1 as [| [k y] tl Hk _ IH]; simpl; [reflexivity |].
  simpl in Hk. apply ltb_not_eqb in Hk. rewrite String.eqb_sym in Hk.
  now rewrite Hk.
Qed.

Lemma hash_at_spec (key : string) (h : list (string * Value)) :
  keys_ascend h ->
  keys_ascend (hash_at key h).2 /\
  hash_find key (hash_at key h).2 = Some (hash_at key h).1 /\
  (forall other, other <> key ->
     hash_find other (hash_at key h).2 = hash_find other h) /\
  (forall low, String.ltb low key = true ->
     Forall (fun e => String.ltb low e.1 = true) h ->
     Forall (fun e => String.ltb low e.1 = true) (hash_at key h).2) /\
  match hash_find key h with
  | Some y => (hash_at key h).1 = y /\ (hash_at key h).2 = h
  | None => (hash_at key h).1 = VNil /\ size (hash_at key h).2 = size h + 1
  end.
Proof.
  induction h as [| [k y] tl IH]; intros Hsorted.
  - simpl. rewrite String.eqb_refl. repeat split.
    + repeat constructor.
    + intros other Hother. apply String.eqb_neq in Hother.
      rewrite String.eqb_sym in Hother. now rewrite Hother.
    + intros low Hlow _. now repeat constructor.
  - apply StronglySorted_inv in Hsorted as [Htl Hk].
    simpl. destruct (String.eqb k key) eqn:Ekey.
    + simpl. rewrite Ekey. repeat split; try (now constructor); auto.
    + destruct (String.ltb key k) eqn:Hlt.
      * simpl. rewrite String.eqb_refl.
        assert (Habove : Forall (fun e => String.ltb key e.1 = true) tl).
        { eapply Forall_impl; [exact Hk |]. intros e He. simpl in He.
          now apply (ltb_trans key k e.1). }
        repeat split.
        -- constructor; [now constructor | constructor; [exact Hlt | exact Habove]].
        -- intros other Hother. apply String.eqb_neq in Hother.
           rewrite String.eqb_sym in Hother. now rewrite Hother.
        -- intros low Hlow Hall. now constructor.
        -- rewrite (hash_find_above key tl Habove). split; [reflexivity |].
           unfold size. simpl. lia.
      * destruct (IH Htl) as (Hs & Hfound & Hothers & Hlow & Hcase).
        destruct (hash_at key tl) as [x tl'] eqn:Hat. simpl in *.
        rewrite Ekey. repeat split.
        -- constructor; [exact Hs |]. apply Hlow; [| exact Hk].
           now apply ltb_total.
        -- exact Hfound.
        -- intros other Hother. rewrite (Hothers other Hother). reflexivity.
        -- intros low Hlowkey Hall. apply Forall_cons in Hall as [Hhead Hall].
           constructor; [exact Hhead | now apply Hlow].
        -- destruct (hash_find key tl) as [y' |].
           ++ destruct Hcase as [-> ->]. now split.
           ++ destruct Hcase as [-> Hsize]. split; [reflexivity |].
              unfold size in *. simpl. lia.
Qed.

(** X22. Indexing a hash with a string finds the entry or makes one: on
    a hash whose entries are in key order, [operator[]] never throws,
    returns the value stored under the key and leaves the hash as it was
    when the key is present; when it is absent it returns nil and leaves
    the hash one entry larger, with nil under the key.  The entries stay
    in key order and the other keys keep their values. *)
Theorem hash_index_finds_or_inserts (hash : list (string * Value)) (key : string) :
  keys_ascend hash ->
  exists x hash',
    value_index (VString key) (VHash hash) = Ok (x, VHash hash') /\
    keys_ascend hash' /\
    hash_find key hash' = Some x /\
    (forall other, other <> key -> hash_find other hash' = hash_find other hash) /\
    match hash_find key hash with
    | Some y => x = y /\ hash' = hash
    | None => x = VNil /\ size hash' = size hash + 1
    end.
Proof.
  intros Hsorted.
  destruct (hash_at_spec key hash Hsorted) as (Hs & Hfound & Hothers & _ & Hcase).
  exists (hash_at key hash).1, (hash_at key hash).2.
  split; [| now repeat split].
  unfold value_index. cbn. now destruct (hash_at key hash).
Qed.

Lemma append_nil_r (s : string) : s +:+ "" = s.
Proof.
  induction s as [| c s IH]; [reflexivity |].
  change (String c (s +:+ "") = String c s). now rewrite IH.
Qed.

Lemma append_assoc (a b c : string) : (a +:+ b) +:+ c = a +:+ (b +:+ c).
Proof.
  induction a as [| x a IH]; [reflexivity |].
  change (String x ((a +:+ b) +:+ c) = String x (a +:+ (b +:+ c))). now rewrite IH.
Qed.

Lemma length_append (a b : string) :
  String.length (a +:+ b) = (String.length a + String.length b)%nat.
Proof.
  induction a as [| x a IH]; [reflexivity |].
  change (S (String.length (a +:+ b)) = S (String.length a + String.length b)).
  now rewrite IH.
Qed.

Lemma concat_cons (x : string) (xs : list string) :
  String.concat "" (x :: xs) = x +:+ String.concat "" xs.
Proof.
  destruct xs as [| y ys]; simpl; [| reflexivity].
  symmetry. apply append_nil_r.
Qed.

Lemma repeat_string_concat (times : nat) (str result : string) :
  repeat_string times str result = result +:+ String.concat "" (replicate times str).
Proof.
  revert result. induction times as [| n IH]; intros result.
  - simpl. symmetry. apply append_nil_r.
  - simpl repeat_string. rewrite IH. cbn [replicate]. rewrite concat_cons.
    apply append_assoc.
Qed.

(** X23. A string times a number is the string repeated: when the number
    converts to the [int] [times], [operator*] of a string and the number,
    in either order, is the string written [times] times in a row, which
    is the empty string for a count of zero or below; its length is the
    count times the length of the string. *)
Theorem string_times_number_repeats (str : string) (count : double) (times : Z) :
  d_to_int count = Some times ->
  value_mul (VString str) (VNumber count)
  = Ok (VString (String.concat "" (replicate (Z.to_nat times) str))) /\
  value_mul (VNumber count) (VString str)
  = Ok (VString (String.concat "" (replicate (Z.to_nat times) str))) /\
  ssize (String.concat "" (replicate (Z.to_nat times) str)) = Z.max 0 times * ssize str.
Proof.
  intros Htimes.
  assert (Hrepetition : repetition str count
                        = Ok (VString (String.concat "" (replicate (Z.to_nat times) str)))).
  { unfold repetition. rewrite Htimes. now rewrite repeat_string_concat. }
  split; [exact Hrepetition | split; [exact Hrepetition |]].
  unfold ssize.
  assert (Hlength : forall n : nat,
            String.length (String.concat "" (replicate n str)) = (n * String.length str)%nat).
  { induction n as [| n IH]; [reflexivity |].
    cbn [replicate]. rewrite concat_cons.
    rewrite length_append, IH. lia. }
  rewrite Hlength. lia.
Qed.

End ValueContainers.

(** ** value.h: [operator==] as an equivalence *)

Lemma Value_children_ind {num : Type} (P : Value_ num -> Prop) :
  (forall d, P (VNumber d)) -> (forall s, P (VString s)) -> (forall b, P (VBoolean b)) ->
  P VNil ->
  (forall array, Forall P array -> P (VArray array)) ->
  (forall hash, Forall (fun e => P e.2) hash -> P (VHash hash)) ->
  forall v, P v.
Proof.
  intros Hnumber Hstring Hboolean Hnil Harray Hhash. fix IH 1. intros [d | s | b | | array | hash].
  - apply Hnumber.
  - apply Hstring.
  - apply Hboolean.
  - apply Hnil.
  - apply Harray. induction array as [| x rest IHrest]; constructor; [apply IH | exact IHrest].
  - apply Hhash. induction hash as [| [k x] rest IHrest]; constructor;
      [apply IH | exact IHrest].
Qed.

Section ValueEquality.
Context {H : Host} {HL : HostLaws H}.

(** The values [operator==] is an equivalence on: no number is a NaN, and
    the entries of every hash are in key order, as a [std::map] has
    them. *)
Inductive comparable : Value -> Prop :=
| comparable_number d : d_isnan d = false -> comparable (VNumber d)
| comparable_string s : comparable (VString s)
| comparable_boolean b : comparable (VBoolean b)
| comparable_nil : comparable VNil
| comparable_array array : Forall comparable array -> comparable (VArray array)
| comparable_hash hash :
    keys_ascend hash -> Forall (fun e => comparable e.2) hash -> comparable (VHash hash).

Lemma comparable_number_inv (d : double) : comparable (VNumber d) -> d_isnan d = false.
Proof. now inversion 1. Qed.

Lemma comparable_array_inv (array : list Value) :
  comparable (VArray array) -> Forall comparable array.
Proof. now inversion 1. Qed.

Lemma comparable_hash_inv (hash : list (string * Value)) :
  comparable (VHash hash) -> keys_ascend hash /\ Forall (fun e => comparable e.2) hash.
Proof. now inversion 1. Qed.

Lemma value_eq_array (arr1 arr2 : list Value) :
  value_eq (VArray arr1) (VArray arr2) = true <->
  Forall2 (fun x y => value_eq x y = true) arr1 arr2.
Proof.
  cbn [value_eq getType Type_eqb negb].
  destruct (Nat.eqb (List.length arr1) (List.length arr2)) eqn:Hlength; cbn [negb].
  - apply Nat.eqb_eq in Hlength. revert arr2 Hlength.
    induction arr1 as [| x t1 IH]; intros [| y t2] Hlength; try discriminate.
    + split; [constructor | reflexivity].
    + simpl in Hlength. destruct (value_eq x y) eqn:Hxy; cbn [negb].
      * rewrite (IH t2) by lia. split.
        -- intros Hrest. now constructor.
        -- intros Hall. now apply Forall2_cons in Hall as [_ Hall].
      * split; [discriminate |]. intros Hall.
        apply Forall2_cons in Hall as [Hhead _]. congruence.
  - apply Nat.eqb_neq in Hlength. split; [discriminate |].
    intros Hall. apply Forall2_length in Hall. congruence.
Qed.

Lemma value_eq_hash (hash1 hash2 : list (string * Value)) :
  value_eq (VHash hash1) (VHash hash2) = true <->
  List.length hash1 = List.length hash2 /\
  Forall (fun e => exists y, hash_find e.1 hash2 = Some y /\ value_eq e.2 y = true) hash1.
Proof.
  cbn [value_eq getType Type_eqb negb].
  destruct (Nat.eqb (List.length hash1) (List.length hash2)) eqn:Hlength; cbn [negb].
  - apply Nat.eqb_eq in Hlength. split.
    + intros Heach. split; [exact Hlength |]. clear Hlength.
      induction hash1 as [| [k x] t1 IH]; [constructor |].
      destruct (hash_find k hash2) as [y |] eqn:Hfind; [| discriminate].
      destruct (value_eq x y) eqn:Hxy; [| discriminate]. cbn [negb] in Heach.
      constructor; [| now apply IH]. exists y. now split.
    + intros [_ Hall]. clear Hlength.
      induction hash1 as [| [k x] t1 IH]; [reflexivity |].
      apply Forall_cons in Hall as [(y & Hfind & Hxy) Hall]. simpl in Hfind, Hxy.
      rewrite Hfind, Hxy. cbn [negb]. now apply IH.
  - apply Nat.eqb_neq in Hlength. split; [discriminate |]. now intros [Hsame _].
Qed.

Lemma hash_find_elem (key : string) (y : Value) (h : list (string * Value)) :
  hash_find key h = Some y -> (key, y) ∈ h.
Proof.
  induction h as [| [k x] tl IH]; simpl; [discriminate |].
  destruct (String.eqb k key) eqn:Ekey.
  - apply String.eqb_eq in Ekey. intros [= ->]. subst. apply list_elem_of_here.
  - intros Hfind. apply list_elem_of_further. now apply IH.
Qed.

Lemma elem_hash_find (key : string) (y : Value) (h : list (string * Value)) :
  keys_ascend h -> (key, y) ∈ h -> hash_find key h = Some y.
Proof.
  induction h as [| [k x] tl IH]; intros Hsorted Hin.
  - now apply elem_of_nil in Hin.
  - apply StronglySorted_inv in Hsorted as [Htl Hk].
    apply elem_of_cons in Hin as [[= -> ->] | Hin]; simpl.
    + now rewrite String.eqb_refl.
    + rewrite Forall_forall in Hk. pose proof (Hk _ Hin) as Hlt. simpl in Hlt.
      rewrite (ltb_not_eqb _ _ Hlt). now apply IH.
Qed.

Lemma keys_ascend_NoDup (h : list (string * Value)) :
  keys_ascend h -> List.NoDup (List.map fst h).
Proof.
  induction h as [| [k x] tl IH]; intros Hsorted; [constructor |].
  apply StronglySorted_inv in Hsorted as [Htl Hk]. simpl. constructor; [| now apply IH].
  intros Hin. apply in_map_iff in Hin as ([k' x'] & Heq & Hin). simpl in Heq. subst k'.
  rewrite Forall_forall in Hk. apply list_elem_of_In in Hin.
  pose proof (Hk _ Hin) as Hlt. simpl in Hlt.
  apply ltb_not_eqb in Hlt. now rewrite String.eqb_refl in Hlt.
Qed.

(** Two maps of one size, every key of the first found in the second:
    every key of the second is a key of the first. *)
Lemma same_keys (hash1 hash2 : list (string * Value)) (key : string) (y : Value) :
  keys_ascend hash1 ->
  List.length hash1 = List.length hash2 ->
  Forall (fun e => exists y, hash_find e.1 hash2 = Some y /\ value_eq e.2 y = true) hash1 ->
  (key, y) ∈ hash2 ->
  exists x, (key, x) ∈ hash1.
Proof.
  intros Hsorted Hlength Hall Hin.
  assert (Hincl : incl (List.map fst hash2) (List.map fst hash1)).
  { apply NoDup_length_incl.
    - now apply keys_ascend_NoDup.
    - rewrite !length_map. lia.
    - intros k Hk. apply in_map_iff in Hk as ([k' x] & Heq & Hk). simpl in Heq. subst k'.
      rewrite Forall_forall in Hall. apply list_elem_of_In in Hk.
      destruct (Hall _ Hk) as (y' & Hfind & _). simpl in Hfind.
      apply hash_find_elem, list_elem_of_In in Hfind.
      apply in_map_iff. now exists (k, y'). }
  assert (Hkey : In key (List.map fst hash1)).
  { apply Hincl, in_map_iff. exists (key, y). split; [reflexivity |].
    now apply list_elem_of_In. }
  apply in_map_iff in Hkey as ([k x] & Heq & Hkey). simpl in Heq. subst k.
  exists x. now apply list_elem_of_In.
Qed.

Lemma d_eqb_refl (d : double) : d_isnan d = false -> d_eqb d d = true.
Proof. intros Hd. now rewrite d_eqb_ltb, d_ltb_irrefl by exact Hd. Qed.

Lemma d_eqb_sym (a b : double) :
  d_isnan a = false -> d_isnan b = false -> d_eqb a b = d_eqb b a.
Proof. intros Ha Hb. rewrite !d_eqb_ltb by assumption. apply andb_comm. Qed.

Lemma d_eqb_trans (a b c : double) :
  d_isnan a = false -> d_isnan b = false -> d_isnan c = false ->
  d_eqb a b = true -> d_eqb b c = true -> d_eqb a c = true.
Proof.
  intros Ha Hb Hc. rewrite !d_eqb_ltb by assumption.
  rewrite !andb_true_iff, !negb_true_iff. intros [Hab Hba] [Hbc Hcb]. split.
  - now apply (d_geb_trans a b c).
  - now apply (d_geb_trans c b a).
Qed.

Lemma value_eq_same_type (a b : Value) : value_eq a b = true -> getType a = getType b.
Proof. destruct a, b; simpl; try discriminate; reflexivity. Qed.

Lemma value_eq_refl (a : Value) : comparable a -> value_eq a a = true.
Proof.
  induction a as [d | s | b | | array IH | hash IH] using Value_children_ind; intros Ha.
  - apply comparable_number_inv in Ha. simpl. now apply d_eqb_refl.
  - simpl. apply String.eqb_refl.
  - simpl. now destruct b.
  - reflexivity.
  - apply comparable_array_inv in Ha. apply value_eq_array.
    induction array as [| x rest IHrest]; [constructor |].
    apply Forall_cons in IH as [IHx IH]. apply Forall_cons in Ha as [Hx Ha].
    constructor; [now apply IHx | now apply IHrest].
  - apply comparable_hash_inv in Ha as [Hsorted Ha]. apply value_eq_hash.
    split; [reflexivity |].
    rewrite Forall_forall in IH, Ha |- *. intros [k x] Hin. exists x. simpl. split.
    + now apply elem_hash_find.
    + apply (IH _ Hin), (Ha _ Hin).
Qed.

Lemma value_eq_sym (a b : Value) :
  comparable a -> comparable b -> value_eq a b = true -> value_eq b a = true.
Proof.
  revert b.
  induction a as [d | s | x | | array IH | hash IH] using Value_children_ind;
    intros b Ha Hb Hab; pose proof (value_eq_same_type _ _ Hab) as Htype;
    destruct b as [d' | s' | x' | | array' | hash']; try discriminate Htype.
  - apply comparable_number_inv in Ha, Hb. simpl in *. now rewrite d_eqb_sym.
  - simpl in *. now rewrite String.eqb_sym.
  - simpl in *. now destruct x, x'.
  - reflexivity.
  - apply comparable_array_inv in Ha, Hb.
    apply value_eq_array. apply value_eq_array in Hab.
    clear Htype. revert array' Hab Hb.
    induction array as [| x t1 IHt]; intros array' Hab Hb.
    + apply Forall2_nil_inv_l in Hab as ->. constructor.
    + apply Forall2_cons_inv_l in Hab as (y & t2 & Hxy & Hrest & ->).
      apply Forall_cons in IH as [IHx IHrest]. apply Forall_cons in Ha as [Hx Ht1].
      apply Forall_cons in Hb as [Hy Ht2].
      constructor; [now apply IHx | now apply IHt].
  - apply comparable_hash_inv in Ha as [Hsorted Ha].
    apply comparable_hash_inv in Hb as [Hsorted' Hb].
    apply value_eq_hash. apply value_eq_hash in Hab as [Hlength Hall].
    split; [now symmetry |].
    apply Forall_forall. intros [k y] Hin. simpl.
    destruct (same_keys hash hash' k y Hsorted Hlength Hall Hin) as [x Hx].
    exists x. split; [now apply elem_hash_find |].
    rewrite Forall_forall in Hall, IH, Ha, Hb.
    destruct (Hall _ Hx) as (y' & Hfind & Hxy). simpl in Hfind, Hxy.
    rewrite (elem_hash_find k y hash' Hsorted' Hin) in Hfind. injection Hfind as <-.
    apply (IH _ Hx); [apply (Ha _ Hx) | apply (Hb _ Hin) | exact Hxy].
Qed.

Lemma value_eq_trans (a b c : Value) :
  comparable a -> comparable b -> comparable c ->
  value_eq a b = true -> value_eq b c = true -> value_eq a c = true.
Proof.
  revert b c.
  induction a as [d | s | x | | array IH | hash IH] using Value_children_ind;
    intros b c Ha Hb Hc Hab Hbc;
    pose proof (value_eq_same_type _ _ Hab) as Htype;
    pose proof (value_eq_same_type _ _ Hbc) as Htype';
    destruct b as [d' | s' | x' | | array' | hash']; try discriminate Htype;
    destruct c as [d'' | s'' | x'' | | array'' | hash'']; try discriminate Htype'.
  - apply comparable_number_inv in Ha, Hb, Hc. simpl in *.
    now apply (d_eqb_trans d d' d'').
  - simpl in *. apply String.eqb_eq in Hab, Hbc. subst. apply String.eqb_refl.
  - simpl in *. now destruct x, x', x''.
  - reflexivity.
  - apply comparable_array_inv in Ha, Hb, Hc.
    apply value_eq_array. apply value_eq_array in Hab, Hbc.
    clear Htype Htype'. revert array' array'' Hab Hbc Hb Hc.
    induction array as [| x t1 IHt]; intros array' array'' Hab Hbc Hb Hc.
    + apply Forall2_nil_inv_l in Hab as ->. apply Forall2_nil_inv_l in Hbc as ->.
      constructor.
    + apply Forall2_cons_inv_l in Hab as (y & t2 & Hxy & Hrest & ->).
      apply Forall2_cons_inv_l in Hbc as (z & t3 & Hyz & Hrest' & ->).
      apply Forall_cons in IH as [IHx IHrest]. apply Forall_cons in Ha as [Hx Ht1].
      apply Forall_cons in Hb as [Hy Ht2]. apply Forall_cons in Hc as [Hz Ht3].
      constructor; [now apply (IHx y z) | now apply (IHt IHrest Ht1 t2 t3)].
  - apply comparable_hash_inv in Ha as [Hsorted Ha].
    apply comparable_hash_inv in Hb as [Hsorted' Hb].
    apply comparable_hash_inv in Hc as [Hsorted'' Hc].
    apply value_eq_hash. apply value_eq_hash in Hab as [Hlength Hall].
    apply value_eq_hash in Hbc as [Hlength' Hall'].
    split; [congruence |].
    apply Forall_forall. intros [k x] Hin. simpl.
    rewrite Forall_forall in Hall, Hall', IH, Ha, Hb, Hc.
    destruct (Hall _ Hin) as (y & Hfind & Hxy). simpl in Hfind, Hxy.
    pose proof (hash_find_elem _ _ _ Hfind) as Hy.
    destruct (Hall' _ Hy) as (z & Hfind' & Hyz). simpl in Hfind', Hyz.
    exists z. split; [exact Hfind' |].
    apply (IH _ Hin y z); try assumption.
    + apply (Ha _ Hin).
    + apply (Hb _ Hy).
    + apply (Hc _ (hash_find_elem _ _ _ Hfind')).
Qed.

(** X24. On values without a NaN, whose hashes have their entries in key
    order, [operator==] is an equivalence: every value equals itself,
    [a == b] and [b == a] agree, and values equal to a third are equal;
    the arrays and hashes inside are compared element by element and key
    by key at every depth. *)
Theorem value_eq_is_an_equivalence (a b c : Value) :
  comparable a -> comparable b -> comparable c ->
  value_eq a a = true /\
  value_eq a b = value_eq b a /\
  (value_eq a b = true -> value_eq b c = true -> value_eq a c = true).
Proof.
  intros Ha Hb Hc. split; [now apply value_eq_refl | split].
  - destruct (value_eq a b) eqn:Hab.
    + symmetry. now apply value_eq_sym.
    + destruct (value_eq b a) eqn:Hba; [| reflexivity].
      apply value_eq_sym in Hba; [congruence | assumption | assumption].
  - now apply value_eq_trans.
Qed.

End ValueEquality.

#[local] Existing Instance Binary64Conversions.conversions.

(** The array [["a"]], the item "b" and the index 1.0. *)
Definition letters : list (Value_ Binary64.binary64) := [VString "a"].

Lemma pushed_item_is_indexed_witness :
  size letters < INT_MAX /\
  d_to_int (toNumber (VNumber (Binary64.of_Z 1))) = Some 1 /\
  value_index (VNumber (Binary64.of_Z 1)) (VArray (letters ++ [VString "b"]))
  = Ok (VString "b", VArray [VString "a"; VString "b"]).
Proof.
  split; [reflexivity |]. split; [reflexivity |].
  destruct (pushed_item_is_indexed (C := Binary64Conversions.conversions) letters
              (VString "b") (VNumber (Binary64.of_Z 1)) 1 eq_refl eq_refl)
    as (_ & Hlast & _).
  exact (Hlast eq_refl).
Defined.

(** The hash [{"a": 1, "c": nil}]. *)
Definition two_entries : list (string * Value_ Binary64.binary64) :=
  [("a", VNumber (Binary64.of_Z 1)); ("c", VNil)].

Lemma two_entries_ascend : keys_ascend two_entries.
Proof. repeat constructor. Qed.

Lemma hash_index_finds_or_inserts_witness :
  keys_ascend two_entries /\
  exists x hash',
    value_index (VString "b") (VHash two_entries) = Ok (x, VHash hash') /\
    keys_ascend hash' /\
    hash_find "b" hash' = Some x /\
    (forall other, other <> "b" -> hash_find other hash' = hash_find other two_entries) /\
    x = VNil /\ size hash' = 3.
Proof.
  split; [exact two_entries_ascend |].
  exact (hash_index_finds_or_inserts (C := Binary64Conversions.conversions) two_entries "b"
           two_entries_ascend).
Defined.

Lemma string_times_number_repeats_witness :
  d_to_int (Binary64.of_Z 3) = Some 3 /\
  value_mul (VString "ab") (VNumber (Binary64.of_Z 3)) = Ok (VString "ababab") /\
  value_mul (VNumber (Binary64.of_Z 3)) (VString "ab") = Ok (VString "ababab") /\
  ssize "ababab" = 6.
Proof.
  split; [reflexivity |].
  exact (string_times_number_repeats (C := Binary64Conversions.conversions) "ab"
           (Binary64.of_Z 3) 3 eq_refl).
Defined.

(** The array [[1, {"a": 1, "c": nil}]]. *)
Definition nested_value : Value_ Binary64.binary64 :=
  VArray [VNumber (Binary64.of_Z 1); VHash two_entries].

Lemma nested_value_comparable : comparable nested_value.
Proof.
  apply (comparable_array (H := Binary64.host)).
  constructor; [now apply (comparable_number (H := Binary64.host)) |].
  constructor; [| constructor].
  apply (comparable_hash (H := Binary64.host)); [exact two_entries_ascend |].
  constructor; [now apply (comparable_number (H := Binary64.host)) |].
  constructor; [apply (comparable_nil (H := Binary64.host)) | constructor].
Qed.

Lemma value_eq_is_an_equivalence_witness :
  comparable nested_value /\
  value_eq nested_value nested_value = true.
Proof.
  split; [exact nested_value_comparable |].
  exact (proj1 (value_eq_is_an_equivalence (HL := binary64_laws) nested_value nested_value
                  nested_value nested_value_comparable nested_value_comparable
                  nested_value_comparable)).
Defined.

(** ** The parser and statements without a keyword *)

Section ParserFacts.
Import Parser.

Lemma bind_current {A : Type} (k : Token -> Step Parser A) (p : Parser) :
  (tok ← Parser.current; k tok) p = k (currentToken p) p.
Proof. reflexivity. Qed.

Lemma bind_ok {S A B : Type} (m : Step S A) (k : A -> Step S B) (s s' : S) (a : A) :
  m s = Some (Ok (a, s')) -> (x ← m; k x) s = k a s'.
Proof.
  intros Hm. unfold mbind, step_mbind, step_bind. now rewrite Hm.
Qed.

(** [statement] consumes a keyword or nothing. *)
Lemma statement_without_keyword (fuel : nat) (p : Parser) :
  has_type TOKEN_KEYWORD (currentToken p) = false ->
  statement (S fuel) p = Some (Ok (mkNode NODE_STATEMENT "" [], p)).
Proof.
  intros Hkeyword. cbn [statement]. rewrite bind_current. unfold is_token.
  rewrite Hkeyword. reflexivity.
Qed.

(** X25. A statement that does not begin with a keyword is never
    parsed: [statement] returns an empty statement node for it and
    consumes nothing, so the loops that call it until the end of the
    input or a closing brace go round for ever.  When the current token
    is an identifier, a number, a string or a punctuation mark, [parse]
    yields no result whatever fuel it is given, and neither does the loop
    over the body of a block unless the token is the closing brace. *)
Theorem parse_loops_on_statement_without_keyword (p : Parser) :
  token_type (currentToken p) ∈
    [TOKEN_IDENTIFIER; TOKEN_NUMBER; TOKEN_STRING; TOKEN_PUNCTUATION] ->
  (forall fuel, parse fuel p = None) /\
  (is_token TOKEN_PUNCTUATION "}" (currentToken p) = false ->
   forall fuel children, statements fuel children p = None).
Proof.
  intros Htype.
  assert (Hflags : has_type TOKEN_EOF (currentToken p) = false /\
                   has_type TOKEN_KEYWORD (currentToken p) = false /\
                   has_type TOKEN_DIRECTIVE (currentToken p) = false).
  { unfold has_type. repeat (apply elem_of_cons in Htype as [-> | Htype]);
      [now repeat split .. | now apply elem_of_nil in Htype]. }
  destruct Hflags as (Heof & Hkeyword & Hdirective). split.
  - intros fuel. unfold parse, program. generalize (@nil ASTNode).
    induction fuel as [| fuel IH]; intros children; [reflexivity |].
    cbn [program_loop]. rewrite bind_current, Heof, Hdirective. cbn [negb].
    destruct fuel as [| fuel]; [reflexivity |].
    rewrite (bind_ok _ _ _ _ _ (statement_without_keyword fuel p Hkeyword)). apply IH.
  - intros Hbrace fuel.
    induction fuel as [| fuel IH]; intros children; [reflexivity |].
    cbn [statements]. rewrite bind_current, Heof, Hbrace. cbn [negb andb].
    destruct fuel as [| fuel]; [reflexivity |].
    rewrite (bind_ok _ _ _ _ _ (statement_without_keyword fuel p Hkeyword)). apply IH.
Qed.

End ParserFacts.

(** The parser at the beginning of [x = 1 + 2 * 3;], and of [;]. *)
Definition assignment_text : string := "x = 1 + 2 * 3;".

Definition at_assignment : Parser.Parser :=
  Parser.mkParser (Lexer.mkLexer assignment_text 1 1 2) (mkToken TOKEN_IDENTIFIER "x" 1 2).

Lemma parse_loops_on_statement_without_keyword_witness :
  Parser.new 20 (Lexer.new assignment_text) = Some (Ok at_assignment) /\
  token_type (Parser.currentToken at_assignment) ∈
    [TOKEN_IDENTIFIER; TOKEN_NUMBER; TOKEN_STRING; TOKEN_PUNCTUATION] /\
  Parser.parse 1000 at_assignment = None.
Proof.
  split; [reflexivity |].
  assert (Htype : token_type (Parser.currentToken at_assignment) ∈
                    [TOKEN_IDENTIFIER; TOKEN_NUMBER; TOKEN_STRING; TOKEN_PUNCTUATION]).
  { apply list_elem_of_here. }
  split; [exact Htype |].
  exact (proj1 (parse_loops_on_statement_without_keyword at_assignment Htype) 1000%nat).
Defined.

(** ** What the interpreter does with a parsed program *)

Lemma bind_inv {S A B : Type} (m : Step S A) (k : A -> Step S B) (s : S) (r : B * S) :
  (x ← m; k x) s = Some (Ok r) ->
  exists a s', m s = Some (Ok (a, s')) /\ k a s' = Some (Ok r).
Proof.
  unfold mbind, step_mbind, step_bind.
  destruct (m s) as [[[a s'] | what |] |]; try discriminate.
  intros Hk. now exists a, s'.
Qed.

Lemma ret_inv {S A : Type} (a : A) (s : S) (r : A * S) :
  mret (M := Step S) a s = Some (Ok r) -> r = (a, s).
Proof. intros [= <-]. reflexivity. Qed.

(** Takes a successful run of a parser function apart, up to the node it
    returns. *)
Ltac parsed H :=
  repeat first
    [ rewrite bind_current in H
    | apply ret_inv in H
    | let a := fresh "a" in let s := fresh "p" in let Ha := fresh "Hstep" in
      apply bind_inv in H as (a & s & Ha & H)
    | match type of H with
      | (if ?c then _ else _) _ = _ => destruct c eqn:?
      end ].

Section ParsedPrograms.
Context {H : Host}.
Import Parser.

(** The nodes [statement] returns: a statement node, whose first child
    is a call when it is a [use] statement, or an [if], [while], [for],
    [break] or [continue] node. *)
Definition statement_shaped (node : ASTNode) : Prop :=
  match node with
  | mkNode NODE_STATEMENT value (child :: _) =>
      value = "use" -> node_type child = NODE_CALL
  | mkNode NODE_STATEMENT _ [] => True
  | mkNode NODE_IF_STATEMENT _ _ | mkNode NODE_WHILE_STATEMENT _ _
  | mkNode NODE_FOR_STATEMENT _ _ | mkNode NODE_BREAK_STATEMENT _ _
  | mkNode NODE_CONTINUE_STATEMENT _ _ => True
  | _ => False
  end.

Lemma call_node (fuel : nat) (p p' : Parser) (node : ASTNode) :
  call fuel p = Some (Ok (node, p')) -> node_type node = NODE_CALL.
Proof.
  intros Hcall. unfold call in Hcall. parsed Hcall; now injection Hcall as -> ->.
Qed.

Lemma parseIfStatement_node (fuel : nat) (p p' : Parser) (node : ASTNode) :
  parseIfStatement fuel p = Some (Ok (node, p')) -> node_type node = NODE_IF_STATEMENT.
Proof.
  destruct fuel as [| fuel]; [discriminate |]. cbn [parseIfStatement]. intros Hif.
  parsed Hif; now injection Hif as -> ->.
Qed.

Lemma parseWhileStatement_node (fuel : nat) (p p' : Parser) (node : ASTNode) :
  parseWhileStatement fuel p = Some (Ok (node, p')) ->
  node_type node = NODE_WHILE_STATEMENT.
Proof.
  destruct fuel as [| fuel]; [discriminate |]. cbn [parseWhileStatement]. intros Hwhile.
  parsed Hwhile; now injection Hwhile as -> ->.
Qed.

Lemma parseForStatement_node (fuel : nat) (p p' : Parser) (node : ASTNode) :
  parseForStatement fuel p = Some (Ok (node, p')) -> node_type node = NODE_FOR_STATEMENT.
Proof.
  destruct fuel as [| fuel]; [discriminate |]. cbn [parseForStatement]. intros Hfor.
  apply bind_inv in Hfor as (a & p1 & _ & Hfor). rewrite bind_current in Hfor.
  apply bind_inv in Hfor as (header & p2 & _ & Hfor).
  parsed Hfor. now injection Hfor as -> ->.
Qed.

Lemma statement_node (fuel : nat) (p p' : Parser) (node : ASTNode) :
  statement fuel p = Some (Ok (node, p')) -> statement_shaped node.
Proof.
  destruct fuel as [| fuel]; [discriminate |]. cbn [statement]. intros Hstatement.
  rewrite bind_current in Hstatement.
  destruct (is_token TOKEN_KEYWORD "if" (currentToken p)).
  { apply parseIfStatement_node in Hstatement. now destruct node as [[] ? ?]. }
  destruct (is_token TOKEN_KEYWORD "while" (currentToken p)).
  { apply parseWhileStatement_node in Hstatement. now destruct node as [[] ? ?]. }
  destruct (is_token TOKEN_KEYWORD "for" (currentToken p)).
  { apply parseForStatement_node in Hstatement. now destruct node as [[] ? ?]. }
  destruct (is_token TOKEN_KEYWORD "break" (currentToken p)).
  { unfold parseBreakStatement in Hstatement. parsed Hstatement.
    now injection Hstatement as -> ->. }
  destruct (is_token TOKEN_KEYWORD "continue" (currentToken p)).
  { unfold parseContinueStatement in Hstatement. parsed Hstatement.
    now injection Hstatement as -> ->. }
  destruct (has_type TOKEN_KEYWORD (currentToken p)).
  - apply bind_inv in Hstatement as (a & p1 & _ & Hstatement).
    destruct (String.eqb (token_value (currentToken p)) "use") eqn:Huse.
    + apply bind_inv in Hstatement as (child & p2 & Hcall & Hstatement).
      apply ret_inv in Hstatement. injection Hstatement as -> ->.
      intros _. now apply call_node in Hcall.
    + apply String.eqb_neq in Huse.
      parsed Hstatement; injection Hstatement as -> ->;
        match goal with
        | |- statement_shaped (mkNode _ _ ?children) => now destruct children
        end.
  - apply ret_inv in Hstatement. now injection Hstatement as -> ->.
Qed.

Lemma directive_node (fuel : nat) (p p' : Parser) (node : ASTNode) :
  directive fuel p = Some (Ok (node, p')) -> node_type node = NODE_DIRECTIVE.
Proof.
  intros Hdirective. unfold directive in Hdirective. parsed Hdirective.
  now injection Hdirective as -> ->.
Qed.

Lemma program_loop_nodes (fuel : nat) (children : list ASTNode) (p p' : Parser)
  (node : ASTNode) :
  Forall (fun n => node_type n = NODE_DIRECTIVE \/ statement_shaped n) children ->
  program_loop fuel children p = Some (Ok (node, p')) ->
  exists children',
    node = mkNode NODE_PROGRAM "" children' /\
    Forall (fun n => node_type n = NODE_DIRECTIVE \/ statement_shaped n) children'.
Proof.
  revert children p. induction fuel as [| fuel IH]; intros children p Hchildren Hloop;
    [discriminate |].
  cbn [program_loop] in Hloop. rewrite bind_current in Hloop.
  destruct (has_type TOKEN_EOF (currentToken p)); cbn [negb] in Hloop.
  - apply ret_inv in Hloop. injection Hloop as -> ->. now exists children.
  - apply bind_inv in Hloop as (child & p1 & Hchild & Hloop).
    apply IH in Hloop; [exact Hloop |].
    apply Forall_app. split; [exact Hchildren |]. constructor; [| constructor].
    destruct (has_type TOKEN_DIRECTIVE (currentToken p)).
    + left. now apply directive_node in Hchild.
    + right. now apply statement_node in Hchild.
Qed.

Import TreeWalker.

Lemma interpret_keeps_variables (fuel : nat) (node : ASTNode) (st st' : Interpreter) :
  node_type node = NODE_DIRECTIVE \/ statement_shaped node ->
  boolean_free_variables st ->
  interpret fuel node st = Some (Ok st') ->
  i_variables st' = i_variables st.
Proof.
  intros Hshape Hfree Hrun.
  destruct (interpret_completed fuel node st st' Hfree Hrun) as [_ Htests].
  destruct fuel as [| fuel]; [discriminate |].
  destruct node as [type value children].
  destruct Hshape as [Htype | Hshape]; [simpl in Htype; subst type |].
  { cbn in Hrun. now injection Hrun as <-. }
  destruct type; try contradiction; cbn [interpret] in Hrun; try discriminate Hrun.
  - destruct (String.eqb value "use") eqn:Huse; [| now injection Hrun as <-].
    apply String.eqb_eq in Huse.
    destruct children as [| child rest]; [now injection Hrun as <- |].
    simpl in Hshape. specialize (Hshape Huse).
    destruct fuel as [| fuel]; [discriminate |].
    destruct child as [type' name arguments]. simpl in Hshape. subst type'.
    cbn [interpret] in Hrun. unfold lift in Hrun.
    destruct (evaluateArguments (i_variables st) arguments) as [args | |];
      try discriminate.
    destruct (initBaselib !! name) as [function |].
    + destruct (function args (i_console st)); try discriminate.
      now injection Hrun as <-.
    + now injection Hrun as <-.
  - destruct children; [now injection Hrun as <- | discriminate].
  - destruct children as [| ? [| ? ?]]; try discriminate; now injection Hrun as <-.
  - destruct children as [| ? [| ? [| ? [| ? ?]]]]; try discriminate;
      now injection Hrun as <-.
Qed.

Lemma interpretAll_keeps_variables (fuel : nat) (children : list ASTNode)
  (st st' : Interpreter) :
  Forall (fun n => node_type n = NODE_DIRECTIVE \/ statement_shaped n) children ->
  boolean_free_variables st ->
  interpretAll (interpret fuel) children st = Some (Ok st') ->
  i_variables st' = i_variables st.
Proof.
  revert st. induction children as [| child rest IH]; intros st Hshape Hfree Hrun.
  - cbn in Hrun. now injection Hrun as <-.
  - apply Forall_cons in Hshape as [Hchild Hrest]. cbn [interpretAll] in Hrun.
    unfold andThen in Hrun.
    destruct (interpret fuel child st) as [[st1 | |] |] eqn:Hfirst; try discriminate.
    rewrite (IH st1 Hrest (proj1 (interpret_completed _ _ _ _ Hfree Hfirst)) Hrun).
    now apply (interpret_keeps_variables fuel child).
Qed.

(** X26. The interpreter never assigns a variable when it executes
    source text: whatever the text, when [execute] ends normally on an
    interpreter whose variables hold no boolean, the variables are as
    they were.  (An assignment is parsed only as an expression, where the
    interpreter does not interpret it, and a statement that begins with
    an identifier is never parsed.) *)
Theorem execute_assigns_no_variable (fuel : nat) (code : string) (st st' : Interpreter) :
  boolean_free_variables st ->
  Toolchain.execute fuel code st = Some (Ok st') ->
  i_variables st' = i_variables st.
Proof.
  intros Hfree Hrun. unfold Toolchain.execute, Toolchain.parse in Hrun.
  destruct (Parser.new fuel (Lexer.new code)) as [[p | |] |]; try discriminate.
  destruct (Parser.parse fuel p) as [[[ast p'] | |] |] eqn:Hparse; try discriminate.
  unfold Parser.parse, program in Hparse.
  apply program_loop_nodes in Hparse as (children & -> & Hshape); [| constructor].
  destruct fuel as [| fuel]; [discriminate |]. cbn [interpret] in Hrun.
  now apply (interpretAll_keeps_variables fuel children).
Qed.

(** X27. The interpreter computes no arithmetic from source text: the
    tree [expression] returns for an expression that begins with a number
    or a parenthesis is wrapped in an expression node, for which
    [evaluateExpression] has no case, so its value is nil; a string
    literal evaluates to its text, an identifier to its variable (nil
    when it has none) and an assignment to nil. *)
Theorem parsed_expression_is_not_computed (fuel : nat) (p p' : Parser) (node : ASTNode)
  (variables : gmap string Value) :
  expression fuel p = Some (Ok (node, p')) ->
  match token_type (currentToken p) with
  | TOKEN_STRING =>
      evaluateExpression variables node = Ok (VString (token_value (currentToken p)))
  | TOKEN_IDENTIFIER =>
      (node_type node = NODE_IDENTIFIER /\
       evaluateExpression variables node
       = Ok (default VNil (variables !! token_value (currentToken p)))) \/
      (node_type node = NODE_ASSIGN /\ evaluateExpression variables node = Ok VNil)
  | _ => evaluateExpression variables node = Ok VNil
  end.
Proof.
  intros Hexpression. unfold expression in Hexpression.
  rewrite bind_current in Hexpression. unfold has_type, is_token, has_type in Hexpression.
  destruct (token_type (currentToken p)) eqn:Htype; cbn in Hexpression;
    try discriminate Hexpression.
  - parsed Hexpression; injection Hexpression as -> ->.
    + right. now split.
    + left. split; [reflexivity |]. cbn.
      now destruct (variables !! token_value (currentToken p)).
  - parsed Hexpression. now injection Hexpression as -> ->.
  - parsed Hexpression. now injection Hexpression as -> ->.
  - destruct (String.eqb (token_value (currentToken p)) "("); [| discriminate].
    parsed Hexpression. now injection Hexpression as -> ->.
Qed.

End ParsedPrograms.

(** The text [use System.Output.Print "hi"] and the interpreter after it. *)
Definition greeting : string :=
  "use System.Output.Print " +:+ String Lexer.quote ("hi" +:+ String Lexer.quote "").

Definition greeted : Interpreter :=
  mkInterpreter ∅ (mkConsole ("hi" +:+ endl) "" Binary64.quiet).

Lemma execute_assigns_no_variable_witness :
  boolean_free_variables (TreeWalker.start Binary64.quiet) /\
  Toolchain.execute 100 greeting (TreeWalker.start Binary64.quiet) = Some (Ok greeted) /\
  i_variables greeted = i_variables (TreeWalker.start Binary64.quiet).
Proof.
  assert (Hfree : boolean_free_variables (TreeWalker.start Binary64.quiet)).
  { apply map_Forall_empty. }
  assert (Hrun : Toolchain.execute 100 greeting (TreeWalker.start Binary64.quiet)
                 = Some (Ok greeted)) by (vm_compute; reflexivity).
  split; [exact Hfree |]. split; [exact Hrun |].
  exact (execute_assigns_no_variable 100 greeting _ greeted Hfree Hrun).
Defined.

(** The parser at the beginning of [(1 + 2)] and behind it. *)
Definition at_sum : Parser.Parser :=
  Parser.mkParser (Lexer.mkLexer "(1 + 2)" 1 1 2) (mkToken TOKEN_PUNCTUATION "(" 1 2).

Definition behind_sum : Parser.Parser :=
  Parser.mkParser (Lexer.mkLexer "(1 + 2)" 7 1 8) (mkToken TOKEN_EOF "" 1 8).

Definition sum_expression : ASTNode :=
  mkNode NODE_EXPRESSION ""
    [mkNode NODE_OPERATOR "+"
       [mkNode NODE_NUMBER_LITERAL "1" []; mkNode NODE_NUMBER_LITERAL "2" []]].

Lemma parsed_expression_is_not_computed_witness :
  Parser.new 20 (Lexer.new "(1 + 2)") = Some (Ok at_sum) /\
  Parser.expression 20 at_sum = Some (Ok (sum_expression, behind_sum)) /\
  TreeWalker.evaluateExpression (H := Binary64.host) ∅ sum_expression = Ok VNil.
Proof.
  split; [reflexivity |].
  assert (Hparsed : Parser.expression 20 at_sum = Some (Ok (sum_expression, behind_sum)))
    by reflexivity.
  split; [exact Hparsed |].
  exact (parsed_expression_is_not_computed (H := Binary64.host) 20 at_sum behind_sum
           sum_expression ∅ Hparsed).
Defined.

(** ** The lexer on ASCII text *)

Lemma bind_get {S A : Type} (k : S -> Step S A) (s : S) :
  (x ← get_state; k x) s = k s s.
Proof. reflexivity. Qed.

Lemma bind_lift {S A B : Type} (a : A) (k : A -> Step S B) (s : S) :
  (x ← step_lift (Ok a); k x) s = k a s.
Proof. reflexivity. Qed.

Lemma bind_put {S A : Type} (s' : S) (k : Step S A) (s : S) :
  (put_state s';; k) s = k s'.
Proof. reflexivity. Qed.

Lemma bind_ret {S A B : Type} (a : A) (k : A -> Step S B) (s : S) :
  (x ← mret a; k x) s = k a s.
Proof. reflexivity. Qed.

(** The rule of a loop that ends: an invariant [I] that the body keeps
    and a measure [mu] that it lowers. *)
Lemma while_rule {S : Type} (I : S -> Prop) (mu : S -> nat)
  (cond : Step S bool) (body : Step S unit) :
  (forall s, I s -> exists b, cond s = Some (Ok (b, s))) ->
  (forall s, I s -> cond s = Some (Ok (true, s)) ->
     exists s', body s = Some (Ok (tt, s')) /\ I s' /\ (mu s' < mu s)%nat) ->
  forall fuel s, I s -> (mu s < fuel)%nat ->
    exists s', while fuel cond body s = Some (Ok (tt, s')) /\ I s' /\
               cond s' = Some (Ok (false, s')) /\ (mu s' <= mu s)%nat.
Proof.
  intros Hcond Hbody. induction fuel as [| fuel IH]; intros s Hs Hfuel; [lia |].
  cbn [while]. destruct (Hcond s Hs) as [[|] Hb]; rewrite (bind_ok _ _ _ _ _ Hb).
  - destruct (Hbody s Hs Hb) as (s1 & Hstep & Hs1 & Hlower).
    rewrite (bind_ok _ _ _ _ _ Hstep).
    destruct (IH s1 Hs1 ltac:(lia)) as (s' & Hrun & Hs' & Hend & Hle).
    exists s'. repeat split; [exact Hrun | exact Hs' | exact Hend | lia].
  - exists s. repeat split; [exact Hs | exact Hb | lia].
Qed.

Lemma get_some (s : string) (n : nat) :
  (n < String.length s)%nat -> exists c, String.get n s = Some c.
Proof.
  revert n. induction s as [| a s IH]; intros n Hn; [simpl in Hn; lia |].
  destruct n as [| n]; [now exists a |]. simpl in *. apply IH. lia.
Qed.

Lemma get_none (s : string) (n : nat) :
  (String.length s <= n)%nat -> String.get n s = None.
Proof.
  revert n. induction s as [| a s IH]; intros n Hn; [now destruct n |].
  destruct n as [| n]; [simpl in Hn; lia |]. simpl in *. apply IH. lia.
Qed.

Section LexerFacts.
Import Lexer.

(** Text of ASCII characters. *)
Definition ascii_text (s : string) : Prop :=
  forall n c, String.get n s = Some c -> (nat_of_ascii c < 128)%nat.

(** A lexer on its way through ASCII text that is short enough for the
    line and column counters: the position is within the text or one
    behind it, and the counters are at most one ahead of the position. *)
Record sound (lx : Lexer) : Prop := {
  sound_text : ascii_text (input lx);
  sound_length : Z.of_nat (String.length (input lx)) + 2 <= INT_MAX;
  sound_position : (position lx <= String.length (input lx) + 1)%nat;
  sound_line : 1 <= line lx <= Z.of_nat (position lx) + 1;
  sound_column : 1 <= column lx <= Z.of_nat (position lx) + 1
}.

(** The lexer [lx'] has read on from [lx]. *)
Definition reads_on (lx lx' : Lexer) : Prop :=
  input lx' = input lx /\ (position lx <= position lx')%nat.

Lemma cctype_ascii (class : nat -> bool) (c : ascii) :
  (nat_of_ascii c < 128)%nat -> cctype class c = Ok (class (nat_of_ascii c)).
Proof.
  intros Hc. unfold cctype. apply Nat.ltb_lt in Hc. now rewrite Hc.
Qed.

Lemma increment_below (x : Z) : x < INT_MAX -> increment x = Ok (x + 1).
Proof. intros Hx. unfold increment. apply Z.ltb_lt in Hx. now rewrite Hx. Qed.

Lemma current_within (lx : Lexer) :
  (position lx < String.length (input lx))%nat ->
  exists c, String.get (position lx) (input lx) = Some c /\ current lx = Some (Ok (c, lx)).
Proof.
  intros Hin. destruct (get_some _ _ Hin) as [c Hc]. exists c. split; [exact Hc |].
  unfold current. now rewrite Hc.
Qed.

Lemma current_defined (lx : Lexer) :
  (position lx <= String.length (input lx))%nat ->
  exists c, current lx = Some (Ok (c, lx)).
Proof.
  intros Hin. unfold current.
  destruct (String.get (position lx) (input lx)) as [c |] eqn:Hc; [now exists c |].
  assert (Hend : position lx = String.length (input lx)).
  { destruct (Nat.lt_ge_cases (position lx) (String.length (input lx))) as [Hlt | Hge];
      [| lia].
    destruct (get_some _ _ Hlt) as [c' Hc']. congruence. }
  apply Nat.eqb_eq in Hend. rewrite Hend. now exists Ascii.zero.
Qed.

Lemma isAtEnd_false (lx : Lexer) :
  isAtEnd lx = false <-> (position lx < String.length (input lx))%nat.
Proof. unfold isAtEnd. apply Nat.leb_gt. Qed.

Lemma isAtEnd_true (lx : Lexer) :
  isAtEnd lx = true <-> (String.length (input lx) <= position lx)%nat.
Proof. unfold isAtEnd. apply Nat.leb_le. Qed.

(** The lexer one character further. *)
Definition stepped (lx : Lexer) : Lexer :=
  mkLexer (input lx) (S (position lx)) (line lx) (column lx + 1).

Lemma advance_step (lx : Lexer) (c : ascii) :
  column lx < INT_MAX ->
  current lx = Some (Ok (c, lx)) ->
  advance lx = Some (Ok (c, stepped lx)).
Proof.
  intros Hcolumn Hc. unfold advance. rewrite bind_get, (increment_below _ Hcolumn), bind_lift.
  rewrite (bind_ok _ _ _ _ _ Hc). reflexivity.
Qed.

Lemma advance_sound (lx : Lexer) :
  sound lx -> (position lx <= String.length (input lx))%nat ->
  exists c, current lx = Some (Ok (c, lx)) /\
            advance lx = Some (Ok (c, stepped lx)) /\ sound (stepped lx).
Proof.
  intros [Htext Hlength Hposition Hline Hcolumn] Hin.
  destruct (current_defined lx Hin) as (c & Hc). exists c.
  split; [exact Hc |]. split.
  - apply advance_step; [lia | exact Hc].
  - constructor; cbn; try assumption; lia.
Qed.

(** A condition [!isAtEnd() && test(input[position])] on ASCII text. *)
Lemma here_sound (test : ascii -> Outcome bool) (lx : Lexer) :
  (forall c, (nat_of_ascii c < 128)%nat -> exists b, test c = Ok b) ->
  ascii_text (input lx) ->
  exists b, here test lx = Some (Ok (b, lx)) /\
            (b = true -> (position lx < String.length (input lx))%nat).
Proof.
  intros Htest Htext. unfold here. rewrite bind_get.
  destruct (isAtEnd lx) eqn:Hend; [exists false; split; [reflexivity | discriminate] |].
  apply isAtEnd_false in Hend.
  destruct (current_within lx Hend) as (c & Hget & Hc). rewrite (bind_ok _ _ _ _ _ Hc).
  destruct (Htest c (Htext _ _ Hget)) as [b Hb]. rewrite Hb. now exists b.
Qed.

(** What a condition [here test] reads: the character at the position. *)
Definition probe (test : ascii -> Outcome bool) (lx : Lexer) : Outcome bool :=
  match String.get (position lx) (input lx) with
  | Some c => test c
  | None => Ok false
  end.

Lemma here_probe (test : ascii -> Outcome bool) (lx : Lexer) :
  here test lx = step_lift (probe test lx) lx.
Proof.
  unfold here, probe. rewrite bind_get. destruct (isAtEnd lx) eqn:Hend.
  - apply isAtEnd_true in Hend. now rewrite (get_none _ _ Hend).
  - apply isAtEnd_false in Hend. destruct (current_within lx Hend) as (c & Hget & Hc).
    now rewrite (bind_ok _ _ _ _ _ Hc), Hget.
Qed.

(** A loop that ends where its condition fails has moved when the
    condition held at its start. *)
Lemma moved_on (test : ascii -> Outcome bool) (lx lx' : Lexer) :
  reads_on lx lx' ->
  here test lx = Some (Ok (true, lx)) ->
  here test lx' = Some (Ok (false, lx')) ->
  (position lx < position lx')%nat.
Proof.
  intros [Hinput Hposition] Hstart Hend. rewrite here_probe in Hstart, Hend.
  destruct (Nat.eq_dec (position lx) (position lx')) as [Hsame |]; [| lia].
  unfold probe in *. rewrite Hinput, <- Hsame in Hend.
  destruct (String.get (position lx) (input lx)) as [c |]; [| discriminate].
  destruct (test c) as [[|] | |]; discriminate.
Qed.

(** A loop [while (!isAtEnd() && test(input[position])) advance();] reads
    on and keeps the line. *)
Lemma scan_sound (test : ascii -> Outcome bool) (fuel : nat) (lx : Lexer) :
  (forall c, (nat_of_ascii c < 128)%nat -> exists b, test c = Ok b) ->
  sound lx ->
  (String.length (input lx) - position lx < fuel)%nat ->
  exists lx', while fuel (here test) (advance;; mret tt) lx = Some (Ok (tt, lx')) /\
              sound lx' /\ reads_on lx lx' /\ line lx' = line lx /\
              here test lx' = Some (Ok (false, lx')).
Proof.
  intros Htest Hsound Hfuel.
  destruct (while_rule
              (fun s => sound s /\ reads_on lx s /\ line s = line lx)
              (fun s => (String.length (input s) - position s)%nat)
              (here test) (advance;; mret tt)) with (fuel := fuel) (s := lx)
    as (lx' & Hrun & (Hsound' & Hreads & Hline) & Hend & _).
  - intros s (Hs & _). destruct (here_sound test s Htest (sound_text s Hs)) as (b & Hb & _).
    now exists b.
  - intros s (Hs & [Hinput Hpos] & Hline) Hcond.
    destruct (here_sound test s Htest (sound_text s Hs)) as (b & Hb & Hin).
    assert (b = true) as -> by congruence. specialize (Hin eq_refl).
    destruct (advance_sound s Hs ltac:(lia)) as (c & _ & Hadvance & Hstepped).
    exists (stepped s). rewrite (bind_ok _ _ _ _ _ Hadvance).
    split; [reflexivity |]. split.
    + split; [exact Hstepped |]. split; [| exact Hline].
      split; [exact Hinput | cbn; lia].
    + cbn. lia.
  - split; [exact Hsound |]. split; [| reflexivity]. split; [reflexivity | lia].
  - exact Hfuel.
  - exists lx'. split; [exact Hrun |]. split; [exact Hsound' |].
    split; [exact Hreads |]. split; [exact Hline | exact Hend].
Qed.


(** A token has been read from ASCII text: the lexer has moved on and is
    sound. *)
Definition token_read (lx : Lexer) (r : option (Outcome (Token * Lexer))) : Prop :=
  exists tok lx',
    r = Some (Ok (tok, lx')) /\ sound lx' /\ input lx' = input lx /\
    TokenType_eqb (token_type tok) TOKEN_EOF = false /\
    (position lx < position lx')%nat.

Lemma identifier_sound (fuel : nat) (lx : Lexer) (c : ascii) :
  sound lx ->
  (String.length (input lx) - position lx < fuel)%nat ->
  String.get (position lx) (input lx) = Some c ->
  alpha_class (nat_of_ascii c) || char_is "_" c = true ->
  token_read lx (identifier fuel lx).
Proof.
  intros Hsound Hfuel Hget Hfirst.
  set (test := fun c : ascii => alnum ← isalnum c; Ok (alnum || char_is "_" c || char_is "." c)).
  assert (Htest : forall c, (nat_of_ascii c < 128)%nat -> exists b, test c = Ok b).
  { intros c' Hc'. unfold test, isalnum. rewrite (cctype_ascii _ _ Hc'). now eexists. }
  destruct (scan_sound test fuel lx Htest Hsound Hfuel)
    as (lx' & Hrun & Hsound' & Hreads & Hline & Hend).
  assert (Hstart : here test lx = Some (Ok (true, lx))).
  { rewrite here_probe. unfold probe. rewrite Hget. unfold test, isalnum.
    rewrite (cctype_ascii _ _ (sound_text lx Hsound _ _ Hget)). cbn.
    apply orb_true_iff in Hfirst as [Halpha | Hunderscore].
    - now rewrite Halpha.
    - rewrite Hunderscore. now rewrite orb_true_r. }
  pose proof (moved_on test lx lx' Hreads Hstart Hend) as Hmoved.
  unfold identifier. fold test.
  rewrite (bind_ok getPosition _ lx lx (position lx) eq_refl).
  rewrite (bind_ok _ _ _ _ _ Hrun).
  rewrite (bind_ok (since (position lx)) _ lx' lx' _ eq_refl).
  destruct Hreads as [Hinput _].
  destruct (existsb _ keywords); eexists _, lx'; (split; [reflexivity |]);
    (split; [exact Hsound' |]); (split; [exact Hinput |]); (split; [reflexivity | exact Hmoved]).
Qed.

Lemma number_sound (fuel : nat) (lx : Lexer) (c : ascii) :
  sound lx ->
  (String.length (input lx) - position lx < fuel)%nat ->
  String.get (position lx) (input lx) = Some c ->
  digit_class (nat_of_ascii c) = true ->
  token_read lx (number fuel lx).
Proof.
  intros Hsound Hfuel Hget Hfirst.
  set (test := fun c : ascii => digit ← isdigit c; Ok (digit || char_is "." c)).
  assert (Htest : forall c, (nat_of_ascii c < 128)%nat -> exists b, test c = Ok b).
  { intros c' Hc'. unfold test, isdigit. rewrite (cctype_ascii _ _ Hc'). now eexists. }
  destruct (scan_sound test fuel lx Htest Hsound Hfuel)
    as (lx' & Hrun & Hsound' & Hreads & Hline & Hend).
  assert (Hstart : here test lx = Some (Ok (true, lx))).
  { rewrite here_probe. unfold probe. rewrite Hget. unfold test, isdigit.
    rewrite (cctype_ascii _ _ (sound_text lx Hsound _ _ Hget)). cbn.
    now rewrite Hfirst. }
  pose proof (moved_on test lx lx' Hreads Hstart Hend) as Hmoved.
  unfold number. fold test.
  rewrite (bind_ok getPosition _ lx lx (position lx) eq_refl).
  rewrite (bind_ok _ _ _ _ _ Hrun).
  rewrite (bind_ok (since (position lx)) _ lx' lx' _ eq_refl).
  destruct Hreads as [Hinput _].
  eexists _, lx'. split; [reflexivity |]. split; [exact Hsound' |].
  split; [exact Hinput |]. split; [reflexivity | exact Hmoved].
Qed.

Lemma directive_sound (fuel : nat) (lx : Lexer) :
  sound lx ->
  (String.length (input lx) - position lx < fuel)%nat ->
  (position lx < String.length (input lx))%nat ->
  token_read lx (directive fuel lx).
Proof.
  intros Hsound Hfuel Hin.
  set (test := fun c : ascii => space ← isspace c; Ok (negb space && negb (char_is ";" c))).
  assert (Htest : forall c, (nat_of_ascii c < 128)%nat -> exists b, test c = Ok b).
  { intros c' Hc'. unfold test, isspace. rewrite (cctype_ascii _ _ Hc'). now eexists. }
  destruct (advance_sound lx Hsound ltac:(lia)) as (c & _ & Hadvance & Hstepped).
  destruct (scan_sound test fuel (stepped lx) Htest Hstepped ltac:(cbn; lia))
    as (lx' & Hrun & Hsound' & [Hinput Hposition] & Hline & Hend).
  unfold directive. fold test.
  rewrite (bind_ok getPosition _ lx lx (position lx) eq_refl).
  rewrite (bind_ok _ _ _ _ _ Hadvance), (bind_ok _ _ _ _ _ Hrun).
  rewrite (bind_ok (since (position lx)) _ lx' lx' _ eq_refl).
  eexists _, lx'. split; [reflexivity |]. cbn in Hposition.
  split; [exact Hsound' |]. split; [exact Hinput |]. split; [reflexivity | lia].
Qed.

Lemma skipWhitespace_sound (fuel : nat) (lx : Lexer) :
  sound lx ->
  (String.length (input lx) - position lx < fuel)%nat ->
  exists lx', skipWhitespace fuel lx = Some (Ok (tt, lx')) /\ sound lx' /\
              reads_on lx lx' /\ here isspace lx' = Some (Ok (false, lx')).
Proof.
  intros Hsound Hfuel.
  assert (Htest : forall c, (nat_of_ascii c < 128)%nat -> exists b, isspace c = Ok b).
  { intros c Hc. unfold isspace. rewrite (cctype_ascii _ _ Hc). now eexists. }
  unfold skipWhitespace.
  match goal with
  | |- exists lx', while fuel ?cond ?body lx = _ /\ _ =>
      destruct (while_rule (fun s => sound s /\ reads_on lx s)
                  (fun s => (String.length (input s) - position s)%nat) cond body)
        with (fuel := fuel) (s := lx) as (lx' & Hrun & (Hsound' & Hreads) & Hend & _)
  end.
  - intros s (Hs & _). destruct (here_sound isspace s Htest (sound_text s Hs)) as (b & Hb & _).
    now exists b.
  - intros s (Hs & [Hinput Hpos]) Hcond.
    destruct (here_sound isspace s Htest (sound_text s Hs)) as (b & Hb & Hin).
    assert (b = true) as -> by congruence. specialize (Hin eq_refl).
    destruct (current_within s Hin) as (c & Hget & Hc). rewrite (bind_ok _ _ _ _ _ Hc).
    destruct Hs as [Htext Hlength Hposition Hline Hcolumn].
    destruct (char_is newline c).
    + set (s1 := mkLexer (input s) (position s) (line s + 1) 1).
      assert (Hnext : (lx ← get_state;
                       line' ← step_lift (increment (line lx));
                       put_state (mkLexer (input lx) (position lx) line' 1)) s
                      = Some (Ok (tt, s1))).
      { rewrite bind_get. rewrite (increment_below (line s)) by lia. reflexivity. }
      rewrite (bind_ok _ _ _ _ _ Hnext).
      assert (Hc1 : current s1 = Some (Ok (c, s1))).
      { unfold current, s1. cbn. now rewrite Hget. }
      rewrite (bind_ok _ _ _ _ _ (advance_step s1 c ltac:(cbn; unfold INT_MAX in *; lia) Hc1)).
      exists (stepped s1). split; [reflexivity |]. split.
      * split; [| split; [exact Hinput | cbn; lia]].
        constructor; cbn; try assumption; lia.
      * cbn. lia.
    + rewrite bind_ret.
      rewrite (bind_ok _ _ _ _ _ (advance_step s c ltac:(lia) Hc)).
      exists (stepped s). split; [reflexivity |]. split.
      * split; [| split; [exact Hinput | cbn; lia]].
        constructor; cbn; try assumption; lia.
      * cbn. lia.
  - split; [exact Hsound |]. split; [reflexivity | lia].
  - exact Hfuel.
  - exists lx'. split; [exact Hrun |]. split; [exact Hsound' |]. split; assumption.
Qed.

Lemma skipComment_sound (fuel : nat) (lx : Lexer) :
  sound lx ->
  (String.length (input lx) - position lx < fuel)%nat ->
  exists lx', skipComment fuel lx = Some (Ok (tt, lx')) /\ sound lx' /\ reads_on lx lx'.
Proof.
  intros Hsound Hfuel.
  set (test := fun c : ascii => Ok (negb (char_is newline c))).
  assert (Htest : forall c, (nat_of_ascii c < 128)%nat -> exists b, test c = Ok b).
  { intros c _. now eexists. }
  destruct (scan_sound test fuel lx Htest Hsound Hfuel)
    as (lx1 & Hrun & Hsound1 & [Hinput Hposition] & _ & _).
  unfold skipComment. fold test. rewrite (bind_ok _ _ _ _ _ Hrun), bind_get.
  destruct (isAtEnd lx1) eqn:Hend; cbn [negb].
  - exists lx1. split; [reflexivity |]. split; [exact Hsound1 |]. now split.
  - apply isAtEnd_false in Hend.
    destruct (advance_sound lx1 Hsound1 ltac:(lia)) as (c & _ & Hadvance & Hstepped).
    rewrite (bind_ok _ _ _ _ _ Hadvance). exists (stepped lx1).
    split; [reflexivity |]. split; [exact Hstepped |]. split; [exact Hinput | cbn; lia].
Qed.

Lemma string_sound (fuel : nat) (lx : Lexer) :
  sound lx ->
  (String.length (input lx) - position lx < fuel)%nat ->
  (position lx < String.length (input lx))%nat ->
  token_read lx (string_ fuel lx) \/ string_ fuel lx = Some (Throw "Unterminated string").
Proof.
  intros Hsound Hfuel Hin.
  destruct (advance_sound lx Hsound ltac:(lia)) as (c0 & _ & Hadvance & Hstepped).
  set (test := fun c : ascii => Ok (negb (char_is quote c))).
  assert (Htest : forall c, (nat_of_ascii c < 128)%nat -> exists b, test c = Ok b).
  { intros c _. now eexists. }
  unfold string_. fold test. rewrite (bind_ok _ _ _ _ _ Hadvance).
  rewrite (bind_ok getPosition _ (stepped lx) (stepped lx) (position (stepped lx)) eq_refl).
  match goal with
  | |- context [while fuel ?cond ?body] =>
      destruct (while_rule (fun s => sound s /\ reads_on (stepped lx) s)
                  (fun s => (String.length (input s) + 1 - position s)%nat) cond body)
        with (fuel := fuel) (s := stepped lx)
        as (lx1 & Hrun & (Hsound1 & [Hinput Hposition]) & _ & _)
  end.
  - intros s (Hs & _). destruct (here_sound test s Htest (sound_text s Hs)) as (b & Hb & _).
    now exists b.
  - intros s (Hs & [Hinput Hpos]) Hcond.
    destruct (here_sound test s Htest (sound_text s Hs)) as (b & Hb & Hwithin).
    assert (b = true) as -> by congruence. specialize (Hwithin eq_refl).
    destruct (current_within s Hwithin) as (c & Hget & Hc). rewrite (bind_ok _ _ _ _ _ Hc).
    destruct (advance_sound s Hs ltac:(lia)) as (c1 & _ & Hstep1 & Hs1).
    destruct (char_is backslash c).
    + destruct (advance_sound (stepped s) Hs1 ltac:(cbn; lia)) as (c2 & _ & Hstep2 & Hs2).
      assert (Hescape : (advance;; mret tt) s = Some (Ok (tt, stepped s))).
      { now rewrite (bind_ok _ _ _ _ _ Hstep1). }
      rewrite (bind_ok _ _ _ _ _ Hescape), (bind_ok _ _ _ _ _ Hstep2).
      exists (stepped (stepped s)). split; [reflexivity |]. split.
      * split; [exact Hs2 |]. split; [exact Hinput | cbn in *; lia].
      * cbn. lia.
    + rewrite bind_ret, (bind_ok _ _ _ _ _ Hstep1).
      exists (stepped s). split; [reflexivity |]. split.
      * split; [exact Hs1 |]. split; [exact Hinput | cbn in *; lia].
      * cbn. lia.
  - split; [exact Hstepped |]. split; [reflexivity | lia].
  - cbn. lia.
  - rewrite (bind_ok _ _ _ _ _ Hrun), bind_get.
    destruct (isAtEnd lx1) eqn:Hend; [now right | left].
    apply isAtEnd_false in Hend.
    destruct (advance_sound lx1 Hsound1 ltac:(lia)) as (c & _ & Hclose & Hsound2).
    rewrite (bind_ok (since _) _ lx1 lx1 _ eq_refl), (bind_ok _ _ _ _ _ Hclose).
    eexists _, (stepped lx1). split; [reflexivity |]. cbn in *.
    split; [exact Hsound2 |]. split; [exact Hinput |]. split; [reflexivity | lia].
Qed.


Lemma peek_defined (lx : Lexer) :
  (position lx <= String.length (input lx))%nat ->
  exists c, peek lx = Some (Ok (c, lx)).
Proof.
  intros Hin. unfold peek. rewrite bind_get.
  destruct (isAtEnd lx); [now exists Ascii.zero | now apply current_defined].
Qed.

(** What [getNextToken] does on sound text: it returns the end-of-input
    token at the end, or another token and has moved on, or throws one of
    its two errors. *)
Definition token_or_error (lx : Lexer) (r : option (Outcome (Token * Lexer))) : Prop :=
  (exists tok lx',
     r = Some (Ok (tok, lx')) /\ sound lx' /\ input lx' = input lx /\
     if TokenType_eqb (token_type tok) TOKEN_EOF
     then isAtEnd lx' = true /\ (position lx <= position lx')%nat
     else (position lx < position lx')%nat) \/
  r = Some (Throw "Unterminated string") \/
  (exists number, r = Some (Throw ("Invalid operator at line " +:+ decimal number))).

Lemma token_read_or_error (lx : Lexer) (r : option (Outcome (Token * Lexer))) :
  token_read lx r -> token_or_error lx r.
Proof.
  intros (tok & lx' & Hr & Hsound & Hinput & Htype & Hmoved). left.
  exists tok, lx'. rewrite Htype. now repeat (split; [assumption |]).
Qed.

(** The token read after whitespace or a comment was skipped. *)
Lemma token_or_error_after (lx lx1 : Lexer) (r : option (Outcome (Token * Lexer))) :
  input lx1 = input lx -> (position lx < position lx1)%nat ->
  token_or_error lx1 r -> token_or_error lx r.
Proof.
  intros Hinput Hmoved [(tok & lx' & Hr & Hsound & Hinput' & Hcase) | Herror];
    [left | right; exact Herror].
  exists tok, lx'. split; [exact Hr |]. split; [exact Hsound |].
  split; [congruence |].
  destruct (TokenType_eqb (token_type tok) TOKEN_EOF); [split; [apply Hcase |] |]; lia.
Qed.

(** X28. On ASCII text of fewer than [INT_MAX - 1] characters the lexer
    is well defined and makes progress: with fuel for the characters
    that are left, [getNextToken] returns the end-of-input token when
    only the end is left, or returns another token and has moved
    forward, or throws "Unterminated string" or an "Invalid operator"
    error with the line; it is then again in a state from which this
    holds, so the tokens of a text are finitely many. *)
Theorem getNextToken_on_ascii_text (fuel : nat) (lx : Lexer) :
  sound lx ->
  (String.length (input lx) - position lx + 2 <= fuel)%nat ->
  token_or_error lx (getNextToken fuel lx).
Proof.
  revert lx. induction fuel as [| fuel IH]; intros lx Hsound Hfuel; [lia |].
  cbn [getNextToken]. rewrite bind_get.
  destruct (isAtEnd lx) eqn:Hend.
  { left. eexists _, lx. split; [reflexivity |]. split; [exact Hsound |].
    split; [reflexivity |]. cbn. split; [exact Hend | lia]. }
  apply isAtEnd_false in Hend.
  destruct (current_within lx Hend) as (c & Hget & Hc). rewrite (bind_ok _ _ _ _ _ Hc).
  pose proof (sound_text lx Hsound _ _ Hget) as Hascii.
  unfold isspace, isdigit, isalpha. rewrite !(cctype_ascii _ _ Hascii), bind_lift.
  destruct (advance_sound lx Hsound ltac:(lia)) as (c' & Hc' & Hadvance & Hstepped).
  assert (c' = c) as -> by congruence. clear Hc'.
  destruct (peek_defined (stepped lx) ltac:(cbn; lia)) as [next Hpeek].
  destruct (space_class (nat_of_ascii c)) eqn:Hspace.
  { destruct (skipWhitespace_sound fuel lx Hsound ltac:(lia))
      as (lx1 & Hskip & Hsound1 & Hreads & Hstop).
    assert (Hstart : here isspace lx = Some (Ok (true, lx))).
    { rewrite here_probe. unfold probe, isspace.
      now rewrite Hget, (cctype_ascii _ _ Hascii), Hspace. }
    pose proof (moved_on isspace lx lx1 Hreads Hstart Hstop) as Hmoved.
    destruct Hreads as [Hinput _]. rewrite (bind_ok _ _ _ _ _ Hskip).
    apply (token_or_error_after lx lx1); [exact Hinput | exact Hmoved |].
    apply IH; [exact Hsound1 |]. rewrite Hinput. lia. }
  destruct (char_is "#" c).
  { apply token_read_or_error, directive_sound; [exact Hsound | lia | exact Hend]. }
  destruct (char_is quote c).
  { destruct (string_sound fuel lx Hsound ltac:(lia) Hend) as [Hread | Hthrow].
    - now apply token_read_or_error.
    - right. now left. }
  rewrite bind_lift.
  destruct (digit_class (nat_of_ascii c)) eqn:Hdigit.
  { apply token_read_or_error, (number_sound fuel lx c); try assumption. lia. }
  rewrite bind_lift.
  destruct (alpha_class (nat_of_ascii c) || char_is "_" c) eqn:Halpha.
  { apply token_read_or_error, (identifier_sound fuel lx c); try assumption. lia. }
  destruct (one_of "+-*/%" c).
  { rewrite (bind_ok _ _ _ _ _ Hadvance).
    assert (Hcomment : exists comment,
              (if char_is "/" c then next ← peek; mret (char_is "/" next) else mret false)
                (stepped lx) = Some (Ok (comment, stepped lx))).
    { destruct (char_is "/" c); [| now exists false].
      exists (char_is "/" next). now rewrite (bind_ok _ _ _ _ _ Hpeek). }
    destruct Hcomment as [comment Hcomment]. rewrite (bind_ok _ _ _ _ _ Hcomment).
    destruct comment.
    - destruct (skipComment_sound fuel (stepped lx) Hstepped ltac:(cbn; lia))
        as (lx1 & Hskip & Hsound1 & [Hinput Hposition]).
      rewrite (bind_ok _ _ _ _ _ Hskip). cbn in Hinput, Hposition.
      apply (token_or_error_after lx lx1); [exact Hinput | lia |].
      apply IH; [exact Hsound1 |]. rewrite Hinput. lia.
    - left. eexists _, (stepped lx). split; [reflexivity |]. split; [exact Hstepped |].
      split; [reflexivity |]. cbn. lia. }
  destruct (one_of "=!<>" c).
  { rewrite (bind_ok _ _ _ _ _ Hadvance), (bind_ok _ _ _ _ _ Hpeek).
    destruct (char_is "=" next).
    - destruct (advance_sound (stepped lx) Hstepped ltac:(cbn; lia))
        as (op2 & _ & Hsecond & Hstepped2).
      rewrite (bind_ok _ _ _ _ _ Hsecond).
      left. eexists _, (stepped (stepped lx)). split; [reflexivity |].
      split; [exact Hstepped2 |]. split; [reflexivity |]. cbn. lia.
    - left. eexists _, (stepped lx). split; [reflexivity |]. split; [exact Hstepped |].
      split; [reflexivity |]. cbn. lia. }
  destruct (one_of "&|" c).
  { rewrite (bind_ok _ _ _ _ _ Hadvance), (bind_ok _ _ _ _ _ Hpeek).
    destruct (char_is c next).
    - destruct (advance_sound (stepped lx) Hstepped ltac:(cbn; lia))
        as (op2 & _ & Hsecond & Hstepped2).
      rewrite (bind_ok _ _ _ _ _ Hsecond).
      left. eexists _, (stepped (stepped lx)). split; [reflexivity |].
      split; [exact Hstepped2 |]. split; [reflexivity |]. cbn. lia.
    - right. right. rewrite bind_get. now eexists. }
  rewrite (bind_ok _ _ _ _ _ Hadvance).
  left. eexists _, (stepped lx). split; [reflexivity |]. split; [exact Hstepped |].
  split; [reflexivity |]. cbn. lia.
Qed.

End LexerFacts.

(** ** String tokens *)

Lemma get_append_here (pre rest : string) (c : ascii) :
  String.get (String.length pre) (pre +:+ String c rest) = Some c.
Proof. induction pre as [| a pre IH]; [reflexivity | exact IH]. Qed.

Lemma append_one (pre rest : string) (c : ascii) :
  (pre +:+ String c "") +:+ rest = pre +:+ String c rest.
Proof. now rewrite append_assoc. Qed.

Lemma length_append_one (pre : string) (c : ascii) :
  String.length (pre +:+ String c "") = S (String.length pre).
Proof. rewrite length_append. simpl. lia. Qed.

Lemma substring_prefix (body rest : string) :
  String.substring 0 (String.length body) (body +:+ rest) = body.
Proof.
  induction body as [| b body IH]; [now destruct rest |].
  change (String b body +:+ rest) with (String b (body +:+ rest)).
  cbn [String.length String.substring]. now rewrite IH.
Qed.

Lemma substring_middle (pre body rest : string) :
  String.substring (String.length pre) (String.length body) (pre +:+ (body +:+ rest)) = body.
Proof.
  induction pre as [| a pre IH]; [exact (substring_prefix body rest) | exact IH].
Qed.

Section StringTokens.
Import Lexer.

(** The text of a string literal between its quotes: characters other
    than the quote and the backslash, and backslashes followed by any
    character. *)
Inductive raw_body : string -> Prop :=
| raw_empty : raw_body ""
| raw_plain c s : c <> quote -> c <> backslash -> raw_body s -> raw_body (String c s)
| raw_escaped c s : raw_body s -> raw_body (String backslash (String c s)).

(** The lexer [n] characters further on the same line. *)
Definition moved (n : nat) (lx : Lexer) : Lexer :=
  mkLexer (input lx) (position lx + n) (line lx) (column lx + Z.of_nat n).

Lemma moved_zero (lx : Lexer) : moved 0 lx = lx.
Proof.
  destruct lx as [i p l c]. unfold moved. cbn. f_equal; [lia | lia].
Qed.

Lemma moved_stepped (n : nat) (lx : Lexer) : moved n (stepped lx) = moved (S n) lx.
Proof. unfold moved, stepped. cbn. f_equal; lia. Qed.

Lemma current_at (lx : Lexer) (pre rest : string) (c : ascii) :
  input lx = pre +:+ String c rest -> position lx = String.length pre ->
  current lx = Some (Ok (c, lx)).
Proof.
  intros Hinput Hposition. unfold current.
  now rewrite Hinput, Hposition, get_append_here.
Qed.

Lemma not_at_end (lx : Lexer) (pre rest : string) (c : ascii) :
  input lx = pre +:+ String c rest -> position lx = String.length pre ->
  isAtEnd lx = false.
Proof.
  intros Hinput Hposition. apply isAtEnd_false.
  rewrite Hinput, Hposition, length_append. simpl. lia.
Qed.

(** The loop of [string()] over the text of the literal: it stops at the
    closing quote, or at the end of the input. *)
Lemma string_loop_raw (body : string) :
  raw_body body ->
  forall (fuel : nat) (lx : Lexer) (pre tail : string),
    input lx = pre +:+ (body +:+ tail) ->
    position lx = String.length pre ->
    tail = "" \/ (exists rest, tail = String quote rest) ->
    column lx + Z.of_nat (String.length body) <= INT_MAX ->
    (String.length body < fuel)%nat ->
    while fuel (here (fun c => Ok (negb (char_is quote c))))
      (c ← current;
       (if char_is backslash c then advance;; mret tt else mret tt);;
       advance;; mret tt) lx
    = Some (Ok (tt, moved (String.length body) lx)).
Proof.
  induction 1 as [| c s Hquote Hbackslash Hs IH | c s Hs IH];
    intros fuel lx pre tail Hinput Hposition Htail Hcolumn Hfuel;
    (destruct fuel as [| fuel]; [lia |]); cbn [while].
  - assert (Hstop : here (fun c => Ok (negb (char_is quote c))) lx = Some (Ok (false, lx))).
    { change ("" +:+ tail) with tail in Hinput.
      destruct Htail as [-> | [rest ->]].
      - unfold here. rewrite bind_get.
        assert (Hend : isAtEnd lx = true).
        { apply isAtEnd_true. rewrite Hinput, Hposition, length_append. simpl. lia. }
        now rewrite Hend.
      - unfold here. rewrite bind_get, (not_at_end lx pre rest quote Hinput Hposition).
        now rewrite (bind_ok _ _ _ _ _ (current_at lx pre rest quote Hinput Hposition)). }
    rewrite (bind_ok _ _ _ _ _ Hstop). now rewrite moved_zero.
  - change (String c s +:+ tail) with (String c (s +:+ tail)) in Hinput.
    pose proof (current_at lx pre _ c Hinput Hposition) as Hc.
    assert (Hgo : here (fun c => Ok (negb (char_is quote c))) lx = Some (Ok (true, lx))).
    { unfold here. rewrite bind_get, (not_at_end lx pre _ c Hinput Hposition).
      rewrite (bind_ok _ _ _ _ _ Hc). unfold char_is.
      apply Ascii.eqb_neq in Hquote. now rewrite Hquote. }
    cbn [String.length] in Hcolumn, Hfuel.
    assert (Hround : (c ← current;
                      (if char_is backslash c then advance;; mret tt else mret tt);;
                      advance;; mret tt) lx = Some (Ok (tt, stepped lx))).
    { rewrite (bind_ok _ _ _ _ _ Hc). unfold char_is.
      apply Ascii.eqb_neq in Hbackslash. rewrite Hbackslash, bind_ret.
      now rewrite (bind_ok _ _ _ _ _ (advance_step lx c ltac:(lia) Hc)). }
    rewrite (bind_ok _ _ _ _ _ Hgo), (bind_ok _ _ _ _ _ Hround).
    rewrite (IH fuel (stepped lx) (pre +:+ String c "") tail).
    + now rewrite moved_stepped.
    + cbn. now rewrite append_one.
    + cbn. now rewrite length_append_one, Hposition.
    + exact Htail.
    + cbn. lia.
    + lia.
  - change (String backslash (String c s) +:+ tail)
      with (String backslash (String c (s +:+ tail))) in Hinput.
    pose proof (current_at lx pre _ backslash Hinput Hposition) as Hc.
    assert (Hgo : here (fun c => Ok (negb (char_is quote c))) lx = Some (Ok (true, lx))).
    { unfold here. rewrite bind_get, (not_at_end lx pre _ backslash Hinput Hposition).
      now rewrite (bind_ok _ _ _ _ _ Hc). }
    cbn [String.length] in Hcolumn, Hfuel.
    assert (Hc1 : current (stepped lx) = Some (Ok (c, stepped lx))).
    { apply (current_at _ (pre +:+ String backslash "") (s +:+ tail)).
      - cbn. now rewrite append_one.
      - cbn. now rewrite length_append_one, Hposition. }
    assert (Hescape : (advance;; mret tt) lx = Some (Ok (tt, stepped lx))).
    { now rewrite (bind_ok _ _ _ _ _ (advance_step lx backslash ltac:(lia) Hc)). }
    assert (Hround : (c ← current;
                      (if char_is backslash c then advance;; mret tt else mret tt);;
                      advance;; mret tt) lx = Some (Ok (tt, stepped (stepped lx)))).
    { rewrite (bind_ok _ _ _ _ _ Hc).
      change (char_is backslash backslash) with true. cbv iota.
      rewrite (bind_ok _ _ _ _ _ Hescape).
      now rewrite (bind_ok _ _ _ _ _ (advance_step (stepped lx) c ltac:(cbn; lia) Hc1)). }
    rewrite (bind_ok _ _ _ _ _ Hgo), (bind_ok _ _ _ _ _ Hround).
    rewrite (IH fuel (stepped (stepped lx))
               ((pre +:+ String backslash "") +:+ String c "") tail).
    + now rewrite !moved_stepped.
    + cbn. now rewrite !append_one.
    + cbn. now rewrite !length_append_one, Hposition.
    + exact Htail.
    + cbn. lia.
    + lia.
Qed.

(** At an opening quote [getNextToken] runs the loop of [string()] over
    the text of the literal and goes on from behind it. *)
Lemma string_token_start (fuel : nat) (lx : Lexer) (pre body tail : string) :
  position lx = String.length pre ->
  raw_body body ->
  column lx + Z.of_nat (String.length body) + 2 <= INT_MAX ->
  (String.length body < fuel)%nat ->
  input lx = pre +:+ String quote (body +:+ tail) ->
  tail = "" \/ (exists rest, tail = String quote rest) ->
  getNextToken (S fuel) lx
  = (lx ← get_state;
     if isAtEnd lx then step_throw "Unterminated string"
     else
       value ← since (S (String.length pre));
       advance;;
       token TOKEN_STRING value) (moved (String.length body) (stepped lx)).
Proof.
  intros Hposition Hbody Hcolumn Hfuel Hinput Htail. cbn [getNextToken].
  rewrite bind_get, (not_at_end lx pre _ quote Hinput Hposition).
  pose proof (current_at lx pre _ quote Hinput Hposition) as Hc.
  rewrite (bind_ok _ _ _ _ _ Hc).
  change (isspace quote) with (Ok (A := bool) false). rewrite bind_lift.
  change (char_is "#" quote) with false. change (char_is quote quote) with true.
  cbv iota. unfold string_.
  rewrite (bind_ok _ _ _ _ _ (advance_step lx quote ltac:(lia) Hc)).
  rewrite (bind_ok getPosition _ (stepped lx) (stepped lx) (S (position lx)) eq_refl).
  rewrite (bind_ok _ _ _ _ _
             (string_loop_raw body Hbody fuel (stepped lx) (pre +:+ String quote "") tail
                ltac:(cbn; now rewrite append_one)
                ltac:(cbn; now rewrite length_append_one, Hposition)
                Htail ltac:(cbn; lia) Hfuel)).
  now rewrite Hposition.
Qed.

(** The token of a string literal that is closed. *)
Lemma string_token_closed (fuel : nat) (lx : Lexer) (pre body rest : string) :
  position lx = String.length pre ->
  raw_body body ->
  column lx + Z.of_nat (String.length body) + 2 <= INT_MAX ->
  (String.length body < fuel)%nat ->
  input lx = pre +:+ String quote (body +:+ String quote rest) ->
  getNextToken (S fuel) lx
  = Some (Ok (mkToken TOKEN_STRING body (line lx)
                      (column lx + Z.of_nat (String.length body) + 2),
              moved (String.length body + 2) lx)).
Proof.
  intros Hposition Hbody Hcolumn Hfuel Hinput.
  rewrite (string_token_start fuel lx pre body (String quote rest) Hposition Hbody Hcolumn
             Hfuel Hinput (or_intror (ex_intro _ rest eq_refl))).
  rewrite bind_get.
  assert (Hinput' : input (moved (String.length body) (stepped lx))
                    = ((pre +:+ String quote "") +:+ body) +:+ String quote rest).
  { cbn. now rewrite Hinput, append_assoc, append_one. }
  assert (Hposition' : position (moved (String.length body) (stepped lx))
                       = String.length ((pre +:+ String quote "") +:+ body)).
  { cbn. rewrite length_append, length_append_one, Hposition. reflexivity. }
  rewrite (not_at_end _ _ _ _ Hinput' Hposition').
  assert (Hvalue : since (S (String.length pre)) (moved (String.length body) (stepped lx))
                   = Some (Ok (body, moved (String.length body) (stepped lx)))).
  { unfold since. rewrite bind_get. cbn [input position moved stepped].
    rewrite Hposition, Hinput.
    replace (S (String.length pre) + String.length body - S (String.length pre))%nat
      with (String.length body) by lia.
    rewrite <- (append_one pre (body +:+ String quote rest) quote).
    rewrite <- (length_append_one pre quote).
    now rewrite substring_middle. }
  rewrite (bind_ok _ _ _ _ _ Hvalue).
  assert (Hroom : column (moved (String.length body) (stepped lx)) < INT_MAX).
  { unfold moved, stepped. cbn [column]. lia. }
  rewrite (bind_ok _ _ _ _ _
             (advance_step _ quote Hroom (current_at _ _ _ _ Hinput' Hposition'))).
  unfold token. rewrite bind_get. unfold mret, step_mret, step_ret.
  do 3 f_equal.
  - cbn. f_equal. lia.
  - unfold moved, stepped. cbn. f_equal; lia.
Qed.

(** X29. The value of a string token is the text between the quotes as
    it is written: a backslash makes the lexer skip the next character,
    so an escaped quote does not end the string, and no escape is
    decoded.  At an opening quote followed by such text and a closing
    quote, [getNextToken] returns the string token with that text and
    stands behind the closing quote; followed by such text and the end of
    the input it throws "Unterminated string". *)
Theorem string_token_is_raw_text (fuel : nat) (lx : Lexer) (pre body rest : string) :
  position lx = String.length pre ->
  raw_body body ->
  column lx + Z.of_nat (String.length body) + 2 <= INT_MAX ->
  (String.length body < fuel)%nat ->
  (input lx = pre +:+ String quote (body +:+ String quote rest) ->
   getNextToken (S fuel) lx
   = Some (Ok (mkToken TOKEN_STRING body (line lx)
                       (column lx + Z.of_nat (String.length body) + 2),
               moved (String.length body + 2) lx))) /\
  (input lx = pre +:+ String quote body ->
   getNextToken (S fuel) lx = Some (Throw "Unterminated string")).
Proof.
  intros Hposition Hbody Hcolumn Hfuel. split; intros Hinput.
  - now apply (string_token_closed fuel lx pre body rest).
  - rewrite <- (append_nil_r body) in Hinput at 1.
    rewrite (string_token_start fuel lx pre body "" Hposition Hbody Hcolumn Hfuel Hinput
               (or_introl eq_refl)), bind_get.
    assert (Hend : isAtEnd (moved (String.length body) (stepped lx)) = true).
    { apply isAtEnd_true. cbn.
      rewrite Hinput, append_nil_r, Hposition, length_append. simpl. lia. }
    now rewrite Hend.
Qed.

End StringTokens.

Definition ascii_only (s : string) : bool :=
  forallb (fun c => (nat_of_ascii c <? 128)%nat) (list_ascii_of_string s).

Lemma ascii_only_text (s : string) : ascii_only s = true -> ascii_text s.
Proof.
  unfold ascii_only. induction s as [| a s IH]; intros Hall n c Hget; [now destruct n |].
  cbn in Hall. apply andb_true_iff in Hall as [Ha Hs].
  destruct n as [| n].
  - injection Hget as <-. now apply Nat.ltb_lt.
  - now apply (IH Hs n).
Qed.

(** The lexer is sound when it starts on ASCII text that is short
    enough. *)
Lemma new_sound (s : string) :
  ascii_only s = true -> Z.of_nat (String.length s) + 2 <= INT_MAX -> sound (Lexer.new s).
Proof.
  intros Hascii Hlength. constructor; cbn; [now apply ascii_only_text | exact Hlength | lia ..].
Qed.

Lemma getNextToken_on_ascii_text_witness :
  sound (Lexer.new assignment_text) /\
  (String.length (Lexer.input (Lexer.new assignment_text))
   - Lexer.position (Lexer.new assignment_text) + 2 <= 20)%nat /\
  token_or_error (Lexer.new assignment_text)
    (Lexer.getNextToken 20 (Lexer.new assignment_text)).
Proof.
  assert (Hsound : sound (Lexer.new assignment_text)).
  { apply new_sound; [reflexivity | discriminate]. }
  assert (Hfuel : (String.length (Lexer.input (Lexer.new assignment_text))
                   - Lexer.position (Lexer.new assignment_text) + 2 <= 20)%nat).
  { cbn. lia. }
  split; [exact Hsound |]. split; [exact Hfuel |].
  exact (getNextToken_on_ascii_text 20 (Lexer.new assignment_text) Hsound Hfuel).
Defined.

(** The text of [a], a backslash, a quote and [b], and the lexer at the
    literal that holds it. *)
Definition escaped_text : string :=
  String "a" (String Lexer.backslash (String Lexer.quote (String "b" ""))).

Definition at_literal : Lexer.Lexer :=
  Lexer.new (String Lexer.quote (escaped_text +:+ String Lexer.quote "")).

Lemma escaped_text_raw : raw_body escaped_text.
Proof.
  apply raw_plain; [discriminate | discriminate |].
  apply raw_escaped. apply raw_plain; [discriminate | discriminate |]. apply raw_empty.
Qed.

Lemma string_token_is_raw_text_witness :
  Lexer.position at_literal = String.length "" /\
  raw_body escaped_text /\
  Lexer.column at_literal + Z.of_nat (String.length escaped_text) + 2 <= INT_MAX /\
  (String.length escaped_text < 5)%nat /\
  Lexer.getNextToken 6 at_literal
  = Some (Ok (mkToken TOKEN_STRING escaped_text 1 7, moved 6 at_literal)).
Proof.
  assert (Hcolumn : Lexer.column at_literal + Z.of_nat (String.length escaped_text) + 2
                    <= INT_MAX) by discriminate.
  assert (Hfuel : (String.length escaped_text < 5)%nat) by (cbn; lia).
  split; [reflexivity |]. split; [exact escaped_text_raw |].
  split; [exact Hcolumn |]. split; [exact Hfuel |].
  exact (proj1 (string_token_is_raw_text 5 at_literal "" escaped_text ""
                  eq_refl escaped_text_raw Hcolumn Hfuel) eq_refl).
Defined.

(** ** Printing a string literal, from the source text to the output *)

Section PrintedLiteral.
Context {H : Host}.
Import Lexer Parser.

(** The text [use System.Output.Print "..."] for the text of a string
    literal. *)
Definition print_statement (body : string) : string :=
  "use System.Output.Print " +:+ String quote (body +:+ String quote "").

Section Tokens.
Variable body : string.
Hypothesis Hbody : raw_body body.
Hypothesis Hlength : Z.of_nat (String.length body) + 27 <= INT_MAX.

Let code : string := print_statement body.
Let behind_literal : Lexer := moved (String.length body + 2) (mkLexer code 24 1 25).

Lemma token_use (fuel : nat) :
  (25 <= fuel)%nat ->
  getNextToken fuel (Lexer.new code)
  = Some (Ok (mkToken TOKEN_KEYWORD "use" 1 4, mkLexer code 3 1 4)).
Proof.
  intros Hfuel. do 25 (destruct fuel as [| fuel]; [lia |]). clear Hfuel.
  vm_compute. reflexivity.
Qed.

Lemma token_name (fuel : nat) :
  (25 <= fuel)%nat ->
  getNextToken fuel (mkLexer code 3 1 4)
  = Some (Ok (mkToken TOKEN_IDENTIFIER "System.Output.Print" 1 24, mkLexer code 23 1 24)).
Proof.
  intros Hfuel. do 25 (destruct fuel as [| fuel]; [lia |]). clear Hfuel.
  vm_compute. reflexivity.
Qed.

Lemma token_literal (fuel : nat) :
  (String.length body + 5 <= fuel)%nat ->
  getNextToken fuel (mkLexer code 23 1 24)
  = Some (Ok (mkToken TOKEN_STRING body 1 (Z.of_nat (String.length body) + 27),
              behind_literal)).
Proof.
  intros Hfuel. do 5 (destruct fuel as [| fuel]; [lia |]).
  assert (Hskip : getNextToken (S (S (S (S (S fuel))))) (mkLexer code 23 1 24)
                  = getNextToken (S (S (S (S fuel)))) (mkLexer code 24 1 25)).
  { reflexivity. }
  rewrite Hskip.
  assert (Hroom : column (mkLexer code 24 1 25) + Z.of_nat (String.length body) + 2
                  <= INT_MAX) by (cbn [column]; lia).
  assert (Hleft : (String.length body < S (S (S fuel)))%nat) by lia.
  rewrite (string_token_closed (S (S (S fuel))) (mkLexer code 24 1 25)
             "use System.Output.Print " body "" eq_refl Hbody Hroom Hleft eq_refl).
  cbn [line column]. do 4 f_equal. lia.
Qed.

Lemma token_end (fuel : nat) :
  (1 <= fuel)%nat ->
  getNextToken fuel behind_literal
  = Some (Ok (mkToken TOKEN_EOF "" 1 (Z.of_nat (String.length body) + 27), behind_literal)).
Proof.
  intros Hfuel. destruct fuel as [| fuel]; [lia |]. cbn [getNextToken].
  rewrite bind_get.
  assert (Hend : isAtEnd behind_literal = true).
  { apply isAtEnd_true. unfold behind_literal, moved, code, print_statement.
    cbn [input position]. rewrite length_append. cbn [String.length].
    rewrite length_append. cbn [String.length]. lia. }
  rewrite Hend. unfold token. rewrite bind_get. unfold mret, step_mret, step_ret.
  unfold behind_literal, moved. cbn [line column]. do 4 f_equal. lia.
Qed.

(** The tree of the statement. *)
Definition print_tree : ASTNode :=
  mkNode NODE_PROGRAM ""
    [mkNode NODE_STATEMENT "use"
       [mkNode NODE_CALL "System.Output.Print" [mkNode NODE_STRING_LITERAL body []]]].

Lemma parse_print_statement (fuel : nat) :
  (String.length body + 30 <= fuel)%nat ->
  Toolchain.parse (S (S fuel)) code = Some (Ok print_tree).
Proof.
  intros Hfuel. unfold Toolchain.parse, Parser.new.
  rewrite (token_use (S (S fuel))) by lia.
  set (p1 := mkParser (mkLexer code 3 1 4) (mkToken TOKEN_KEYWORD "use" 1 4)).
  set (p2 := mkParser (mkLexer code 23 1 24)
                      (mkToken TOKEN_IDENTIFIER "System.Output.Print" 1 24)).
  set (p3 := mkParser behind_literal
                      (mkToken TOKEN_STRING body 1 (Z.of_nat (String.length body) + 27))).
  set (p4 := mkParser behind_literal
                      (mkToken TOKEN_EOF "" 1 (Z.of_nat (String.length body) + 27))).
  assert (Hkeyword : eat fuel TOKEN_KEYWORD p1 = Some (Ok (tt, p2))).
  { unfold eat. rewrite bind_current. cbn. unfold next. cbn [lexer p1].
    now rewrite token_name by lia. }
  assert (Hname : eat fuel TOKEN_IDENTIFIER p2 = Some (Ok (tt, p3))).
  { unfold eat. rewrite bind_current. cbn. unfold next. cbn [lexer p2].
    now rewrite token_literal by lia. }
  assert (Hliteral : eat fuel TOKEN_STRING p3 = Some (Ok (tt, p4))).
  { unfold eat. rewrite bind_current. cbn. unfold next. cbn [lexer p3].
    now rewrite token_end by lia. }
  assert (Hexpression : expression fuel p3
                        = Some (Ok (mkNode NODE_STRING_LITERAL body [], p4))).
  { unfold expression. rewrite bind_current.
    change (has_type TOKEN_STRING (currentToken p3)) with true. cbv iota.
    now rewrite (bind_ok _ _ _ _ _ Hliteral). }
  assert (Hcall : call fuel p2
                  = Some (Ok (mkNode NODE_CALL "System.Output.Print"
                                     [mkNode NODE_STRING_LITERAL body []], p4))).
  { unfold call. rewrite bind_current.
    change (has_type TOKEN_IDENTIFIER (currentToken p2)) with true. cbv iota.
    assert (Hvalue : (eat fuel TOKEN_IDENTIFIER;; mret (token_value (currentToken p2))) p2
                     = Some (Ok ("System.Output.Print", p3))).
    { now rewrite (bind_ok _ _ _ _ _ Hname). }
    rewrite (bind_ok _ _ _ _ _ Hvalue), bind_current.
    change (has_type TOKEN_EOF (currentToken p3)) with false.
    change (has_type TOKEN_KEYWORD (currentToken p3)) with false.
    change (is_token TOKEN_PUNCTUATION "}" (currentToken p3)) with false.
    cbn [negb andb]. now rewrite (bind_ok _ _ _ _ _ Hexpression). }
  assert (Hstatement : statement (S fuel) p1
                       = Some (Ok (mkNode NODE_STATEMENT "use"
                                     [mkNode NODE_CALL "System.Output.Print"
                                        [mkNode NODE_STRING_LITERAL body []]], p4))).
  { cbn [statement]. rewrite bind_current.
    change (is_token TOKEN_KEYWORD "if" (currentToken p1)) with false.
    change (is_token TOKEN_KEYWORD "while" (currentToken p1)) with false.
    change (is_token TOKEN_KEYWORD "for" (currentToken p1)) with false.
    change (is_token TOKEN_KEYWORD "break" (currentToken p1)) with false.
    change (is_token TOKEN_KEYWORD "continue" (currentToken p1)) with false.
    change (has_type TOKEN_KEYWORD (currentToken p1)) with true.
    change (token_value (currentToken p1)) with "use".
    cbv iota zeta. rewrite (bind_ok _ _ _ _ _ Hkeyword).
    change (String.eqb "use" "use") with true. cbv iota.
    now rewrite (bind_ok _ _ _ _ _ Hcall). }
  unfold Parser.parse, program. cbn [program_loop]. rewrite bind_current.
  change (has_type TOKEN_EOF (currentToken p1)) with false.
  change (has_type TOKEN_DIRECTIVE (currentToken p1)) with false.
  cbn [negb]. rewrite (bind_ok _ _ _ _ _ Hstatement).
  cbn [program_loop app]. rewrite bind_current.
  change (has_type TOKEN_EOF (currentToken p4)) with true. reflexivity.
Qed.

End Tokens.

(** X30. A string literal is printed as it is written: for every text
    of a string literal (escapes included, which are not decoded),
    [execute] of the source text [use System.Output.Print "..."] ends
    normally, has appended the text and a newline to standard output and
    has changed nothing else. *)
Theorem printed_string_literal (body : string) (st : Interpreter) :
  raw_body body ->
  Z.of_nat (String.length body) + 27 <= INT_MAX ->
  exists fuel,
    Toolchain.execute fuel (print_statement body) st
    = Some (Ok (mkInterpreter (i_variables st) (print endl (print body (i_console st))))).
Proof.
  intros Hbody Hlength. exists (S (S (S (String.length body + 30)))).
  unfold Toolchain.execute.
  rewrite (parse_print_statement body Hbody Hlength (S (String.length body + 30)))
    by lia.
  unfold print_tree. cbn [TreeWalker.interpret TreeWalker.interpretAll].
  change (String.eqb "use" "use") with true. cbv iota.
  cbn [TreeWalker.evaluateArguments TreeWalker.evaluateExpression mbind outcome_bind
       TreeWalker.lift TreeWalker.andThen toString].
  change (initBaselib !! "System.Output.Print") with (Some output_print).
  reflexivity.
Qed.

End PrintedLiteral.

Lemma printed_string_literal_witness :
  raw_body "hi" /\
  Z.of_nat (String.length "hi") + 27 <= INT_MAX /\
  exists fuel,
    Toolchain.execute fuel (print_statement "hi") (TreeWalker.start Binary64.quiet)
    = Some (Ok (mkInterpreter ∅ (mkConsole ("hi" +:+ endl) "" Binary64.quiet))).
Proof.
  assert (Hraw : raw_body "hi").
  { apply raw_plain; [discriminate | discriminate |].
    apply raw_plain; [discriminate | discriminate |]. apply raw_empty. }
  assert (Hlength : Z.of_nat (String.length "hi") + 27 <= INT_MAX) by discriminate.
  split; [exact Hraw |]. split; [exact Hlength |].
  exact (printed_string_literal (H := Binary64.host) "hi" (TreeWalker.start Binary64.quiet)
           Hraw Hlength).
Defined.

(** ** Scenario A, from the source text to the run *)

Section ScenarioA.
Import Parser.





End ScenarioA.



